(* ===== verification/_CoqProject ===== *)
-Q . S2P
Prelude.v
JsString.v
RegExp.v
ImageFilter.v
ArraySort.v
V8Sort.v
Merge.v
V8Gallop.v
V8MergeLow.v
V8MergeHigh.v
V8TimSort.v
V8RunStack.v
Collation.v
Json.v
Fs.v
ImagesPlugin.v
V8Plugin.v
ViteHost.v
SiteConfig.v
DevServer.v
Theme.v
EsModules.v
