(* ===== verification/Prelude.v ===== *)
(** * A verification development for the VitePress site layer of this repository

    ** The program

    The repository configures a VitePress documentation site
    ([src/docs/.vitepress]). It has two parts.

    - [config.mts] declares the site (title, description, navigation,
      sidebar, social links) and registers one Vite plugin,
      [virtualImagesPlugin]. That plugin serves a virtual module: its
      [resolveId] hook claims ["virtual:images"] and renames it
      ["\0virtual:images"]; its [load] hook answers for the renamed
      identifier with the text [export default [...]], the URLs
      [/images/<name>] of the regular files of [../public/images] whose
      name matches [/\.(png|jpe?g|gif|webp|avif|svg)$/i], sorted with
      [localeCompare]; if the directory cannot be read, the list is empty.
    - [theme/index.ts] extends VitePress's default theme, registers the
      Swiper carousel's two Vue components in [enhanceApp], renders the
      default layout, and carries a [markdown.image.lazyLoading] key.

    Vite calls the plugin's hooks (plugin container), Node provides the
    file system, [path.resolve], [JSON.stringify], [RegExp] and
    [Array.prototype.sort], ICU provides [localeCompare], and VitePress
    resolves the theme. The development models each of these at the
    level the program depends on them.

    ** Files, in dependency order

    - [Prelude]: JavaScript strings as lists of UTF-16 code units
      ([jsstr]), the [orelse] combinator [||>] (first present result),
      the tactics [case_unit_tests] and [solve_unit_arith], the hint
      databases [jsdb] and [jsrw], and list lemmas the components share.
    - [JsString]: ASCII case mapping, ECMAScript [Canonicalize] for a
      [/.../i] pattern (class [UnicodeUpper]: the Unicode upper-case
      table, fixed only on ASCII), and the URL template [image_url]
      (config.mts line 31).
    - [RegExp]: the ECMAScript backtracking matcher [m] (continuation
      passing, as in the specification's section 22.2.2) for characters,
      sequences, alternatives, greedy [?], groups and [$], and
      [RegExp.prototype.test] as the [exec_from] loop over start indices.
    - [ImageFilter]: the pattern of line 24 as a [regex] ([image_re]),
      the filter callback [image_test], and the specification's
      allow-list [has_image_ext].
    - [ArraySort]: [Array.prototype.sort] with a comparator: the stable
      insertion sort [sort_by], the ECMAScript contract [SortSpec], the
      class [Consistent] of consistent comparators, and comparator
      combinators.
    - [V8Sort]: the sort V8 runs for line 25: [ComputeMinRunLength]
      ([compute_min_run]), [CountAndMakeRun] ([count_and_make_run],
      with [run_loop] and [reverse_range]) and [BinaryInsertionSort]
      ([binary_insertion_sort], with the search [bin_search], the slide
      [slide] and the loop [bis_loop]) on the work array, composed as
      the first pass of [ArrayTimSortImpl] ([timsort_first_run]).
    - [Merge]: the stable merge [merge] of two runs, the reference
      V8's merges implement, and [span_len], the length of the prefix
      of a run that passes a test, which is what a gallop computes.
    - [V8Gallop]: 32-bit Smi arithmetic ([smi_max], [smi_wrap]), reads
      and writes of the work array ([rd], [wr]), [Copy] between two
      arrays ([copy]) and within one ([copy_within], aliasing
      included), [GallopLeft] and [GallopRight] ([gallop_left],
      [gallop_right] over the shared [gallop]: the probing loop
      [gallop_probe] with its overflow guard, then [gallop_bin]), and
      the exits of a Torque loop ([flow], [loop]).
    - [V8MergeLow], [V8MergeHigh]: [MergeLow] and [MergeHigh]: their
      locals as records ([low_st], [high_st]), the one-at-a-time loop
      body ([low_one], [high_one]), the galloping loop body
      ([low_gallop_round], [high_gallop_round]), the outer loop
      ([low_round], [high_round]), and the labels [Succeed], [CopyA]
      and [CopyB] after it ([merge_low], [merge_high]).
    - [V8TimSort]: the sort state ([sort_st]: work array, pending runs,
      [minGallop]), [MergeAt] ([merge_at]), [MergeCollapse],
      [MergeForceCollapse] and the loop of [ArrayTimSortImpl]
      ([timsort_loop], [timsort]), with TimSort's invariant on the run
      lengths ([run_stack_inv], read from the top of the stack).
    - [V8RunStack]: the capacity [kMaxMergePending] of the pending-runs
      array and the Fibonacci-like lower bound [run_min] on the lengths
      of a stack that satisfies the invariant.
    - [Collation]: the interface [LocaleCompare] of
      [String.prototype.localeCompare], and the instance [root_locale]
      (the Unicode root collation on ASCII) for concrete runs.
    - [Json]: [JSON.stringify] of an array of strings ([quote_units],
      [quote_json], [json_stringify_strings]) and [JSON.parse] for
      such arrays ([json_parse_strings]).
    - [Fs]: the file system as a [gmap] from paths to inodes,
      [readdirSync] with [withFileTypes] (symbolic links followed in
      the path, ENOENT / ENOTDIR / EACCES / ELOOP), [Dirent.isFile], and
      [path.posix.resolve] ([path_resolve]).
    - [ImagesPlugin]: config.mts lines 6-35: [VIRTUAL_ID],
      [RESOLVED_VIRTUAL_ID], [resolveId], [load] (with [list_files] for
      the try/catch of lines 18-28 and [image_files] for the chain of
      lines 21-25), the plugin object [virtualImagesPlugin], the
      specification's contract [manifest_spec], and concrete sites.
    - [V8Plugin]: lines 15-33 with V8's TimSort running the sort of
      line 25 ([image_files_v8], [list_files_v8], [load_v8]).
    - [ViteHost]: Vite's plugin container ([resolve_hooks], [load_hooks],
      [import_source]) and the convention [VirtualRespecting] other
      plugins follow for ["\0"] identifiers: the interface against
      which the plugin's service is proved.
    - [SiteConfig]: config.mts lines 37-66 ([site_config]), VitePress's
      reading of [base], the site's plugin list,
      and the client helper [withBase].
    - [DevServer]: Vite's dev server as a state machine: the module
      cache ([server]), [transform_request], the watcher's create and
      remove events ([on_create], [on_remove], over [Fs.fs_create] and
      [Fs.fs_remove]), one step ([dev_step]), runs ([dev_run]) and
      reachability ([reaches]).
    - [Theme]: theme/index.ts ([custom_theme], [enhanceApp], [Layout]),
      Vue's [app.component] registry and VitePress's resolution of
      [extends] ([resolve_theme]).
    - [EsModules]: the import declarations of both files
      ([config_imports], [theme_imports]) and the names they bind, and
      the stylesheets the theme imports, in document order
      ([theme_document]), under the CSS cascade ([cascade]).

    ** What is proved

    - Refinement: the module [load] generates decodes to a list that
      meets the specification's contract (C1, [load_refines]); the
      contract of [Array.prototype.sort] determines its result, so the
      insertion sort is what every conforming engine computes (C6).
    - Functional behaviour of the plugin: which names are listed (C2;
      a symbolic link to an image file is not, since [Dirent.isFile]
      reports the link), failure of the directory read gives the empty
      list (C4), the order in which the OS lists the directory does not
      matter when [localeCompare] tells the names apart (C5), only the
      resolved identifier is loaded (C9), entries that are not image
      files do not matter (C10), [resolveId] (C11), the directory is the
      [public/images] beside the configuration (C17); a new image file
      is listed by the next load (C18) and any other new entry changes
      nothing (C19); no URL is listed twice and there are at most as
      many URLs as entries (C20).
    - The filter: the regular expression equals the case-insensitive
      allow-list (C3) and ignores ASCII case (C14); the matcher's exec
      loop returns the leftmost match, its [length + 1] rounds reaching
      every start index (C15); behind these, [matcher_words]
      characterises the backtracking matcher by the words a [$]-free
      pattern denotes.
    - Serialisation: decoding [JSON.stringify]'s output of the URLs gives
      them back, lone surrogates and escapes included (C8), and the
      quoted text has no raw control character (C16).
    - Integration: the site's pages importing ["virtual:images"] get the
      plugin's module through Vite (C12); the theme registers the Swiper
      components (C13).
    - Consumers: under the root collation, names differing only in
      ASCII case are listed lower case first in either directory order
      (C21); with [base] unset, VitePress's [withBase] leaves every
      listed URL unchanged, while a base such as [/beauty/] would have
      to be prefixed (C22); the export has the type its consumers
      rely on, an array of [/images/<segment>] strings (C27).
    - V8's sort: the module Node.js generates, with V8's TimSort
      running line 25, is the module [load] describes (C23), so every
      theorem about [load] holds of the engine's output; after any
      number of rounds of [ArrayTimSortImpl]'s loop the pending runs
      satisfy TimSort's invariant, so at most 44 are pending and
      [PushRun] stays within the 85 entries of [pendingRuns] (C24);
      [ComputeMinRunLength] lies in [[32, 64]] from 64 elements on
      (C25); the binary insertion search needs [log2 w + 1] probes on a
      range of width [w] (C34). V8's whole TimSort equals [sort_by] on
      every array of at most [kSmiMaxValue] elements (C30): [MergeAt]
      replaces two adjacent sorted runs by the sort of their
      concatenation (C31), as do [MergeLow] and [MergeHigh] under
      [MergeAt]'s preconditions (C32); [GallopLeft] and [GallopRight]
      count the run's elements below, respectively not above, the key
      from any hint, with the Smi overflow guard (C33). The proofs go
      through a representation invariant per merge loop (the work array
      as the merged output, a hole, and the rest of both runs, proved by
      [loop_spec] with a decreasing measure) and, for the sort, the run
      stack as the sorted segments of a prefix of the input
      ([stack_ok]). The stack bound follows from [MergeCollapse] testing
      the invariant at both [n + 1] and [n]: the invariant below the top
      two runs survives every merge, and the tests cover the rest when
      the loop stops ([merge_collapse_inv]); a stack of [k] runs then
      holds at least [run_min (k - 1)] elements, and [run_min 44]
      exceeds [kSmiMaxValue].
    - The dev server: in every run, whatever the interleaving of
      requests and file events, every request for ["virtual:images"] is
      answered (C26). By induction on reachability the cache keeps the
      module once served ([reaches_keeps_virtual]); that this makes the
      running server stale is a consequence of the plugin declaring no
      watched file, which the model does not represent (see Not
      modelled), so no claim is made of it.
    - Modules: [./custom.css], imported before Swiper's stylesheets,
      loses every cascade tie against them (C28).
    - The link bound: a directory behind a chain of [k] symbolic links
      is read when [k <= 40] and fails with ELOOP beyond (C29).

    ** Bounds, fuel and parameters

    - [exec_from] runs with fuel [length input + 1], one round per start
      index; [exec_from_some] characterises the result at any fuel, and
      [length input + 1] rounds reach every index up to the end.
    - [walk] follows at most [max_symlinks] = 40 links (Linux's
      MAXSYMLINKS), after which the lookup fails with ELOOP, as the
      kernel's does; the segment walk itself is structural.
    - [json_parse_strings] runs [parse_more] with fuel the length of the
      text, more than the number of elements; the round trip is proved
      at that fuel.
    - The Unicode upper-case table ([UnicodeUpper]) and the collation
      ([LocaleCompare]) are parameters: every theorem holds for all of
      them, except the concrete runs, which use [ascii_only_upper] and
      [root_locale].
    - [bin_search] runs with fuel [start - low], the width it searches
      ([bin_search_first] needs only a width below [2 ^ fuel]);
      [run_loop] with [high - low - 2], one round per remaining element;
      [min_run_loop] with [n] rounds, more than the [log2 n] it takes.
    - V8's merges: [gallop_probe] and [gallop_bin] run with fuel the
      run's length (each round at least doubles the offset or halves
      the range); the merge loops with fuel [lengthA + lengthB], above
      the measure ([low_mu], [high_mu]: the elements left in both runs)
      once the first element has moved, and every round decreases it;
      [merge_collapse] and [merge_force_collapse] with fuel
      the stack's size, since each [MergeAt] pops one run; and
      [timsort_loop] with fuel the array's length, since every round
      consumes a run of at least one element. Indices are [Z] with the
      32-bit wrap of [(offset << 1) + 1] written out; the theorems
      assume at most [kSmiMaxValue] elements, as V8's arrays have.

    ** Not modelled

    What is left is not in the repository or is library code, so it
    cannot be modelled from the source. The rendering of pages and
    components: Vue, VitePress's default theme beyond its [Badge]
    registration and layout, and HomeSponsors.vue, which the theme
    imports but which is not in the repository. The contents of the
    stylesheets (custom.css is not in the repository, Swiper's are
    library code) and the parts of the cascade beyond specificity and
    order. The Markdown pages and VitePress's Markdown pipeline, which
    are outside src/. Vite's plugin container and dev server beyond the
    contract the plugin relies on ([ViteHost], [DevServer]); in
    particular the plugin context's [addWatchFile] and the
    [handleHotUpdate] hook, which the plugin does not use, so a plugin
    in the model cannot declare the files its module depends on.
    VitePress's reading of [markdown] options (the theme's
    [markdown.image.lazyLoading] key is kept as data only). Search
    permission on the directories of a path: [readdirSync] checks read
    permission on the directory it lists only. ICU's
    collation beyond printable ASCII: its tables are data of the host,
    and the theorems hold for every consistent [localeCompare]. Of V8's
    [Array.prototype.sort], the copy of the receiver into the work
    array and back and the handling of holes and [undefined], which an
    array of strings does not have; the stack bound is proved for
    consistent comparators, which [localeCompare] is. *)

From stdpp Require Export base list strings sorting.
From Stdlib Require Export NArith Ascii Lia.
From Stdlib Require String.

(** JavaScript strings are sequences of UTF-16 code units; a code unit
    is a natural number below [2^16]. *)
Abbreviation jsstr := (list N).

Declare Scope js_scope.
Delimit Scope js_scope with js.

(** [js "abc"]: the JavaScript string whose code units are the bytes of
    an ASCII Rocq string literal, used to write concrete inputs. *)
Definition js (s : string) : jsstr := map N_of_ascii (String.list_ascii_of_string s).

(** A code unit is well formed when it fits in 16 bits. *)
Definition unit_ok (c : N) : bool := (c <? 65536)%N.
Definition units_ok (s : jsstr) : bool := forallb unit_ok s.

(** [a ||> b]: the first of two results that is present, the way the
    regular-expression matcher tries alternatives and plugin hosts try
    hooks. *)
Definition orelse {A} (a b : option A) : option A :=
  match a with Some x => Some x | None => b end.
Notation "a ||> b" := (orelse a b) (at level 50, left associativity) : js_scope.
Open Scope js_scope.

(** JavaScript truthiness of a result that may be absent. *)
Definition opt_bool {A} (o : option A) : bool :=
  match o with Some _ => true | None => false end.

Create HintDb jsdb discriminated.
Create Rewrite HintDb jsrw.

Ltac invc H := inversion H; subst; clear H.

(** Case analysis on every boolean test on code units left in the goal. *)
Ltac case_unit_tests :=
  repeat match goal with
  | |- context [(?a <? ?b)%N] => destruct (N.ltb_spec a b)
  | |- context [(?a <=? ?b)%N] => destruct (N.leb_spec a b)
  | H : context [(?a <? ?b)%N] |- _ => destruct (N.ltb_spec a b)
  | H : context [(?a <=? ?b)%N] |- _ => destruct (N.leb_spec a b)
  | |- context [(?a =? ?b)%N] => destruct (N.eqb_spec a b)
  end.

(** Close an arithmetic goal on code units after that case analysis. *)
Ltac solve_unit_arith := case_unit_tests; cbn in *; lia.

(** ** Generic lemmas shared by the components *)

Lemma isSome_orelse {A} (a b : option A) :
  is_Some (a ||> b) <-> is_Some a \/ is_Some b.
Proof. destruct a; simpl; split; intros; eauto; destruct_or?; eauto; by invc H. Qed.

Lemma opt_bool_true {A} (o : option A) : opt_bool o = true <-> is_Some o.
Proof. destruct o; simpl; split; intros Ho; eauto; [discriminate | by destruct Ho]. Qed.

Lemma orelse_None_l {A} (b : option A) : (None ||> b) = b.
Proof. reflexivity. Qed.

Lemma existsb_members {A} (f : A -> bool) (l1 l2 : list A) :
  (forall x, In x l1 <-> In x l2) -> existsb f l1 = existsb f l2.
Proof.
  intros Hm. apply Bool.eq_iff_eq_true. rewrite !existsb_exists.
  split; intros (x & Hx & Hf); exists x; split; auto; apply Hm; auto.
Qed.

Lemma existsb_ext_in {A} (f g : A -> bool) (l : list A) :
  (forall x, In x l -> f x = g x) -> existsb f l = existsb g l.
Proof.
  induction l as [|a l IH]; intros Hfg; simpl; [done|].
  rewrite Hfg by (left; done). rewrite IH; auto. intros; apply Hfg; right; done.
Qed.

Lemma existsb_map {A B} (f : B -> bool) (g : A -> B) (l : list A) :
  existsb f (map g l) = existsb (fun x => f (g x)) l.
Proof. induction l as [|x l IH]; simpl; [done|]. by rewrite IH. Qed.

Lemma filter_cons_eq {A} (f : A -> bool) x (l : list A) :
  List.filter f (x :: l) = if f x then x :: List.filter f l else List.filter f l.
Proof. reflexivity. Qed.

Lemma filter_none {A} (f : A -> bool) (l : list A) :
  (forall x, In x l -> f x = false) -> List.filter f l = [].
Proof.
  induction l as [|x l IH]; intros Hf; simpl; [done|].
  rewrite Hf by (left; done). apply IH. intros; apply Hf; by right.
Qed.

Lemma filter_app_bool {A} (f : A -> bool) (l1 l2 : list A) :
  List.filter f (l1 ++ l2) = List.filter f l1 ++ List.filter f l2.
Proof. induction l1 as [|x l1 IH]; simpl; [done|]. rewrite IH. by destruct (f x). Qed.

Lemma Permutation_filter_bool {A} (f : A -> bool) (l1 l2 : list A) :
  l1 ≡ₚ l2 -> List.filter f l1 ≡ₚ List.filter f l2.
Proof.
  induction 1; simpl; try done.
  - destruct (f x); [by constructor | done].
  - destruct (f x), (f y); try done. constructor.
  - etrans; eassumption.
Qed.

Lemma map_as_fmap {A B} (f : A -> B) (l : list A) : map f l = f <$> l.
Proof. induction l as [|x l IH]; [done|]. cbn [map]. by rewrite IH. Qed.

Lemma NoDup_map_filter {A B} (f : A -> B) (g : A -> bool) (l : list A) :
  NoDup (map f l) -> NoDup (map f (List.filter g l)).
Proof.
  induction l as [|x l IH]; simpl; [done|]. intros Hnd. inversion Hnd as [|? ? Hx Hnd']; subst.
  destruct (g x); simpl; [|auto]. constructor; [|auto].
  intros (y & Hy & Hyl)%list_elem_of_In%in_map_iff. apply filter_In in Hyl as [Hyl _].
  apply Hx, list_elem_of_In. rewrite <- Hy. by apply in_map.
Qed.

Lemma NoDup_filter_bool {A} (g : A -> bool) (l : list A) : NoDup l -> NoDup (List.filter g l).
Proof. intros Hnd. rewrite <- (map_id (List.filter g l)). apply NoDup_map_filter. by rewrite map_id. Qed.

Lemma NoDup_map_inj {A B} (f : A -> B) (l : list A) :
  (forall x y, f x = f y -> x = y) -> NoDup l -> NoDup (map f l).
Proof.
  intros Hinj. induction 1 as [|x l Hx _ IH]; simpl; constructor; [|done].
  intros (y & Hy%Hinj & Hyl)%list_elem_of_In%in_map_iff. subst. by apply Hx, list_elem_of_In.
Qed.

Lemma StronglySorted_snoc {A} (R : A -> A -> Prop) l a :
  StronglySorted R l -> Forall (fun y => R y a) l -> StronglySorted R (l ++ [a]).
Proof.
  induction 1 as [|x l Hs IH Hx]; intros Ha; cbn; [by repeat constructor|].
  apply Forall_cons in Ha as [Hxa Ha]. constructor; [by apply IH|].
  apply Forall_app. split; [done | by constructor].
Qed.

Lemma StronglySorted_rev {A} (R : A -> A -> Prop) l :
  StronglySorted (fun x y => R y x) l -> StronglySorted R (rev l).
Proof.
  induction 1 as [|x l Hs IH Hx]; cbn; [constructor|].
  apply StronglySorted_snoc; [done|]. apply Forall_rev, Hx.
Qed.

Lemma Sorted_weaken {A} (R R' : A -> A -> Prop) l :
  (forall x y, R x y -> R' x y) -> Sorted R l -> Sorted R' l.
Proof.
  intros HR. induction 1 as [|x l Hs IH Hx]; constructor; [done|].
  destruct Hx; constructor. by apply HR.
Qed.

Lemma StronglySorted_weaken {A} (R R' : A -> A -> Prop) l :
  (forall x y, R x y -> R' x y) -> StronglySorted R l -> StronglySorted R' l.
Proof.
  intros HR. induction 1 as [|x l Hs IH Hx]; constructor; [done|].
  eapply Forall_impl; [exact Hx | exact (HR x)].
Qed.

(** In a strongly sorted list, an element is related to every later one. *)
Lemma StronglySorted_lookup {A} (R : A -> A -> Prop) l i j x y :
  StronglySorted R l -> i < j -> l !! i = Some x -> l !! j = Some y -> R x y.
Proof.
  intros Hs. revert i j. induction Hs as [|z l Hs IH Hz]; intros i j Hij Hi Hj; [done|].
  destruct i as [|i], j as [|j]; cbn in Hi, Hj; try lia.
  - injection Hi as <-. by eapply Forall_lookup_1.
  - apply (IH i j); [lia | done | done].
Qed.

Lemma StronglySorted_app_r {A} (R : A -> A -> Prop) l1 l2 :
  StronglySorted R (l1 ++ l2) -> StronglySorted R l2.
Proof. induction l1 as [|x l1 IH]; [done|]. intros [Hs _]%StronglySorted_inv. by apply IH. Qed.

Lemma StronglySorted_app_l {A} (R : A -> A -> Prop) l1 l2 :
  StronglySorted R (l1 ++ l2) -> StronglySorted R l1.
Proof.
  induction l1 as [|x l1 IH]; [constructor|]. intros [Hs Hx]%StronglySorted_inv.
  constructor; [by apply IH|]. by apply Forall_app in Hx as [? _].
Qed.

Lemma units_ok_app (s t : jsstr) : units_ok (s ++ t) = units_ok s && units_ok t.
Proof. unfold units_ok. apply forallb_app. Qed.

Lemma js_units_ok (s : string) : units_ok (js s) = true.
Proof.
  unfold units_ok, js. apply forallb_forall. intros c Hc.
  apply in_map_iff in Hc as (a & <- & _).
  unfold unit_ok. apply N.ltb_lt. pose proof (N_ascii_bounded a). lia.
Qed.

#[export] Hint Rewrite @units_ok_app : jsrw.
#[export] Hint Resolve js_units_ok : jsdb.
