(* ===== verification/JsString.v ===== *)
(** * JavaScript strings as UTF-16 code units

    The character-level operations the plugin's code relies on: the
    case canonicalisation of a [/.../i] regular expression (ECMAScript
    [Canonicalize] without the [u] flag), the line terminators seen by
    [$], and the template literal that builds each URL
    ([`/images/${f}`], config.mts line 31). *)

From S2P Require Import Prelude.

(** ASCII upper-casing: [a]..[z] (97..122) to [A]..[Z]. *)
Definition ascii_upper (c : N) : N :=
  if ((97 <=? c) && (c <=? 122))%N then (c - 32)%N else c.

(** ASCII lower-casing: [A]..[Z] (65..90) to [a]..[z]. *)
Definition ascii_lower (c : N) : N :=
  if ((65 <=? c) && (c <=? 90))%N then (c + 32)%N else c.

Definition is_line_terminator (c : N) : bool :=
  (c =? 10)%N || (c =? 13)%N || (c =? 0x2028)%N || (c =? 0x2029)%N.

(** [to_upper] is Unicode's full upper-case mapping of one code unit (a
    string, since it may expand). Within ASCII it is [ascii_upper]; the
    rest of the table is left as a parameter of the development. *)
Class UnicodeUpper := {
  to_upper : N -> jsstr;
  to_upper_ascii : forall c, (c < 128)%N -> to_upper c = [ascii_upper c]
}.

(** ECMAScript 22.2.2.7.3 Canonicalize(rer, ch) for a pattern without the
    [u]/[v] flags: the single code unit of the upper-case mapping, unless
    the mapping expands, or maps a non-ASCII unit into ASCII. *)
Definition canonicalize `{UnicodeUpper} (ignoreCase : bool) (ch : N) : N :=
  if ignoreCase then
    match to_upper ch with
    | [cu] => if ((128 <=? ch) && (cu <? 128))%N then ch else cu
    | _ => ch
    end
  else ch.

(** The upper-case mapping used by the concrete runs: ASCII per Unicode,
    every other unit mapped to itself (no claim is made about it beyond
    ASCII; the theorems are proved for every [UnicodeUpper]). *)
#[export] Instance ascii_only_upper : UnicodeUpper :=
  {| to_upper c := [ascii_upper c]; to_upper_ascii _ _ := eq_refl |}.

Definition images_prefix : jsstr := js "/images/".

(** [`/images/${f}`] *)
Definition image_url (f : jsstr) : jsstr := images_prefix ++ f.

(** ** Lemmas *)

Lemma ascii_upper_lt128 c : (c < 128)%N -> (ascii_upper c < 128)%N.
Proof. unfold ascii_upper. solve_unit_arith. Qed.

(** A non-ASCII unit never canonicalises into ASCII. *)
Lemma canonicalize_ge128 `{UnicodeUpper} ic ch :
  (128 <= ch)%N -> (128 <= canonicalize ic ch)%N.
Proof.
  intros Hch. unfold canonicalize. destruct ic; [|done].
  destruct (to_upper ch) as [|cu [|]]; try done.
  case_unit_tests; simpl; lia.
Qed.

Lemma canonicalize_lt128 `{UnicodeUpper} ic ch :
  (ch < 128)%N -> canonicalize ic ch = if ic then ascii_upper ch else ch.
Proof.
  intros Hch. unfold canonicalize. destruct ic; [|done].
  rewrite to_upper_ascii by done. case_unit_tests; simpl; lia || done.
Qed.

(** Case-insensitive comparison of an input unit with an ASCII pattern
    unit depends only on ASCII: the unit must itself be ASCII. *)
Lemma canonicalize_eq_ascii `{UnicodeUpper} ch p :
  (p < 128)%N ->
  (canonicalize true ch =? canonicalize true p)%N =
  ((ch <? 128) && (ascii_upper ch =? ascii_upper p))%N.
Proof.
  intros Hp. rewrite (canonicalize_lt128 true p) by done.
  destruct (N.ltb_spec ch 128) as [Hc|Hc].
  - by rewrite canonicalize_lt128.
  - apply N.eqb_neq. pose proof (canonicalize_ge128 true ch Hc).
    pose proof (ascii_upper_lt128 p Hp). lia.
Qed.

Lemma ascii_lower_upper c : ascii_lower (ascii_upper c) = ascii_lower c.
Proof. unfold ascii_lower, ascii_upper. solve_unit_arith. Qed.

Lemma ascii_lower_lower c : ascii_lower (ascii_lower c) = ascii_lower c.
Proof. unfold ascii_lower. solve_unit_arith. Qed.

(** A pattern unit that is [.] or a lower-case ASCII letter matches,
    ignoring case, exactly the units whose lower-case form it is. *)
Definition lower_or_dot (p : N) : Prop := p = 46%N \/ (97 <= p <= 122)%N.

Definition lower_or_dotb (p : N) : bool :=
  (p =? 46)%N || ((97 <=? p) && (p <=? 122))%N.

Lemma lower_or_dotb_forall (w : jsstr) :
  forallb lower_or_dotb w = true -> Forall lower_or_dot w.
Proof.
  intros Hw. apply Forall_forall. intros p Hp%list_elem_of_In.
  eapply forallb_forall in Hw; [|done]. unfold lower_or_dotb, lower_or_dot in *.
  revert Hw. solve_unit_arith.
Qed.

Lemma canonicalize_eq_lower `{UnicodeUpper} ch p :
  lower_or_dot p ->
  (canonicalize true ch =? canonicalize true p)%N = (ascii_lower ch =? p)%N.
Proof.
  intros Hp. rewrite canonicalize_eq_ascii by (destruct Hp; lia).
  unfold lower_or_dot, ascii_lower, ascii_upper in *. solve_unit_arith.
Qed.

#[export] Hint Rewrite ascii_lower_upper ascii_lower_lower : jsrw.
#[export] Hint Resolve ascii_upper_lt128 canonicalize_ge128 : jsdb.
