(* ===== verification/RegExp.v ===== *)
(** * The ECMAScript regular-expression matcher, for the constructs the
    plugin's pattern uses

    The pattern [/\.(png|jpe?g|gif|webp|avif|svg)$/i] (config.mts line
    24) is run by the JavaScript engine; its meaning is the ECMAScript
    specification's backtracking matcher (section 22.2.2), which this file
    transcribes for literal characters, sequences, alternatives, the
    greedy [?] quantifier, capturing groups and the [$] assertion.
    [RegExp.prototype.test] is the [RegExpBuiltinExec] loop that retries
    the match at every start index.

    The main theorem, [matcher_words], characterises the backtracking
    matcher on a pattern without [$] by the finite set of words it
    denotes: it succeeds exactly when some word matches at the current
    index and the continuation accepts the index after it. *)

From S2P Require Import Prelude JsString.

Inductive regex :=
| REmpty                  (* empty Alternative *)
| RChar (c : N)           (* PatternCharacter, or an IdentityEscape such as \. *)
| RSeq (r1 r2 : regex)    (* Alternative :: Alternative Term *)
| RAlt (r1 r2 : regex)    (* Disjunction :: Alternative | Disjunction *)
| ROpt (r : regex)        (* Term :: Atom ? (greedy) *)
| RGroup (r : regex)      (* Atom :: ( Disjunction ) *)
| REnd.                   (* Assertion :: $ *)

Record flags := { ignoreCase : bool; multiline : bool }.

(** The flags of a [/.../i] literal. *)
Definition flags_i : flags := {| ignoreCase := true; multiline := false |}.

Section Matcher.
Context `{UnicodeUpper}.
Variable fl : flags.
Variable input : jsstr.

(** CharacterSetMatcher for a one-character set. *)
Definition char_matches (p ch : N) : bool :=
  (canonicalize (ignoreCase fl) ch =? canonicalize (ignoreCase fl) p)%N.

(** [m r e k]: the Matcher of [r] run from end index [e] with
    continuation [k]; the result is the final end index, or failure. *)
Fixpoint m (r : regex) (e : nat) (k : nat -> option nat) {struct r} : option nat :=
  match r with
  | REmpty => k e
  | RChar p =>
      match input !! e with
      | Some ch => if char_matches p ch then k (S e) else None
      | None => None
      end
  | RSeq r1 r2 => m r1 e (fun e1 => m r2 e1 k)
  | RAlt r1 r2 => m r1 e k ||> m r2 e k
  | ROpt r1 =>
      (* RepeatMatcher(m, 0, 1, greedy): an iteration that consumes
         nothing fails; then the zero-iteration case. *)
      m r1 e (fun e1 => if Nat.eqb e1 e then None else k e1) ||> k e
  | RGroup r1 => m r1 e k
  | REnd =>
      if Nat.eqb e (length input)
         || (multiline fl && match input !! e with
                             | Some c => is_line_terminator c
                             | None => false end)
      then k e else None
  end.

(** RegExpBuiltinExec without the [g]/[y] flags: [lastIndex] starts at
    0, and each failed attempt advances it by one until it passes the
    end of the input. The result is the (start, end) of the match. *)
Fixpoint exec_from (r : regex) (lastIndex fuel : nat) : option (nat * nat) :=
  match fuel with
  | O => None
  | S fuel' =>
      if Nat.ltb (length input) lastIndex then None
      else match m r lastIndex Some with
           | Some e => Some (lastIndex, e)
           | None => exec_from r (S lastIndex) fuel'
           end
  end.

Definition regexp_exec (r : regex) : option (nat * nat) :=
  exec_from r 0 (S (length input)).

(** RegExp.prototype.test *)
Definition regexp_test (r : regex) : bool := opt_bool (regexp_exec r).

(** ** The words a [$]-free pattern denotes *)

Fixpoint end_free (r : regex) : bool :=
  match r with
  | REmpty | RChar _ => true
  | RSeq r1 r2 | RAlt r1 r2 => end_free r1 && end_free r2
  | ROpt r1 | RGroup r1 => end_free r1
  | REnd => false
  end.

(** [match_at w e]: the pattern word [w] matches the input at [e]. *)
Fixpoint match_at (w : jsstr) (e : nat) : bool :=
  match w with
  | [] => true
  | p :: w' =>
      match input !! e with
      | Some ch => char_matches p ch && match_at w' (S e)
      | None => false
      end
  end.

(** [ends_with w]: the input ends with a match of [w]. *)
Definition ends_with (w : jsstr) : bool :=
  Nat.leb (length w) (length input) && match_at w (length input - length w).
End Matcher.

Fixpoint words (r : regex) : list jsstr :=
  match r with
  | REmpty => [[]]
  | RChar c => [[c]]
  | RSeq r1 r2 => flat_map (fun w1 => map (app w1) (words r2)) (words r1)
  | RAlt r1 r2 => words r1 ++ words r2
  | ROpt r1 => words r1 ++ [[]]
  | RGroup r1 => words r1
  | REnd => []
  end.

(** ** Lemmas *)

Section MatcherFacts.
Context `{UnicodeUpper} (fl : flags) (input : jsstr).

Lemma match_at_app w1 w2 e :
  match_at fl input (w1 ++ w2) e =
  match_at fl input w1 e && match_at fl input w2 (e + length w1).
Proof.
  revert e. induction w1 as [|p w1 IH]; intros e; simpl.
  - by rewrite Nat.add_0_r.
  - destruct (input !! e); [|done].
    rewrite IH, andb_assoc. by replace (e + S (length w1)) with (S e + length w1) by lia.
Qed.

Lemma in_words_seq w r1 r2 :
  In w (words (RSeq r1 r2)) <->
  exists w1 w2, w = w1 ++ w2 /\ In w1 (words r1) /\ In w2 (words r2).
Proof.
  simpl. rewrite in_flat_map. split.
  - intros (w1 & Hw1 & Hw). apply in_map_iff in Hw as (w2 & <- & Hw2). eauto.
  - intros (w1 & w2 & -> & Hw1 & Hw2). exists w1. split; [done|]. by apply in_map.
Qed.

(** The backtracking matcher of a [$]-free pattern succeeds exactly
    when some word of the pattern matches at [e] and the continuation
    accepts the index after that word. *)
Theorem matcher_words r : end_free r = true -> forall e k,
  is_Some (m fl input r e k) <->
  exists w, In w (words r) /\ match_at fl input w e = true /\ is_Some (k (e + length w)).
Proof.
  induction r as [| p | r1 IH1 r2 IH2 | r1 IH1 r2 IH2 | r1 IH1 | r1 IH1 |];
    simpl; intros Hef e k; try discriminate.
  - split; [intros Hk; exists []; rewrite Nat.add_0_r; naive_solver|].
    intros (w & [<-|[]] & _ & Hk). by rewrite Nat.add_0_r in Hk.
  - destruct (input !! e) as [ch|] eqn:E.
    + split.
      * intros Hk. exists [p]. simpl. rewrite E, Nat.add_1_r.
        destruct (char_matches fl p ch); [naive_solver | by destruct Hk].
      * intros (w & [<-|[]] & Hm & Hk). simpl in Hm. rewrite E in Hm.
        rewrite Nat.add_1_r in Hk. by destruct (char_matches fl p ch).
    + split; [by intros []|]. intros (w & [<-|[]] & Hm & _). simpl in Hm. by rewrite E in Hm.
  - apply andb_prop in Hef as [Hef1 Hef2].
    rewrite (IH1 Hef1). split.
    + intros (w1 & Hw1 & Hm1 & Hk1).
      apply (IH2 Hef2) in Hk1 as (w2 & Hw2 & Hm2 & Hk2).
      exists (w1 ++ w2). rewrite match_at_app, Hm1, Hm2, length_app, Nat.add_assoc.
      split; [apply (in_words_seq _ r1 r2); eauto | done].
    + intros (w & Hw & Hm & Hk). apply (in_words_seq w r1 r2) in Hw as (w1 & w2 & -> & Hw1 & Hw2).
      rewrite match_at_app in Hm. apply andb_prop in Hm as [Hm1 Hm2].
      rewrite length_app, Nat.add_assoc in Hk.
      exists w1. repeat split; [done|done|]. apply (IH2 Hef2). eauto.
  - apply andb_prop in Hef as [Hef1 Hef2].
    rewrite isSome_orelse, (IH1 Hef1), (IH2 Hef2).
    setoid_rewrite in_app_iff. firstorder.
  - rewrite isSome_orelse, (IH1 Hef). setoid_rewrite in_app_iff. split.
    + intros [(w & Hw & Hm & Hk)|Hk].
      * destruct (Nat.eqb_spec (e + length w) e); [by destruct Hk|]. eauto.
      * exists []. rewrite Nat.add_0_r. split; [right; by left | by split].
    + intros (w & [Hw|[<-|[]]] & Hm & Hk).
      * destruct (Nat.eqb_spec (e + length w) e) as [Heq|Hne].
        -- right. by rewrite Heq in Hk.
        -- left. exists w. rewrite (proj2 (Nat.eqb_neq _ _) Hne). by split_and!.
      * right. by rewrite Nat.add_0_r in Hk.
  - by apply IH1.
Qed.

(** The exec loop finds a match exactly when one exists at a start
    index it visits: [i], ..., up to the end of the input. *)
Lemma exec_from_spec r fuel i :
  is_Some (exec_from fl input r i fuel) <->
  exists j, i <= j <= length input /\ j < i + fuel /\ is_Some (m fl input r j Some).
Proof.
  revert i. induction fuel as [|fuel IH]; intros i; simpl.
  - split; [by intros []|]. intros (j & ? & ? & _). lia.
  - destruct (Nat.ltb_spec (length input) i).
    + split; [by intros []|]. intros (j & ? & _). lia.
    + destruct (m fl input r i Some) eqn:E.
      * split; [|done]. intros _. exists i. rewrite E. split_and!; eauto; lia.
      * rewrite IH. split.
        -- intros (j & ? & ? & ?). exists j. split_and!; auto; lia.
        -- intros (j & ? & ? & Hj). exists j.
           destruct (decide (j = i)) as [->|]; [by rewrite E in Hj|].
           split_and!; auto; lia.
Qed.

Lemma regexp_test_spec r :
  regexp_test fl input r = true <->
  exists j, j <= length input /\ is_Some (m fl input r j Some).
Proof.
  unfold regexp_test, regexp_exec. rewrite opt_bool_true, exec_from_spec.
  split.
  - intros (j & [? ?] & ? & ?). exists j. split; [lia|done].
  - intros (j & ? & ?). exists j. split_and!; [lia..|done].
Qed.

(** A pattern [r$] without the multiline flag tests true exactly when
    the input ends with one of the words of [r]. *)
Theorem regexp_test_anchored r :
  end_free r = true -> multiline fl = false ->
  regexp_test fl input (RSeq r REnd) = existsb (ends_with fl input) (words r).
Proof.
  intros Hef Hml. apply Bool.eq_iff_eq_true.
  rewrite regexp_test_spec, existsb_exists. simpl.
  setoid_rewrite (matcher_words r Hef). simpl. rewrite Hml. split.
  - intros (j & Hj & w & Hw & Hm & Hk). exists w. split; [done|].
    destruct (Nat.eqb_spec (j + length w) (length input)) as [Heq|]; [|by destruct Hk].
    unfold ends_with. apply andb_true_intro. split; [apply Nat.leb_le; lia|].
    by replace (length input - length w) with j by lia.
  - intros (w & Hw & Hend). apply andb_prop in Hend as [Hle Hm].
    apply Nat.leb_le in Hle.
    exists (length input - length w). split; [lia|]. exists w. split_and!; [done|done|].
    rewrite orb_false_r. by replace (length input - length w + length w) with (length input)
      by lia; rewrite Nat.eqb_refl.
Qed.

(** The exec loop started at [lastIndex = i] with [fuel] rounds
    returns the match at [j] exactly when [j] is the first start index
    from [i] on where the pattern matches, within the input and the
    rounds. *)
Lemma exec_from_some r fuel i j e :
  exec_from fl input r i fuel = Some (j, e) <->
  i <= j <= length input /\ j < i + fuel /\ m fl input r j Some = Some e /\
  (forall k, i <= k < j -> m fl input r k Some = None).
Proof.
  revert i. induction fuel as [|fuel IH]; intros i; simpl.
  - split; [discriminate | lia].
  - destruct (Nat.ltb_spec (length input) i); [split; [discriminate | lia]|].
    destruct (m fl input r i Some) as [e0|] eqn:E.
    + split.
      * intros [= <- <-]. split_and!; [lia..|done|]. intros k ?. lia.
      * intros (? & ? & Hm & Hb). destruct (decide (j = i)) as [->|].
        -- rewrite E in Hm. by simplify_eq.
        -- rewrite Hb in E by lia. discriminate.
    + rewrite IH. split.
      * intros (? & ? & ? & Hb). split_and!; [lia..|done|].
        intros k ?. destruct (decide (k = i)) as [->|]; [done | apply Hb; lia].
      * intros (? & ? & Hm & Hb). destruct (decide (j = i)) as [->|]; [by rewrite E in Hm|].
        split_and!; [lia..|done|]. intros k ?. apply Hb. lia.
Qed.

(** C15. [RegExp.prototype.exec] from [lastIndex = 0] returns the
    leftmost match: it answers [(j, e)] exactly when the pattern
    matches at [j] ending at [e], [j] is within the input, and the
    pattern matches at no earlier index. The loop's [length input + 1]
    rounds are enough to reach every start index. *)
Theorem regexp_exec_leftmost r j e :
  regexp_exec fl input r = Some (j, e) <->
  j <= length input /\ m fl input r j Some = Some e /\
  (forall i, i < j -> m fl input r i Some = None).
Proof.
  unfold regexp_exec. rewrite exec_from_some. split.
  - intros (? & ? & ? & Hb). split_and!; [lia|done|]. intros i ?. apply Hb. lia.
  - intros (? & ? & Hb). split_and!; [lia..|done|]. intros k ?. apply Hb. lia.
Qed.
End MatcherFacts.

(** ** Witnesses *)

Lemma regexp_exec_leftmost_witness :
  regexp_exec flags_i (js "ba") (RChar (N_of_ascii "a")) = Some (1, 2).
Proof.
  apply (proj2 (regexp_exec_leftmost _ _ _ 1 2)). split_and!; [simpl; lia | reflexivity |].
  intros i Hi. assert (i = 0) as -> by lia. reflexivity.
Defined.
