(* ===== verification/ImageFilter.v ===== *)
(** * The image-name filter of the plugin

    [.filter((name) => /\.(png|jpe?g|gif|webp|avif|svg)$/i.test(name))]
    (config.mts line 24). The pattern is written as the [regex] the
    ECMAScript grammar parses it into, and [image_test] is the filter's
    callback. The reference [has_image_ext] is the allow-list of the
    specification: the lower-cased name ends with a dot and one of
    png, jpg, jpeg, gif, webp, avif, svg. *)

From S2P Require Import Prelude JsString RegExp.

(** Alternative :: Alternative Term, from the empty Alternative. *)
Definition alternative (ts : list regex) : regex := fold_left RSeq ts REmpty.

(** The PatternCharacters of a literal piece of the pattern. *)
Definition pchars (s : string) : list regex := map RChar (js s).

(** [png|jpe?g|gif|webp|avif|svg]: Disjunction nests to the right. *)
Definition image_alts : regex :=
  RAlt (alternative (pchars "png"))
  (RAlt (alternative (pchars "jp" ++ [ROpt (RChar (N_of_ascii "e"))] ++ pchars "g"))
  (RAlt (alternative (pchars "gif"))
  (RAlt (alternative (pchars "webp"))
  (RAlt (alternative (pchars "avif"))
        (alternative (pchars "svg")))))).

(** [\.(png|jpe?g|gif|webp|avif|svg)$] *)
Definition image_re : regex :=
  alternative [RChar (N_of_ascii "."); RGroup image_alts; REnd].

Section Filter.
Context `{UnicodeUpper}.

(** [(name) => /\.(png|jpe?g|gif|webp|avif|svg)$/i.test(name)] *)
Definition image_test (name : jsstr) : bool := regexp_test flags_i name image_re.
End Filter.

(** ** The specification's allow-list *)

Definition image_exts : list string :=
  ["png"; "jpg"; "jpeg"; "gif"; "webp"; "avif"; "svg"].

Definition has_image_ext (name : jsstr) : bool :=
  existsb (fun ext => bool_decide ((js "." ++ js ext) `suffix_of` (ascii_lower <$> name)))
          image_exts.

(** ** Lemmas *)

Definition image_re_body : regex :=
  alternative [RChar (N_of_ascii "."); RGroup image_alts].

Lemma image_re_split : image_re = RSeq image_re_body REnd.
Proof. reflexivity. Qed.

(** The words of the pattern before [$], in the order the matcher tries
    them. *)
Lemma image_re_body_words :
  words image_re_body =
  [js ".png"; js ".jpeg"; js ".jpg"; js ".gif"; js ".webp"; js ".avif"; js ".svg"].
Proof. vm_compute. reflexivity. Qed.

Lemma suffix_as_drop (w s : jsstr) :
  w `suffix_of` s <-> length w <= length s /\ w `prefix_of` drop (length s - length w) s.
Proof.
  split.
  - intros [k ->]. rewrite length_app.
    replace (length k + length w - length w) with (length k) by lia.
    rewrite drop_app_length. split; [lia | done].
  - intros [Hle Hp]. exists (take (length s - length w) s).
    apply prefix_length_eq in Hp; [|rewrite length_drop; lia].
    rewrite Hp at 2. by rewrite take_drop.
Qed.

Section FilterFacts.
Context `{UnicodeUpper} (name : jsstr).

Lemma match_at_lower w : Forall lower_or_dot w -> forall e,
  match_at flags_i name w e = bool_decide (w `prefix_of` drop e (ascii_lower <$> name)).
Proof.
  induction w as [|p w IH]; intros Hw e; cbn [match_at].
  - symmetry. apply bool_decide_eq_true_2, prefix_nil.
  - apply Forall_cons in Hw as [Hp Hw].
    destruct (name !! e) as [ch|] eqn:E.
    + rewrite (drop_S _ (ascii_lower ch)) by (rewrite list_lookup_fmap, E; done).
      unfold char_matches; cbn [ignoreCase flags_i]. rewrite canonicalize_eq_lower by done.
      rewrite IH by done. apply Bool.eq_iff_eq_true.
      rewrite andb_true_iff, N.eqb_eq, !bool_decide_eq_true. split.
      * intros [-> ?]. by apply prefix_cons.
      * intros Hpre. split; [symmetry; by eapply prefix_cons_inv_1 | by eapply prefix_cons_inv_2].
    + rewrite drop_ge; [|rewrite length_fmap; by apply lookup_ge_None].
      symmetry. apply bool_decide_eq_false_2, prefix_nil_not.
Qed.

Lemma ends_with_lower w : Forall lower_or_dot w ->
  ends_with flags_i name w = bool_decide (w `suffix_of` (ascii_lower <$> name)).
Proof.
  intros Hw. unfold ends_with. rewrite match_at_lower by done.
  apply Bool.eq_iff_eq_true. rewrite andb_true_iff, Nat.leb_le, !bool_decide_eq_true.
  rewrite suffix_as_drop, length_fmap. done.
Qed.
End FilterFacts.

(** The regular expression, run by the ECMAScript backtracking matcher
    with the [i] flag, computes the allow-list test. *)
Lemma image_test_allowlist `{UnicodeUpper} (name : jsstr) :
  image_test name = has_image_ext name.
Proof.
  unfold image_test. rewrite image_re_split, regexp_test_anchored by reflexivity.
  rewrite image_re_body_words.
  rewrite (existsb_ext_in _ (fun w => bool_decide (w `suffix_of` (ascii_lower <$> name)))).
  2: { intros w Hw. apply ends_with_lower, lower_or_dotb_forall.
       repeat destruct Hw as [<-|Hw]; [vm_compute; reflexivity..|done]. }
  transitivity (existsb (fun w => bool_decide (w `suffix_of` (ascii_lower <$> name)))
                        (map (fun ext => js "." ++ js ext) image_exts)).
  - apply existsb_members. intros x. vm_compute. tauto.
  - unfold has_image_ext. by rewrite existsb_map.
Qed.

Lemma lower_after_map (f : N -> N) (name : jsstr) :
  (forall c, ascii_lower (f c) = ascii_lower c) ->
  ascii_lower <$> (f <$> name) = ascii_lower <$> name.
Proof. intros Hf. induction name as [|c name IH]; [done|]. by rewrite !fmap_cons, Hf, IH. Qed.

(** C3. The filter of config.mts line 24 accepts a file name exactly
    when, lower-cased, it ends with a dot followed by one of png, jpg,
    jpeg, gif, webp, avif or svg: the regular expression run by the
    ECMAScript matcher with the [i] flag is the specification's
    case-insensitive allow-list, whatever the Unicode upper-case table
    beyond ASCII. *)
Theorem image_test_iff_extension `{UnicodeUpper} (name : jsstr) :
  image_test name = true <->
  exists ext pre, In ext image_exts /\ ascii_lower <$> name = pre ++ js "." ++ js ext.
Proof.
  rewrite image_test_allowlist. unfold has_image_ext. rewrite existsb_exists.
  setoid_rewrite bool_decide_eq_true. split.
  - intros (ext & Hin & pre & Hpre). eauto.
  - intros (ext & pre & Hin & Hpre). exists ext. split; [done|]. by exists pre.
Qed.

(** C14. Changing the case of the ASCII letters of a name does not
    change whether the filter keeps it. *)
Theorem image_test_case_insensitive `{UnicodeUpper} (name : jsstr) :
  image_test (ascii_upper <$> name) = image_test name /\
  image_test (ascii_lower <$> name) = image_test name.
Proof.
  rewrite !image_test_allowlist. unfold has_image_ext.
  rewrite (lower_after_map ascii_upper), (lower_after_map ascii_lower) by
    (intros; autorewrite with jsrw; done).
  done.
Qed.
