(* ===== verification/ArraySort.v ===== *)
(** * [Array.prototype.sort] with a comparator

    [.sort((a, b) => a.localeCompare(b))] (config.mts line 25). ECMAScript
    (23.1.3.30, since ES2019) requires that, for a consistent comparator,
    the result be a permutation of the input, sorted by the comparator,
    and stable: elements the comparator calls equal keep their order.
    [sort_by] is a stable insertion sort meeting that contract, and
    [SortSpec] is the contract itself. The theorem [sort_spec_unique]
    shows that the contract determines the result, so [sort_by] is the
    output of every conforming engine, not one choice among several. *)

From S2P Require Import Prelude.

Section Sort.
Context {A : Type} (cmp : A -> A -> comparison).

(** Insert [x] after every element it does not compare below: an
    element already present that compares equal stays first. *)
Fixpoint sort_insert (x : A) (l : list A) : list A :=
  match l with
  | [] => [x]
  | y :: l' => match cmp x y with
               | Lt => x :: y :: l'
               | _ => y :: sort_insert x l'
               end
  end.

(** Elements are taken in array order. *)
Definition sort_by (l : list A) : list A :=
  fold_left (fun acc x => sort_insert x acc) l [].

(** [le x y]: SortCompare(x, y) is not positive. *)
Definition le (x y : A) : Prop := cmp x y <> Gt.

Definition equivb (z y : A) : bool :=
  match cmp z y with Eq => true | _ => false end.

(** The specification: a sorted, stable permutation. *)
Definition SortSpec (l out : list A) : Prop :=
  out ≡ₚ l /\ StronglySorted le out /\
  forall z, List.filter (equivb z) out = List.filter (equivb z) l.
End Sort.

(** A comparator is consistent (ECMAScript's "consistent comparator")
    when swapping its arguments negates the result and not-greater is
    transitive. *)
Class Consistent {A} (cmp : A -> A -> comparison) := {
  cmp_opp : forall a b, cmp b a = CompOpp (cmp a b);
  cmp_le_trans : forall a b c, cmp a b <> Gt -> cmp b c <> Gt -> cmp a c <> Gt
}.
Arguments cmp_opp {A} cmp {_} a b.
Arguments cmp_le_trans {A} cmp {_} a b c.

(** ** Building consistent comparators *)

(** Compare by [c1], and by [c2] among the elements [c1] calls equal. *)
Definition then_cmp {A} (c1 c2 : A -> A -> comparison) (a b : A) : comparison :=
  match c1 a b with Eq => c2 a b | r => r end.

(** Compare through a projection. *)
Definition on_cmp {A B} (f : A -> B) (c : B -> B -> comparison) (a b : A) : comparison :=
  c (f a) (f b).

(** Records sorted by their first component: the second component tells
    apart records the comparator calls equal. *)
Definition by_key : N * N -> N * N -> comparison := on_cmp fst N.compare.

Definition keyed : list (N * N) := [(1, 0); (0, 5); (1, 1); (0, 3)]%N.

(** ** Lemmas *)

Section SortFacts.
Context {A : Type} (cmp : A -> A -> comparison) `{!Consistent cmp}.

Lemma cmp_refl a : cmp a a = Eq.
Proof. pose proof (cmp_opp cmp a a) as H. destruct (cmp a a); simpl in *; congruence. Qed.

Lemma cmp_Gt_Lt a b : cmp a b = Gt <-> cmp b a = Lt.
Proof. rewrite (cmp_opp cmp a b). destruct (cmp a b); simpl; split; congruence. Qed.

Lemma cmp_Eq_sym a b : cmp a b = Eq -> cmp b a = Eq.
Proof. intros H. by rewrite (cmp_opp cmp a b), H. Qed.

Lemma not_Lt_le a b : cmp a b <> Lt -> le cmp b a.
Proof. unfold le. rewrite cmp_Gt_Lt. done. Qed.

Lemma le_both_Eq a b : le cmp a b -> le cmp b a -> cmp a b = Eq.
Proof. unfold le. rewrite (cmp_Gt_Lt b a). destruct (cmp a b); congruence. Qed.

Lemma Lt_le_Lt a b c : cmp a b = Lt -> le cmp b c -> cmp a c = Lt.
Proof.
  intros Hab Hbc. assert (Hac : le cmp a c) by (apply (cmp_le_trans cmp a b c); [congruence|done]).
  destruct (cmp a c) eqn:E; [|done|done].
  exfalso. apply (cmp_le_trans cmp b c a Hbc); [rewrite (cmp_Eq_sym a c E); discriminate|].
  by apply cmp_Gt_Lt.
Qed.

Lemma equivb_true z y : equivb cmp z y = true <-> cmp z y = Eq.
Proof. unfold equivb. destruct (cmp z y); split; congruence. Qed.

Lemma Eq_trans a b c : cmp a b = Eq -> cmp b c = Eq -> cmp a c = Eq.
Proof.
  intros Hab Hbc. pose proof (cmp_Eq_sym _ _ Hab). pose proof (cmp_Eq_sym _ _ Hbc).
  apply le_both_Eq; [apply (cmp_le_trans cmp a b c) | apply (cmp_le_trans cmp c b a)]; congruence.
Qed.

Lemma equivb_Eq z x y : cmp x y = Eq -> equivb cmp z x = equivb cmp z y.
Proof.
  intros Hxy. apply Bool.eq_iff_eq_true. rewrite !equivb_true.
  split; intros Hz; eapply Eq_trans; eauto using cmp_Eq_sym.
Qed.

Lemma insert_perm x l : sort_insert cmp x l ≡ₚ x :: l.
Proof.
  induction l as [|y l IH]; simpl; [done|].
  destruct (cmp x y); [| done |]; rewrite IH; apply perm_swap.
Qed.

Lemma sort_by_perm_acc l acc : fold_left (fun acc x => sort_insert cmp x acc) l acc ≡ₚ acc ++ l.
Proof.
  revert acc. induction l as [|x l IH]; intros acc; simpl; [by rewrite app_nil_r|].
  rewrite IH, insert_perm. simpl. apply Permutation_middle.
Qed.

Lemma sort_by_perm l : sort_by cmp l ≡ₚ l.
Proof. unfold sort_by. by rewrite sort_by_perm_acc. Qed.

Lemma insert_sorted x l : StronglySorted (le cmp) l -> StronglySorted (le cmp) (sort_insert cmp x l).
Proof.
  induction l as [|y l IH]; intros Hs; simpl.
  - repeat constructor.
  - apply StronglySorted_inv in Hs as [Hs Hy].
    destruct (cmp x y) eqn:E.
    1,3: constructor; [by apply IH|];
      eapply Permutation_Forall; [symmetry; apply insert_perm|];
      constructor; [apply not_Lt_le; congruence | done].
    constructor; [by constructor|]. constructor; [unfold le; congruence|].
    eapply Forall_impl; [exact Hy|]. intros w Hw. unfold le.
    rewrite (Lt_le_Lt x y w E Hw). discriminate.
Qed.

Lemma Eq_Lt_Lt a b c : cmp a b = Eq -> cmp b c = Lt -> cmp a c = Lt.
Proof.
  intros Hab Hbc. pose proof (cmp_Eq_sym _ _ Hab).
  destruct (cmp a c) eqn:E; [| done |].
  - exfalso. pose proof (Eq_trans b a c ltac:(done) E). congruence.
  - exfalso. apply cmp_Gt_Lt in E. pose proof (Lt_le_Lt c a b E ltac:(unfold le; congruence)).
    apply cmp_Gt_Lt in Hbc. congruence.
Qed.

Lemma insert_filter z x l : StronglySorted (le cmp) l ->
  List.filter (equivb cmp z) (sort_insert cmp x l) =
  List.filter (equivb cmp z) l ++ (if equivb cmp z x then [x] else []).
Proof.
  induction l as [|y l IH]; intros Hs; [done|].
  apply StronglySorted_inv in Hs as [Hs Hy].
  cbn [sort_insert]. destruct (cmp x y) eqn:E.
  1,3: rewrite !filter_cons_eq, IH by done; by destruct (equivb cmp z y).
  rewrite filter_cons_eq. destruct (equivb cmp z x) eqn:Ex; [|by rewrite app_nil_r].
  apply equivb_true in Ex.
  rewrite (filter_none _ (y :: l)); [done|].
  intros w Hw. apply not_true_iff_false. rewrite equivb_true.
  assert (cmp x w = Lt) as Hxw.
  { destruct Hw as [<-|Hw]; [done|]. apply (Lt_le_Lt x y w E).
    by eapply Forall_forall in Hy; [|apply list_elem_of_In]. }
  pose proof (Eq_Lt_Lt z x w Ex Hxw). congruence.
Qed.

Lemma sort_by_acc_spec l acc : StronglySorted (le cmp) acc ->
  StronglySorted (le cmp) (fold_left (fun acc x => sort_insert cmp x acc) l acc) /\
  forall z, List.filter (equivb cmp z) (fold_left (fun acc x => sort_insert cmp x acc) l acc) =
            List.filter (equivb cmp z) acc ++ List.filter (equivb cmp z) l.
Proof.
  revert acc. induction l as [|x l IH]; intros acc Hs; simpl.
  - split; [done|]. intros z. by rewrite app_nil_r.
  - destruct (IH (sort_insert cmp x acc)) as [IHs IHf]; [by apply insert_sorted|].
    split; [done|]. intros z. rewrite IHf, insert_filter by done.
    rewrite <- app_assoc. by destruct (equivb cmp z x).
Qed.

(** [sort_by] meets the ECMAScript contract of [Array.prototype.sort]. *)
Lemma sort_by_spec l : SortSpec cmp l (sort_by cmp l).
Proof.
  destruct (sort_by_acc_spec l [] ltac:(constructor)) as [Hs Hf].
  split_and!; [| done | done].
  unfold sort_by. by rewrite sort_by_perm_acc.
Qed.

(** Two sorted permutations of each other whose classes of equal
    elements appear in the same order are the same list. *)
Lemma stable_sorted_unique out1 out2 :
  out1 ≡ₚ out2 -> StronglySorted (le cmp) out1 -> StronglySorted (le cmp) out2 ->
  (forall z, List.filter (equivb cmp z) out1 = List.filter (equivb cmp z) out2) ->
  out1 = out2.
Proof.
  revert out2. induction out1 as [|a r1 IH]; intros out2 Hp Hs1 Hs2 Hf.
  - symmetry. by apply Permutation_nil.
  - destruct out2 as [|b r2]; [symmetry in Hp; by apply Permutation_nil_cons in Hp|].
    apply StronglySorted_inv in Hs1 as [Hs1 Ha]. apply StronglySorted_inv in Hs2 as [Hs2 Hb].
    assert (Hmin : forall x y r, Forall (le cmp x) r -> In y (x :: r) -> le cmp x y).
    { intros x y r Hr [<-|Hy]; [unfold le; rewrite cmp_refl; discriminate|].
      by eapply Forall_forall in Hr; [|apply list_elem_of_In]. }
    assert (Hab : cmp a b = Eq).
    { apply le_both_Eq; [apply (Hmin a b r1 Ha) | apply (Hmin b a r2 Hb)];
        eapply Permutation_in; [symmetry; exact Hp | left; done | exact Hp | left; done]. }
    assert (a = b) as <-.
    { specialize (Hf a). simpl in Hf.
      rewrite (proj2 (equivb_true a a) (cmp_refl a)), (proj2 (equivb_true a b) Hab) in Hf.
      by injection Hf. }
    f_equal. apply IH; [by apply Permutation_cons_inv in Hp | done | done |].
    intros z. specialize (Hf z). simpl in Hf. destruct (equivb cmp z a); [by injection Hf | done].
Qed.

(** C6. ECMAScript's contract for [Array.prototype.sort] with a
    consistent comparator determines the result: every sorted, stable
    permutation of the input is the one [sort_by] computes. *)
Theorem sort_spec_unique l out : SortSpec cmp l out -> out = sort_by cmp l.
Proof.
  intros (Hp & Hs & Hf). destruct (sort_by_spec l) as (Hp' & Hs' & Hf').
  apply stable_sorted_unique; [by rewrite Hp, Hp' | done | done |].
  intros z. by rewrite Hf, Hf'.
Qed.

(** C7. The sort is stable: the elements the comparator calls equal
    to any given element appear in the result in their input order. *)
Theorem sort_by_stable l z :
  List.filter (equivb cmp z) (sort_by cmp l) = List.filter (equivb cmp z) l.
Proof. apply (sort_by_acc_spec l [] ltac:(constructor)). Qed.

(** When the comparator tells apart the elements of a list, the sorted
    result does not depend on the order of the input. *)
Lemma sort_by_perm_strict l1 l2 :
  l1 ≡ₚ l2 -> (forall a b, In a l1 -> In b l1 -> cmp a b = Eq -> a = b) ->
  sort_by cmp l1 = sort_by cmp l2.
Proof.
  intros Hp Hstrict.
  destruct (sort_by_spec l1) as (Hp1 & Hs1 & _). destruct (sort_by_spec l2) as (Hp2 & Hs2 & _).
  apply (StronglySorted_unique_strong (le cmp)); [| done | done | by rewrite Hp1, Hp2].
  intros x1 x2 Hx1 Hx2 H12 H21. apply Hstrict; [| |by apply le_both_Eq].
  - apply list_elem_of_In. by rewrite <- Hp1.
  - apply list_elem_of_In. by rewrite Hp, <- Hp2.
Qed.
End SortFacts.

#[export] Instance on_cmp_consistent {A B} (f : A -> B) (c : B -> B -> comparison) :
  Consistent c -> Consistent (on_cmp f c).
Proof.
  intros Hc. split; unfold on_cmp; intros.
  - apply (cmp_opp c).
  - by apply (cmp_le_trans c (f a) (f b) (f c0)).
Qed.

#[export] Instance then_cmp_consistent {A} (c1 c2 : A -> A -> comparison) :
  Consistent c1 -> Consistent c2 -> Consistent (then_cmp c1 c2).
Proof.
  intros H1 H2. split; unfold then_cmp.
  - intros a b. rewrite (cmp_opp c1 a b), (cmp_opp c2 a b). by destruct (c1 a b).
  - intros a b c Hab Hbc.
    destruct (c1 a b) eqn:Eab, (c1 b c) eqn:Ebc; try congruence.
    + by rewrite (Eq_trans c1 a b c Eab Ebc); apply (cmp_le_trans c2 a b c).
    + by rewrite (Eq_Lt_Lt c1 a b c Eab Ebc).
    + by rewrite (Lt_le_Lt c1 a b c Eab ltac:(unfold le; congruence)).
    + by rewrite (Lt_le_Lt c1 a b c Eab ltac:(unfold le; congruence)).
Qed.

#[export] Instance N_compare_consistent : Consistent N.compare.
Proof.
  split.
  - intros a b. apply N.compare_antisym.
  - intros a b c. rewrite !N.compare_le_iff. lia.
Qed.

(** ** Witnesses *)

Lemma sort_spec_unique_witness :
  SortSpec by_key keyed [(0, 5); (0, 3); (1, 0); (1, 1)]%N /\
  [(0, 5); (0, 3); (1, 0); (1, 1)]%N = sort_by by_key keyed.
Proof.
  assert (Hs : SortSpec by_key keyed [(0, 5); (0, 3); (1, 0); (1, 1)]%N).
  { replace [(0, 5); (0, 3); (1, 0); (1, 1)]%N with (sort_by by_key keyed) by (vm_compute; reflexivity).
    apply sort_by_spec. apply _. }
  split; [exact Hs | apply (sort_spec_unique by_key keyed _ Hs)].
Defined.

Lemma sort_by_stable_witness :
  List.filter (equivb by_key (1, 7)%N) (sort_by by_key keyed) =
  List.filter (equivb by_key (1, 7)%N) keyed.
Proof. apply (sort_by_stable by_key keyed (1, 7)%N). Defined.
