(* ===== verification/V8Sort.v ===== *)
(** * [Array.prototype.sort] as V8 runs it

    Node.js runs [.sort((a, b) => a.localeCompare(b))] (config.mts line
    25) with V8's TimSort (third_party/v8/builtins/array-sort.tq). The
    array is first copied into a work array; [ArrayTimSortImpl] then
    computes [minRunLength] ([ComputeMinRunLength]), finds the natural run
    at the start of the array ([CountAndMakeRun], which reverses a
    strictly descending run) and, when that run is shorter than
    [minRunLength], extends it by binary insertion
    ([BinaryInsertionSort]). Below 64 elements [minRunLength] is the
    length itself, so this first pass sorts the whole array and no merge
    happens: a directory of images is far below that size.

    [timsort_first_run] is that first pass, written on the work array as
    a list updated by index ([<[i := v]>]) with the loops of the Torque
    code: the binary search [bin_search], the slide [slide] and the
    insertion loop [bis_loop]. The runs beyond the first, the pending-run
    stack and the merges are modelled in [Merge], [V8Gallop],
    [V8MergeLow], [V8MergeHigh] and [V8TimSort], which build on the
    pieces of this file. *)

From S2P Require Import Prelude ArraySort.

(** ** [ComputeMinRunLength] *)

(** [while (n >= 64) { r = r | (n & 1); n = n >> 1; } return n + r;] *)
Fixpoint min_run_loop (n r : N) (fuel : nat) : N :=
  match fuel with
  | O => n + r
  | S fuel' =>
      if (64 <=? n)%N then min_run_loop (N.shiftr n 1) (N.lor r (N.land n 1)) fuel'
      else (n + r)%N
  end.

(** The loop halves [n] at each round: [n] rounds are more than enough. *)
Definition compute_min_run (n : N) : N := min_run_loop n 0 (N.to_nat n).

Definition is_lt (c : comparison) : bool := match c with Lt => true | _ => false end.

Section V8.
Context {A : Type} (cmp : A -> A -> comparison).

(** ** [BinaryInsertionSort] *)

(** The search for the insertion point of [pivot] in [[left, right)]:
    [mid = left + ((right - left) >> 1); order = Compare(pivot, a[mid]);
     if (order < 0) right = mid; else left = mid + 1;] *)
Fixpoint bin_search (a : list A) (pivot : A) (left right : nat) (fuel : nat) : nat :=
  match fuel with
  | O => left
  | S fuel' =>
      if left <? right then
        let mid := left + Nat.shiftr (right - left) 1 in
        match a !! mid with
        | Some am =>
            if is_lt (cmp pivot am) then bin_search a pivot left mid fuel'
            else bin_search a pivot (S mid) right fuel'
        | None => left
        end
      else left
  end.

(** [for (p = start; p > left; --p) a[p] = a[p - 1];] with [k = start - left]. *)
Fixpoint slide (a : list A) (p k : nat) : list A :=
  match k with
  | O => a
  | S k' =>
      match a !! (p - 1) with
      | Some v => slide (<[p := v]> a) (p - 1) k'
      | None => a
      end
  end.

(** [for (; start < high; ++start) { pivot = a[start]; ...; a[left] = pivot; }],
    with [k = high - start] rounds. The search runs with fuel
    [start - low], the width of the range it searches. *)
Fixpoint bis_loop (a : list A) (low start k : nat) : list A :=
  match k with
  | O => a
  | S k' =>
      match a !! start with
      | Some pivot =>
          let left := bin_search a pivot low start (start - low) in
          bis_loop (<[left := pivot]> (slide a start (start - left))) low (S start) k'
      | None => a
      end
  end.

Definition binary_insertion_sort (a : list A) (low startArg high : nat) : list A :=
  let start := if low =? startArg then S startArg else startArg in
  bis_loop a low start (high - start).

(** ** [CountAndMakeRun] *)

(** [ReverseRange(array, from, to)] *)
Definition reverse_range (a : list A) (from to : nat) : list A :=
  take from a ++ rev (take (to - from) (drop from a)) ++ drop to a.

(** [if (isDescending) { if (order >= 0) break; } else { if (order < 0) break; }] *)
Definition run_breaks (desc : bool) (order : comparison) : bool :=
  if desc then negb (is_lt order) else is_lt order.

(** The loop [for (idx = low + 1; idx < high; ++idx)]: it stops at the
    first element that breaks the run. *)
Fixpoint run_loop (a : list A) (desc : bool) (high idx : nat) (prev : A) (runLength fuel : nat) : nat :=
  match fuel with
  | O => runLength
  | S fuel' =>
      if idx <? high then
        match a !! idx with
        | Some cur =>
            if run_breaks desc (cmp cur prev) then runLength
            else run_loop a desc high (S idx) cur (S runLength) fuel'
        | None => runLength
        end
      else runLength
  end.

Definition count_and_make_run (a : list A) (lowArg high : nat) : nat * list A :=
  let low := S lowArg in
  if low =? high then (1, a)
  else
    match a !! low, a !! (low - 1) with
    | Some elementLow, Some elementLowPre =>
        let desc := is_lt (cmp elementLow elementLowPre) in
        let runLength := run_loop a desc high (S low) elementLow 2 (high - S low) in
        (runLength, if desc then reverse_range a lowArg (lowArg + runLength) else a)
    | _, _ => (1, a)
    end.

(** ** The first pass of [ArrayTimSortImpl] *)

(** [if (length < 2) return; currentRunLength = CountAndMakeRun(0, length);
     if (currentRunLength < minRunLength) BinaryInsertionSort(0,
     currentRunLength, min(minRunLength, length));] *)
Definition timsort_first_run (a : list A) : list A :=
  let n := length a in
  if n <? 2 then a
  else
    let '(run, a1) := count_and_make_run a 0 n in
    let minRun := compute_min_run (N.of_nat n) in
    if (N.of_nat run <? minRun)%N
    then binary_insertion_sort a1 0 run (N.to_nat (N.min minRun (N.of_nat n)))
    else a1.

(** The index before which [sort_insert] puts [x]: that of the first
    element [x] compares below. *)
Fixpoint first_lt (x : A) (l : list A) : nat :=
  match l with
  | [] => 0
  | y :: l' => if is_lt (cmp x y) then 0 else S (first_lt x l')
  end.

(** The number of elements after [prev] that continue its run: what
    [run_loop] counts, as a function of the rest of the list. *)
Fixpoint run_len (desc : bool) (prev : A) (l : list A) : nat :=
  match l with
  | [] => 0
  | c :: l' => if run_breaks desc (cmp c prev) then 0 else S (run_len desc c l')
  end.
End V8.

(** ** Lemmas *)

Lemma is_lt_true c : is_lt c = true <-> c = Lt.
Proof. destruct c; cbn; split; congruence. Qed.

(** Halving a width below [2 ^ S f] gives widths below [2 ^ f]. *)
Lemma half_bounds w f : 0 < w -> w < 2 ^ S f ->
  w / 2 < w /\ w / 2 < 2 ^ f /\ w - w / 2 - 1 < 2 ^ f.
Proof.
  intros Hw Hf. pose proof (Nat.div_mod w 2 ltac:(lia)) as Hd.
  pose proof (Nat.mod_upper_bound w 2 ltac:(lia)) as Hm. cbn [Nat.pow] in Hf.
  remember (w / 2) as q. remember (w mod 2) as r. lia.
Qed.

Section V8Facts.
Context {A : Type} (cmp : A -> A -> comparison) `{!Consistent cmp}.

Lemma sort_insert_split x l :
  sort_insert cmp x l = take (first_lt cmp x l) l ++ x :: drop (first_lt cmp x l) l.
Proof.
  induction l as [|y l IH]; [done|]. cbn [sort_insert first_lt].
  destruct (cmp x y); cbn [is_lt take drop app]; [by rewrite IH | done | by rewrite IH].
Qed.

Lemma first_lt_length x l : first_lt cmp x l <= length l.
Proof. induction l as [|y l IH]; cbn; [lia|]. destruct (is_lt (cmp x y)); cbn; lia. Qed.

Lemma first_lt_at_Lt x l j y : l !! j = Some y -> cmp x y = Lt -> first_lt cmp x l <= j.
Proof.
  revert j. induction l as [|z l IH]; intros j Hj Hxy; [done|]. cbn [first_lt].
  destruct (is_lt (cmp x z)) eqn:E; [lia|]. destruct j as [|j]; cbn in Hj.
  - injection Hj as ->. apply is_lt_true in Hxy. congruence.
  - specialize (IH j Hj Hxy). lia.
Qed.

(** In a sorted list, every element from [first_lt] on is above [x]. *)
Lemma first_lt_sorted x l j y : StronglySorted (le cmp) l ->
  first_lt cmp x l <= j -> l !! j = Some y -> cmp x y = Lt.
Proof.
  revert j. induction l as [|z l IH]; intros j Hs Hj Hy; [done|].
  apply StronglySorted_inv in Hs as [Hs Hz]. cbn [first_lt] in Hj.
  destruct (is_lt (cmp x z)) eqn:E.
  - apply is_lt_true in E. destruct j as [|j]; cbn in Hy; [by injection Hy as <-|].
    apply (Lt_le_Lt cmp x z y E). by eapply Forall_lookup_1.
  - destruct j as [|j]; [lia|]. apply (IH j Hs); [lia | done].
Qed.

(** V8's binary search finds [first_lt] in a sorted run [sp] stored
    from index [base], as soon as the fuel [f] satisfies
    [right - left < 2 ^ f]. *)
Lemma bin_search_first_at a base sp x left right fuel :
  StronglySorted (le cmp) sp -> (forall j, j < length sp -> a !! (base + j) = sp !! j) ->
  left <= first_lt cmp x sp <= right -> right <= length sp -> right - left < 2 ^ fuel ->
  bin_search cmp a x (base + left) (base + right) fuel = base + first_lt cmp x sp.
Proof.
  intros Hs Ha. revert left right. induction fuel as [|fuel IH]; intros left right Hf Hr Hw;
    cbn [bin_search]; [cbn in Hw; lia|].
  destruct (Nat.ltb_spec (base + left) (base + right)) as [Hlt|Hge]; [|lia].
  rewrite Nat.shiftr_div_pow2. cbn [Nat.pow]. rewrite Nat.mul_1_r.
  replace (base + right - (base + left)) with (right - left) by lia.
  destruct (half_bounds (right - left) fuel) as (H1 & H2 & H3); [lia | done |].
  destruct (lookup_lt_is_Some_2 sp (left + (right - left) / 2)) as [am Ham]; [lia|].
  rewrite <- Nat.add_assoc, Ha, Ham by lia. destruct (is_lt (cmp x am)) eqn:E.
  - apply is_lt_true in E. pose proof (first_lt_at_Lt _ _ _ _ Ham E). apply IH; lia.
  - assert (left + (right - left) / 2 < first_lt cmp x sp).
    { destruct (Nat.lt_ge_cases (left + (right - left) / 2) (first_lt cmp x sp)) as [|Hge]; [done|].
      pose proof (first_lt_sorted _ _ _ _ Hs Hge Ham). apply not_true_iff_false in E.
      exfalso. apply E, is_lt_true. done. }
    replace (S (base + (left + (right - left) / 2))) with (base + S (left + (right - left) / 2)) by lia.
    apply IH; lia.
Qed.

(** The same for a run at the start of the array. *)
Lemma bin_search_first a sp x left right fuel :
  StronglySorted (le cmp) sp -> (forall j, j < length sp -> a !! j = sp !! j) ->
  left <= first_lt cmp x sp <= right -> right <= length sp -> right - left < 2 ^ fuel ->
  bin_search cmp a x left right fuel = first_lt cmp x sp.
Proof. intros Hs Ha. apply (bin_search_first_at a 0 sp x left right fuel Hs Ha). Qed.

(** The slide moves [mid] one slot to the right, over [v]; writing the
    pivot at the freed slot completes the insertion. *)
Lemma slide_shift (pre mid post : list A) v x :
  <[length pre := x]> (slide (pre ++ mid ++ v :: post) (length pre + length mid) (length mid)) =
  pre ++ x :: mid ++ post.
Proof.
  revert v post. induction mid as [|u mid IH] using rev_ind; intros v post.
  - cbn [slide length app]. rewrite insert_app_r_alt, Nat.sub_diag by lia. done.
  - rewrite length_app. cbn [length]. rewrite Nat.add_1_r, Nat.add_succ_r. cbn [slide].
    rewrite Nat.sub_succ, Nat.sub_0_r.
    assert (Heq : pre ++ (mid ++ [u]) ++ v :: post = (pre ++ mid) ++ u :: v :: post)
      by (by rewrite <- !app_assoc).
    rewrite Heq, list_lookup_middle by (by rewrite length_app).
    rewrite insert_app_r_alt by (rewrite length_app; lia).
    rewrite length_app, Nat.sub_succ_l, Nat.sub_diag by lia.
    change (<[1:=u]> (u :: v :: post)) with (u :: u :: post).
    rewrite <- app_assoc. rewrite IH. by rewrite <- app_assoc.
Qed.

(** One round of the insertion loop, once the search has found
    [first_lt]: the slide and the write insert [x] as [sort_insert]. *)
Lemma insert_at_first_lt_at P sp x rest :
  <[length P + first_lt cmp x sp := x]>
    (slide (P ++ sp ++ x :: rest) (length P + length sp) (length sp - first_lt cmp x sp)) =
  P ++ sort_insert cmp x sp ++ rest.
Proof.
  pose proof (first_lt_length x sp) as Hf.
  pose proof (slide_shift (P ++ take (first_lt cmp x sp) sp) (drop (first_lt cmp x sp) sp) rest x x) as H.
  rewrite length_app, length_take_le, length_drop in H by done.
  replace (length P + first_lt cmp x sp + (length sp - first_lt cmp x sp)) with (length P + length sp) in H by lia.
  replace ((P ++ take (first_lt cmp x sp) sp) ++ drop (first_lt cmp x sp) sp ++ x :: rest)
    with (P ++ sp ++ x :: rest) in H by (by rewrite <- app_assoc, (app_assoc (take _ _)), take_drop).
  rewrite H, sort_insert_split. by rewrite <- !app_assoc.
Qed.

(** From a sorted run [sp] at [low], the insertion loop inserts the
    next [k] elements one by one, as [sort_insert] does, and leaves the
    rest of the array alone. *)
Lemma bis_loop_inserts_at P sp rest k :
  StronglySorted (le cmp) sp -> k <= length rest ->
  bis_loop cmp (P ++ sp ++ rest) (length P) (length P + length sp) k =
  P ++ fold_left (fun acc x => sort_insert cmp x acc) (take k rest) sp ++ drop k rest.
Proof.
  revert sp rest. induction k as [|k IH]; intros sp rest Hs Hk; cbn [bis_loop]; [by rewrite drop_0|].
  destruct rest as [|x rest]; [cbn in Hk; lia|]. cbn [take drop fold_left].
  assert (Hx : (P ++ sp ++ x :: rest) !! (length P + length sp) = Some x)
    by (rewrite app_assoc; apply list_lookup_middle; by rewrite length_app).
  rewrite Hx. replace (length P + length sp - length P) with (length sp) by lia.
  assert (Hb : bin_search cmp (P ++ sp ++ x :: rest) x (length P) (length P + length sp) (length sp)
               = length P + first_lt cmp x sp).
  { rewrite <- (bin_search_first_at (P ++ sp ++ x :: rest) (length P) sp x 0 (length sp) (length sp)).
    - by rewrite Nat.add_0_r.
    - done.
    - intros j Hj. rewrite lookup_app_r by lia. replace (length P + j - length P) with j by lia.
      by rewrite lookup_app_l.
    - pose proof (first_lt_length x sp). lia.
    - done.
    - rewrite Nat.sub_0_r. apply Nat.pow_gt_lin_r. lia. }
  rewrite Hb. replace (length P + length sp - (length P + first_lt cmp x sp))
    with (length sp - first_lt cmp x sp) by lia.
  rewrite insert_at_first_lt_at.
  replace (S (length P + length sp)) with (length P + length (sort_insert cmp x sp))
    by (rewrite (Permutation_length (insert_perm cmp x sp)); cbn; lia).
  apply IH; [by apply insert_sorted | cbn in Hk; lia].
Qed.

(** The whole insertion loop on a sorted prefix. *)
Lemma bis_loop_inserts sp rest :
  StronglySorted (le cmp) sp ->
  bis_loop cmp (sp ++ rest) 0 (length sp) (length rest) =
  fold_left (fun acc x => sort_insert cmp x acc) rest sp.
Proof.
  intros Hs. pose proof (bis_loop_inserts_at [] sp rest (length rest) Hs ltac:(lia)) as H.
  cbn [length app Nat.add] in H. by rewrite H, take_ge, drop_ge, app_nil_r by lia.
Qed.

Lemma run_loop_list a desc idx prev rl fuel : length a - idx <= fuel ->
  run_loop cmp a desc (length a) idx prev rl fuel = rl + run_len cmp desc prev (drop idx a).
Proof.
  revert idx prev rl. induction fuel as [|fuel IH]; intros idx prev rl Hf; cbn [run_loop].
  - by rewrite drop_ge by lia.
  - destruct (Nat.ltb_spec idx (length a)) as [Hlt|Hge]; [|by rewrite drop_ge by lia].
    destruct (lookup_lt_is_Some_2 a idx Hlt) as [cur Hcur]. rewrite Hcur, (drop_S _ _ _ Hcur).
    cbn [run_len]. destruct (run_breaks desc (cmp cur prev)); [lia|]. rewrite IH by lia. lia.
Qed.

Lemma run_len_le desc prev l : run_len cmp desc prev l <= length l.
Proof.
  revert prev. induction l as [|c l IH]; intros prev; cbn; [lia|].
  destruct (run_breaks desc (cmp c prev)); [lia|]. specialize (IH c). lia.
Qed.

(** The elements a run spans are chained by the run's relation. *)
Lemma run_len_chain desc prev l :
  Sorted (fun x y => run_breaks desc (cmp y x) = false) (prev :: take (run_len cmp desc prev l) l).
Proof.
  revert prev. induction l as [|c l IH]; intros prev; cbn [run_len]; [by repeat constructor|].
  destruct (run_breaks desc (cmp c prev)) eqn:E; cbn [take]; [by repeat constructor|].
  constructor; [apply IH | by constructor].
Qed.

(** A sorted list is its own sort. *)
Lemma sort_by_sorted l : StronglySorted (le cmp) l -> sort_by cmp l = l.
Proof.
  intros Hs. destruct (sort_by_spec cmp l) as (Hp & Hs' & Hf).
  symmetry. apply (stable_sorted_unique cmp); [by symmetry | done | done | done].
Qed.

(** In a strictly ascending list, at most one element is equal to [z]:
    reversing the list does not reorder any class of equal elements. *)
Lemma filter_equiv_rev_strict z l : StronglySorted (fun x y => cmp x y = Lt) l ->
  List.filter (equivb cmp z) (rev l) = List.filter (equivb cmp z) l.
Proof.
  rewrite filter_rev. induction 1 as [|x l Hs IH Hx]; [done|]. cbn [List.filter].
  destruct (equivb cmp z x) eqn:E; [|done].
  rewrite (filter_none _ l); [done|]. intros y Hy.
  apply (equivb_true cmp) in E. apply not_true_iff_false. rewrite (equivb_true cmp).
  pose proof (Eq_Lt_Lt cmp z x y E) as Hzy.
  rewrite Hzy; [discriminate|]. by eapply Forall_forall in Hx; [|apply list_elem_of_In].
Qed.

(** A strictly descending run, reversed, is the sort of the run. *)
Lemma rev_descending_sort l : StronglySorted (fun x y => cmp y x = Lt) l -> rev l = sort_by cmp l.
Proof.
  intros Hs. apply StronglySorted_rev in Hs.
  destruct (sort_by_spec cmp l) as (Hp & Hs' & Hf). apply (stable_sorted_unique cmp).
  - rewrite Hp. symmetry. apply Permutation_rev.
  - eapply StronglySorted_weaken; [|exact Hs]. intros x y Hxy. unfold le. congruence.
  - done.
  - intros z. pose proof (filter_equiv_rev_strict z (rev l) Hs) as H.
    rewrite rev_involutive in H. by rewrite Hf, H.
Qed.

(** The run [CountAndMakeRun] finds after [x0, x1], reversed when it
    is descending, is its sort. *)
Lemma run_prefix_sort x0 x1 rest :
  (if is_lt (cmp x1 x0) then @rev A else id)
    (x0 :: x1 :: take (run_len cmp (is_lt (cmp x1 x0)) x1 rest) rest) =
  sort_by cmp (x0 :: x1 :: take (run_len cmp (is_lt (cmp x1 x0)) x1 rest) rest).
Proof.
  pose proof (run_len_chain (is_lt (cmp x1 x0)) x1 rest) as Hc.
  destruct (is_lt (cmp x1 x0)) eqn:E.
  - apply rev_descending_sort.
    assert (Htr : Transitive (fun x y => cmp y x = Lt)).
    { intros x y z Hxy Hyz. apply (Lt_le_Lt cmp z y x Hyz). unfold le. congruence. }
    apply Sorted_StronglySorted; [done|]. constructor.
    + eapply Sorted_weaken; [|exact Hc]. intros x y Hxy. cbn in Hxy. by apply is_lt_true, negb_false_iff.
    + constructor. by apply is_lt_true.
  - symmetry. apply sort_by_sorted.
    assert (Htr : Transitive (le cmp)) by (intros x y z; apply (cmp_le_trans cmp)).
    apply Sorted_StronglySorted; [done|].
    assert (Hle' : forall x y, is_lt (cmp y x) = false -> le cmp x y).
    { intros x y Hyx Hxy. apply (cmp_Gt_Lt cmp) in Hxy. rewrite Hxy in Hyx. discriminate. }
    constructor; [eapply Sorted_weaken; [|exact Hc]; intros x y; apply Hle'|].
    constructor. by apply Hle'.
Qed.

Lemma reverse_range_app (P R : list A) k :
  reverse_range (P ++ R) (length P) (length P + k) = P ++ rev (take k R) ++ drop k R.
Proof.
  unfold reverse_range. rewrite take_app_length, drop_app_length, drop_app_add.
  by replace (length P + k - length P) with k by lia.
Qed.

(** [CountAndMakeRun(lowArg, high)] on the part [R] of the array after
    [lowArg]: the run it finds has length at least 1 (at least 2 when two
    elements are left), and it leaves that run sorted, as [sort_by]
    sorts it, and the rest of the array untouched. *)
Lemma count_and_make_run_at (P R : list A) : 1 <= length R ->
  exists run, 1 <= run <= length R /\ (2 <= length R -> 2 <= run) /\
    count_and_make_run cmp (P ++ R) (length P) (length P + length R) =
    (run, P ++ sort_by cmp (take run R) ++ drop run R).
Proof.
  intros Hn. destruct R as [|x0 [|x1 rest]]; cbn [length] in Hn; [lia | |].
  - exists 1. split_and!; [lia | cbn; lia | cbn; lia |]. unfold count_and_make_run.
    rewrite (proj2 (Nat.eqb_eq _ _)) by (cbn; lia). done.
  - rewrite <- length_app. unfold count_and_make_run. cbv beta zeta.
    rewrite (proj2 (Nat.eqb_neq (S (length P)) _)) by (rewrite length_app; cbn; lia).
    rewrite (lookup_app_r P), (lookup_app_r P) by lia.
    replace (S (length P) - length P) with 1 by lia. replace (S (length P) - 1 - length P) with 0 by lia.
    cbn [lookup list_lookup]. rewrite run_loop_list by (rewrite length_app; cbn; lia).
    replace (S (S (length P))) with (length P + 2) by lia. rewrite drop_app_add. cbn [drop]. rewrite drop_0.
    pose proof (run_len_le (is_lt (cmp x1 x0)) x1 rest) as Hle.
    exists (2 + run_len cmp (is_lt (cmp x1 x0)) x1 rest). split_and!; [cbn; lia | cbn; lia | lia |].
    pose proof (run_prefix_sort x0 x1 rest) as Hr. cbn [Nat.add take drop] in *.
    destruct (is_lt (cmp x1 x0)) eqn:E.
    + rewrite reverse_range_app. cbn [Nat.add take drop]. by rewrite Hr.
    + rewrite <- Hr. cbn [id app]. by rewrite take_drop.
Qed.

(** On the whole array. *)
Lemma count_and_make_run_sorts a : 2 <= length a ->
  exists run, 2 <= run <= length a /\
    count_and_make_run cmp a 0 (length a) = (run, sort_by cmp (take run a) ++ drop run a).
Proof.
  intros Hn. destruct (count_and_make_run_at [] a ltac:(lia)) as (run & H1 & H2 & H).
  exists run. split; [specialize (H2 Hn); lia | done].
Qed.

(** ** [ComputeMinRunLength] *)

Lemma min_run_loop_small n r fuel : (n < 64)%N -> min_run_loop n r fuel = (n + r)%N.
Proof. intros Hn. destruct fuel; cbn [min_run_loop]; [done|]. by rewrite (proj2 (N.leb_gt 64 n)). Qed.

Lemma compute_min_run_small n : (n < 64)%N -> compute_min_run n = n.
Proof. intros Hn. unfold compute_min_run. rewrite min_run_loop_small by done. lia. Qed.
End V8Facts.

Lemma min_run_loop_bounds fuel n r :
  (64 <= n)%N -> N.to_nat n <= fuel -> (r <= 1)%N -> (32 <= min_run_loop n r fuel <= 64)%N.
Proof.
  revert n r. induction fuel as [|fuel IH]; intros n r Hn Hf Hr; [lia|].
  cbn [min_run_loop]. rewrite (proj2 (N.leb_le 64 n)) by done.
  rewrite N.shiftr_div_pow2. change (2 ^ 1)%N with 2%N.
  assert (Hl : (N.land n 1 <= 1)%N).
  { change (N.land n 1) with (N.land n (N.ones 1)). rewrite N.land_ones.
    pose proof (N.mod_lt n (2 ^ 1) ltac:(lia)). change (2 ^ 1)%N with 2%N in *. lia. }
  assert (Hb : (N.lor r (N.land n 1) <= 1)%N).
  { destruct (N.eq_dec r 0) as [->|Hr1]; [rewrite N.lor_0_l; lia|].
    replace r with 1%N by lia.
    destruct (N.eq_dec (N.land n 1) 0) as [->|Hl1]; [done|]. replace (N.land n 1) with 1%N by lia. done. }
  pose proof (N.div_lt n 2 ltac:(lia) ltac:(lia)) as Hlt.
  pose proof (N.Div0.div_le_mono 64 n 2 Hn) as Hge. change (64 / 2)%N with 32%N in Hge.
  destruct (N.leb_spec 64 (n / 2)) as [H64|H64].
  - apply IH; [done | lia | done].
  - rewrite min_run_loop_small by done. lia.
Qed.

(** ** Theorems *)

Section V8Theorems.
Context {A : Type} (cmp : A -> A -> comparison) `{!Consistent cmp}.

(** On an array of fewer than 64 elements (a listing of the images
    directory), V8's TimSort, that is [CountAndMakeRun] followed by
    [BinaryInsertionSort] on the work array, gives exactly the list the
    reference insertion sort [sort_by] gives. *)
Theorem timsort_first_run_sort_by a : length a < 64 -> timsort_first_run cmp a = sort_by cmp a.
Proof.
  intros H64. unfold timsort_first_run. destruct (Nat.ltb_spec (length a) 2) as [Hs|Hs].
  - destruct a as [|x [|y a]]; cbn in Hs; [done | done | lia].
  - destruct (count_and_make_run_sorts cmp a Hs) as (run & Hrun & ->).
    rewrite compute_min_run_small by lia. rewrite N.min_id, Nat2N.id.
    destruct (N.ltb_spec (N.of_nat run) (N.of_nat (length a))) as [Hlt|Hge].
    + unfold binary_insertion_sort. rewrite (proj2 (Nat.eqb_neq 0 run)) by lia.
      pose proof (sort_by_spec cmp (take run a)) as (_ & Hsorted & _).
      set (sp := sort_by cmp (take run a)) in *. set (rest := drop run a).
      assert (Hsp : length sp = run)
        by (unfold sp; rewrite (Permutation_length (sort_by_perm cmp _)); apply length_take_le; lia).
      assert (Hrest : length rest = length a - run) by (unfold rest; rewrite length_drop; lia).
      rewrite <- Hrest, <- Hsp, bis_loop_inserts by done.
      unfold sp, rest, sort_by. rewrite <- fold_left_app. by rewrite take_drop.
    + replace run with (length a) by lia. by rewrite drop_all, app_nil_r, take_ge.
Qed.

(** C34. V8's binary search needs at most [log2 w + 1] probes for a
    range of width [w] that contains the insertion point: with that
    many rounds it already returns the index [sort_insert] inserts at,
    after the last element of the sorted prefix not above the pivot. *)
Theorem bin_search_log_probes a sp x left right :
  StronglySorted (le cmp) sp -> (forall j, j < length sp -> a !! j = sp !! j) ->
  left <= first_lt cmp x sp <= right -> right <= length sp ->
  bin_search cmp a x left right (S (Nat.log2 (right - left))) = first_lt cmp x sp.
Proof.
  intros Hs Ha Hf Hr. apply bin_search_first; try done.
  destruct (Nat.eq_dec (right - left) 0) as [->|Hw]; [cbn; lia|].
  apply Nat.log2_spec. lia.
Qed.
End V8Theorems.

(** C25. V8's [ComputeMinRunLength] gives, for an array of 64 elements
    or more, a minimum run length between 32 and 64, as TimSort's design
    requires; below 64 it is the length itself. *)
Theorem compute_min_run_bounds n : (64 <= n)%N -> (32 <= compute_min_run n <= 64)%N.
Proof. intros Hn. apply min_run_loop_bounds; [done | lia | lia]. Qed.

(** ** Witnesses *)

Lemma timsort_first_run_sort_by_witness :
  length [(2, 0); (0, 1); (1, 2); (0, 3); (2, 4)]%N < 64 /\
  timsort_first_run by_key [(2, 0); (0, 1); (1, 2); (0, 3); (2, 4)]%N =
  sort_by by_key [(2, 0); (0, 1); (1, 2); (0, 3); (2, 4)]%N.
Proof.
  assert (H : length [(2, 0); (0, 1); (1, 2); (0, 3); (2, 4)]%N < 64) by (cbn; lia).
  split; [exact H | apply (timsort_first_run_sort_by by_key _ H)].
Defined.

Lemma bin_search_log_probes_witness :
  StronglySorted (le N.compare) [1; 3; 3; 7]%N /\
  (forall j, j < length [1; 3; 3; 7]%N -> ([1; 3; 3; 7; 3; 0]%N : list N) !! j = ([1; 3; 3; 7]%N : list N) !! j) /\
  0 <= first_lt N.compare 3%N [1; 3; 3; 7]%N <= 4 /\ 4 <= length [1; 3; 3; 7]%N /\
  bin_search N.compare [1; 3; 3; 7; 3; 0]%N 3%N 0 4 (S (Nat.log2 (4 - 0))) = first_lt N.compare 3%N [1; 3; 3; 7]%N.
Proof.
  assert (Hs : StronglySorted (le N.compare) [1; 3; 3; 7]%N)
    by (repeat constructor; unfold le; cbn; discriminate).
  assert (Ha : forall j, j < length [1; 3; 3; 7]%N ->
                 ([1; 3; 3; 7; 3; 0]%N : list N) !! j = ([1; 3; 3; 7]%N : list N) !! j)
    by (intros j Hj; apply (lookup_app_l [1; 3; 3; 7]%N [3; 0]%N), Hj).
  assert (Hf : 0 <= first_lt N.compare 3%N [1; 3; 3; 7]%N <= 4) by (cbn; lia).
  assert (Hr : 4 <= length [1; 3; 3; 7]%N) by (cbn; lia).
  refine (conj Hs (conj Ha (conj Hf (conj Hr _)))).
  apply (bin_search_log_probes N.compare _ _ _ 0 4 Hs Ha Hf Hr).
Defined.

Lemma compute_min_run_bounds_witness : (64 <= 1000)%N /\ (32 <= compute_min_run 1000 <= 64)%N.
Proof. split; [lia | apply (compute_min_run_bounds 1000); lia]. Defined.
