(* ===== verification/Merge.v ===== *)
(** * The stable merge V8's merges implement

    TimSort's merges ([MergeAt], [MergeLow], [MergeHigh] of V8's
    array-sort.tq, modelled in [V8Gallop], [V8MergeLow], [V8MergeHigh]
    and [V8TimSort]) all compute the stable merge of two adjacent sorted
    runs: the element of the right run goes first only when it compares
    strictly below the element of the left run. [merge] is that
    reference; [span_len] is the length of the longest prefix of a list
    whose elements satisfy a test, the quantity V8's gallops compute.
    The lemmas split a merge where the runs' elements are known to be
    ordered, which is how the optimised loops move whole blocks at once,
    and show that merging the sorts of two lists is the sort of their
    concatenation. *)

From S2P Require Import Prelude ArraySort V8Sort.

Section Merge.
Context {A : Type} (cmp : A -> A -> comparison).

Fixpoint merge (xs : list A) : list A -> list A :=
  match xs with
  | [] => fun ys => ys
  | x :: xs' =>
      fix merge_x (ys : list A) : list A :=
        match ys with
        | [] => xs
        | y :: ys' => if is_lt (cmp y x) then y :: merge_x ys' else x :: merge xs' ys
        end
  end.

Fixpoint span_len (p : A -> bool) (l : list A) : nat :=
  match l with
  | [] => 0
  | x :: l' => if p x then S (span_len p l') else 0
  end.
End Merge.

(** ** Lemmas *)

Section MergeFacts.
Context {A : Type} (cmp : A -> A -> comparison) `{!Consistent cmp}.

Lemma merge_nil_r xs : merge cmp xs [] = xs.
Proof. by destruct xs. Qed.

Lemma merge_cons_cons x xs y ys :
  merge cmp (x :: xs) (y :: ys) =
  if is_lt (cmp y x) then y :: merge cmp (x :: xs) ys else x :: merge cmp xs (y :: ys).
Proof. done. Qed.

(** Elements of the left run no greater than every element of the
    right run come out first. *)
Lemma merge_app_l xs1 xs2 ys :
  (forall x y, In x xs1 -> In y ys -> cmp y x <> Lt) ->
  merge cmp (xs1 ++ xs2) ys = xs1 ++ merge cmp xs2 ys.
Proof.
  induction xs1 as [|x xs1 IH]; intros H; [done|].
  destruct ys as [|y ys]; [by rewrite !merge_nil_r|].
  cbn [app]. rewrite merge_cons_cons.
  destruct (is_lt (cmp y x)) eqn:E.
  - apply is_lt_true in E. exfalso. exact (H x y (or_introl eq_refl) (or_introl eq_refl) E).
  - f_equal. apply IH. intros x' y' Hx Hy. by apply H; [right|].
Qed.

(** Elements of the right run below every element of the left run come
    out first. *)
Lemma merge_app_r xs ys1 ys2 :
  (forall x y, In x xs -> In y ys1 -> cmp y x = Lt) ->
  merge cmp xs (ys1 ++ ys2) = ys1 ++ merge cmp xs ys2.
Proof.
  destruct xs as [|x xs]; [done|].
  induction ys1 as [|y ys1 IH]; intros H; [done|].
  cbn [app]. rewrite merge_cons_cons, (proj2 (is_lt_true _)) by (apply H; left; done).
  f_equal. apply IH. intros x' y' Hx Hy. by apply H; [|right].
Qed.

(** Elements of the left run above every element of the right run come
    out last. *)
Lemma merge_app_l_tail xs1 xs2 ys :
  (forall x y, In x xs2 -> In y ys -> cmp y x = Lt) ->
  merge cmp (xs1 ++ xs2) ys = merge cmp xs1 ys ++ xs2.
Proof.
  revert ys. induction xs1 as [|x xs1 IH]; intros ys H.
  - cbn [app merge]. rewrite <- (app_nil_r ys) at 1. rewrite merge_app_r by done.
    by rewrite merge_nil_r.
  - cbn [app]. induction ys as [|y ys IHy]; [by rewrite !merge_nil_r|].
    rewrite !merge_cons_cons. destruct (is_lt (cmp y x)).
    + cbn [app]. f_equal. apply IHy. intros x' y' Hx Hy. by apply H; [|right].
    + cbn [app]. by rewrite IH.
Qed.

(** Elements of the right run no less than every element of the left
    run come out last. *)
Lemma merge_app_r_tail xs ys1 ys2 :
  (forall x y, In x xs -> In y ys2 -> cmp y x <> Lt) ->
  merge cmp xs (ys1 ++ ys2) = merge cmp xs ys1 ++ ys2.
Proof.
  revert ys1. induction xs as [|x xs IH]; intros ys1 H; [done|].
  induction ys1 as [|y ys1 IHy].
  - cbn [app]. rewrite merge_nil_r. rewrite <- (app_nil_r (x :: xs)) at 1.
    rewrite merge_app_l by done. by cbn [merge].
  - cbn [app]. rewrite !merge_cons_cons. destruct (is_lt (cmp y x)).
    + cbn [app]. by rewrite IHy.
    + cbn [app]. f_equal. change (y :: ys1 ++ ys2) with ((y :: ys1) ++ ys2).
      rewrite (IH (y :: ys1)); [done|].
      intros x' y' Hx Hy. by apply H; [right|].
Qed.

Lemma merge_perm xs ys : merge cmp xs ys ≡ₚ xs ++ ys.
Proof.
  revert ys. induction xs as [|x xs IH]; intros ys; [done|].
  induction ys as [|y ys IHy]; [by rewrite merge_nil_r, app_nil_r|].
  rewrite merge_cons_cons. destruct (is_lt (cmp y x)).
  - rewrite IHy. apply (Permutation_middle (x :: xs)).
  - cbn [app]. by rewrite IH.
Qed.

Lemma Forall_merge (P : A -> Prop) xs ys : Forall P xs -> Forall P ys -> Forall P (merge cmp xs ys).
Proof.
  intros Hx Hy. eapply Permutation_Forall; [symmetry; apply merge_perm|].
  by apply Forall_app.
Qed.

Lemma le_Lt_Lt a b c : le cmp a b -> cmp b c = Lt -> cmp a c = Lt.
Proof.
  intros Hab Hbc. destruct (cmp a b) eqn:E.
  - by apply (Eq_Lt_Lt cmp a b c).
  - apply (Lt_le_Lt cmp a b c E). unfold le. by rewrite Hbc.
  - done.
Qed.

Lemma merge_sorted xs ys : StronglySorted (le cmp) xs -> StronglySorted (le cmp) ys ->
  StronglySorted (le cmp) (merge cmp xs ys).
Proof.
  revert ys. induction xs as [|x xs IH]; intros ys Hx Hy; [done|].
  induction ys as [|y ys IHy]; [by rewrite merge_nil_r|].
  pose proof Hx as [Hxs Hxa]%StronglySorted_inv. pose proof Hy as [Hys Hya]%StronglySorted_inv.
  rewrite merge_cons_cons. destruct (is_lt (cmp y x)) eqn:E; constructor.
  - by apply IHy.
  - apply is_lt_true in E. apply Forall_merge; [constructor|done].
    + unfold le. rewrite E. discriminate.
    + eapply Forall_impl; [exact Hxa|]. intros z Hz. apply (cmp_le_trans cmp y x z); [|done].
      rewrite E. discriminate.
  - by apply IH.
  - apply Forall_merge; [done|]. apply not_true_iff_false in E. rewrite is_lt_true in E.
    constructor; [by apply (not_Lt_le cmp)|].
    eapply Forall_impl; [exact Hya|]. intros z Hz. apply (cmp_le_trans cmp x y z); [|done].
    by apply (not_Lt_le cmp).
Qed.

(** Among elements equal to [z], the merge keeps the left run's before
    the right run's. *)
Lemma merge_filter z xs ys : StronglySorted (le cmp) xs ->
  List.filter (equivb cmp z) (merge cmp xs ys) =
  List.filter (equivb cmp z) xs ++ List.filter (equivb cmp z) ys.
Proof.
  revert ys. induction xs as [|x xs IH]; intros ys Hx; [done|].
  induction ys as [|y ys IHy]; [by rewrite merge_nil_r, app_nil_r|].
  rewrite merge_cons_cons. destruct (is_lt (cmp y x)) eqn:E.
  - apply is_lt_true in E.
    assert (Hy : forall l, List.filter (equivb cmp z) (y :: l) =
                   (if equivb cmp z y then [y] else []) ++ List.filter (equivb cmp z) l)
      by (intros l; cbn; by destruct (equivb cmp z y)).
    rewrite !Hy, IHy. destruct (equivb cmp z y) eqn:Ezy; [|done].
    apply (equivb_true cmp) in Ezy. pose proof (Eq_Lt_Lt cmp z y x Ezy E) as Hzx.
    rewrite (filter_none _ (x :: xs)); [done|]. intros w [<-|Hw].
    + apply not_true_iff_false. rewrite (equivb_true cmp). congruence.
    + apply StronglySorted_inv in Hx as [_ Hx]. apply list_elem_of_In in Hw.
      pose proof (Lt_le_Lt cmp z x w Hzx (proj1 (Forall_forall _ _) Hx w Hw)) as Hzw.
      apply not_true_iff_false. rewrite (equivb_true cmp). congruence.
  - cbn [List.filter]. rewrite IH by (by apply StronglySorted_inv in Hx as [? _]).
    by destruct (equivb cmp z x).
Qed.

(** Merging the sorts of two lists sorts their concatenation. *)
Lemma merge_sort_by l1 l2 : merge cmp (sort_by cmp l1) (sort_by cmp l2) = sort_by cmp (l1 ++ l2).
Proof.
  destruct (sort_by_spec cmp l1) as (Hp1 & Hs1 & Hf1).
  destruct (sort_by_spec cmp l2) as (Hp2 & Hs2 & Hf2).
  destruct (sort_by_spec cmp (l1 ++ l2)) as (Hp & Hs & Hf).
  apply (stable_sorted_unique cmp).
  - by rewrite merge_perm, Hp, Hp1, Hp2.
  - by apply merge_sorted.
  - done.
  - intros z. by rewrite merge_filter, Hf, Hf1, Hf2, filter_app_bool by done.
Qed.

(** The four ways V8's merge loops take from the runs. *)

(** The head of the right run is below the head of the left run. *)
Lemma merge_take_right xs y ys : (forall x, xs !! 0 = Some x -> cmp y x = Lt) ->
  merge cmp xs (y :: ys) = y :: merge cmp xs ys.
Proof.
  destruct xs as [|x xs]; [done|]. intros H. rewrite merge_cons_cons.
  by rewrite (proj2 (is_lt_true _) (H x eq_refl)).
Qed.

(** The head of the right run is not below the head of the left run. *)
Lemma merge_take_left x xs ys : (forall y, ys !! 0 = Some y -> cmp y x <> Lt) ->
  merge cmp (x :: xs) ys = x :: merge cmp xs ys.
Proof.
  destruct ys as [|y ys]; [by rewrite !merge_nil_r|]. intros H. rewrite merge_cons_cons.
  destruct (is_lt (cmp y x)) eqn:E; [|done]. apply is_lt_true in E. by destruct (H y eq_refl).
Qed.

(** ** Spans *)

Lemma span_len_le (p : A -> bool) (l : list A) : span_len p l <= length l.
Proof. induction l as [|x l IH]; cbn; [lia|]. destruct (p x); cbn; lia. Qed.

Lemma span_take (p : A -> bool) (l : list A) : Forall (fun x => p x = true) (take (span_len p l) l).
Proof.
  induction l as [|x l IH]; cbn; [constructor|]. destruct (p x) eqn:E; cbn; [by constructor|constructor].
Qed.

Lemma span_drop (p : A -> bool) (l : list A) x l' : drop (span_len p l) l = x :: l' -> p x = false.
Proof.
  induction l as [|y l IH]; cbn; [done|]. destruct (p y) eqn:E; cbn; [apply IH|].
  by intros [= -> _].
Qed.

Lemma span_head (p : A -> bool) (l : list A) x : drop (span_len p l) l !! 0 = Some x -> p x = false.
Proof.
  destruct (drop (span_len p l) l) as [|y l'] eqn:E; [done|]. intros [= <-]. by apply (span_drop p l y l').
Qed.

(** In a list on which [p] holds of a prefix and then fails, the span
    is the index of the first failure. *)
Lemma span_len_spec (p : A -> bool) (l : list A) k :
  k <= length l -> (forall j x, j < k -> l !! j = Some x -> p x = true) ->
  (forall x, l !! k = Some x -> p x = false) -> span_len p l = k.
Proof.
  revert k. induction l as [|y l IH]; intros k Hk Hlt Hge; cbn in Hk |- *; [lia|].
  destruct k as [|k].
  - by rewrite (Hge y eq_refl).
  - rewrite (Hlt 0 y ltac:(lia) eq_refl). f_equal. apply IH; [lia| |done].
    intros j x Hj Hx. by apply (Hlt (S j)); [lia|].
Qed.
(** [GallopRight] in [MergeLow]: the elements of the left run not above
    the head [y] of the right run come out first, as a block. *)
Lemma merge_gallop_left_block xs y ys : StronglySorted (le cmp) (y :: ys) ->
  merge cmp xs (y :: ys) =
  take (span_len (fun x => negb (is_lt (cmp y x))) xs) xs ++
  merge cmp (drop (span_len (fun x => negb (is_lt (cmp y x))) xs) xs) (y :: ys).
Proof.
  intros Hs. set (k := span_len _ xs). rewrite <- (take_drop k xs) at 1. apply merge_app_l.
  intros x z Hx Hz. pose proof (span_take (fun x => negb (is_lt (cmp y x))) xs) as Ht.
  apply list_elem_of_In in Hx. eapply Forall_forall in Ht; [|exact Hx]. cbn beta in Ht.
  apply negb_true_iff, not_true_iff_false in Ht. rewrite is_lt_true in Ht.
  intros Hzx. apply Ht. destruct Hz as [<-|Hz]; [done|].
  apply StronglySorted_inv in Hs as [_ Hy]. apply list_elem_of_In in Hz.
  apply (le_Lt_Lt y z x); [by eapply Forall_forall in Hy | done].
Qed.

(** [GallopLeft] in [MergeLow]: the elements of the right run below the
    head [x] of the left run come out first, as a block. *)
Lemma merge_gallop_right_block x xs ys : StronglySorted (le cmp) (x :: xs) ->
  merge cmp (x :: xs) ys =
  take (span_len (fun y => is_lt (cmp y x)) ys) ys ++
  merge cmp (x :: xs) (drop (span_len (fun y => is_lt (cmp y x)) ys) ys).
Proof.
  intros Hs. set (k := span_len _ ys). rewrite <- (take_drop k ys) at 1. apply merge_app_r.
  intros x' z Hx Hz. pose proof (span_take (fun y => is_lt (cmp y x)) ys) as Ht.
  apply list_elem_of_In in Hz. eapply Forall_forall in Ht; [|exact Hz]. cbn beta in Ht.
  apply is_lt_true in Ht. destruct Hx as [<-|Hx]; [done|].
  apply StronglySorted_inv in Hs as [_ Hx']. apply list_elem_of_In in Hx.
  apply (Lt_le_Lt cmp z x x' Ht). by eapply Forall_forall in Hx'.
Qed.
(** Every element of a sorted list is below or equal to its last. *)
Lemma sorted_le_last l a x : StronglySorted (le cmp) (l ++ [a]) -> In x (l ++ [a]) -> le cmp x a.
Proof.
  intros Hs Hx. apply in_app_or in Hx as [Hx|[<-|[]]].
  - induction l as [|y l IH]; [done|]. cbn [app] in Hs. apply StronglySorted_inv in Hs as [Hs Hy].
    destruct Hx as [<-|Hx]; [|by apply IH].
    eapply Forall_forall in Hy; [exact Hy|]. apply list_elem_of_In, in_or_app. right. by left.
  - unfold le. rewrite (cmp_refl cmp). discriminate.
Qed.

(** [GallopRight] in [MergeHigh]: the elements of the left run above the
    last element [b] of the right run come out last, as a block. *)
Lemma merge_gallop_high_left xs ys b : StronglySorted (le cmp) xs -> StronglySorted (le cmp) (ys ++ [b]) ->
  merge cmp xs (ys ++ [b]) =
  merge cmp (take (span_len (fun x => negb (is_lt (cmp b x))) xs) xs) (ys ++ [b]) ++
  drop (span_len (fun x => negb (is_lt (cmp b x))) xs) xs.
Proof.
  intros Hx Hy. set (k := span_len _ xs). rewrite <- (take_drop k xs) at 1. apply merge_app_l_tail.
  intros x y Hxd Hyb. apply (le_Lt_Lt y b x); [by apply sorted_le_last with ys|].
  destruct (drop k xs) as [|z l] eqn:E; [done|].
  assert (Hz : cmp b z = Lt).
  { pose proof (span_drop (fun x => negb (is_lt (cmp b x))) xs z l E) as Hf. by apply negb_false_iff, is_lt_true in Hf. }
  destruct Hxd as [<-|Hxd]; [done|]. rewrite <- (take_drop k xs), E in Hx.
  apply StronglySorted_app_r, StronglySorted_inv in Hx as [_ Hzl]. apply list_elem_of_In in Hxd.
  apply (Lt_le_Lt cmp b z x Hz). by eapply Forall_forall in Hzl.
Qed.

(** [GallopLeft] in [MergeHigh]: the elements of the right run not
    below the last element [a] of the left run come out last. *)
Lemma merge_gallop_high_right xs a ys : StronglySorted (le cmp) (xs ++ [a]) -> StronglySorted (le cmp) ys ->
  merge cmp (xs ++ [a]) ys =
  merge cmp (xs ++ [a]) (take (span_len (fun y => is_lt (cmp y a)) ys) ys) ++
  drop (span_len (fun y => is_lt (cmp y a)) ys) ys.
Proof.
  intros Hx Hy. set (k := span_len _ ys). rewrite <- (take_drop k ys) at 1. apply merge_app_r_tail.
  intros x y Hxa Hyd Hlt. destruct (drop k ys) as [|z l] eqn:E; [done|].
  assert (Hz : le cmp a z).
  { pose proof (span_drop (fun y => is_lt (cmp y a)) ys z l E) as Hf.
    apply not_true_iff_false in Hf. rewrite is_lt_true in Hf. by apply (not_Lt_le cmp). }
  assert (Hzy : le cmp z y).
  { destruct Hyd as [<-|Hyd]; [unfold le; rewrite (cmp_refl cmp); discriminate|].
    rewrite <- (take_drop k ys), E in Hy. apply StronglySorted_app_r, StronglySorted_inv in Hy as [_ Hzl].
    apply list_elem_of_In in Hyd. by eapply Forall_forall in Hzl. }
  pose proof (sorted_le_last xs a x Hx Hxa) as Hxa'.
  assert (Hxy : le cmp x y) by (apply (cmp_le_trans cmp x a y Hxa'), (cmp_le_trans cmp a z y Hz Hzy)).
  apply (cmp_Gt_Lt cmp) in Hlt. exact (Hxy Hlt).
Qed.
Lemma Forall_lt_last ys b a : StronglySorted (le cmp) (ys ++ [b]) -> cmp b a = Lt ->
  Forall (fun y => cmp y a = Lt) (ys ++ [b]).
Proof.
  intros Hs Hba. apply Forall_forall. intros y Hy%list_elem_of_In.
  apply (le_Lt_Lt y b a); [by apply sorted_le_last with ys | done].
Qed.

Lemma Forall_nlt_last xs a b : StronglySorted (le cmp) (xs ++ [a]) -> cmp b a <> Lt ->
  Forall (fun x => cmp b x <> Lt) (xs ++ [a]).
Proof.
  intros Hs Hba. apply Forall_forall. intros x Hx%list_elem_of_In Hbx.
  apply Hba, (Lt_le_Lt cmp b x a Hbx). by apply sorted_le_last with xs.
Qed.

(** The stable merge of two sorted runs is the sort of their
    concatenation. *)
Lemma merge_sorted_sort l1 l2 : StronglySorted (le cmp) l1 -> StronglySorted (le cmp) l2 ->
  merge cmp l1 l2 = sort_by cmp (l1 ++ l2).
Proof. intros H1 H2. by rewrite <- merge_sort_by, !sort_by_sorted. Qed.

(** On a sorted list, the span of a test that holds of a prefix of the
    order counts the elements that pass it. *)
Lemma span_len_filter (p : A -> bool) (l : list A) : StronglySorted (le cmp) l ->
  (forall x y, le cmp x y -> p y = true -> p x = true) -> span_len p l = length (List.filter p l).
Proof.
  intros Hs Hm. induction Hs as [|x l Hs IH Hx]; cbn; [done|].
  destruct (p x) eqn:E; cbn [length]; [by rewrite IH|].
  rewrite filter_none; [done|]. intros y Hy. destruct (p y) eqn:Ey; [|done].
  apply list_elem_of_In in Hy. eapply Forall_forall in Hx; [|exact Hy].
  by rewrite (Hm x y Hx Ey) in E.
Qed.
End MergeFacts.
