(* ===== verification/V8Gallop.v ===== *)
(** * Smi arithmetic, the work array, [Copy] and the gallops of V8's TimSort

    V8's TimSort (array-sort.tq) keeps its indices as Smis, small
    integers tagged in a machine word: on a 64-bit Node.js build without
    pointer compression a Smi is a 32-bit two's-complement integer, so
    [(offset << 1) + 1] can wrap, and the code tests [offset <= 0] to
    catch it. Indices here are [Z] with that wrap written out
    ([smi_wrap]); some of them do go negative ([lastOfs = hint - offset]
    may be [-1], [cursorA] may step below [baseA]).

    The work array and the temporary array are lists; [rd] and [wr] are
    the element reads and writes [a.objects[i]] at a Smi index, and
    [Copy] ([copy], and [copy_within] when source and target are the
    same array) moves a block forwards or backwards as the Torque macro
    does.

    [GallopLeft] and [GallopRight] search a sorted run from a hint,
    first by exponential probing away from it ([gallop_probe]), then by
    binary search ([gallop_bin]). The two Torque functions have the same
    control flow and differ only in the test: [GallopLeft] asks
    [a[i] < key], [GallopRight] asks [not (key < a[i])]. [gallop] is
    that control flow over the test [p], and the two functions are its
    instances. On a sorted run, both return the length of the run's
    prefix that passes the test ([span_len]), from any hint. *)

From S2P Require Import Prelude ArraySort V8Sort Merge.

(** [kSmiMaxValue] for 32-bit Smis. *)
Definition smi_max : Z := 2 ^ 31 - 1.

(** The 32-bit two's-complement value of an integer. *)
Definition smi_wrap (z : Z) : Z := ((z + 2 ^ 31) mod 2 ^ 32 - 2 ^ 31)%Z.

Section Access.
Context {A : Type}.

(** [a.objects[i]] *)
Definition rd (a : list A) (i : Z) : option A :=
  if (i <? 0)%Z then None else a !! Z.to_nat i.

(** [a.objects[i] = v] *)
Definition wr (a : list A) (i : Z) (v : A) : list A :=
  if (i <? 0)%Z then a else <[Z.to_nat i := v]> a.

(** [dst.objects[i] = src.objects[j]] *)
Definition mv (dst : list A) (i : Z) (src : list A) (j : Z) : list A :=
  match rd src j with Some v => wr dst i v | None => dst end.

(** [while (srcIdx >= srcPos) target[dstIdx--] = source[srcIdx--];] *)
Fixpoint copy_down (src dst : list A) (srcIdx dstIdx : Z) (k : nat) : list A :=
  match k with
  | O => dst
  | S k' => copy_down src (mv dst dstIdx src srcIdx) (srcIdx - 1) (dstIdx - 1) k'
  end.

(** [while (srcIdx < to) target[dstIdx++] = source[srcIdx++];] *)
Fixpoint copy_up (src dst : list A) (srcIdx dstIdx : Z) (k : nat) : list A :=
  match k with
  | O => dst
  | S k' => copy_up src (mv dst dstIdx src srcIdx) (srcIdx + 1) (dstIdx + 1) k'
  end.

(** [Copy(source, srcPos, target, dstPos, length)] between two arrays. *)
Definition copy (src dst : list A) (srcPos dstPos len : Z) : list A :=
  if (srcPos <? dstPos)%Z
  then copy_down src dst (srcPos + len - 1) (dstPos + len - 1) (Z.to_nat len)
  else copy_up src dst srcPos dstPos (Z.to_nat len).

(** The same loops when source and target are one array: every read
    sees the writes before it. *)
Fixpoint move_down (w : list A) (srcIdx dstIdx : Z) (k : nat) : list A :=
  match k with
  | O => w
  | S k' => move_down (mv w dstIdx w srcIdx) (srcIdx - 1) (dstIdx - 1) k'
  end.

Fixpoint move_up (w : list A) (srcIdx dstIdx : Z) (k : nat) : list A :=
  match k with
  | O => w
  | S k' => move_up (mv w dstIdx w srcIdx) (srcIdx + 1) (dstIdx + 1) k'
  end.

(** [Copy(workArray, srcPos, workArray, dstPos, length)] *)
Definition copy_within (w : list A) (srcPos dstPos len : Z) : list A :=
  if (srcPos <? dstPos)%Z
  then move_down w (srcPos + len - 1) (dstPos + len - 1) (Z.to_nat len)
  else move_up w srcPos dstPos (Z.to_nat len).
End Access.

(** ** The gallops *)

(** The probing loop, away from the hint, over offsets: [q o] says
    whether the element at offset [o] lets the probe go on.
    [while (offset < maxOfs) { if (!q(offset)) break; lastOfs = offset;
     offset = (offset << 1) + 1; if (offset <= 0) offset = maxOfs; }] *)
Fixpoint gallop_probe (q : Z -> bool) (maxOfs lastOfs offset : Z) (fuel : nat) : Z * Z :=
  match fuel with
  | O => (lastOfs, offset)
  | S fuel' =>
      if (offset <? maxOfs)%Z then
        if q offset then
          let next := smi_wrap (Z.shiftl offset 1 + 1) in
          gallop_probe q maxOfs offset (if (next <=? 0)%Z then maxOfs else next) fuel'
        else (lastOfs, offset)
      else (lastOfs, offset)
  end.

(** [while (lastOfs < offset) { m = lastOfs + ((offset - lastOfs) >> 1);
     if (p(m)) lastOfs = m + 1; else offset = m; } return offset;] *)
Fixpoint gallop_bin (p : Z -> bool) (lastOfs offset : Z) (fuel : nat) : Z :=
  match fuel with
  | O => offset
  | S fuel' =>
      if (lastOfs <? offset)%Z then
        let m := (lastOfs + Z.shiftr (offset - lastOfs) 1)%Z in
        if p m then gallop_bin p (m + 1) offset fuel' else gallop_bin p lastOfs m fuel'
      else offset
  end.

(** The body shared by [GallopLeft] and [GallopRight]: probe right of
    the hint when [p] holds there, left of it otherwise, clamp the
    offset to [maxOfs], translate back to indices from [base], and
    finish by binary search on [(lastOfs, offset]]. Each loop stops
    within [length] rounds. *)
Definition gallop (p : Z -> bool) (len hint : Z) : Z :=
  let fuel := Z.to_nat len in
  let '(lastOfs, offset) :=
    if p hint then
      let maxOfs := (len - hint)%Z in
      let '(lastOfs, offset) := gallop_probe (fun o => p (hint + o)%Z) maxOfs 0 1 fuel in
      ((lastOfs + hint)%Z, (Z.min offset maxOfs + hint)%Z)
    else
      let maxOfs := (hint + 1)%Z in
      let '(lastOfs, offset) := gallop_probe (fun o => negb (p (hint - o)%Z)) maxOfs 0 1 fuel in
      ((hint - Z.min offset maxOfs)%Z, (hint - lastOfs)%Z)
  in gallop_bin p (lastOfs + 1) offset fuel.

Section Gallops.
Context {A : Type} (cmp : A -> A -> comparison).

(** [GallopLeft(array, key, base, length, hint)]: the test is
    [Compare(array[base + i], key) < 0]. *)
Definition gallop_left (a : list A) (key : A) (base len hint : Z) : Z :=
  gallop (fun i => match rd a (base + i) with Some x => is_lt (cmp x key) | None => false end) len hint.

(** [GallopRight(array, key, base, length, hint)]: the test is
    [Compare(key, array[base + i]) >= 0]. *)
Definition gallop_right (a : list A) (key : A) (base len hint : Z) : Z :=
  gallop (fun i => match rd a (base + i) with Some x => negb (is_lt (cmp key x)) | None => false end) len hint.
End Gallops.

(** ** Loops with [break] and [goto]

    The merge loops of array-sort.tq leave by [break], by [goto] to the
    labels [Succeed], [CopyA] or [CopyB], or go round again. A body
    returns one of these; [loop] is [while (true) body], which stops as
    [Stuck] if its fuel runs out (the lemmas show it does not). *)

Inductive merge_label := Succeed | CopyA | CopyB.

Inductive flow (L St : Type) := Goto (l : L) (s : St) | Break (s : St) | Cont (s : St) | Stuck.
Arguments Goto {L St} l s.
Arguments Break {L St} s.
Arguments Cont {L St} s.
Arguments Stuck {L St}.

Fixpoint loop {L St} (body : St -> flow L St) (fuel : nat) (s : St) : flow L St :=
  match fuel with
  | O => Stuck
  | S fuel' => match body s with Cont s' => loop body fuel' s' | r => r end
  end.

(** Case analysis on the first Smi test [x =? y] of the goal, as the
    loops' [if]s are met in the proofs. *)
Ltac case_zeqb := match goal with |- context [(?x =? ?y)%Z] => destruct (Z.eqb_spec x y) end.

(** ** Lemmas *)

(** [k] is the first index of [[0, len)] where [p] fails ([len] if none). *)
Definition first_false (p : Z -> bool) (len k : Z) : Prop :=
  (0 <= k <= len /\ (forall j, 0 <= j < k -> p j = true) /\ (k < len -> p k = false))%Z.

(** [p] holds on a prefix of [[0, len)]. *)
Definition prefix_true (p : Z -> bool) (len : Z) : Prop :=
  forall i j, (0 <= i <= j)%Z -> (j < len)%Z -> p j = true -> p i = true.

Lemma first_false_unique p len k1 k2 : first_false p len k1 -> first_false p len k2 -> k1 = k2.
Proof.
  intros (H1 & T1 & F1) (H2 & T2 & F2).
  destruct (Z.lt_trichotomy k1 k2) as [Hlt|[Heq|Hgt]]; [|done|].
  - specialize (F1 ltac:(lia)). rewrite T2 in F1 by lia. discriminate.
  - specialize (F2 ltac:(lia)). rewrite T1 in F2 by lia. discriminate.
Qed.

(** The doubled offset either stays a Smi and grows, or wraps to a
    non-positive value, which the loop replaces by [maxOfs]. *)
Lemma smi_wrap_double o : (0 <= o <= smi_max)%Z ->
  smi_wrap (Z.shiftl o 1 + 1) = (2 * o + 1)%Z \/ (smi_wrap (Z.shiftl o 1 + 1) <= 0)%Z.
Proof.
  intros Ho. unfold smi_wrap, smi_max in *. rewrite Z.shiftl_mul_pow2 by lia.
  change (2 ^ 1)%Z with 2%Z.
  destruct (Z.lt_ge_cases (o * 2 + 1) (2 ^ 31)) as [Hs|Hs].
  - left. rewrite Z.mod_small by lia. lia.
  - right. assert (E : ((o * 2 + 1 + 2 ^ 31) mod 2 ^ 32 = o * 2 + 1 + 2 ^ 31 - 2 ^ 32)%Z)
      by (symmetry; apply Z.mod_unique with 1%Z; lia).
    rewrite E. lia.
Qed.

Lemma gallop_next_gt o maxOfs : (0 <= o < maxOfs)%Z -> (maxOfs <= smi_max)%Z ->
  (o < if (smi_wrap (Z.shiftl o 1 + 1) <=? 0)%Z then maxOfs else smi_wrap (Z.shiftl o 1 + 1))%Z.
Proof.
  intros Ho Hm. destruct (smi_wrap_double o ltac:(lia)) as [->|Hle].
  - destruct (Z.leb_spec (2 * o + 1) 0); lia.
  - rewrite (proj2 (Z.leb_le _ _) Hle). lia.
Qed.

(** The probing loop ends with [q] holding at [lastOfs] and, below
    [maxOfs], failing at [offset]. *)
Lemma gallop_probe_spec q maxOfs lastOfs offset fuel :
  (0 <= lastOfs < offset)%Z -> (lastOfs < maxOfs <= smi_max)%Z -> q lastOfs = true ->
  (maxOfs - offset <= Z.of_nat fuel)%Z ->
  let '(lo, off) := gallop_probe q maxOfs lastOfs offset fuel in
  (0 <= lo < off)%Z /\ (lo < maxOfs)%Z /\ q lo = true /\ ((maxOfs <= off)%Z \/ q off = false).
Proof.
  revert lastOfs offset. induction fuel as [|fuel IH]; intros lastOfs offset Ho Hm Hq Hf; cbn [gallop_probe].
  - split_and!; first [lia | done | left; lia].
  - destruct (Z.ltb_spec offset maxOfs) as [Hlt|Hge]; [|split_and!; first [lia | done | left; lia]].
    destruct (q offset) eqn:Eq; [|split_and!; first [lia | done | by right]].
    pose proof (gallop_next_gt offset maxOfs ltac:(lia) ltac:(lia)) as Hn. cbv zeta.
    set (nx := if (_ <=? 0)%Z then maxOfs else _) in *. apply IH; [lia | lia | done | lia].
Qed.

Lemma gallop_bin_spec p len lo hi fuel :
  prefix_true p len -> (0 <= lo <= hi)%Z -> (hi <= len)%Z ->
  (forall j, (0 <= j < lo)%Z -> p j = true) -> ((hi < len)%Z -> p hi = false) ->
  (hi - lo <= Z.of_nat fuel)%Z -> first_false p len (gallop_bin p lo hi fuel).
Proof.
  intros Hp. revert lo hi. induction fuel as [|fuel IH]; intros lo hi Hlh Hhl Hlo Hhi Hf; cbn [gallop_bin].
  - assert (lo = hi) as -> by lia. unfold first_false. split_and!; first [lia | done].
  - destruct (Z.ltb_spec lo hi) as [Hlt|Hge];
      [|assert (lo = hi) as -> by lia; unfold first_false; split_and!; first [lia | done]].
    rewrite Z.shiftr_div_pow2 by lia. change (2 ^ 1)%Z with 2%Z.
    assert (Hm : (0 <= (hi - lo) / 2 < hi - lo)%Z) by (split; [apply Z.div_pos | apply Z.div_lt]; lia).
    destruct (p (lo + (hi - lo) / 2)%Z) eqn:E.
    + apply IH; [lia | lia | | done | lia]. intros j Hj.
      apply (Hp j (lo + (hi - lo) / 2)%Z); [lia | lia | done].
    + apply IH; [lia | lia | done | done | lia].
Qed.

(** [gallop] finds the first failure of a prefix-closed test, from any
    hint inside the run. *)
Lemma gallop_spec p len hint :
  prefix_true p len -> (0 <= hint < len)%Z -> (len <= smi_max)%Z -> first_false p len (gallop p len hint).
Proof.
  intros Hp Hh Hl. unfold gallop.
  destruct (p hint) eqn:Eh.
  - pose proof (gallop_probe_spec (fun o => p (hint + o)%Z) (len - hint) 0 1 (Z.to_nat len)) as Hpr.
    destruct (gallop_probe _ _ _ _ _) as [lo off].
    destruct Hpr as (Hlo & Hlm & Hq & Hoff); [lia | lia | by rewrite Z.add_0_r | lia |].
    apply gallop_bin_spec; [done | lia | lia | | | lia].
    + intros j Hj. apply (Hp j (hint + lo)%Z); [lia | lia | done].
    + intros Hlt. destruct Hoff as [Hoff|Hoff]; [lia|]. by rewrite Z.min_l, Z.add_comm by lia.
  - pose proof (gallop_probe_spec (fun o => negb (p (hint - o)%Z)) (hint + 1) 0 1 (Z.to_nat len)) as Hpr.
    destruct (gallop_probe _ _ _ _ _) as [lo off].
    destruct Hpr as (Hlo & Hlm & Hq & Hoff); [lia | lia | by rewrite Z.sub_0_r, Eh | lia |].
    apply negb_true_iff in Hq.
    apply gallop_bin_spec; [done | lia | lia | | done | lia].
    intros j Hj. destruct Hoff as [Hoff|Hoff]; [lia|]. apply negb_false_iff in Hoff.
    apply (Hp j (hint - off)%Z); [lia | lia | done].
Qed.

Section GallopRuns.
Context {A : Type} (cmp : A -> A -> comparison) `{!Consistent cmp}.

(** The test at index [i] of the run that starts at [base]. *)
Definition test_at (f : A -> bool) (a : list A) (base i : Z) : bool :=
  match rd a (base + i) with Some x => f x | None => false end.

Lemma rd_run (a : list A) base (r : list A) i : (forall j, j < length r -> rd a (base + Z.of_nat j) = r !! j) ->
  (0 <= i < Z.of_nat (length r))%Z -> rd a (base + i) = r !! Z.to_nat i.
Proof. intros Hr Hi. rewrite <- (Hr (Z.to_nat i)) by lia. by rewrite Z2Nat.id by lia. Qed.

Lemma span_first_false (f : A -> bool) (a : list A) base (r : list A) :
  (forall j, j < length r -> rd a (base + Z.of_nat j) = r !! j) ->
  first_false (test_at f a base) (Z.of_nat (length r)) (Z.of_nat (span_len f r)).
Proof.
  intros Hr. pose proof (span_len_le f r) as Hle. unfold first_false, test_at. split_and!; [lia | lia | |].
  - intros j Hj. rewrite (rd_run a base r j Hr) by lia.
    destruct (lookup_lt_is_Some_2 r (Z.to_nat j)) as [x Hx]; [lia|]. rewrite Hx.
    pose proof (span_take f r) as Ht. rewrite <- (lookup_take_lt r (span_len f r)) in Hx by lia.
    by eapply Forall_lookup_1 in Ht; [|exact Hx].
  - intros Hlt. rewrite (rd_run a base r _ Hr) by lia. rewrite Nat2Z.id.
    destruct (drop (span_len f r) r) as [|x l'] eqn:Ed.
    + apply (f_equal length) in Ed. rewrite length_drop in Ed. cbn in Ed. lia.
    + rewrite <- (Nat.add_0_r (span_len f r)), <- lookup_drop, Ed. cbn. by apply (span_drop f r x l').
Qed.

Lemma sorted_prefix_true (f : A -> bool) (a : list A) base (r : list A) :
  StronglySorted (le cmp) r -> (forall x y, le cmp x y -> f y = true -> f x = true) ->
  (forall j, j < length r -> rd a (base + Z.of_nat j) = r !! j) ->
  prefix_true (test_at f a base) (Z.of_nat (length r)).
Proof.
  intros Hs Hf Hr i j Hij Hj. unfold test_at. rewrite !(rd_run a base r _ Hr) by lia.
  destruct (lookup_lt_is_Some_2 r (Z.to_nat j)) as [y Hy]; [lia|].
  destruct (lookup_lt_is_Some_2 r (Z.to_nat i)) as [x Hx]; [lia|]. rewrite Hx, Hy.
  apply Hf. destruct (Nat.eq_dec (Z.to_nat i) (Z.to_nat j)) as [Heq|Hne].
  - rewrite Heq, Hy in Hx. injection Hx as ->. unfold le. by rewrite (cmp_refl cmp).
  - apply (StronglySorted_lookup _ r (Z.to_nat i) (Z.to_nat j)); [done | lia | done | done].
Qed.

(** On a sorted run, a gallop from any hint finds the end of the prefix
    that passes its test. *)
Lemma gallop_span (f : A -> bool) (a : list A) base (r : list A) hint :
  StronglySorted (le cmp) r -> (forall x y, le cmp x y -> f y = true -> f x = true) ->
  (forall j, j < length r -> rd a (base + Z.of_nat j) = r !! j) ->
  (0 <= hint < Z.of_nat (length r))%Z -> (Z.of_nat (length r) <= smi_max)%Z ->
  gallop (test_at f a base) (Z.of_nat (length r)) hint = Z.of_nat (span_len f r).
Proof.
  intros Hs Hf Hr Hh Hl. apply (first_false_unique (test_at f a base) (Z.of_nat (length r))).
  - apply gallop_spec; [by apply sorted_prefix_true | done | done].
  - by apply span_first_false.
Qed.

Lemma lt_key_mono (key x y : A) : le cmp x y -> is_lt (cmp y key) = true -> is_lt (cmp x key) = true.
Proof. rewrite !is_lt_true. intros H1 H2. by apply (le_Lt_Lt cmp x y key). Qed.

Lemma not_gt_key_mono (key x y : A) : le cmp x y ->
  negb (is_lt (cmp key y)) = true -> negb (is_lt (cmp key x)) = true.
Proof.
  intros Hxy. rewrite !negb_true_iff, <- !not_true_iff_false, !is_lt_true.
  intros Hy Hx. apply Hy. by apply (Lt_le_Lt cmp key x y).
Qed.

Lemma gallop_left_span (a : list A) (key : A) base (r : list A) hint :
  StronglySorted (le cmp) r -> (forall j, j < length r -> rd a (base + Z.of_nat j) = r !! j) ->
  (0 <= hint < Z.of_nat (length r))%Z -> (Z.of_nat (length r) <= smi_max)%Z ->
  gallop_left cmp a key base (Z.of_nat (length r)) hint =
  Z.of_nat (span_len (fun x => is_lt (cmp x key)) r).
Proof.
  intros Hs Hr Hh Hl. apply (gallop_span (fun x => is_lt (cmp x key)) a base r hint Hs); [|done..].
  intros x y. apply lt_key_mono.
Qed.

Lemma gallop_right_span (a : list A) (key : A) base (r : list A) hint :
  StronglySorted (le cmp) r -> (forall j, j < length r -> rd a (base + Z.of_nat j) = r !! j) ->
  (0 <= hint < Z.of_nat (length r))%Z -> (Z.of_nat (length r) <= smi_max)%Z ->
  gallop_right cmp a key base (Z.of_nat (length r)) hint =
  Z.of_nat (span_len (fun x => negb (is_lt (cmp key x))) r).
Proof.
  intros Hs Hr Hh Hl. apply (gallop_span (fun x => negb (is_lt (cmp key x))) a base r hint Hs); [|done..].
  intros x y. apply not_gt_key_mono.
Qed.
End GallopRuns.

(** ** Reads, writes and copies on a work array seen as segments *)

Section Segments.
Context {A : Type}.
Implicit Types l pre rest blk J : list A.

Lemma rd_mid l1 l2 j : rd (l1 ++ l2) (Z.of_nat (length l1 + j)) = l2 !! j.
Proof.
  unfold rd. rewrite (proj2 (Z.ltb_ge _ _)) by lia. rewrite Nat2Z.id.
  rewrite lookup_app_r by lia. f_equal. lia.
Qed.

Lemma rd_at l1 x l2 : rd (l1 ++ x :: l2) (Z.of_nat (length l1)) = Some x.
Proof. rewrite <- (Nat.add_0_r (length l1)). by rewrite rd_mid. Qed.

Lemma wr_at l1 y l2 v : wr (l1 ++ y :: l2) (Z.of_nat (length l1)) v = l1 ++ v :: l2.
Proof.
  unfold wr. rewrite (proj2 (Z.ltb_ge _ _)) by lia. rewrite Nat2Z.id.
  rewrite insert_app_r_alt, Nat.sub_diag by lia. done.
Qed.

Lemma copy_up_seg src s1 blk s3 d1 d2 d3 :
  src = s1 ++ blk ++ s3 -> length d2 = length blk ->
  copy_up src (d1 ++ d2 ++ d3) (Z.of_nat (length s1)) (Z.of_nat (length d1)) (length blk) = d1 ++ blk ++ d3.
Proof.
  revert s1 d1 d2. induction blk as [|b blk IH]; intros s1 d1 d2 Hs Hl; cbn [length copy_up].
  - destruct d2; [done | discriminate].
  - destruct d2 as [|e d2]; [discriminate|]. cbn in Hl. unfold mv.
    assert (Hr : rd src (Z.of_nat (length s1)) = Some b) by (rewrite Hs; cbn [app]; apply rd_at).
    rewrite Hr. cbn [app]. rewrite wr_at.
    assert (E2 : d1 ++ b :: d2 ++ d3 = (d1 ++ [b]) ++ d2 ++ d3) by (by rewrite <- app_assoc).
    rewrite E2. replace (Z.of_nat (length s1) + 1)%Z with (Z.of_nat (length (s1 ++ [b]))) by (rewrite length_app; cbn; lia).
    replace (Z.of_nat (length d1) + 1)%Z with (Z.of_nat (length (d1 ++ [b]))) by (rewrite length_app; cbn; lia).
    rewrite (IH (s1 ++ [b])); [by rewrite <- app_assoc | by rewrite Hs, <- app_assoc | lia].
Qed.

Lemma copy_down_seg src s1 blk s3 d1 d2 d3 :
  src = s1 ++ blk ++ s3 -> length d2 = length blk ->
  copy_down src (d1 ++ d2 ++ d3) (Z.of_nat (length s1 + length blk) - 1) (Z.of_nat (length d1 + length blk) - 1)
    (length blk) = d1 ++ blk ++ d3.
Proof.
  revert s3 d2 d3. induction blk as [|b blk IH] using rev_ind; intros s3 d2 d3 Hs Hl; cbn [length copy_down].
  - destruct d2; [done | discriminate].
  - rewrite length_app in Hl |- *. cbn [length] in Hl |- *.
    destruct d2 as [|e d2 _] using rev_ind; [rewrite length_nil in Hl; lia|].
    rewrite length_app in Hl. cbn in Hl. rewrite Nat.add_1_r. cbn [copy_down]. unfold mv.
    assert (Hr : rd src (Z.of_nat (length s1 + S (length blk)) - 1) = Some b).
    { replace (Z.of_nat (length s1 + S (length blk)) - 1)%Z with (Z.of_nat (length (s1 ++ blk))) by (rewrite length_app; lia).
      rewrite Hs. replace (s1 ++ (blk ++ [b]) ++ s3) with ((s1 ++ blk) ++ b :: s3) by (by rewrite <- !app_assoc).
      apply rd_at. }
    rewrite Hr.
    assert (E2 : d1 ++ (d2 ++ [e]) ++ d3 = (d1 ++ d2) ++ e :: d3) by (by rewrite <- !app_assoc).
    replace (Z.of_nat (length d1 + S (length blk)) - 1)%Z with (Z.of_nat (length (d1 ++ d2))) by (rewrite length_app; lia).
    rewrite E2, wr_at.
    replace (Z.of_nat (length s1 + S (length blk)) - 1 - 1)%Z with (Z.of_nat (length s1 + length blk) - 1)%Z by lia.
    replace (Z.of_nat (length (d1 ++ d2)) - 1)%Z with (Z.of_nat (length d1 + length blk) - 1)%Z by (rewrite length_app; lia).
    rewrite <- !app_assoc. cbn [app]. rewrite (IH (b :: s3) d2 (b :: d3)); [| by rewrite Hs, <- !app_assoc | lia].
    done.
Qed.

(** [Copy] between two arrays writes the block, whichever direction it
    runs. *)
Lemma copy_seg src s1 blk s3 d1 d2 d3 :
  src = s1 ++ blk ++ s3 -> length d2 = length blk ->
  copy src (d1 ++ d2 ++ d3) (Z.of_nat (length s1)) (Z.of_nat (length d1)) (Z.of_nat (length blk)) = d1 ++ blk ++ d3.
Proof.
  intros Hs Hl. unfold copy. rewrite Nat2Z.id. destruct (Z.ltb _ _).
  - rewrite <- (copy_down_seg src s1 blk s3 d1 d2 d3 Hs Hl). f_equal; lia.
  - by apply (copy_up_seg src s1 blk s3).
Qed.

(** Moving a block left inside one array (source after target): the
    block lands at the target, and the slots it passes over keep their
    number. *)
Lemma move_up_seg pre J blk rest :
  exists J', length J' = length J /\
  move_up (pre ++ J ++ blk ++ rest) (Z.of_nat (length pre + length J)) (Z.of_nat (length pre)) (length blk) =
  pre ++ blk ++ J' ++ rest.
Proof.
  revert pre J. induction blk as [|b blk IH]; intros pre J; cbn [length move_up]; [by exists J|].
  unfold mv.
  assert (Hr : rd (pre ++ J ++ (b :: blk) ++ rest) (Z.of_nat (length pre + length J)) = Some b).
  { replace (pre ++ J ++ (b :: blk) ++ rest) with ((pre ++ J) ++ b :: blk ++ rest) by (by rewrite <- app_assoc).
    rewrite <- length_app. apply rd_at. }
  rewrite Hr. cbn [app].
  destruct J as [|j J].
  - cbn [app length]. rewrite Nat.add_0_r, wr_at.
    destruct (IH (pre ++ [b]) []) as (J' & HJ & E). exists J'. split; [done|].
    cbn [app length] in E. rewrite <- !app_assoc in E. cbn [app] in E. rewrite <- E.
    f_equal; rewrite ?length_app; cbn [length]; lia.
  - cbn [app]. rewrite wr_at.
    destruct (IH (pre ++ [b]) (J ++ [b])) as (J' & HJ & E). exists J'. split; [rewrite HJ, length_app; cbn; lia|].
    rewrite <- !app_assoc in E. cbn [app] in E. rewrite <- E.
    f_equal; rewrite ?length_app; cbn [length]; lia.
Qed.

Lemma move_down_seg_gen pre J blk rest si di :
  si = (Z.of_nat (length pre + length blk) - 1)%Z -> di = (si + Z.of_nat (length J))%Z ->
  exists J', length J' = length J /\
  move_down (pre ++ blk ++ J ++ rest) si di (length blk) = pre ++ J' ++ blk ++ rest.
Proof.
  revert J rest si di. induction blk as [|b blk IH] using rev_ind; intros J rest si di Hsi Hdi;
    cbn [length move_down]; [by exists J|].
  rewrite length_app. cbn [length]. rewrite Nat.add_1_r. cbn [move_down]. unfold mv.
  replace (pre ++ (blk ++ [b]) ++ J ++ rest) with ((pre ++ blk) ++ b :: J ++ rest) by (by rewrite <- !app_assoc).
  assert (Hs : si = Z.of_nat (length (pre ++ blk))) by (rewrite !length_app in *; cbn in Hsi; lia).
  assert (Hr : rd ((pre ++ blk) ++ b :: J ++ rest) si = Some b) by (rewrite Hs; apply rd_at).
  rewrite Hr. cbv beta iota. destruct J as [|j J _] using rev_ind.
  - assert (Hd : di = Z.of_nat (length (pre ++ blk))) by (cbn in Hdi; lia).
    cbn [app]. assert (Hw : wr ((pre ++ blk) ++ b :: rest) di b = (pre ++ blk) ++ b :: rest)
      by (rewrite Hd; apply wr_at). rewrite Hw, <- app_assoc. cbn [app].
    destruct (IH [] (b :: rest) (si - 1)%Z (di - 1)%Z ltac:(rewrite length_app in Hs; lia) ltac:(cbn; lia))
      as (J' & HJ & E).
    exists J'. split; [done|]. cbn [app] in E. rewrite E. by rewrite <- !app_assoc.
  - assert (Hd : di = Z.of_nat (length ((pre ++ blk) ++ b :: J))) by (rewrite !length_app in *; cbn in *; lia).
    replace ((pre ++ blk) ++ b :: (J ++ [j]) ++ rest) with (((pre ++ blk) ++ b :: J) ++ j :: rest)
      by (by rewrite <- !app_assoc).
    assert (Hw : wr (((pre ++ blk) ++ b :: J) ++ j :: rest) di b = ((pre ++ blk) ++ b :: J) ++ b :: rest)
      by (rewrite Hd; apply wr_at). rewrite Hw.
    replace (((pre ++ blk) ++ b :: J) ++ b :: rest) with (pre ++ blk ++ (b :: J) ++ b :: rest)
      by (by rewrite <- !app_assoc).
    destruct (IH (b :: J) (b :: rest) (si - 1)%Z (di - 1)%Z ltac:(rewrite length_app in Hs; lia)
      ltac:(rewrite !length_app in *; cbn in *; lia)) as (J' & HJ & E).
    exists J'. split; [rewrite HJ, length_app; cbn; lia|]. rewrite E. by rewrite <- !app_assoc.
Qed.

(** Moving a block right inside one array (source before target). *)
Lemma move_down_seg pre J blk rest :
  exists J', length J' = length J /\
  move_down (pre ++ blk ++ J ++ rest) (Z.of_nat (length pre + length blk) - 1)
    (Z.of_nat (length pre + length blk + length J) - 1) (length blk) =
  pre ++ J' ++ blk ++ rest.
Proof. apply move_down_seg_gen; lia. Qed.

(** [Copy] inside the work array, source after target. *)
Lemma copy_within_left pre J blk rest :
  exists J', length J' = length J /\
  copy_within (pre ++ J ++ blk ++ rest) (Z.of_nat (length pre + length J)) (Z.of_nat (length pre))
    (Z.of_nat (length blk)) = pre ++ blk ++ J' ++ rest.
Proof.
  unfold copy_within. rewrite (proj2 (Z.ltb_ge _ _)) by lia. rewrite Nat2Z.id. apply move_up_seg.
Qed.

(** [Copy] inside the work array, source before target. *)
Lemma copy_within_right pre J blk rest :
  exists J', length J' = length J /\
  copy_within (pre ++ blk ++ J ++ rest) (Z.of_nat (length pre)) (Z.of_nat (length pre + length J))
    (Z.of_nat (length blk)) = pre ++ J' ++ blk ++ rest.
Proof.
  unfold copy_within. rewrite Nat2Z.id. destruct (Z.ltb_spec (Z.of_nat (length pre)) (Z.of_nat (length pre + length J))).
  - destruct (move_down_seg pre J blk rest) as (J' & HJ & E). exists J'. split; [done|].
    rewrite <- E. f_equal; lia.
  - destruct J as [|j J]; [|cbn in *; lia]. exists []. split; [done|].
    destruct (move_up_seg pre [] blk rest) as (J' & HJ & E). destruct J'; [|discriminate].
    cbn [app length] in *. rewrite !Nat.add_0_r in *. exact E.
Qed.
End Segments.

(** ** Loops that make progress *)

Section Loops.
Context {L St : Type} (P : St -> Prop) (Q : L -> St -> Prop) (mu : St -> nat).

(** What one round may do from a state [s] satisfying [P]: leave by a
    [goto] in a state satisfying [Q], or go on (by [break] or round
    again) in a state satisfying [P] of smaller measure. *)
Definition flow_step (s : St) (r : flow L St) : Prop :=
  match r with
  | Goto l s' => Q l s'
  | Break s' | Cont s' => P s' /\ mu s' < mu s
  | Stuck => False
  end.

(** What the whole loop does: it leaves by a [goto] or a [break]. *)
Definition flow_done (s : St) (r : flow L St) : Prop :=
  match r with
  | Goto l s' => Q l s'
  | Break s' => P s' /\ mu s' < mu s
  | _ => False
  end.

Lemma loop_spec (body : St -> flow L St) fuel s :
  (forall s, P s -> flow_step s (body s)) -> P s -> mu s < fuel -> flow_done s (loop body fuel s).
Proof.
  intros Hb. revert s. induction fuel as [|fuel IH]; intros s Hs Hf; [lia|]. cbn [loop].
  specialize (Hb s Hs). destruct (body s) as [l s'|s'|s'|]; cbn in Hb |- *; try done.
  destruct Hb as [Hs' Hm]. specialize (IH s' Hs' ltac:(lia)).
  destruct (loop body fuel s'); cbn in IH |- *; try done. split; [tauto | lia].
Qed.
(** A loop whose body never breaks does not end by a [break]. *)
Lemma loop_no_break (body : St -> flow L St) fuel s s' :
  (forall s s', body s <> Break s') -> loop body fuel s <> Break s'.
Proof.
  intros Hb. revert s. induction fuel as [|fuel IH]; intros s; cbn [loop]; [done|].
  specialize (Hb s). destruct (body s); [done | by destruct (Hb s0) | apply IH | done].
Qed.
End Loops.

(** ** Theorems *)

Section GallopTheorems.
Context {A : Type} (cmp : A -> A -> comparison) `{!Consistent cmp}.

(** C33. On a sorted run of at most [kSmiMaxValue] elements, from any
    hint inside the run, [GallopLeft(key)] returns the number of the
    run's elements that compare below [key], and [GallopRight(key)] the
    number of those that do not compare above it: the exponential
    probing, with its overflow guard, and the binary search find the
    insertion point of [key] before, respectively after, its equals. *)
Theorem gallop_counts (a : list A) (key : A) base (r : list A) hint :
  StronglySorted (le cmp) r -> (forall j, j < length r -> rd a (base + Z.of_nat j) = r !! j) ->
  (0 <= hint < Z.of_nat (length r))%Z -> (Z.of_nat (length r) <= smi_max)%Z ->
  gallop_left cmp a key base (Z.of_nat (length r)) hint =
    Z.of_nat (length (List.filter (fun x => is_lt (cmp x key)) r)) /\
  gallop_right cmp a key base (Z.of_nat (length r)) hint =
    Z.of_nat (length (List.filter (fun x => negb (is_lt (cmp key x))) r)).
Proof.
  intros Hs Hr Hh Hl. rewrite (gallop_left_span cmp), (gallop_right_span cmp) by done.
  rewrite (span_len_filter cmp _ r Hs (lt_key_mono cmp key)).
  by rewrite (span_len_filter cmp _ r Hs (not_gt_key_mono cmp key)).
Qed.
End GallopTheorems.

(** ** Witnesses *)

Lemma gallop_counts_witness :
  let a := [(9, 0); (0, 1); (1, 2); (1, 3); (1, 4); (3, 5); (4, 6)]%N in
  let r := [(0, 1); (1, 2); (1, 3); (1, 4); (3, 5); (4, 6)]%N in
  StronglySorted (le by_key) r /\
  (forall j, j < length r -> rd a (1 + Z.of_nat j) = r !! j) /\
  (gallop_left by_key a (1, 7)%N 1 (Z.of_nat (length r)) 5 = 1 /\
   gallop_right by_key a (1, 7)%N 1 (Z.of_nat (length r)) 5 = 4)%Z /\
  (gallop_left by_key a (1, 7)%N 1 (Z.of_nat (length r)) 5 =
     Z.of_nat (length (List.filter (fun x => is_lt (by_key x (1, 7)%N)) r)) /\
   gallop_right by_key a (1, 7)%N 1 (Z.of_nat (length r)) 5 =
     Z.of_nat (length (List.filter (fun x => negb (is_lt (by_key (1, 7)%N x))) r))).
Proof.
  cbv zeta.
  assert (Hs : StronglySorted (le by_key) [(0, 1); (1, 2); (1, 3); (1, 4); (3, 5); (4, 6)]%N)
    by (repeat constructor; vm_compute; discriminate).
  assert (Hr : forall j, j < length [(0, 1); (1, 2); (1, 3); (1, 4); (3, 5); (4, 6)]%N ->
    rd [(9, 0); (0, 1); (1, 2); (1, 3); (1, 4); (3, 5); (4, 6)]%N (1 + Z.of_nat j) =
    [(0, 1); (1, 2); (1, 3); (1, 4); (3, 5); (4, 6)]%N !! j)
    by (intros j Hj; cbn in Hj; do 6 (destruct j as [|j]; [reflexivity|]); lia).
  refine (conj Hs (conj Hr (conj _ _))); [vm_compute; split; reflexivity|].
  apply (gallop_counts by_key _ _ _ _ _ Hs Hr); unfold smi_max; cbn; lia.
Defined.
