(* ===== verification/V8MergeLow.v ===== *)
(** * [MergeLow]: merging two adjacent runs from the left

    V8's [MergeLow(baseA, lengthA, baseB, lengthB)] (array-sort.tq)
    merges the run [A] at [baseA] with the run [B] that follows it, when
    [A] is the shorter. It copies [A] to the temporary array and fills
    the work array from [baseA] on ([dest]), taking from the copy
    ([cursorTemp]) or from [B] ([cursorB]). In the straightforward mode
    ([low_one]) it compares one element of each and counts how many
    times in a row each run won; once a run has won [minGallop] times,
    it switches to galloping ([low_gallop_round], with [low_gallop_b]
    and [low_gallop_end] for the rest of the round): [GallopRight] finds
    how many elements of [A] go before the next element of [B], and
    [GallopLeft] how many of [B] go before the next of [A], each moved as
    a block. It stays in that mode while either count reaches
    [kMinGallopWins] = 7, adapting [minGallop] (kept in the sort state
    for the next merge). The loops leave by [goto Succeed] (a run is
    exhausted; what is left of the copy of [A] is put back) or
    [goto CopyB] (one element of [A] is left: [B]'s rest moves left and
    that element goes last).

    [low_st] holds the loop variables; [low_one], the gallop round and
    [low_round] are the bodies of the three [while] loops, run by
    [loop]; [merge_low] is the whole function, returning the work array
    and [sortState.minGallop]. *)

From S2P Require Import Prelude ArraySort V8Sort Merge V8Gallop.

Definition kMinGallopWins : Z := 7.

Section MergeLow.
Context {A : Type} (cmp : A -> A -> comparison).

Record low_st := LowSt {
  lw : list A;   (* workArray *)
  ldest : Z;     (* dest *)
  lct : Z;       (* cursorTemp *)
  lcb : Z;       (* cursorB *)
  lla : Z;       (* lengthA *)
  llb : Z;       (* lengthB *)
  lwa : Z;       (* nofWinsA *)
  lwb : Z;       (* nofWinsB *)
  lmg : Z;       (* minGallop *)
  lsmg : Z       (* sortState.minGallop *)
}.

Definition low_set_wins (s : low_st) (wa wb : Z) : low_st :=
  LowSt (lw s) (ldest s) (lct s) (lcb s) (lla s) (llb s) wa wb (lmg s) (lsmg s).

Definition low_set_mg (s : low_st) (mg smg : Z) : low_st :=
  LowSt (lw s) (ldest s) (lct s) (lcb s) (lla s) (llb s) (lwa s) (lwb s) mg smg.

(** [workArray[dest++] = workArray[cursorB++]; --lengthB;] *)
Definition low_take_b (s : low_st) : low_st :=
  LowSt (mv (lw s) (ldest s) (lw s) (lcb s)) (ldest s + 1) (lct s) (lcb s + 1)
    (lla s) (llb s - 1) (lwa s) (lwb s) (lmg s) (lsmg s).

(** [workArray[dest++] = tempArray[cursorTemp++]; --lengthA;] *)
Definition low_take_a (temp : list A) (s : low_st) : low_st :=
  LowSt (mv (lw s) (ldest s) temp (lct s)) (ldest s + 1) (lct s + 1) (lcb s)
    (lla s - 1) (llb s) (lwa s) (lwb s) (lmg s) (lsmg s).

(** [Copy(tempArray, cursorTemp, workArray, dest, k); dest += k;
     cursorTemp += k; lengthA -= k;] *)
Definition low_copy_a (temp : list A) (s : low_st) (k : Z) : low_st :=
  LowSt (copy temp (lw s) (lct s) (ldest s) k) (ldest s + k) (lct s + k) (lcb s)
    (lla s - k) (llb s) (lwa s) (lwb s) (lmg s) (lsmg s).

(** [Copy(workArray, cursorB, workArray, dest, k); dest += k;
     cursorB += k; lengthB -= k;] *)
Definition low_copy_b (s : low_st) (k : Z) : low_st :=
  LowSt (copy_within (lw s) (lcb s) (ldest s) k) (ldest s + k) (lct s) (lcb s + k)
    (lla s) (llb s - k) (lwa s) (lwb s) (lmg s) (lsmg s).

(** One round of the straightforward mode. *)
Definition low_one (temp : list A) (s : low_st) : flow merge_label low_st :=
  match rd (lw s) (lcb s), rd temp (lct s) with
  | Some b, Some a =>
      if is_lt (cmp b a) then
        let s := low_set_wins (low_take_b s) 0 (lwb s + 1) in
        if (llb s =? 0)%Z then Goto Succeed s
        else if (lmg s <=? lwb s)%Z then Break s else Cont s
      else
        let s := low_set_wins (low_take_a temp s) (lwa s + 1) 0 in
        if (lla s =? 1)%Z then Goto CopyB s
        else if (lmg s <=? lwa s)%Z then Break s else Cont s
  | _, _ => Stuck
  end.

(** The end of a galloping round: [workArray[dest++] =
    tempArray[cursorTemp++]; if (--lengthA == 1) goto CopyB;] and the
    loop test [nofWinsA >= kMinGallopWins || nofWinsB >= kMinGallopWins]. *)
Definition low_gallop_end (temp : list A) (s : low_st) : flow merge_label low_st :=
  let s := low_take_a temp s in
  if (lla s =? 1)%Z then Goto CopyB s
  else if (kMinGallopWins <=? lwa s)%Z || (kMinGallopWins <=? lwb s)%Z then Cont s else Break s.

(** The middle of a galloping round: [workArray[dest++] =
    workArray[cursorB++]; if (--lengthB == 0) goto Succeed;] then
    [nofWinsB = GallopLeft(workArray, tempArray[cursorTemp], cursorB,
    lengthB, 0)] and the move of that block of [B]. *)
Definition low_gallop_b (temp : list A) (s : low_st) : flow merge_label low_st :=
  let s := low_take_b s in
  if (llb s =? 0)%Z then Goto Succeed s
  else
    match rd temp (lct s) with
    | Some keyA =>
        let k := gallop_left cmp (lw s) keyA (lcb s) (llb s) 0 in
        let s := low_set_wins s (lwa s) k in
        if (0 <? k)%Z then
          let s := low_copy_b s k in
          if (llb s =? 0)%Z then Goto Succeed s else low_gallop_end temp s
        else low_gallop_end temp s
    | None => Stuck
    end.

(** A galloping round: [minGallop = SmiMax(1, minGallop - 1);
    sortState.minGallop = minGallop; nofWinsA =
    GallopRight(tempArray, workArray[cursorB], cursorTemp, lengthA, 0)]
    and the move of that block of [A]. *)
Definition low_gallop_round (temp : list A) (s : low_st) : flow merge_label low_st :=
  let mg := Z.max 1 (lmg s - 1) in
  let s := low_set_mg s mg mg in
  match rd (lw s) (lcb s) with
  | Some keyB =>
      let k := gallop_right cmp temp keyB (lct s) (lla s) 0 in
      let s := low_set_wins s k (lwb s) in
      if (0 <? k)%Z then
        let s := low_copy_a temp s k in
        if (lla s =? 1)%Z then Goto CopyB s
        else if (lla s =? 0)%Z then Goto Succeed s
        else low_gallop_b temp s
      else low_gallop_b temp s
  | None => Stuck
  end.

(** One round of the outer [while (true)]: the straightforward mode
    until a run wins [minGallop] times, [++minGallop], the galloping
    mode (its first round unconditionally), [++minGallop;
    sortState.minGallop = minGallop]. *)
Definition low_round (temp : list A) (fuel : nat) (s : low_st) : flow merge_label low_st :=
  match loop (low_one temp) fuel (low_set_wins s 0 0) with
  | Goto l s1 => Goto l s1
  | Break s1 =>
      match loop (low_gallop_round temp) fuel (low_set_mg s1 (lmg s1 + 1) (lsmg s1)) with
      | Goto l s2 => Goto l s2
      | Break s2 => Cont (low_set_mg s2 (lmg s2 + 1) (lmg s2 + 1))
      | _ => Stuck
      end
  | _ => Stuck
  end.

(** [MergeLow(baseA, lengthA, baseB, lengthB)] with the sort state's
    [minGallop] [smg]: the work array after the merge, and the new
    [minGallop]. The temporary array holds the copy of [A]
    ([Copy(workArray, baseA, tempArray, 0, lengthA)]); its slots beyond
    [lengthA] are never read. Every loop consumes an element per round,
    so [lengthA + lengthB] rounds are enough. *)
Definition merge_low (w : list A) (smg baseA lengthA baseB lengthB : Z) : list A * Z :=
  let temp := take (Z.to_nat lengthA) (drop (Z.to_nat baseA) w) in
  let fuel := Z.to_nat (lengthA + lengthB) in
  let s := low_take_b (LowSt w baseA 0 baseB lengthA lengthB 0 0 smg smg) in
  let r :=
    if (llb s =? 0)%Z then Goto Succeed s
    else if (lla s =? 1)%Z then Goto CopyB s
    else loop (low_round temp fuel) fuel s in
  match r with
  | Goto Succeed s =>
      ((if (0 <? lla s)%Z then copy temp (lw s) (lct s) (ldest s) (lla s) else lw s), lsmg s)
  | Goto CopyB s =>
      (mv (copy_within (lw s) (lcb s) (ldest s) (llb s)) (ldest s + llb s) temp (lct s), lsmg s)
  | _ => (w, smg)
  end.
End MergeLow.

(** ** The loop invariant *)

Section LowProof.
Context {A : Type} (cmp : A -> A -> comparison) `{!Consistent cmp}.
Context (pre post A0 B0 : list A).

(** The state [s] is the merge so far [out] written from [baseA], then
    as many stale slots [J] as elements of [A] remain ([As], a suffix of
    the copy [A0]), then what remains of [B] ([Bs], a suffix of [B0]). *)
Definition low_repr (s : low_st) (out As Bs J : list A) : Prop :=
  (exists A', A0 = A' ++ As /\ lct s = Z.of_nat (length A')) /\
  (exists B', B0 = B' ++ Bs) /\
  length J = length As /\
  lw s = pre ++ out ++ J ++ Bs ++ post /\
  ldest s = Z.of_nat (length pre + length out) /\
  lcb s = Z.of_nat (length pre + length out + length J) /\
  lla s = Z.of_nat (length As) /\ llb s = Z.of_nat (length Bs).

(** ... and [out] followed by the merge of what remains is the merge of
    the two runs. *)
Definition low_inv (s : low_st) : Prop :=
  exists out As Bs J, low_repr s out As Bs J /\ merge cmp A0 B0 = out ++ merge cmp As Bs.

Lemma low_repr_set_wins s wa wb out As Bs J :
  low_repr (low_set_wins s wa wb) out As Bs J <-> low_repr s out As Bs J.
Proof. reflexivity. Qed.

Lemma low_repr_set_mg s mg smg out As Bs J :
  low_repr (low_set_mg s mg smg) out As Bs J <-> low_repr s out As Bs J.
Proof. reflexivity. Qed.

Lemma low_repr_rd_b s out As b Bs J : low_repr s out As (b :: Bs) J -> rd (lw s) (lcb s) = Some b.
Proof.
  intros (_ & _ & _ & -> & _ & -> & _). rewrite !app_assoc, <- !length_app. rewrite <- !app_assoc.
  replace (pre ++ out ++ J ++ (b :: Bs) ++ post) with ((pre ++ out ++ J) ++ b :: Bs ++ post)
    by (by rewrite <- !app_assoc). apply rd_at.
Qed.

Lemma low_repr_rd_a s out a As Bs J : low_repr s out (a :: As) Bs J -> rd A0 (lct s) = Some a.
Proof. intros ((A' & -> & ->) & _). apply rd_at. Qed.

Lemma low_repr_take_b s out As b Bs J :
  low_repr s out As (b :: Bs) J -> exists J', low_repr (low_take_b s) (out ++ [b]) As Bs J'.
Proof.
  intros (HA & (B' & HB) & HJ & Hw & Hd & Hc & Ha & Hb).
  destruct (move_up_seg (pre ++ out) J [b] (Bs ++ post)) as (J' & HJ' & E).
  exists J'. unfold low_repr; cbn [lw ldest lct lcb lla llb low_take_b].
  split_and!; [done | exists (B' ++ [b]); by rewrite HB, <- app_assoc | lia | | | | done | ].
  - change (mv (lw s) (ldest s) (lw s) (lcb s)) with (move_up (lw s) (lcb s) (ldest s) 1).
    rewrite Hw, Hd, Hc, <- (length_app pre out). cbn [length] in E.
    rewrite <- !app_assoc in E. cbn [app] in E |- *. rewrite E. by rewrite <- !app_assoc.
  - rewrite Hd, length_app. cbn. lia.
  - rewrite Hc, length_app. cbn. lia.
  - rewrite Hb. cbn [length]. lia.
Qed.

Lemma low_repr_take_a s out a As Bs J :
  low_repr s out (a :: As) Bs J -> exists J', low_repr (low_take_a A0 s) (out ++ [a]) As Bs J'.
Proof.
  intros Hr. pose proof (low_repr_rd_a s out a As Bs J Hr) as Hrd.
  destruct Hr as ((A' & HA & Ht) & HB & HJ & Hw & Hd & Hc & Ha & Hb).
  destruct J as [|j J]; [discriminate|]. exists J. unfold low_repr; cbn [lw ldest lct lcb lla llb low_take_a].
  split_and!; [| done | cbn in HJ; lia | | | | | done].
  - exists (A' ++ [a]). rewrite HA, <- app_assoc. split; [done|]. rewrite Ht, length_app. cbn. lia.
  - unfold mv. rewrite Hrd, Hw, Hd, <- (length_app pre out).
    replace (pre ++ out ++ (j :: J) ++ Bs ++ post) with ((pre ++ out) ++ j :: J ++ Bs ++ post)
      by (by rewrite <- !app_assoc).
    rewrite wr_at. by rewrite <- !app_assoc.
  - rewrite Hd, length_app. cbn. lia.
  - rewrite Hc, length_app. cbn. lia.
  - rewrite Ha. cbn [length]. lia.
Qed.

Lemma low_repr_copy_a s out As Bs J k : k <= length As ->
  low_repr s out As Bs J ->
  exists J', low_repr (low_copy_a A0 s (Z.of_nat k)) (out ++ take k As) (drop k As) Bs J'.
Proof.
  intros Hk ((A' & HA & Ht) & HB & HJ & Hw & Hd & Hc & Ha & Hb).
  exists (drop k J). unfold low_repr; cbn [lw ldest lct lcb lla llb low_copy_a].
  assert (Hk' : length (take k As) = k) by (apply length_take_le; lia).
  split_and!; [| done | rewrite !length_drop; lia | | | | | done].
  - exists (A' ++ take k As). rewrite HA, <- app_assoc, take_drop. split; [done|].
    rewrite Ht, length_app. lia.
  - rewrite Hw, Hd, Ht, <- (length_app pre out), <- Hk' at 1.
    replace (pre ++ out ++ J ++ Bs ++ post) with ((pre ++ out) ++ take k J ++ (drop k J ++ Bs ++ post))
      by (rewrite (app_assoc (take k J)), take_drop; by rewrite <- !app_assoc).
    rewrite (copy_seg A0 A' (take k As) (drop k As) (pre ++ out) (take k J) (drop k J ++ Bs ++ post)).
    + by rewrite <- !app_assoc.
    + by rewrite HA, take_drop.
    + rewrite length_take, Hk'. lia.
  - rewrite Hd, length_app. lia.
  - rewrite Hc, length_app, length_drop. lia.
  - rewrite Ha, length_drop. lia.
Qed.

Lemma low_repr_copy_b s out As Bs J k : k <= length Bs ->
  low_repr s out As Bs J ->
  exists J', low_repr (low_copy_b s (Z.of_nat k)) (out ++ take k Bs) As (drop k Bs) J'.
Proof.
  intros Hk (HA & (B' & HB) & HJ & Hw & Hd & Hc & Ha & Hb).
  assert (Hk' : length (take k Bs) = k) by (apply length_take_le; lia).
  destruct (copy_within_left (pre ++ out) J (take k Bs) (drop k Bs ++ post)) as (J' & HJ' & E).
  exists J'. unfold low_repr; cbn [lw ldest lct lcb lla llb low_copy_b].
  split_and!; [done | exists (B' ++ take k Bs); by rewrite HB, <- app_assoc, take_drop | lia | | | | done |].
  - rewrite Hw, Hd, Hc, <- Hk' at 1. rewrite <- (take_drop k Bs) at 1. rewrite <- (length_app pre out).
    replace (pre ++ out ++ J ++ (take k Bs ++ drop k Bs) ++ post)
      with ((pre ++ out) ++ J ++ take k Bs ++ drop k Bs ++ post) by (by rewrite <- !app_assoc).
    rewrite length_app in E |- *. rewrite E. by rewrite <- !app_assoc.
  - rewrite Hd, length_app, Hk'. lia.
  - rewrite Hc, length_app, Hk'. lia.
  - rewrite Hb, length_drop. lia.
Qed.
Lemma low_repr_lens s out As Bs J :
  low_repr s out As Bs J -> lla s = Z.of_nat (length As) /\ llb s = Z.of_nat (length Bs).
Proof. intros (_ & _ & _ & _ & _ & _ & Ha & Hb). done. Qed.

Context (HsA : StronglySorted (le cmp) A0) (HsB : StronglySorted (le cmp) B0).
Context (Hsmi : (Z.of_nat (length A0 + length B0) <= smi_max)%Z).

Lemma low_repr_sorted s out As Bs J : low_repr s out As Bs J ->
  StronglySorted (le cmp) As /\ StronglySorted (le cmp) Bs.
Proof.
  intros ((A' & HA & _) & (B' & HB) & _).
  split; eapply StronglySorted_app_r; [rewrite <- HA | rewrite <- HB]; done.
Qed.

Lemma low_repr_gallop_right s out As Bs J key : low_repr s out As Bs J -> As <> [] ->
  gallop_right cmp A0 key (lct s) (lla s) 0 = Z.of_nat (span_len (fun x => negb (is_lt (cmp key x))) As).
Proof.
  intros Hr Hne. pose proof (low_repr_sorted _ _ _ _ _ Hr) as [Hs _].
  destruct Hr as ((A' & HA & Ht) & _ & _ & _ & _ & _ & Ha & _). rewrite Ht, Ha.
  apply (gallop_right_span cmp); [done | | | ].
  - intros j Hj. rewrite <- Nat2Z.inj_add, HA. apply rd_mid.
  - destruct As; [done|]. cbn. lia.
  - rewrite HA, length_app in Hsmi. lia.
Qed.

Lemma low_repr_gallop_left s out As Bs J key : low_repr s out As Bs J -> Bs <> [] ->
  gallop_left cmp (lw s) key (lcb s) (llb s) 0 = Z.of_nat (span_len (fun y => is_lt (cmp y key)) Bs).
Proof.
  intros Hr Hne. pose proof (low_repr_sorted _ _ _ _ _ Hr) as [_ Hs].
  destruct Hr as (_ & (B' & HB) & _ & Hw & _ & Hc & _ & Hb). rewrite Hc, Hb.
  apply (gallop_left_span cmp); [done | | | ].
  - intros j Hj. rewrite <- Nat2Z.inj_add, Hw.
    replace (pre ++ out ++ J ++ Bs ++ post) with ((pre ++ out ++ J) ++ Bs ++ post) by (by rewrite <- !app_assoc).
    replace (Z.of_nat (length pre + length out + length J + j))
      with (Z.of_nat (length (pre ++ out ++ J) + j)) by (rewrite !length_app; lia).
    rewrite rd_mid. by apply lookup_app_l.
  - destruct Bs; [done|]. cbn. lia.
  - rewrite HB, length_app in Hsmi. lia.
Qed.

(** ** The loops *)

(** Inside the loops both runs have elements left, [A] at least two
    ([dcheck(lengthA > 1 && lengthB > 0)]). *)
Definition low_P (s : low_st) : Prop := low_inv s /\ (2 <= lla s)%Z /\ (1 <= llb s)%Z.

(** Where the [goto]s lead: [Succeed] once a run is exhausted, [CopyB]
    with one element of [A] left. *)
Definition low_Q (l : merge_label) (s : low_st) : Prop :=
  low_inv s /\ match l with Succeed => llb s = 0%Z \/ lla s = 0%Z | CopyB => lla s = 1%Z | CopyA => False end.

Definition low_mu (s : @low_st A) : nat := Z.to_nat (lla s + llb s).

Lemma low_inv_intro s out As Bs J :
  low_repr s out As Bs J -> merge cmp A0 B0 = out ++ merge cmp As Bs -> low_inv s.
Proof. intros Hr Hm. by exists out, As, Bs, J. Qed.
(** A round of the straightforward mode moves one element. *)
Lemma low_one_step s : low_P s -> flow_step low_P low_Q low_mu s (low_one cmp A0 s).
Proof.
  intros ((out & As & Bs & J & Hr & Hm) & Hla & Hlb).
  destruct (low_repr_lens _ _ _ _ _ Hr) as [Ha Hb].
  destruct As as [|a As]; [cbn in Ha; lia|]. destruct Bs as [|b Bs]; [cbn in Hb; lia|].
  unfold low_one. rewrite (low_repr_rd_b _ _ _ _ _ _ Hr), (low_repr_rd_a _ _ _ _ _ _ Hr).
  destruct (is_lt (cmp b a)) eqn:E.
  - destruct (low_repr_take_b _ _ _ _ _ _ Hr) as (J' & Hr').
    assert (Hi : low_inv (low_set_wins (low_take_b s) 0 (lwb s + 1))).
    { apply (low_inv_intro _ (out ++ [b]) (a :: As) Bs J'); [by apply low_repr_set_wins|].
      rewrite Hm, merge_take_right, <- app_assoc; [done|]. intros x [= <-]. by apply is_lt_true. }
    destruct (low_repr_lens _ _ _ _ _ Hr') as [Ha' Hb']. cbn [lla llb low_take_b] in Ha', Hb'.
    cbn [lla llb lmg lwb low_set_wins low_take_b].
    destruct (Z.eqb_spec (llb s - 1) 0); [split; [done | left; cbn; lia]|].
    destruct (_ <=? _)%Z; cbn [flow_step]; (split; [split_and!; [done | cbn; lia | cbn; lia] | unfold low_mu; cbn; lia]).
  - destruct (low_repr_take_a _ _ _ _ _ _ Hr) as (J' & Hr').
    assert (Hi : low_inv (low_set_wins (low_take_a A0 s) (lwa s + 1) 0)).
    { apply (low_inv_intro _ (out ++ [a]) As (b :: Bs) J'); [by apply low_repr_set_wins|].
      rewrite Hm, merge_take_left, <- app_assoc; [done|]. intros y [= <-].
      apply not_true_iff_false in E. by rewrite is_lt_true in E. }
    destruct (low_repr_lens _ _ _ _ _ Hr') as [Ha' Hb']. cbn [lla llb low_take_a] in Ha', Hb'.
    cbn [lla llb lmg lwa low_set_wins low_take_a].
    destruct (Z.eqb_spec (lla s - 1) 1); [split; [done | cbn; lia]|].
    destruct (_ <=? _)%Z; cbn [flow_step]; (split; [split_and!; [done | cbn; lia | cbn; lia] | unfold low_mu; cbn; lia]).
Qed.

(** The end of a galloping round, once the next element of [B] is
    known not to go before the head [a] of what remains of [A]. *)
Lemma low_gallop_end_step s0 s out a As Bs J :
  low_repr s out (a :: As) Bs J -> merge cmp A0 B0 = out ++ merge cmp (a :: As) Bs ->
  (forall b, Bs !! 0 = Some b -> cmp b a <> Lt) ->
  (2 <= lla s)%Z -> (1 <= llb s)%Z -> low_mu s <= low_mu s0 ->
  flow_step low_P low_Q low_mu s0 (low_gallop_end A0 s).
Proof.
  intros Hr Hm Hb Hla Hlb Hmu. destruct (low_repr_take_a _ _ _ _ _ _ Hr) as (J' & Hr').
  assert (Hi : low_inv (low_take_a A0 s)).
  { apply (low_inv_intro _ (out ++ [a]) As Bs J' Hr'). by rewrite Hm, merge_take_left, <- app_assoc. }
  unfold low_gallop_end, low_mu in *. cbn [lla llb low_take_a] in *.
  destruct (Z.eqb_spec (lla s - 1) 1); [split; [done | cbn; lia]|].
  destruct (_ || _); cbn [flow_step]; (split; [split_and!; [done | cbn; lia | cbn; lia] | cbn; lia]).
Qed.
(** The middle of a galloping round, once the next element [b] of [B]
    is known to go before what remains of [A]. *)
Lemma low_gallop_b_step s0 s out As b Bs J :
  low_repr s out As (b :: Bs) J -> merge cmp A0 B0 = out ++ merge cmp As (b :: Bs) ->
  (forall a, As !! 0 = Some a -> cmp b a = Lt) ->
  (2 <= lla s)%Z -> low_mu s <= low_mu s0 ->
  flow_step low_P low_Q low_mu s0 (low_gallop_b cmp A0 s).
Proof.
  intros Hr Hm Ha Hla Hmu. destruct (low_repr_take_b _ _ _ _ _ _ Hr) as (J1 & Hr1).
  assert (Hm1 : merge cmp A0 B0 = (out ++ [b]) ++ merge cmp As Bs)
    by (by rewrite Hm, merge_take_right, <- app_assoc).
  destruct (low_repr_lens _ _ _ _ _ Hr1) as [Ha1 Hb1].
  unfold low_gallop_b. cbv zeta. unfold low_mu in Hmu.
  cbn [lla llb low_take_b] in Ha1, Hb1.
  destruct (Z.eqb_spec (llb (low_take_b s)) 0) as [H0|H0].
  { split; [by apply (low_inv_intro _ _ _ _ _ Hr1) | cbn in H0 |- *; lia]. }
  cbn [llb low_take_b] in H0.
  destruct As as [|a As]; [cbn in Ha1; lia|]. rewrite (low_repr_rd_a _ _ _ _ _ _ Hr1).
  assert (HBs : Bs <> []) by (intros ->; cbn in Hb1; lia).
  pose proof (low_repr_sorted _ _ _ _ _ Hr1) as [HsAs HsBs].
  rewrite (low_repr_gallop_left _ _ _ _ _ a Hr1 HBs).
  set (k := span_len (fun y => is_lt (cmp y a)) Bs).
  assert (Hk : k <= length Bs) by apply span_len_le.
  assert (Hhd : forall b', drop k Bs !! 0 = Some b' -> cmp b' a <> Lt).
  { intros b' Hb'. apply (span_head _ Bs b') in Hb'. apply not_true_iff_false in Hb'. by rewrite is_lt_true in Hb'. }
  destruct (Z.ltb_spec 0 (Z.of_nat k)) as [Hpos|Hpos].
  - destruct (low_repr_copy_b _ _ _ _ _ k Hk Hr1) as (J2 & Hr2).
    assert (Hm2 : merge cmp A0 B0 = ((out ++ [b]) ++ take k Bs) ++ merge cmp (a :: As) (drop k Bs))
      by (by rewrite Hm1, (merge_gallop_right_block cmp a As Bs HsAs), <- !app_assoc).
    assert (Hlb1 : llb (low_take_b s) = (llb s - 1)%Z) by done.
    cbn [llb low_copy_b low_set_wins]. destruct (Z.eqb_spec (llb (low_take_b s) - Z.of_nat k) 0).
    + split; [by apply (low_inv_intro _ _ _ _ _ Hr2) | cbn; lia].
    + eapply (low_gallop_end_step s0 _ ((out ++ [b]) ++ take k Bs) a As (drop k Bs) J2); [done | done | done | cbn; lia | cbn; lia |].
      unfold low_mu. cbn [lla llb low_copy_b low_set_wins low_take_b]. lia.
  - assert (k = 0) as Hk0 by lia. rewrite Hk0 in Hhd. rewrite drop_0 in Hhd.
    eapply (low_gallop_end_step s0 _ (out ++ [b]) a As Bs J1); [done | done | done | cbn; lia | cbn; lia |].
    unfold low_mu. cbn [lla llb low_set_wins low_take_b]. lia.
Qed.

(** A galloping round moves at least one element of each run. *)
Lemma low_gallop_round_step s : low_P s -> flow_step low_P low_Q low_mu s (low_gallop_round cmp A0 s).
Proof.
  intros ((out & As & Bs & J & Hr & Hm) & Hla & Hlb).
  destruct (low_repr_lens _ _ _ _ _ Hr) as [Ha Hb].
  destruct Bs as [|b Bs]; [cbn in Hb; lia|].
  assert (HAs : As <> []) by (intros ->; cbn in Ha; lia).
  pose proof (low_repr_sorted _ _ _ _ _ Hr) as [HsAs HsBs].
  unfold low_gallop_round. cbv zeta. cbn [lw lcb lct lla low_set_mg].
  rewrite (low_repr_rd_b _ _ _ _ _ _ Hr), (low_repr_gallop_right _ _ _ _ _ b Hr HAs).
  set (k := span_len (fun x => negb (is_lt (cmp b x))) As).
  assert (Hk : k <= length As) by apply span_len_le.
  assert (Hhd : forall a, drop k As !! 0 = Some a -> cmp b a = Lt).
  { intros a Ha'. apply (span_head _ As a) in Ha'. by apply negb_false_iff, is_lt_true in Ha'. }
  assert (Hr0 : low_repr (low_set_wins (low_set_mg s (Z.max 1 (lmg s - 1)) (Z.max 1 (lmg s - 1))) (Z.of_nat k)
                   (lwb s)) out As (b :: Bs) J) by done.
  destruct (Z.ltb_spec 0 (Z.of_nat k)) as [Hpos|Hpos].
  - destruct (low_repr_copy_a _ _ _ _ _ k Hk Hr0) as (J2 & Hr2).
    assert (Hm2 : merge cmp A0 B0 = (out ++ take k As) ++ merge cmp (drop k As) (b :: Bs))
      by (by rewrite Hm, (merge_gallop_left_block cmp As b Bs HsBs), <- !app_assoc).
    destruct (low_repr_lens _ _ _ _ _ Hr2) as [Ha2 Hb2].
    cbn [lla llb low_copy_a low_set_wins low_set_mg] in Ha2, Hb2 |- *.
    destruct (Z.eqb_spec (lla s - Z.of_nat k) 1).
    { split; [by apply (low_inv_intro _ _ _ _ _ Hr2) | cbn; lia]. }
    destruct (Z.eqb_spec (lla s - Z.of_nat k) 0).
    { split; [by apply (low_inv_intro _ _ _ _ _ Hr2) | cbn; lia]. }
    eapply (low_gallop_b_step s _ (out ++ take k As) (drop k As) b Bs J2); [done | done | done | cbn; lia |].
    unfold low_mu. cbn [lla llb low_copy_a low_set_wins low_set_mg]. lia.
  - assert (k = 0) as Hk0 by lia. rewrite Hk0, drop_0 in Hhd. rewrite Hk0.
    eapply (low_gallop_b_step s _ out As b Bs J); [done | done | done | cbn; lia |].
    unfold low_mu. cbn [lla llb low_set_wins low_set_mg]. lia.
Qed.
Lemma low_P_set_wins s wa wb : low_P s -> low_P (low_set_wins s wa wb).
Proof. intros ((out & As & Bs & J & Hr & Hm) & H1 & H2). split_and!; [by exists out, As, Bs, J | done | done]. Qed.

Lemma low_P_set_mg s mg smg : low_P s -> low_P (low_set_mg s mg smg).
Proof. intros ((out & As & Bs & J & Hr & Hm) & H1 & H2). split_and!; [by exists out, As, Bs, J | done | done]. Qed.

(** A round of the outer loop: the straightforward mode, then the
    galloping mode, each loop within [fuel] rounds. *)
Lemma low_round_step fuel s :
  low_P s -> low_mu s < fuel ->
  flow_step (fun s => low_P s /\ low_mu s < fuel) low_Q low_mu s (low_round cmp A0 fuel s).
Proof.
  intros HP Hf. unfold low_round.
  pose proof (loop_spec low_P low_Q low_mu (low_one cmp A0) fuel (low_set_wins s 0 0) low_one_step
                (low_P_set_wins s 0 0 HP) Hf) as H1.
  destruct (loop (low_one cmp A0) fuel _) as [l s1|s1| |]; cbn in H1 |- *; try done.
  destruct H1 as [HP1 Hm1].
  assert (Hf1 : low_mu (low_set_mg s1 (lmg s1 + 1) (lsmg s1)) < fuel)
    by (unfold low_mu in *; cbn [lla llb low_set_mg low_set_wins] in *; lia).
  pose proof (loop_spec low_P low_Q low_mu (low_gallop_round cmp A0) fuel (low_set_mg s1 (lmg s1 + 1) (lsmg s1))
                low_gallop_round_step (low_P_set_mg _ _ _ HP1) Hf1) as H2.
  destruct (loop (low_gallop_round cmp A0) fuel _) as [l s2|s2| |]; cbn in H2 |- *; try done.
  destruct H2 as [HP2 Hm2]. unfold low_mu in *. cbn [lla llb low_set_mg low_set_wins] in *.
  split_and!; [by apply low_P_set_mg | lia | lia].
Qed.

Context (Hlast : forall b a, In b B0 -> last A0 = Some a -> cmp b a = Lt).

(** The two exits write back what remains: [Succeed] copies the rest of
    [A] from the temporary array, [CopyB] moves [B]'s rest left and puts
    the last element of [A] after it. *)
Lemma low_finish l s : low_Q l s ->
  match l with
  | Succeed => (if (0 <? lla s)%Z then copy A0 (lw s) (lct s) (ldest s) (lla s) else lw s)
  | CopyB => mv (copy_within (lw s) (lcb s) (ldest s) (llb s)) (ldest s + llb s) A0 (lct s)
  | CopyA => lw s
  end = pre ++ merge cmp A0 B0 ++ post.
Proof.
  intros [(out & As & Bs & J & Hr & Hm) Hl].
  destruct Hr as ((A' & HA & Ht) & (B' & HB) & HJ & Hw & Hd & Hc & Ha & Hb).
  destruct l; [| done |].
  - destruct (Z.ltb_spec 0 (lla s)) as [Hpos|Hpos].
    + destruct Hl as [Hl|Hl]; [|lia]. destruct Bs; [|cbn in Hb; lia].
      rewrite Hm, merge_nil_r, Hw, Ht, Hd, Ha, <- (length_app pre out). cbn [app].
      rewrite app_assoc. rewrite (copy_seg A0 A' As [] (pre ++ out) J post); [by rewrite <- !app_assoc | by rewrite app_nil_r | done].
    + destruct As; [|cbn in Ha; lia]. destruct J; [|discriminate]. by rewrite Hw, Hm, <- !app_assoc.
  - destruct As as [|x [|]]; cbn in Ha; try lia. destruct J as [|j [|]]; try discriminate.
    assert (Hx : last A0 = Some x) by (rewrite HA; apply last_snoc).
    assert (Hmx : merge cmp [x] Bs = Bs ++ [x]).
    { rewrite <- (app_nil_r Bs) at 1. rewrite merge_app_r; [done|].
      intros x' y [<-|[]] Hy. apply (Hlast y x); [rewrite HB; apply in_or_app; by right | done]. }
    destruct (copy_within_left (pre ++ out) [j] Bs post) as ([|j' [|]] & HJ' & E); try discriminate.
    cbn [length] in Hc. rewrite Hm, Hmx, Hw, Hc, Hd, Hb, Ht, <- (length_app pre out).
    replace (pre ++ out ++ [j] ++ Bs ++ post) with ((pre ++ out) ++ [j] ++ Bs ++ post) by (by rewrite <- !app_assoc).
    cbn [length] in E. rewrite E. unfold mv. rewrite HA at 1. rewrite rd_at.
    replace ((pre ++ out) ++ Bs ++ [j'] ++ post) with (((pre ++ out) ++ Bs) ++ j' :: post) by (by rewrite <- !app_assoc).
    replace (Z.of_nat (length (pre ++ out)) + Z.of_nat (length Bs))%Z with (Z.of_nat (length ((pre ++ out) ++ Bs)))
      by (rewrite length_app; lia).
    rewrite wr_at. by rewrite <- !app_assoc.
Qed.
Lemma low_round_no_break fuel s s' : low_round cmp A0 fuel s <> Break s'.
Proof.
  unfold low_round. destruct (loop (low_one cmp A0) fuel _); try done.
  by destruct (loop (low_gallop_round cmp A0) fuel _).
Qed.

Context (Hfirst : forall b a, B0 !! 0 = Some b -> A0 !! 0 = Some a -> cmp b a = Lt).
Context (HAne : A0 <> []) (HBne : B0 <> []).

(** [MergeLow] on the runs [A0] and [B0], adjacent in the work array,
    where the first element of [B0] goes before all of [A0] and the last
    element of [A0] after all of [B0] (as [MergeAt] arranges), writes
    their stable merge in their place. *)
Lemma merge_low_merges smg :
  fst (merge_low cmp (pre ++ A0 ++ B0 ++ post) smg (Z.of_nat (length pre)) (Z.of_nat (length A0))
         (Z.of_nat (length pre + length A0)) (Z.of_nat (length B0))) =
  pre ++ merge cmp A0 B0 ++ post.
Proof.
  unfold merge_low. cbv zeta.
  assert (Ht : take (Z.to_nat (Z.of_nat (length A0))) (drop (Z.to_nat (Z.of_nat (length pre))) (pre ++ A0 ++ B0 ++ post)) = A0)
    by (by rewrite !Nat2Z.id, drop_app_length, take_app_length).
  rewrite Ht.
  assert (HB : exists b0 B1, B0 = b0 :: B1) by (destruct B0 as [|b0 B1]; [done | by exists b0, B1]).
  destruct HB as (b0 & B1 & EB).
  set (s0 := LowSt (pre ++ A0 ++ B0 ++ post) (Z.of_nat (length pre)) 0 (Z.of_nat (length pre + length A0))
               (Z.of_nat (length A0)) (Z.of_nat (length B0)) 0 0 smg smg).
  assert (Hr0 : low_repr s0 [] A0 B0 A0).
  { unfold low_repr, s0. cbn [lw ldest lct lcb lla llb].
    split_and!; [by exists [] | by exists [] | done | done | cbn; lia | cbn; lia | done | done]. }
  rewrite EB in Hr0. destruct (low_repr_take_b _ _ _ _ _ _ Hr0) as (J1 & Hr1).
  assert (Hm1 : merge cmp A0 B0 = [b0] ++ merge cmp A0 B1).
  { rewrite EB, merge_take_right; [done|]. intros a Ha. apply Hfirst; [by rewrite EB | done]. }
  assert (Hi1 : low_inv (low_take_b s0)) by (by apply (low_inv_intro _ _ _ _ _ Hr1)).
  destruct (low_repr_lens _ _ _ _ _ Hr1) as [Ha1 Hb1].
  set (F := Z.to_nat (Z.of_nat (length A0) + Z.of_nat (length B0))).
  assert (Hr : exists l s', low_Q l s' /\
            (if (llb (low_take_b s0) =? 0)%Z then Goto Succeed (low_take_b s0)
             else if (lla (low_take_b s0) =? 1)%Z then Goto CopyB (low_take_b s0)
             else loop (low_round cmp A0 F) F (low_take_b s0)) = Goto l s').
  { destruct (Z.eqb_spec (llb (low_take_b s0)) 0).
    { exists Succeed, (low_take_b s0). split; [split; [done | by left] | done]. }
    destruct (Z.eqb_spec (lla (low_take_b s0)) 1).
    { exists CopyB, (low_take_b s0). split; [split; done | done]. }
    assert (HP : low_P (low_take_b s0)).
    { split_and!; [done | | lia]. destruct A0; [done|]. cbn [length] in Ha1. lia. }
    pose proof (loop_spec (fun s => low_P s /\ low_mu s < F) low_Q low_mu (low_round cmp A0 F) F (low_take_b s0)
                  (fun s Hs => low_round_step F s (proj1 Hs) (proj2 Hs))
                  ltac:(split; [done | unfold low_mu, F; rewrite EB; cbn [length] in Ha1, Hb1 |- *; lia])
                  ltac:(unfold low_mu, F; rewrite EB; cbn [length] in Ha1, Hb1 |- *; lia)) as Hl.
    pose proof (loop_no_break (low_round cmp A0 F) F (low_take_b s0)) as Hnb.
    destruct (loop _ F _) as [l s'|s'| |]; cbn in Hl; try done.
    - by exists l, s'.
    - exfalso. apply (Hnb s'); [intros ??; apply low_round_no_break | done]. }
  destruct Hr as (l & s' & HQ & ->). pose proof (low_finish l s' HQ) as Hf.
  destruct l; [exact Hf | by destruct HQ | exact Hf].
Qed.
End LowProof.
