(* ===== verification/V8MergeHigh.v ===== *)
(** * [MergeHigh]: merging two adjacent runs from the right

    V8's [MergeHigh(baseA, lengthA, baseB, lengthB)] (array-sort.tq)
    is [MergeLow] run backwards, used when [B] is the shorter run: [B] is
    copied to the temporary array and the work array is filled from its
    last slot downwards ([dest]), taking the larger of the last
    remaining elements of [A] ([cursorA], in the work array) and of [B]
    ([cursorTemp], in the copy); on a tie the element of [B] goes last,
    which keeps the merge stable. Galloping searches from the end of
    each run ([GallopRight] over [A] from hint [lengthA - 1],
    [GallopLeft] over [B] from hint [lengthB - 1]) and moves the blocks
    that go last. The loops leave by [goto Succeed] ([A] exhausted: what
    is left of the copy of [B] is put back at the front) or
    [goto CopyA] (one element of [B] is left: [A]'s rest moves right and
    that element goes first).

    Indices are Smis: [cursorA] steps to [baseA - 1], which is [-1] for
    the first run; they are [Z] here. *)

From S2P Require Import Prelude ArraySort V8Sort Merge V8Gallop V8MergeLow.

Section MergeHigh.
Context {A : Type} (cmp : A -> A -> comparison).

Record high_st := HighSt {
  hw : list A;   (* workArray *)
  hdest : Z;     (* dest *)
  hct : Z;       (* cursorTemp *)
  hca : Z;       (* cursorA *)
  hla : Z;       (* lengthA *)
  hlb : Z;       (* lengthB *)
  hwa : Z;       (* nofWinsA *)
  hwb : Z;       (* nofWinsB *)
  hmg : Z;       (* minGallop *)
  hsmg : Z       (* sortState.minGallop *)
}.

Definition high_set_wins (s : high_st) (wa wb : Z) : high_st :=
  HighSt (hw s) (hdest s) (hct s) (hca s) (hla s) (hlb s) wa wb (hmg s) (hsmg s).

Definition high_set_mg (s : high_st) (mg smg : Z) : high_st :=
  HighSt (hw s) (hdest s) (hct s) (hca s) (hla s) (hlb s) (hwa s) (hwb s) mg smg.

(** [workArray[dest--] = workArray[cursorA--]; --lengthA;] *)
Definition high_take_a (s : high_st) : high_st :=
  HighSt (mv (hw s) (hdest s) (hw s) (hca s)) (hdest s - 1) (hct s) (hca s - 1)
    (hla s - 1) (hlb s) (hwa s) (hwb s) (hmg s) (hsmg s).

(** [workArray[dest--] = tempArray[cursorTemp--]; --lengthB;] *)
Definition high_take_b (temp : list A) (s : high_st) : high_st :=
  HighSt (mv (hw s) (hdest s) temp (hct s)) (hdest s - 1) (hct s - 1) (hca s)
    (hla s) (hlb s - 1) (hwa s) (hwb s) (hmg s) (hsmg s).

(** [dest = dest - k; cursorA = cursorA - k;
     Copy(workArray, cursorA + 1, workArray, dest + 1, k); lengthA -= k;] *)
Definition high_copy_a (s : high_st) (k : Z) : high_st :=
  HighSt (copy_within (hw s) (hca s - k + 1) (hdest s - k + 1) k) (hdest s - k) (hct s) (hca s - k)
    (hla s - k) (hlb s) (hwa s) (hwb s) (hmg s) (hsmg s).

(** [dest = dest - k; cursorTemp = cursorTemp - k;
     Copy(tempArray, cursorTemp + 1, workArray, dest + 1, k); lengthB -= k;] *)
Definition high_copy_b (temp : list A) (s : high_st) (k : Z) : high_st :=
  HighSt (copy temp (hw s) (hct s - k + 1) (hdest s - k + 1) k) (hdest s - k) (hct s - k) (hca s)
    (hla s) (hlb s - k) (hwa s) (hwb s) (hmg s) (hsmg s).

(** One round of the straightforward mode:
    [order = Compare(tempArray[cursorTemp], workArray[cursorA])]. *)
Definition high_one (temp : list A) (s : high_st) : flow merge_label high_st :=
  match rd temp (hct s), rd (hw s) (hca s) with
  | Some b, Some a =>
      if is_lt (cmp b a) then
        let s := high_set_wins (high_take_a s) (hwa s + 1) 0 in
        if (hla s =? 0)%Z then Goto Succeed s
        else if (hmg s <=? hwa s)%Z then Break s else Cont s
      else
        let s := high_set_wins (high_take_b temp s) 0 (hwb s + 1) in
        if (hlb s =? 1)%Z then Goto CopyA s
        else if (hmg s <=? hwb s)%Z then Break s else Cont s
  | _, _ => Stuck
  end.

(** The end of a galloping round: [workArray[dest--] =
    workArray[cursorA--]; if (--lengthA == 0) goto Succeed;] and the
    loop test. *)
Definition high_gallop_end (s : high_st) : flow merge_label high_st :=
  let s := high_take_a s in
  if (hla s =? 0)%Z then Goto Succeed s
  else if (kMinGallopWins <=? hwa s)%Z || (kMinGallopWins <=? hwb s)%Z then Cont s else Break s.

(** The middle of a galloping round: [workArray[dest--] =
    tempArray[cursorTemp--]; if (--lengthB == 1) goto CopyA;], then
    [k = GallopLeft(tempArray, workArray[cursorA], 0, lengthB,
    lengthB - 1); nofWinsB = lengthB - k;] and the move of that block
    of [B]. *)
Definition high_gallop_b (temp : list A) (s : high_st) : flow merge_label high_st :=
  let s := high_take_b temp s in
  if (hlb s =? 1)%Z then Goto CopyA s
  else
    match rd (hw s) (hca s) with
    | Some keyA =>
        let k := gallop_left cmp temp keyA 0 (hlb s) (hlb s - 1) in
        let s := high_set_wins s (hwa s) (hlb s - k) in
        if (0 <? hwb s)%Z then
          let s := high_copy_b temp s (hwb s) in
          if (hlb s =? 1)%Z then Goto CopyA s
          else if (hlb s =? 0)%Z then Goto Succeed s
          else high_gallop_end s
        else high_gallop_end s
    | None => Stuck
    end.

(** A galloping round: [minGallop = SmiMax(1, minGallop - 1);
    sortState.minGallop = minGallop; k = GallopRight(workArray,
    tempArray[cursorTemp], baseA, lengthA, lengthA - 1); nofWinsA =
    lengthA - k;] and the move of that block of [A]. *)
Definition high_gallop_round (temp : list A) (baseA : Z) (s : high_st) : flow merge_label high_st :=
  let mg := Z.max 1 (hmg s - 1) in
  let s := high_set_mg s mg mg in
  match rd temp (hct s) with
  | Some keyB =>
      let k := gallop_right cmp (hw s) keyB baseA (hla s) (hla s - 1) in
      let s := high_set_wins s (hla s - k) (hwb s) in
      if (0 <? hwa s)%Z then
        let s := high_copy_a s (hwa s) in
        if (hla s =? 0)%Z then Goto Succeed s
        else high_gallop_b temp s
      else high_gallop_b temp s
  | None => Stuck
  end.

(** One round of the outer [while (true)]. *)
Definition high_round (temp : list A) (baseA : Z) (fuel : nat) (s : high_st) : flow merge_label high_st :=
  match loop (high_one temp) fuel (high_set_wins s 0 0) with
  | Goto l s1 => Goto l s1
  | Break s1 =>
      match loop (high_gallop_round temp baseA) fuel (high_set_mg s1 (hmg s1 + 1) (hsmg s1)) with
      | Goto l s2 => Goto l s2
      | Break s2 => Cont (high_set_mg s2 (hmg s2 + 1) (hmg s2 + 1))
      | _ => Stuck
      end
  | _ => Stuck
  end.

(** [MergeHigh(baseA, lengthA, baseB, lengthB)] with the sort state's
    [minGallop] [smg]. The temporary array holds the copy of [B]. *)
Definition merge_high (w : list A) (smg baseA lengthA baseB lengthB : Z) : list A * Z :=
  let temp := take (Z.to_nat lengthB) (drop (Z.to_nat baseB) w) in
  let fuel := Z.to_nat (lengthA + lengthB) in
  let s := high_take_a (HighSt w (baseB + lengthB - 1) (lengthB - 1) (baseA + lengthA - 1)
                          lengthA lengthB 0 0 smg smg) in
  let r :=
    if (hla s =? 0)%Z then Goto Succeed s
    else if (hlb s =? 1)%Z then Goto CopyA s
    else loop (high_round temp baseA fuel) fuel s in
  match r with
  | Goto Succeed s =>
      ((if (0 <? hlb s)%Z then copy temp (hw s) 0 (hdest s - (hlb s - 1)) (hlb s) else hw s), hsmg s)
  | Goto CopyA s =>
      let dest := (hdest s - hla s)%Z in
      let cursorA := (hca s - hla s)%Z in
      (mv (copy_within (hw s) (cursorA + 1) (dest + 1) (hla s)) dest temp (hct s), hsmg s)
  | _ => (w, smg)
  end.
End MergeHigh.

(** ** The loop invariant *)

Section HighProof.
Context {A : Type} (cmp : A -> A -> comparison) `{!Consistent cmp}.
Context (pre post A0 B0 : list A).

(** The state [s] is what remains of [A] ([As], a prefix of [A0]) in
    place, then as many stale slots [J] as elements of [B] remain ([Bs],
    a prefix of the copy [B0]), then the merge so far [out], which ends
    where [B] ended. *)
Definition high_repr (s : high_st) (out As Bs J : list A) : Prop :=
  (exists A'', A0 = As ++ A'') /\
  (exists B'', B0 = Bs ++ B'') /\
  length J = length Bs /\
  hw s = pre ++ As ++ J ++ out ++ post /\
  hca s = (Z.of_nat (length pre + length As) - 1)%Z /\
  hdest s = (Z.of_nat (length pre + length As + length J) - 1)%Z /\
  hct s = (Z.of_nat (length Bs) - 1)%Z /\
  hla s = Z.of_nat (length As) /\ hlb s = Z.of_nat (length Bs).

Definition high_inv (s : high_st) : Prop :=
  exists out As Bs J, high_repr s out As Bs J /\ merge cmp A0 B0 = merge cmp As Bs ++ out.

Lemma high_inv_intro s out As Bs J :
  high_repr s out As Bs J -> merge cmp A0 B0 = merge cmp As Bs ++ out -> high_inv s.
Proof. intros Hr Hm. by exists out, As, Bs, J. Qed.

Lemma high_repr_lens s out As Bs J :
  high_repr s out As Bs J -> hla s = Z.of_nat (length As) /\ hlb s = Z.of_nat (length Bs).
Proof. intros (_ & _ & _ & _ & _ & _ & _ & Ha & Hb). done. Qed.

Lemma high_repr_rd_a s out As a Bs J : high_repr s out (As ++ [a]) Bs J -> rd (hw s) (hca s) = Some a.
Proof.
  intros (_ & _ & _ & -> & -> & _).
  replace (pre ++ (As ++ [a]) ++ J ++ out ++ post) with ((pre ++ As) ++ a :: J ++ out ++ post)
    by (by rewrite <- !app_assoc).
  replace (Z.of_nat (length pre + length (As ++ [a])) - 1)%Z with (Z.of_nat (length (pre ++ As)))
    by (rewrite !length_app; cbn; lia).
  apply rd_at.
Qed.

Lemma high_repr_rd_b s out As Bs b J : high_repr s out As (Bs ++ [b]) J -> rd B0 (hct s) = Some b.
Proof.
  intros (_ & (B'' & ->) & _ & _ & _ & _ & -> & _).
  replace (Z.of_nat (length (Bs ++ [b])) - 1)%Z with (Z.of_nat (length Bs)) by (rewrite length_app; cbn; lia).
  rewrite <- app_assoc. apply rd_at.
Qed.

Lemma high_repr_take_a s out As a Bs J :
  high_repr s out (As ++ [a]) Bs J -> exists J', high_repr (high_take_a s) (a :: out) As Bs J'.
Proof.
  intros ((A'' & HA) & HB & HJ & Hw & Hc & Hd & Ht & Ha & Hb).
  destruct (move_down_seg (pre ++ As) J [a] (out ++ post)) as (J' & HJ' & E).
  exists J'. unfold high_repr; cbn [hw hdest hct hca hla hlb high_take_a].
  split_and!; [exists (a :: A''); by rewrite HA, <- app_assoc | done | lia | | | | done | | done].
  - change (mv (hw s) (hdest s) (hw s) (hca s)) with (move_down (hw s) (hca s) (hdest s) 1).
    rewrite Hw, Hc, Hd. cbn [length] in E.
    replace (pre ++ (As ++ [a]) ++ J ++ out ++ post) with ((pre ++ As) ++ [a] ++ J ++ out ++ post)
      by (by rewrite <- !app_assoc).
    replace (Z.of_nat (length pre + length (As ++ [a])) - 1)%Z
      with (Z.of_nat (length (pre ++ As) + 1) - 1)%Z by (rewrite !length_app; cbn; lia).
    replace (Z.of_nat (length pre + length (As ++ [a]) + length J) - 1)%Z
      with (Z.of_nat (length (pre ++ As) + 1 + length J) - 1)%Z by (rewrite !length_app; cbn; lia).
    rewrite E. by rewrite <- !app_assoc.
  - rewrite Hc, length_app. cbn. lia.
  - rewrite Hd, length_app. cbn. lia.
  - rewrite Ha, length_app. cbn. lia.
Qed.

Lemma high_repr_take_b s out As Bs b J :
  high_repr s out As (Bs ++ [b]) J -> exists J', high_repr (high_take_b B0 s) (b :: out) As Bs J'.
Proof.
  intros Hr. pose proof (high_repr_rd_b s out As Bs b J Hr) as Hrd.
  destruct Hr as (HA & (B'' & HB) & HJ & Hw & Hc & Hd & Ht & Ha & Hb).
  destruct J as [|j J _] using rev_ind; [rewrite length_app in HJ; cbn in HJ; lia|].
  rewrite !length_app in HJ. cbn in HJ.
  exists J. unfold high_repr; cbn [hw hdest hct hca hla hlb high_take_b].
  split_and!; [done | exists (b :: B''); by rewrite HB, <- app_assoc | lia | | done | | | done | ].
  - unfold mv. rewrite Hrd, Hw, Hd.
    replace (pre ++ As ++ (J ++ [j]) ++ out ++ post) with ((pre ++ As ++ J) ++ j :: out ++ post)
      by (by rewrite <- !app_assoc).
    replace (Z.of_nat (length pre + length As + length (J ++ [j])) - 1)%Z with (Z.of_nat (length (pre ++ As ++ J)))
      by (rewrite !length_app; cbn; lia).
    rewrite wr_at. by rewrite <- !app_assoc.
  - rewrite Hd, length_app. cbn. lia.
  - rewrite Ht, length_app. cbn. lia.
  - rewrite Hb, length_app. cbn. lia.
Qed.

Lemma high_repr_copy_a s out As Bs J k : k <= length As ->
  high_repr s out As Bs J ->
  exists J', high_repr (high_copy_a s (Z.of_nat k)) (drop (length As - k) As ++ out)
                       (take (length As - k) As) Bs J'.
Proof.
  intros Hk ((A'' & HA) & HB & HJ & Hw & Hc & Hd & Ht & Ha & Hb).
  set (As1 := take (length As - k) As). set (As2 := drop (length As - k) As).
  assert (H1 : length As1 = length As - k) by (apply length_take_le; lia).
  assert (H2 : length As2 = k) by (unfold As2; rewrite length_drop; lia).
  assert (HAs : As = As1 ++ As2) by (symmetry; apply take_drop).
  destruct (copy_within_right (pre ++ As1) J As2 (out ++ post)) as (J' & HJ' & E).
  exists J'. unfold high_repr; cbn [hw hdest hct hca hla hlb high_copy_a].
  split_and!; [exists (As2 ++ A''); by rewrite HA, HAs, <- app_assoc | done | lia | | | | done | | done].
  - rewrite Hw, Hc, Hd.
    replace (pre ++ As ++ J ++ out ++ post) with ((pre ++ As1) ++ As2 ++ J ++ out ++ post)
      by (rewrite HAs; by rewrite <- !app_assoc).
    replace (Z.of_nat (length pre + length As) - 1 - Z.of_nat k + 1)%Z with (Z.of_nat (length (pre ++ As1)))
      by (rewrite length_app; lia).
    replace (Z.of_nat (length pre + length As + length J) - 1 - Z.of_nat k + 1)%Z
      with (Z.of_nat (length (pre ++ As1) + length J)) by (rewrite length_app; lia).
    rewrite <- H2 at 1. rewrite E. by rewrite <- !app_assoc.
  - rewrite Hc. lia.
  - rewrite Hd. lia.
  - rewrite Ha. lia.
Qed.

Lemma high_repr_copy_b s out As Bs J k : k <= length Bs ->
  high_repr s out As Bs J ->
  exists J', high_repr (high_copy_b B0 s (Z.of_nat k)) (drop (length Bs - k) Bs ++ out)
                       As (take (length Bs - k) Bs) J'.
Proof.
  intros Hk (HA & (B'' & HB) & HJ & Hw & Hc & Hd & Ht & Ha & Hb).
  set (Bs1 := take (length Bs - k) Bs). set (Bs2 := drop (length Bs - k) Bs).
  assert (H1 : length Bs1 = length Bs - k) by (apply length_take_le; lia).
  assert (H2 : length Bs2 = k) by (unfold Bs2; rewrite length_drop; lia).
  assert (HBs : Bs = Bs1 ++ Bs2) by (symmetry; apply take_drop).
  set (J1 := take (length J - k) J). set (J2 := drop (length J - k) J).
  assert (HJ2 : length J2 = k) by (unfold J2; rewrite length_drop; lia).
  assert (HJs : J = J1 ++ J2) by (symmetry; apply take_drop).
  exists J1. unfold high_repr; cbn [hw hdest hct hca hla hlb high_copy_b].
  split_and!; [done | exists (Bs2 ++ B''); by rewrite HB, HBs, <- app_assoc | unfold J1; rewrite length_take; lia
              | | done | | | done | ].
  - rewrite Hw, Ht, Hd.
    replace (pre ++ As ++ J ++ out ++ post) with ((pre ++ As ++ J1) ++ J2 ++ out ++ post)
      by (rewrite HJs; by rewrite <- !app_assoc).
    replace (Z.of_nat (length Bs) - 1 - Z.of_nat k + 1)%Z with (Z.of_nat (length Bs1)) by lia.
    replace (Z.of_nat (length pre + length As + length J) - 1 - Z.of_nat k + 1)%Z
      with (Z.of_nat (length (pre ++ As ++ J1))) by (rewrite HJs, !length_app in *; lia).
    rewrite <- H2. rewrite (copy_seg B0 Bs1 Bs2 B'' (pre ++ As ++ J1) J2 (out ++ post)).
    + by rewrite <- !app_assoc.
    + by rewrite HB, HBs, <- app_assoc.
    + lia.
  - rewrite Hd. unfold J1. rewrite length_take. lia.
  - rewrite Ht. lia.
  - rewrite Hb. lia.
Qed.
Context (HsA : StronglySorted (le cmp) A0) (HsB : StronglySorted (le cmp) B0).
Context (Hsmi : (Z.of_nat (length A0 + length B0) <= smi_max)%Z).

Lemma high_repr_sorted s out As Bs J : high_repr s out As Bs J ->
  StronglySorted (le cmp) As /\ StronglySorted (le cmp) Bs.
Proof.
  intros ((A'' & HA) & (B'' & HB) & _).
  split; eapply StronglySorted_app_l; [rewrite <- HA | rewrite <- HB]; done.
Qed.

Lemma high_repr_gallop_right s out As Bs J key : high_repr s out As Bs J -> As <> [] ->
  gallop_right cmp (hw s) key (Z.of_nat (length pre)) (hla s) (hla s - 1) =
  Z.of_nat (span_len (fun x => negb (is_lt (cmp key x))) As).
Proof.
  intros Hr Hne. pose proof (high_repr_sorted _ _ _ _ _ Hr) as [Hs _].
  destruct Hr as ((A'' & HA) & _ & _ & Hw & _ & _ & _ & Ha & _). rewrite Hw, Ha.
  apply (gallop_right_span cmp); [done | | | ].
  - intros j Hj. rewrite <- Nat2Z.inj_add, rd_mid. by apply lookup_app_l.
  - destruct As; [done|]. cbn. lia.
  - rewrite HA, length_app in Hsmi. lia.
Qed.

Lemma high_repr_gallop_left s out As Bs J key : high_repr s out As Bs J -> Bs <> [] ->
  gallop_left cmp B0 key 0 (hlb s) (hlb s - 1) = Z.of_nat (span_len (fun y => is_lt (cmp y key)) Bs).
Proof.
  intros Hr Hne. pose proof (high_repr_sorted _ _ _ _ _ Hr) as [_ Hs].
  destruct Hr as (_ & (B'' & HB) & _ & _ & _ & _ & _ & _ & Hb). rewrite Hb.
  apply (gallop_left_span cmp); [done | | | ].
  - intros j Hj. rewrite HB. rewrite <- (app_nil_l (Bs ++ B'')), <- (Nat.add_0_l j).
    change 0%Z with (Z.of_nat (length (@nil A))). rewrite <- Nat2Z.inj_add, rd_mid. by apply lookup_app_l.
  - destruct Bs; [done|]. cbn. lia.
  - rewrite HB, length_app in Hsmi. lia.
Qed.

(** ** The loops *)

(** Inside the loops, [dcheck(lengthA > 0 && lengthB > 1)]. *)
Definition high_P (s : high_st) : Prop := high_inv s /\ (1 <= hla s)%Z /\ (2 <= hlb s)%Z.

Definition high_Q (l : merge_label) (s : high_st) : Prop :=
  high_inv s /\ match l with Succeed => hla s = 0%Z \/ hlb s = 0%Z | CopyA => hlb s = 1%Z | CopyB => False end.

Definition high_mu (s : @high_st A) : nat := Z.to_nat (hla s + hlb s).

Lemma high_P_set_wins s wa wb : high_P s -> high_P (high_set_wins s wa wb).
Proof. intros ((out & As & Bs & J & Hr & Hm) & H1 & H2). split_and!; [by exists out, As, Bs, J | done | done]. Qed.

Lemma high_P_set_mg s mg smg : high_P s -> high_P (high_set_mg s mg smg).
Proof. intros ((out & As & Bs & J & Hr & Hm) & H1 & H2). split_and!; [by exists out, As, Bs, J | done | done]. Qed.

(** The last element [a] of [A] goes last when every element left in
    [B] is below it. *)
Lemma high_merge_take_a As a Bs out :
  merge cmp A0 B0 = merge cmp (As ++ [a]) Bs ++ out -> Forall (fun y => cmp y a = Lt) Bs ->
  merge cmp A0 B0 = merge cmp As Bs ++ a :: out.
Proof.
  intros Hm Hf. rewrite Hm, merge_app_l_tail, <- app_assoc; [done|].
  intros x y [<-|[]] Hy. apply list_elem_of_In in Hy. by eapply Forall_forall in Hf.
Qed.

(** The last element [b] of [B] goes last when no element left in [A]
    is above it. *)
Lemma high_merge_take_b As Bs b out :
  merge cmp A0 B0 = merge cmp As (Bs ++ [b]) ++ out -> Forall (fun x => cmp b x <> Lt) As ->
  merge cmp A0 B0 = merge cmp As Bs ++ b :: out.
Proof.
  intros Hm Hf. rewrite Hm, merge_app_r_tail, <- app_assoc; [done|].
  intros x y Hx [<-|[]]. apply list_elem_of_In in Hx. by eapply Forall_forall in Hf.
Qed.
(** A round of the straightforward mode moves one element. *)
Lemma high_one_step s : high_P s -> flow_step high_P high_Q high_mu s (high_one cmp B0 s).
Proof.
  intros ((out & As & Bs & J & Hr & Hm) & Hla & Hlb).
  destruct (high_repr_lens _ _ _ _ _ Hr) as [Ha Hb].
  pose proof (high_repr_sorted _ _ _ _ _ Hr) as [HsAs HsBs].
  destruct As as [|a As _] using rev_ind; [cbn in Ha; lia|].
  destruct Bs as [|b Bs _] using rev_ind; [cbn in Hb; lia|].
  unfold high_one. rewrite (high_repr_rd_b _ _ _ _ _ _ Hr), (high_repr_rd_a _ _ _ _ _ _ Hr).
  rewrite !length_app in Ha, Hb. cbn [length] in Ha, Hb.
  destruct (is_lt (cmp b a)) eqn:E.
  - destruct (high_repr_take_a _ _ _ _ _ _ Hr) as (J' & Hr').
    assert (Hi : high_inv (high_set_wins (high_take_a s) (hwa s + 1) 0)).
    { apply (high_inv_intro _ (a :: out) As (Bs ++ [b]) J'); [done|].
      apply high_merge_take_a; [done|]. apply (Forall_lt_last cmp); [done|]. by apply is_lt_true. }
    cbn [hla hlb hmg hwa high_set_wins high_take_a].
    destruct (Z.eqb_spec (hla s - 1) 0); [split; [done | left; cbn; lia]|].
    destruct (_ <=? _)%Z; cbn [flow_step]; (split; [split_and!; [done | cbn; lia | cbn; lia] | unfold high_mu; cbn; lia]).
  - destruct (high_repr_take_b _ _ _ _ _ _ Hr) as (J' & Hr').
    assert (Hi : high_inv (high_set_wins (high_take_b B0 s) 0 (hwb s + 1))).
    { apply (high_inv_intro _ (b :: out) (As ++ [a]) Bs J'); [done|].
      apply high_merge_take_b; [done|]. apply (Forall_nlt_last cmp); [done|].
      apply not_true_iff_false in E. by rewrite is_lt_true in E. }
    cbn [hla hlb hmg hwb high_set_wins high_take_b].
    destruct (Z.eqb_spec (hlb s - 1) 1); [split; [done | cbn; lia]|].
    destruct (_ <=? _)%Z; cbn [flow_step]; (split; [split_and!; [done | cbn; lia | cbn; lia] | unfold high_mu; cbn; lia]).
Qed.

(** The end of a galloping round, once every element left in [B] is
    known to be below the last element [a] of [A]. *)
Lemma high_gallop_end_step s0 s out As a Bs J :
  high_repr s out (As ++ [a]) Bs J -> merge cmp A0 B0 = merge cmp (As ++ [a]) Bs ++ out ->
  Forall (fun y => cmp y a = Lt) Bs ->
  (1 <= hla s)%Z -> (2 <= hlb s)%Z -> high_mu s <= high_mu s0 ->
  flow_step high_P high_Q high_mu s0 (high_gallop_end s).
Proof.
  intros Hr Hm Hb Hla Hlb Hmu. destruct (high_repr_take_a _ _ _ _ _ _ Hr) as (J' & Hr').
  assert (Hi : high_inv (high_take_a s)) by (apply (high_inv_intro _ _ _ _ _ Hr'); by apply high_merge_take_a).
  unfold high_gallop_end, high_mu in *. cbn [hla hlb high_take_a] in *.
  destruct (Z.eqb_spec (hla s - 1) 0); [split; [done | left; cbn; lia]|].
  destruct (_ || _); cbn [flow_step]; (split; [split_and!; [done | cbn; lia | cbn; lia] | cbn; lia]).
Qed.

(** The middle of a galloping round, once no element left in [A] is
    known to be above the last element [b] of [B]. *)
Lemma high_gallop_b_step s0 s out As Bs b J :
  high_repr s out As (Bs ++ [b]) J -> merge cmp A0 B0 = merge cmp As (Bs ++ [b]) ++ out ->
  Forall (fun x => cmp b x <> Lt) As ->
  (1 <= hla s)%Z -> (2 <= hlb s)%Z -> high_mu s <= high_mu s0 ->
  flow_step high_P high_Q high_mu s0 (high_gallop_b cmp B0 s).
Proof.
  intros Hr Hm Hf Hla Hlb Hmu. destruct (high_repr_take_b _ _ _ _ _ _ Hr) as (J1 & Hr1).
  assert (Hm1 : merge cmp A0 B0 = merge cmp As Bs ++ b :: out) by (by apply high_merge_take_b).
  destruct (high_repr_lens _ _ _ _ _ Hr1) as [Ha1 Hb1].
  unfold high_gallop_b. cbv zeta. unfold high_mu in Hmu.
  assert (Hlb1 : hlb (high_take_b B0 s) = (hlb s - 1)%Z) by done.
  assert (Hla1 : hla (high_take_b B0 s) = hla s) by done.
  destruct (Z.eqb_spec (hlb (high_take_b B0 s)) 1) as [H1|H1].
  { split; [by apply (high_inv_intro _ _ _ _ _ Hr1) | done]. }
  destruct As as [|a As _] using rev_ind; [cbn in Ha1; lia|]. rewrite (high_repr_rd_a _ _ _ _ _ _ Hr1).
  assert (HBs : Bs <> []) by (intros ->; cbn in Hb1; lia).
  pose proof (high_repr_sorted _ _ _ _ _ Hr1) as [HsAs HsBs].
  rewrite (high_repr_gallop_left _ _ _ _ _ a Hr1 HBs).
  set (k := span_len (fun y => is_lt (cmp y a)) Bs).
  assert (Hk : k <= length Bs) by apply span_len_le.
  pose proof (span_take (fun y => is_lt (cmp y a)) Bs) as Htk. fold k in Htk.
  assert (Hlt : forall l, Forall (fun y => is_lt (cmp y a) = true) l -> Forall (fun y => cmp y a = Lt) l)
    by (intros l Hl; eapply Forall_impl; [exact Hl|]; intros y; apply is_lt_true).
  cbn [hwb high_set_wins]. rewrite Hb1.
  destruct (Z.ltb_spec 0 (Z.of_nat (length Bs) - Z.of_nat k)) as [Hpos|Hpos].
  - replace (Z.of_nat (length Bs) - Z.of_nat k)%Z with (Z.of_nat (length Bs - k)) by lia.
    destruct (high_repr_copy_b _ _ _ Bs _ (length Bs - k) ltac:(lia) Hr1) as (J2 & Hr2).
    replace (length Bs - (length Bs - k)) with k in Hr2 by lia.
    assert (Hm2 : merge cmp A0 B0 = merge cmp (As ++ [a]) (take k Bs) ++ drop k Bs ++ b :: out)
      by (by rewrite Hm1, (merge_gallop_high_right cmp As a Bs HsAs HsBs), <- !app_assoc).
    destruct (high_repr_lens _ _ _ _ _ Hr2) as [Ha2 Hb2].
    assert (Hlk : length (take k Bs) = k) by (apply length_take_le; lia).
    cbn [hlb hla high_copy_b high_set_wins] in Ha2, Hb2 |- *. rewrite Hlk in Hb2.
    destruct (Z.eqb_spec (hlb (high_take_b B0 s) - Z.of_nat (length Bs - k)) 1).
    { split; [by apply (high_inv_intro _ _ _ _ _ Hr2) | cbn [hlb high_copy_b high_set_wins]; lia]. }
    destruct (Z.eqb_spec (hlb (high_take_b B0 s) - Z.of_nat (length Bs - k)) 0).
    { split; [by apply (high_inv_intro _ _ _ _ _ Hr2) | right; cbn [hlb high_copy_b high_set_wins]; lia]. }
    eapply (high_gallop_end_step s0 _ (drop k Bs ++ b :: out) As a (take k Bs) J2); [done | done | by apply Hlt | | |].
    + cbn. lia.
    + cbn. lia.
    + unfold high_mu. cbn [hla hlb high_copy_b high_set_wins high_take_b]. lia.
  - assert (Hk' : k = length Bs) by lia. rewrite Hk', take_ge in Htk by lia.
    eapply (high_gallop_end_step s0 _ (b :: out) As a Bs J1); [done | done | by apply Hlt | | |].
    + cbn. lia.
    + cbn. rewrite length_app in *. cbn in *. lia.
    + unfold high_mu. cbn [hla hlb high_set_wins high_take_b]. lia.
Qed.
(** A galloping round moves at least one element of each run. *)
Lemma high_gallop_round_step s :
  high_P s -> flow_step high_P high_Q high_mu s (high_gallop_round cmp B0 (Z.of_nat (length pre)) s).
Proof.
  intros ((out & As & Bs & J & Hr & Hm) & Hla & Hlb).
  destruct (high_repr_lens _ _ _ _ _ Hr) as [Ha Hb].
  destruct Bs as [|b Bs _] using rev_ind; [cbn in Hb; lia|].
  assert (HAs : As <> []) by (intros ->; cbn in Ha; lia).
  pose proof (high_repr_sorted _ _ _ _ _ Hr) as [HsAs HsBs].
  unfold high_gallop_round. cbv zeta. cbn [hw hct hla hwa hwb high_set_mg high_set_wins].
  rewrite (high_repr_rd_b _ _ _ _ _ _ Hr), (high_repr_gallop_right _ _ _ _ _ b Hr HAs).
  set (k := span_len (fun x => negb (is_lt (cmp b x))) As).
  assert (Hk : k <= length As) by apply span_len_le.
  pose proof (span_take (fun x => negb (is_lt (cmp b x))) As) as Htk. fold k in Htk.
  assert (Hnlt : forall l, Forall (fun x => negb (is_lt (cmp b x)) = true) l -> Forall (fun x => cmp b x <> Lt) l).
  { intros l Hl. eapply Forall_impl; [exact Hl|]. intros x Hx.
    apply negb_true_iff, not_true_iff_false in Hx. by rewrite is_lt_true in Hx. }
  assert (HkZ : (hla s - Z.of_nat k)%Z = Z.of_nat (length As - k)) by lia.
  rewrite HkZ.
  match goal with |- context [high_copy_a ?st _] => assert (Hr1 : high_repr st out As (Bs ++ [b]) J) by exact Hr end.
  destruct (Z.ltb_spec 0 (Z.of_nat (length As - k))) as [Hpos|Hpos].
  - destruct (high_repr_copy_a _ _ As _ _ (length As - k) ltac:(lia) Hr1) as (J2 & Hr2).
    replace (length As - (length As - k)) with k in Hr2 by lia.
    assert (Hm2 : merge cmp A0 B0 = merge cmp (take k As) (Bs ++ [b]) ++ drop k As ++ out)
      by (by rewrite Hm, (merge_gallop_high_left cmp As Bs b HsAs HsBs), <- !app_assoc).
    destruct (high_repr_lens _ _ _ _ _ Hr2) as [Ha2 Hb2].
    assert (Hlk : length (take k As) = k) by (apply length_take_le; lia).
    rewrite Hlk in Ha2. cbn [hla hlb high_copy_a] in Ha2, Hb2 |- *.
    case_zeqb.
    { split; [by apply (high_inv_intro _ _ _ _ _ Hr2) | left; cbn [hla high_copy_a]; lia]. }
    eapply (high_gallop_b_step s _ (drop k As ++ out) (take k As) Bs b J2); [done | done | by apply Hnlt | | |].
    + cbn. lia.
    + cbn. rewrite length_app in Hb. cbn in Hb. lia.
    + unfold high_mu. cbn [hla hlb high_copy_a]. lia.
  - assert (Hk' : k = length As) by lia. rewrite Hk', take_ge in Htk by lia.
    eapply (high_gallop_b_step s _ out As Bs b J); [done | done | by apply Hnlt | | |].
    + cbn. lia.
    + cbn. lia.
    + unfold high_mu. cbn. lia.
Qed.

Lemma high_round_step fuel s :
  high_P s -> high_mu s < fuel ->
  flow_step (fun s => high_P s /\ high_mu s < fuel) high_Q high_mu s
    (high_round cmp B0 (Z.of_nat (length pre)) fuel s).
Proof.
  intros HP Hf. unfold high_round.
  pose proof (loop_spec high_P high_Q high_mu (high_one cmp B0) fuel (high_set_wins s 0 0) high_one_step
                (high_P_set_wins s 0 0 HP) Hf) as H1.
  destruct (loop (high_one cmp B0) fuel _) as [l s1|s1| |]; cbn in H1 |- *; try done.
  destruct H1 as [HP1 Hm1].
  assert (Hf1 : high_mu (high_set_mg s1 (hmg s1 + 1) (hsmg s1)) < fuel)
    by (unfold high_mu in *; cbn [hla hlb high_set_mg high_set_wins] in *; lia).
  pose proof (loop_spec high_P high_Q high_mu (high_gallop_round cmp B0 (Z.of_nat (length pre))) fuel
                (high_set_mg s1 (hmg s1 + 1) (hsmg s1)) high_gallop_round_step (high_P_set_mg _ _ _ HP1) Hf1) as H2.
  destruct (loop (high_gallop_round cmp B0 _) fuel _) as [l s2|s2| |]; cbn in H2 |- *; try done.
  destruct H2 as [HP2 Hm2]. unfold high_mu in *. cbn [hla hlb high_set_mg high_set_wins] in *.
  split_and!; [by apply high_P_set_mg | lia | lia].
Qed.

Lemma high_round_no_break baseA fuel s s' : high_round cmp B0 baseA fuel s <> Break s'.
Proof.
  unfold high_round. destruct (loop (high_one cmp B0) fuel _); try done.
  by destruct (loop (high_gallop_round cmp B0 baseA) fuel _).
Qed.

Context (Hfirst : forall b a, B0 !! 0 = Some b -> A0 !! 0 = Some a -> cmp b a = Lt).

(** [Succeed] puts the rest of the copy of [B] in front; [CopyA] moves
    [A]'s rest right and puts the first element of [B] in front. *)
Lemma high_finish l s : high_Q l s ->
  match l with
  | Succeed => (if (0 <? hlb s)%Z then copy B0 (hw s) 0 (hdest s - (hlb s - 1)) (hlb s) else hw s)
  | CopyA => mv (copy_within (hw s) (hca s - hla s + 1) (hdest s - hla s + 1) (hla s)) (hdest s - hla s) B0 (hct s)
  | CopyB => hw s
  end = pre ++ merge cmp A0 B0 ++ post.
Proof.
  intros [(out & As & Bs & J & Hr & Hm) Hl].
  destruct Hr as ((A'' & HA) & (B'' & HB) & HJ & Hw & Hc & Hd & Ht & Ha & Hb).
  destruct l; [| | done].
  - destruct (Z.ltb_spec 0 (hlb s)) as [Hpos|Hpos].
    + destruct Hl as [Hl|Hl]; [|lia]. destruct As; [|cbn in Ha; lia].
      rewrite Hm, Hw, Hd, Hb. cbn [app merge length].
      replace (Z.of_nat (length pre + 0 + length J) - 1 - (Z.of_nat (length Bs) - 1))%Z with (Z.of_nat (length pre))
        by lia.
      change 0%Z with (Z.of_nat (length (@nil A))).
      rewrite (copy_seg B0 [] Bs B'' pre J (out ++ post)); [by rewrite <- !app_assoc | done | done].
    + destruct Bs; [|cbn in Hb; lia]. destruct J; [|discriminate].
      rewrite Hw, Hm, merge_nil_r. by rewrite <- !app_assoc.
  - destruct Bs as [|b [|]]; cbn in Hb; try lia. destruct J as [|j [|]]; try discriminate.
    assert (Hb0 : B0 !! 0 = Some b) by (by rewrite HB).
    assert (Hmb : merge cmp As [b] = b :: As).
    { change [b] with ([b] ++ []). rewrite merge_app_r, merge_nil_r; [done|].
      intros x y Hx [<-|[]]. destruct As as [|x0 As']; [done|].
      assert (Hx0 : A0 !! 0 = Some x0) by (by rewrite HA).
      pose proof (Hfirst b x0 Hb0 Hx0) as Hbx0.
      destruct Hx as [<-|Hx]; [done|]. apply (Lt_le_Lt cmp b x0 x Hbx0).
      pose proof HsA as HsA'. rewrite HA in HsA'.
      apply StronglySorted_app_l, StronglySorted_inv in HsA' as [_ Hx0'].
      apply list_elem_of_In in Hx. by eapply Forall_forall in Hx0'. }
    destruct (copy_within_right pre [j] As (out ++ post)) as ([|j' [|]] & HJ' & E); try discriminate.
    rewrite Hm, Hmb, Hw, Hc, Hd, Ha, Ht.
    replace (Z.of_nat (length pre + length As) - 1 - Z.of_nat (length As) + 1)%Z with (Z.of_nat (length pre)) by lia.
    replace (Z.of_nat (length pre + length As + length [j]) - 1 - Z.of_nat (length As) + 1)%Z
      with (Z.of_nat (length pre + length [j])) by (cbn; lia).
    rewrite E. unfold mv.
    replace (Z.of_nat (length [b]) - 1)%Z with (Z.of_nat (length (@nil A))) by done.
    assert (Hrb : rd B0 (Z.of_nat (length (@nil A))) = Some b) by (by rewrite HB). rewrite Hrb.
    replace (Z.of_nat (length pre + length As + length [j]) - 1 - Z.of_nat (length As))%Z with (Z.of_nat (length pre))
      by (cbn; lia).
    cbn [app]. rewrite wr_at. by rewrite <- !app_assoc.
Qed.
Context (Hlast : forall b a, In b B0 -> last A0 = Some a -> cmp b a = Lt).
Context (HAne : A0 <> []) (HBne : B0 <> []).

(** [MergeHigh] on the runs [A0] and [B0], adjacent in the work array,
    under the conditions [MergeAt] establishes, writes their stable merge
    in their place. *)
Lemma merge_high_merges smg :
  fst (merge_high cmp (pre ++ A0 ++ B0 ++ post) smg (Z.of_nat (length pre)) (Z.of_nat (length A0))
         (Z.of_nat (length pre + length A0)) (Z.of_nat (length B0))) =
  pre ++ merge cmp A0 B0 ++ post.
Proof.
  unfold merge_high. cbv zeta.
  assert (Ht : take (Z.to_nat (Z.of_nat (length B0)))
                 (drop (Z.to_nat (Z.of_nat (length pre + length A0))) (pre ++ A0 ++ B0 ++ post)) = B0).
  { rewrite !Nat2Z.id, app_assoc, <- length_app, drop_app_length. by rewrite take_app_length. }
  rewrite Ht.
  destruct (exists_last HAne) as (A1 & alast & EA).
  set (s0 := HighSt (pre ++ A0 ++ B0 ++ post) (Z.of_nat (length pre + length A0) + Z.of_nat (length B0) - 1)
               (Z.of_nat (length B0) - 1) (Z.of_nat (length pre) + Z.of_nat (length A0) - 1)
               (Z.of_nat (length A0)) (Z.of_nat (length B0)) 0 0 smg smg).
  assert (Hr0 : high_repr s0 [] A0 B0 B0).
  { unfold high_repr, s0. cbn [hw hdest hct hca hla hlb].
    split_and!; [exists []; by rewrite app_nil_r | exists []; by rewrite app_nil_r | done | done | lia | lia | done
                | done | done]. }
  rewrite EA in Hr0. destruct (high_repr_take_a _ _ _ _ _ _ Hr0) as (J1 & Hr1).
  assert (Hm1 : merge cmp A0 B0 = merge cmp A1 B0 ++ [alast]).
  { apply high_merge_take_a; [by rewrite EA, app_nil_r|]. apply Forall_forall. intros y Hy.
    apply Hlast; [by apply list_elem_of_In | rewrite EA; apply last_snoc]. }
  assert (Hi1 : high_inv (high_take_a s0)) by (by apply (high_inv_intro _ _ _ _ _ Hr1)).
  destruct (high_repr_lens _ _ _ _ _ Hr1) as [Ha1 Hb1].
  set (F := Z.to_nat (Z.of_nat (length A0) + Z.of_nat (length B0))).
  assert (Hr : exists l s', high_Q l s' /\
            (if (hla (high_take_a s0) =? 0)%Z then Goto Succeed (high_take_a s0)
             else if (hlb (high_take_a s0) =? 1)%Z then Goto CopyA (high_take_a s0)
             else loop (high_round cmp B0 (Z.of_nat (length pre)) F) F (high_take_a s0)) = Goto l s').
  { case_zeqb.
    { exists Succeed, (high_take_a s0). split; [split; [done | by left] | done]. }
    case_zeqb.
    { exists CopyA, (high_take_a s0). split; [split; done | done]. }
    assert (HP : high_P (high_take_a s0)).
    { split_and!; [done | lia |]. destruct B0; [done|]. cbn [length] in Hb1. lia. }
    assert (HF : high_mu (high_take_a s0) < F).
    { unfold high_mu, F. rewrite EA, length_app in *. cbn [length] in *. lia. }
    pose proof (loop_spec (fun s => high_P s /\ high_mu s < F) high_Q high_mu
                  (high_round cmp B0 (Z.of_nat (length pre)) F) F (high_take_a s0)
                  (fun s Hs => high_round_step F s (proj1 Hs) (proj2 Hs)) (conj HP HF) HF) as Hl.
    pose proof (loop_no_break (high_round cmp B0 (Z.of_nat (length pre)) F) F (high_take_a s0)) as Hnb.
    destruct (loop _ F _) as [l s'|s'| |]; cbn in Hl; try done.
    - by exists l, s'.
    - exfalso. apply (Hnb s'); [intros ??; apply high_round_no_break | done]. }
  destruct Hr as (l & s' & HQ & ->). pose proof (high_finish l s' HQ) as Hf.
  destruct l; [exact Hf | exact Hf | by destruct HQ].
Qed.
End HighProof.
