(* ===== verification/V8TimSort.v ===== *)
(** * V8's TimSort: the run stack, [MergeAt], and [ArrayTimSortImpl]

    [ArrayTimSortImpl] (array-sort.tq) walks the work array from the
    left: at each step [CountAndMakeRun] finds the natural run at [low],
    [BinaryInsertionSort] extends it to [min(minRunLength, remaining)]
    if it is shorter, [PushRun] pushes [(low, length)] on the pending-runs
    stack, and [MergeCollapse] merges runs at the top of the stack until
    the stack's lengths satisfy TimSort's invariant ([RunInvariantEstablished]
    at the two topmost positions, and the topmost run shorter than the one
    below). Once the array is consumed, [MergeForceCollapse] merges the
    remaining runs. [MergeAt(i)] merges runs [i] and [i + 1] of the stack:
    it records the merged length, slides the topmost run down when [i] is
    the third from the top, pops the stack, trims the parts of both runs
    already in place ([GallopRight] for [A], [GallopLeft] for [B]) and
    calls [MergeLow] or [MergeHigh] on what is left, the shorter run
    being copied out.

    [sort_st] is the sort state (work array, pending runs bottom first,
    [minGallop]); [merge_at], [merge_collapse], [merge_force_collapse],
    [timsort_loop] and [timsort] are the Torque macros and builtins of the
    same names. Stack positions are Smis: [stackSize - 3] is negative
    when two runs are pending, so the test [i == stackSize - 3] is done
    on [Z].

    The proofs describe the state by [stack_ok]: the input consumed so
    far is cut into segments, the pending runs are their positions and
    lengths ([layout]), and the work array holds each segment sorted.
    [MergeAt] at the second or third position from the top merges two
    adjacent segments ([merge_at_stack], from [merge_at_work] and
    [merge_at_runs]); [MergeCollapse] and [MergeForceCollapse] only
    merge there; the main loop pushes one sorted segment per round. At
    the end one segment is left, the whole input, sorted (C30). *)

From S2P Require Import Prelude ArraySort V8Sort Merge V8Gallop V8MergeLow V8MergeHigh.

Section TimSort.
Context {A : Type} (cmp : A -> A -> comparison).

Record sort_st := SortSt {
  st_work : list A;          (* sortState.workArray *)
  st_runs : list (Z * Z);    (* sortState.pendingRuns: (base, length), bottom first *)
  st_mg : Z                  (* sortState.minGallop *)
}.

(** [GetPendingRunBase(pendingRuns, n)] and [GetPendingRunLength]. *)
Definition run_base (runs : list (Z * Z)) (n : Z) : Z :=
  match runs !! Z.to_nat n with Some (b, _) => b | None => 0 end.
Definition run_length (runs : list (Z * Z)) (n : Z) : Z :=
  match runs !! Z.to_nat n with Some (_, l) => l | None => 0 end.

(** [MergeAt(i)]. *)
Definition merge_at (st : sort_st) (i : Z) : sort_st :=
  let runs := st_runs st in
  let stackSize := Z.of_nat (length runs) in
  let baseA := run_base runs i in
  let lengthA := run_length runs i in
  let baseB := run_base runs (i + 1) in
  let lengthB := run_length runs (i + 1) in
  (* SetPendingRunLength(pendingRuns, i, lengthA + lengthB) *)
  let runs1 := <[Z.to_nat i := (baseA, (lengthA + lengthB)%Z)]> runs in
  (* if (i == stackSize - 3) { slide the last run over run i + 1 } *)
  let runs2 := if (i =? stackSize - 3)%Z
               then <[Z.to_nat (i + 1) := (run_base runs1 (i + 2), run_length runs1 (i + 2))]> runs1
               else runs1 in
  (* sortState.pendingRunsSize = stackSize - 1 *)
  let runs3 := take (Z.to_nat (stackSize - 1)) runs2 in
  let w := st_work st in
  match rd w baseB with
  | Some keyRight =>
      (* Where does b start in a? *)
      let k := gallop_right cmp w keyRight baseA lengthA 0 in
      let baseA := (baseA + k)%Z in
      let lengthA := (lengthA - k)%Z in
      if (lengthA =? 0)%Z then SortSt w runs3 (st_mg st)
      else
        match rd w (baseA + lengthA - 1) with
        | Some keyLeft =>
            (* Where does a end in b? *)
            let lengthB := gallop_left cmp w keyLeft baseB lengthB (lengthB - 1) in
            if (lengthB =? 0)%Z then SortSt w runs3 (st_mg st)
            else
              let '(w', mg') :=
                if (lengthA <=? lengthB)%Z then merge_low cmp w (st_mg st) baseA lengthA baseB lengthB
                else merge_high cmp w (st_mg st) baseA lengthA baseB lengthB in
              SortSt w' runs3 mg'
        | None => SortSt w runs3 (st_mg st)
        end
  | None => SortSt w runs3 (st_mg st)
  end.

(** [RunInvariantEstablished(pendingRuns, n)]. *)
Definition run_invariant_established (runs : list (Z * Z)) (n : Z) : bool :=
  if (n <? 2)%Z then true
  else (run_length runs (n - 1) + run_length runs n <? run_length runs (n - 2))%Z.

(** [MergeCollapse]: every round merges two runs, so the stack's size
    bounds the rounds. *)
Fixpoint merge_collapse (fuel : nat) (st : sort_st) : sort_st :=
  match fuel with
  | O => st
  | S fuel' =>
      let runs := st_runs st in
      let size := Z.of_nat (length runs) in
      if (1 <? size)%Z then
        let n := (size - 2)%Z in
        if negb (run_invariant_established runs (n + 1)) || negb (run_invariant_established runs n) then
          let n := if (run_length runs (n - 1) <? run_length runs (n + 1))%Z then (n - 1)%Z else n in
          merge_collapse fuel' (merge_at st n)
        else if (run_length runs n <=? run_length runs (n + 1))%Z then merge_collapse fuel' (merge_at st n)
        else st
      else st
  end.

(** [MergeForceCollapse]. *)
Fixpoint merge_force_collapse (fuel : nat) (st : sort_st) : sort_st :=
  match fuel with
  | O => st
  | S fuel' =>
      let runs := st_runs st in
      let size := Z.of_nat (length runs) in
      if (1 <? size)%Z then
        let n := (size - 2)%Z in
        let n := if (0 <? n)%Z && (run_length runs (n - 1) <? run_length runs (n + 1))%Z then (n - 1)%Z else n in
        merge_force_collapse fuel' (merge_at st n)
      else st
  end.

(** The loop [while (remaining != 0)] of [ArrayTimSortImpl]: every round
    consumes at least one element. *)
Fixpoint timsort_loop (fuel : nat) (minRunLength low remaining : Z) (st : sort_st) : sort_st :=
  match fuel with
  | O => st
  | S fuel' =>
      if (remaining =? 0)%Z then st
      else
        let '(run, w) := count_and_make_run cmp (st_work st) (Z.to_nat low) (Z.to_nat (low + remaining)) in
        let currentRunLength := Z.of_nat run in
        let '(w, currentRunLength) :=
          if (currentRunLength <? minRunLength)%Z then
            let forcedRunLength := Z.min minRunLength remaining in
            (binary_insertion_sort cmp w (Z.to_nat low) (Z.to_nat (low + currentRunLength))
               (Z.to_nat (low + forcedRunLength)), forcedRunLength)
          else (w, currentRunLength) in
        let st := SortSt w (st_runs st ++ [(low, currentRunLength)]) (st_mg st) in
        let st := merge_collapse (length (st_runs st)) st in
        timsort_loop fuel' minRunLength (low + currentRunLength) (remaining - currentRunLength) st
  end.

(** [ArrayTimSortImpl] on the work array, with a fresh sort state
    ([minGallop = kMinGallopWins], no pending run). *)
Definition timsort (a : list A) : list A :=
  let n := length a in
  if n <? 2 then a
  else
    let minRunLength := Z.of_N (compute_min_run (N.of_nat n)) in
    let st := timsort_loop n minRunLength 0 (Z.of_nat n) (SortSt a [] kMinGallopWins) in
    st_work (merge_force_collapse (length (st_runs st)) st).
End TimSort.

(** ** [MergeAt] *)

Section MergeAtProof.
Context {A : Type} (cmp : A -> A -> comparison) `{!Consistent cmp}.

Lemma st_work_pair (p : list A * Z) (r : list (Z * Z)) :
  st_work (let '(w', mg') := p in SortSt w' r mg') = fst p.
Proof. by destruct p. Qed.

Lemma rd_seg (pre r post : list A) j : j < length r ->
  rd (pre ++ r ++ post) (Z.of_nat (length pre) + Z.of_nat j) = r !! j.
Proof. intros Hj. rewrite <- Nat2Z.inj_add, rd_mid. by apply lookup_app_l. Qed.

(** The two trims of [MergeAt] keep the merge: [GallopRight] cuts the
    prefix of [A] not above the head of [B], [GallopLeft] the suffix of
    [B] not below the last element of [A]. *)
Lemma merge_trim A0 b0 B1 A2 a :
  StronglySorted (le cmp) A0 -> StronglySorted (le cmp) (b0 :: B1) ->
  drop (span_len (fun x => negb (is_lt (cmp b0 x))) A0) A0 = A2 ++ [a] ->
  merge cmp A0 (b0 :: B1) =
  take (span_len (fun x => negb (is_lt (cmp b0 x))) A0) A0 ++
  merge cmp (A2 ++ [a]) (take (span_len (fun y => is_lt (cmp y a)) (b0 :: B1)) (b0 :: B1)) ++
  drop (span_len (fun y => is_lt (cmp y a)) (b0 :: B1)) (b0 :: B1).
Proof.
  intros HsA HsB Hd.
  assert (Hs2 : StronglySorted (le cmp) (A2 ++ [a])).
  { rewrite <- Hd. apply (StronglySorted_app_r _ (take (span_len (fun x => negb (is_lt (cmp b0 x))) A0) A0)).
    by rewrite take_drop. }
  rewrite (merge_gallop_left_block cmp), Hd by done.
  by rewrite (merge_gallop_high_right cmp A2 a (b0 :: B1) Hs2 HsB).
Qed.

(** [MergeAt] on runs [pre ++ A0 ++ B0 ++ post], [A0] and [B0] the runs
    at positions [i] and [i + 1] of the stack: the work array becomes
    [pre ++ merge A0 B0 ++ post], whether both trims leave nothing to
    merge or [MergeLow] or [MergeHigh] merges what is left. *)
Lemma merge_at_work st i pre A0 B0 post :
  st_work st = pre ++ A0 ++ B0 ++ post ->
  st_runs st !! Z.to_nat i = Some (Z.of_nat (length pre), Z.of_nat (length A0)) ->
  st_runs st !! Z.to_nat (i + 1) = Some (Z.of_nat (length pre + length A0), Z.of_nat (length B0)) ->
  StronglySorted (le cmp) A0 -> StronglySorted (le cmp) B0 -> A0 <> [] -> B0 <> [] ->
  (Z.of_nat (length A0 + length B0) <= smi_max)%Z ->
  st_work (merge_at cmp st i) = pre ++ merge cmp A0 B0 ++ post.
Proof.
  intros Hw Hi Hj HsA HsB HAne HBne Hsmi. destruct B0 as [|b0 B1]; [done|].
  assert (HAl : 0 < length A0) by (destruct A0; [done | cbn; lia]).
  unfold merge_at. cbv zeta. unfold run_base, run_length. rewrite Hi, Hj, Hw.
  rewrite rd_mid, lookup_app_r, Nat.sub_diag by lia.
  change (((b0 :: B1) ++ post) !! 0) with (Some b0). cbv beta iota.
  rewrite (gallop_right_span cmp _ b0 _ A0 0 HsA (rd_seg pre A0 _)) by (cbn [length] in *; lia).
  set (k := span_len (fun x => negb (is_lt (cmp b0 x))) A0).
  pose proof (span_len_le (fun x => negb (is_lt (cmp b0 x))) A0) as Hk. fold k in Hk.
  case_zeqb.
  - cbn [st_work]. rewrite (merge_gallop_left_block cmp) by done. fold k.
    rewrite take_ge, drop_ge by lia. cbn [merge]. by rewrite <- app_assoc.
  - destruct (exists_last (l := drop k A0)) as (A2 & a & Hd).
    { intros Hn. apply (f_equal length) in Hn. rewrite length_drop in Hn. cbn in Hn. lia. }
    assert (HA0 : A0 = take k A0 ++ A2 ++ [a]) by (rewrite <- Hd; symmetry; apply take_drop).
    assert (Hlen : length A0 = k + length A2 + 1).
    { rewrite HA0 at 1. rewrite !length_app, length_take_le by lia. cbn. lia. }
    replace (Z.of_nat (length pre) + Z.of_nat k + (Z.of_nat (length A0) - Z.of_nat k) - 1)%Z
      with (Z.of_nat (length pre + (length A0 - 1))) by lia.
    rewrite rd_mid, lookup_app_l by lia.
    assert (Ha : A0 !! (length A0 - 1) = Some a).
    { rewrite Hlen, HA0, app_assoc. apply list_lookup_middle. rewrite length_app, length_take_le; lia. }
    rewrite Ha. cbv beta iota.
    assert (HrB : forall j, j < length (b0 :: B1) ->
      rd (pre ++ A0 ++ (b0 :: B1) ++ post) (Z.of_nat (length pre + length A0) + Z.of_nat j) = (b0 :: B1) !! j)
      by (intros j Hjl; rewrite app_assoc, <- (length_app pre A0); by apply rd_seg).
    rewrite (gallop_left_span cmp _ a _ (b0 :: B1) _ HsB HrB) by (cbn [length] in *; lia).
    set (k' := span_len (fun y => is_lt (cmp y a)) (b0 :: B1)).
    pose proof (span_len_le (fun y => is_lt (cmp y a)) (b0 :: B1)) as Hk'. fold k' in Hk'.
    rewrite (merge_trim A0 b0 B1 A2 a HsA HsB Hd). fold k k'. case_zeqb.
    + cbn [st_work]. replace k' with 0 by lia. rewrite take_0, merge_nil_r, drop_0.
      rewrite HA0 at 1. by rewrite <- !app_assoc.
    + rewrite st_work_pair.
      assert (Hw' : pre ++ A0 ++ (b0 :: B1) ++ post =
        (pre ++ take k A0) ++ (A2 ++ [a]) ++ take k' (b0 :: B1) ++ (drop k' (b0 :: B1) ++ post)).
      { rewrite HA0 at 1. rewrite <- (take_drop k' (b0 :: B1)) at 1. by rewrite <- !app_assoc. }
      rewrite Hw'.
      replace (Z.of_nat (length pre) + Z.of_nat k)%Z with (Z.of_nat (length (pre ++ take k A0)))
        by (rewrite length_app, length_take_le; lia).
      replace (Z.of_nat (length A0) - Z.of_nat k)%Z with (Z.of_nat (length (A2 ++ [a])))
        by (rewrite length_app; cbn; lia).
      replace (Z.of_nat (length pre + length A0))
        with (Z.of_nat (length (pre ++ take k A0) + length (A2 ++ [a])))
        by (rewrite !length_app, length_take_le; cbn; lia).
      replace (Z.of_nat k') with (Z.of_nat (length (take k' (b0 :: B1))))
        by (rewrite length_take_le; lia).
      assert (HsA2 : StronglySorted (le cmp) (A2 ++ [a]))
        by (rewrite HA0 in HsA; by apply StronglySorted_app_r in HsA).
      assert (HsB2 : StronglySorted (le cmp) (take k' (b0 :: B1)))
        by (rewrite <- (take_drop k' (b0 :: B1)) in HsB; by apply StronglySorted_app_l in HsB).
      assert (Hsmi2 : (Z.of_nat (length (A2 ++ [a]) + length (take k' (b0 :: B1))) <= smi_max)%Z)
        by (rewrite length_app, length_take_le; cbn [length] in *; lia).
      assert (Hlast : forall b a', In b (take k' (b0 :: B1)) -> last (A2 ++ [a]) = Some a' -> cmp b a' = Lt).
      { intros b a' Hb Ha'. rewrite last_snoc in Ha'. injection Ha' as <-.
        pose proof (span_take (fun y => is_lt (cmp y a)) (b0 :: B1)) as Ht.
        apply list_elem_of_In in Hb. eapply Forall_forall in Ht; [|exact Hb]. by apply is_lt_true. }
      assert (Hfirst : forall b a', take k' (b0 :: B1) !! 0 = Some b -> (A2 ++ [a]) !! 0 = Some a' -> cmp b a' = Lt).
      { intros b a' Hb Ha'. rewrite lookup_take_lt in Hb by lia. cbn in Hb. injection Hb as <-.
        rewrite <- Hd in Ha'. apply span_head in Ha'. by apply negb_false_iff, is_lt_true in Ha'. }
      assert (HAne2 : A2 ++ [a] <> []) by (destruct A2; discriminate).
      assert (HBne2 : take k' (b0 :: B1) <> []) by (destruct k'; [lia | discriminate]).
      destruct (_ <=? _)%Z.
      * rewrite (merge_low_merges cmp _ _ _ _ HsA2 HsB2 Hsmi2 Hlast Hfirst HAne2 HBne2).
        by rewrite <- !app_assoc.
      * rewrite (merge_high_merges cmp _ _ _ _ HsA2 HsB2 Hsmi2 Hfirst Hlast HAne2 HBne2).
        by rewrite <- !app_assoc.
Qed.

(** [MergeAt(i)], with [i] the second or third position from the top,
    replaces runs [i] and [i + 1] by one run of the summed length. *)
Lemma merge_at_runs st i L bA lA bB lB T :
  st_runs st = L ++ (bA, lA) :: (bB, lB) :: T -> length T <= 1 -> i = Z.of_nat (length L) ->
  st_runs (merge_at cmp st i) = L ++ (bA, (lA + lB)%Z) :: T.
Proof.
  intros Hr HT ->. unfold merge_at. cbv zeta. unfold run_base, run_length. rewrite Hr.
  rewrite Nat2Z.id, (list_lookup_middle L _ _ (length L)) by done.
  replace (Z.to_nat (Z.of_nat (length L) + 1)) with (length L + 1) by lia.
  replace (Z.to_nat (Z.of_nat (length L) + 2)) with (length L + 2) by lia.
  rewrite (lookup_app_r L (_ :: _ :: T) (length L + 1)) by lia.
  replace (length L + 1 - length L) with 1 by lia.
  rewrite insert_app_r_alt, Nat.sub_diag by lia. cbn [lookup list_lookup insert list_insert].
  rewrite length_app.
  destruct T as [|t [|t' T']]; cbn [length] in *; [| | lia].
  - rewrite (proj2 (Z.eqb_neq (Z.of_nat (length L)) _)) by lia.
    replace (Z.to_nat (Z.of_nat (length L + 2) - 1)) with (length L + 1) by lia.
    repeat case_match; cbn [st_runs]; by rewrite take_app_add.
  - rewrite (proj2 (Z.eqb_eq (Z.of_nat (length L)) _)) by lia.
    replace (Z.to_nat (Z.of_nat (length L + 3) - 1)) with (length L + 2) by lia.
    rewrite (lookup_app_r L _ (length L + 2)) by lia.
    replace (length L + 2 - length L) with 2 by lia. destruct t as [tb tl].
    cbn [lookup list_lookup]. rewrite (insert_app_r L _ 1).
    repeat case_match; cbn [st_runs]; by rewrite take_app_add.
Qed.
End MergeAtProof.

(** ** TimSort's invariant on the pending runs *)

(** The lengths of the pending runs, the top of the stack first. *)
Definition top_lengths (runs : list (Z * Z)) : list Z := reverse (map snd runs).

(** TimSort's invariant, read from the top: every run is longer than the
    run above it, and longer than the two runs above it together. *)
Fixpoint run_stack_inv (t : list Z) : Prop :=
  match t with
  | x :: ((y :: z :: _) as t') => (x + y < z)%Z /\ (x < y)%Z /\ run_stack_inv t'
  | [x; y] => (x < y)%Z
  | _ => True
  end.

Lemma run_stack_inv_tail x t : run_stack_inv (x :: t) -> run_stack_inv t.
Proof. destruct t as [|y [|z t]]; cbn; tauto. Qed.

Lemma run_stack_inv_drop k t : run_stack_inv t -> run_stack_inv (drop k t).
Proof.
  revert t. induction k as [|k IH]; intros t Ht; [by rewrite drop_0|].
  destruct t as [|x t]; [done|]. cbn [drop]. by apply IH, (run_stack_inv_tail x).
Qed.

Lemma run_stack_inv_short t : length t <= 1 -> run_stack_inv t.
Proof. destruct t as [|x [|y t]]; cbn; [done | done | lia]. Qed.

Lemma top_lengths_app runs l : top_lengths (runs ++ l) = top_lengths l ++ top_lengths runs.
Proof. unfold top_lengths. by rewrite map_app, reverse_app. Qed.

Lemma length_top_lengths runs : length (top_lengths runs) = length runs.
Proof. unfold top_lengths. by rewrite length_reverse, length_map. Qed.

(** The [k]-th run from the top has the [k]-th length of [top_lengths]. *)
Lemma run_length_top runs k x i : top_lengths runs !! k = Some x ->
  i = (Z.of_nat (length runs) - 1 - Z.of_nat k)%Z -> run_length runs i = x.
Proof.
  unfold top_lengths. intros Hx ->. apply reverse_lookup_Some in Hx as [Hx Hk].
  rewrite length_map in Hx, Hk. rewrite map_as_fmap, list_lookup_fmap in Hx.
  unfold run_length. replace (Z.to_nat _) with (length runs - S k) by lia.
  destruct (runs !! (length runs - S k)) as [[]|]; by inversion Hx.
Qed.

(** Merging at the second or third position from the top keeps the
    invariant below the top two runs: both merges change only the top
    three entries. *)
Lemma merge_keeps_inv_below (L T : list Z) x y : length T <= 1 ->
  run_stack_inv (drop 2 (reverse (L ++ x :: y :: T))) ->
  run_stack_inv (drop 2 (reverse (L ++ (x + y)%Z :: T))).
Proof.
  intros HT. rewrite !reverse_app.
  destruct T as [|t [|]]; cbn in HT |- *; [|intros H; by apply (run_stack_inv_tail x) | lia].
  intros H. by apply (run_stack_inv_drop 1).
Qed.

(** When [MergeCollapse] stops on a stack of two runs or more (both
    [RunInvariantEstablished] tests pass and the top run is shorter
    than the one below it), and the invariant held below the top two
    runs, it holds on the whole stack. *)
Lemma collapse_exit_inv runs :
  2 <= length runs -> Forall (fun p => 0 < snd p)%Z runs ->
  (negb (run_invariant_established runs (Z.of_nat (length runs) - 2 + 1)) ||
   negb (run_invariant_established runs (Z.of_nat (length runs) - 2))) = false ->
  (run_length runs (Z.of_nat (length runs) - 2) <=? run_length runs (Z.of_nat (length runs) - 2 + 1))%Z = false ->
  run_stack_inv (drop 2 (top_lengths runs)) -> run_stack_inv (top_lengths runs).
Proof.
  intros Hl Hpos Eb Ec Hj. apply orb_false_iff in Eb as [E1 E2].
  apply negb_false_iff in E1, E2. apply Z.leb_gt in Ec. unfold run_invariant_established in E1, E2.
  pose proof (length_top_lengths runs) as Hlt.
  assert (Hp : Forall (fun x => 0 < x)%Z (top_lengths runs))
    by (unfold top_lengths; apply Forall_reverse, Forall_map, Hpos).
  destruct (top_lengths runs) as [|c [|b t]] eqn:Et; cbn [length] in Hlt; [lia | lia |].
  apply Forall_cons in Hp as [Hc _]. cbn beta in Hc.
  rewrite (run_length_top runs 0 c (Z.of_nat (length runs) - 2 + 1)), (run_length_top runs 1 b (Z.of_nat (length runs) - 2)) in Ec
    by (first [by rewrite Et | lia]).
  destruct t as [|a t]; cbn [length] in Hlt; cbn; [lia|].
  rewrite (proj2 (Z.ltb_ge _ 2)) in E1 by lia.
  rewrite (run_length_top runs 0 c (Z.of_nat (length runs) - 2 + 1)), (run_length_top runs 1 b (Z.of_nat (length runs) - 2 + 1 - 1)),
    (run_length_top runs 2 a (Z.of_nat (length runs) - 2 + 1 - 2)) in E1 by (first [by rewrite Et | lia]).
  apply Z.ltb_lt in E1. destruct t as [|d t]; cbn [length] in Hlt; cbn in Hj |- *; [lia|].
  rewrite (proj2 (Z.ltb_ge _ 2)) in E2 by lia.
  rewrite (run_length_top runs 1 b (Z.of_nat (length runs) - 2)), (run_length_top runs 2 a (Z.of_nat (length runs) - 2 - 1)),
    (run_length_top runs 3 d (Z.of_nat (length runs) - 2 - 2)) in E2 by (first [by rewrite Et | lia]).
  apply Z.ltb_lt in E2. split_and!; try lia. exact Hj.
Qed.

(** ** The run stack *)

Section StackProof.
Context {A : Type} (cmp : A -> A -> comparison) `{!Consistent cmp}.

(** The pending runs of consecutive segments [segs] starting at [b]. *)
Fixpoint layout (b : nat) (segs : list (list A)) : list (Z * Z) :=
  match segs with
  | [] => []
  | s :: segs' => (Z.of_nat b, Z.of_nat (length s)) :: layout (b + length s) segs'
  end.

(** The state of the sort, with the elements consumed so far cut into
    the segments [segs]: the stack lists the segments, each sorted in
    place, and the array's unconsumed part [rest] follows them. *)
Definition stack_ok (st : sort_st) (segs : list (list A)) (rest : list A) : Prop :=
  st_runs st = layout 0 segs /\ st_work st = concat (map (sort_by cmp) segs) ++ rest /\
  Forall (fun s => s <> []) segs.

Lemma layout_app b S1 S2 : layout b (S1 ++ S2) = layout b S1 ++ layout (b + length (concat S1)) S2.
Proof.
  revert b. induction S1 as [|s S1 IH]; intros b; cbn [layout app concat]; [by rewrite Nat.add_0_r|].
  by rewrite IH, length_app, Nat.add_assoc.
Qed.

Lemma length_layout b segs : length (layout b segs) = length segs.
Proof. revert b. induction segs; intros b; cbn; [done | by f_equal]. Qed.

Lemma length_sort_by l : length (sort_by cmp l) = length l.
Proof. apply Permutation_length, sort_by_perm. Qed.

Lemma length_concat_sort segs : length (concat (map (sort_by cmp) segs)) = length (concat segs).
Proof. induction segs; cbn [map concat]; [done|]. by rewrite !length_app, length_sort_by, IHsegs. Qed.

Lemma take_add_drop (l : list A) n m : n <= length l -> take (n + m) l = take n l ++ take m (drop n l).
Proof.
  intros Hn. rewrite <- (take_drop n l) at 1. apply take_app_add'. rewrite length_take_le; lia.
Qed.

(** [MergeAt] at the second or third position from the top merges two
    adjacent segments. *)
Lemma merge_at_stack st S1 x y S2 rest :
  stack_ok st (S1 ++ x :: y :: S2) rest -> length S2 <= 1 ->
  (Z.of_nat (length x + length y) <= smi_max)%Z ->
  stack_ok (merge_at cmp st (Z.of_nat (length S1))) (S1 ++ (x ++ y) :: S2) rest.
Proof.
  intros (Hr & Hw & Hne) HS2 Hsmi. apply Forall_app in Hne as [Hne1 Hne2].
  apply Forall_cons in Hne2 as [Hx Hne2]. apply Forall_cons in Hne2 as [Hy Hne2].
  rewrite layout_app in Hr. cbn [layout] in Hr.
  split_and!.
  - rewrite (merge_at_runs cmp st _ _ _ _ _ _ _ Hr) by (first [rewrite length_layout; lia | lia]).
    rewrite layout_app. cbn [layout]. rewrite !length_app. f_equal. f_equal; [f_equal; lia | f_equal; lia].
  - rewrite map_app, concat_app in Hw |- *. cbn [map concat] in Hw |- *.
    rewrite <- !app_assoc in Hw. rewrite <- !app_assoc.
    destruct (sort_by_spec cmp x) as (_ & Hsx & _). destruct (sort_by_spec cmp y) as (_ & Hsy & _).
    rewrite (merge_at_work cmp st _ _ (sort_by cmp x) (sort_by cmp y) _ Hw); [by rewrite merge_sort_by | | | done | done | | |].
    + rewrite Hr, Nat2Z.id, lookup_app_r by (rewrite length_layout; lia).
      rewrite length_layout, Nat.sub_diag. cbn [lookup list_lookup].
      rewrite length_concat_sort, length_sort_by. done.
    + rewrite Hr. replace (Z.to_nat (Z.of_nat (length S1) + 1)) with (length (layout 0 S1) + 1)
        by (rewrite length_layout; lia).
      rewrite lookup_app_r by lia. replace (length (layout 0 S1) + 1 - length (layout 0 S1)) with 1 by lia.
      cbn [lookup list_lookup]. rewrite length_concat_sort, !length_sort_by.
      do 3 f_equal.
    + intros Hn. apply (f_equal length) in Hn. rewrite length_sort_by in Hn. by destruct x.
    + intros Hn. apply (f_equal length) in Hn. rewrite length_sort_by in Hn. by destruct y.
    + by rewrite !length_sort_by.
  - apply Forall_app. split; [done|]. constructor; [by destruct x | done].
Qed.

(** [MergeAt(j)] for [j] the second or third position from the top, on
    segments of at most [smi_max] elements, merges segments [j] and
    [j + 1]. *)
Lemma merge_at_top_shape st segs rest j :
  stack_ok st segs rest -> j + 2 <= length segs <= j + 3 ->
  (Z.of_nat (length (concat segs)) <= smi_max)%Z ->
  exists S1 x y S2, segs = S1 ++ x :: y :: S2 /\ length S1 = j /\ length S2 <= 1 /\
    stack_ok (merge_at cmp st (Z.of_nat j)) (S1 ++ (x ++ y) :: S2) rest.
Proof.
  intros Hok Hj Hsmi.
  destruct (drop j segs) as [|x [|y S2]] eqn:Ed;
    try (apply (f_equal length) in Ed; rewrite length_drop in Ed; cbn in Ed; lia).
  assert (Hs : segs = take j segs ++ x :: y :: S2) by (rewrite <- Ed; symmetry; apply take_drop).
  assert (HS2 : length S2 <= 1) by (apply (f_equal length) in Ed; rewrite length_drop in Ed; cbn in Ed; lia).
  assert (Hl : length (take j segs) = j) by (apply length_take_le; lia).
  set (S1 := take j segs) in *. clearbody S1. subst segs j.
  exists S1, x, y, S2. split_and!; [done | done | done |].
  apply merge_at_stack; [done | done |].
  rewrite concat_app, length_app in Hsmi. cbn [concat] in Hsmi. rewrite !length_app in Hsmi. lia.
Qed.

Lemma merge_at_top st segs rest j :
  stack_ok st segs rest -> j + 2 <= length segs <= j + 3 ->
  (Z.of_nat (length (concat segs)) <= smi_max)%Z ->
  exists segs', stack_ok (merge_at cmp st (Z.of_nat j)) segs' rest /\
    concat segs' = concat segs /\ length segs' = length segs - 1.
Proof.
  intros Hok Hj Hsmi. destruct (merge_at_top_shape st segs rest j Hok Hj Hsmi) as (S1 & x & y & S2 & -> & _ & _ & Hok').
  exists (S1 ++ (x ++ y) :: S2). split_and!; [done | |].
  - rewrite !concat_app. cbn [concat]. by rewrite <- app_assoc.
  - rewrite !length_app. cbn [length]. lia.
Qed.

Lemma top_lengths_layout b segs :
  top_lengths (layout b segs) = reverse (map (fun s => Z.of_nat (length s)) segs).
Proof. unfold top_lengths. f_equal. revert b. induction segs as [|s segs IH]; intros b; cbn; [done | by rewrite IH]. Qed.

Lemma layout_pos b segs : Forall (fun s => s <> []) segs -> Forall (fun p => 0 < snd p)%Z (layout b segs).
Proof.
  revert b. induction segs as [|s segs IH]; intros b Hne; cbn; [done|].
  apply Forall_cons in Hne as [Hs Hne]. constructor; [|by apply IH]. cbn. destruct s; [done | cbn; lia].
Qed.

(** [MergeCollapse] keeps the segments' invariant and the elements'
    order; given fuel the stack's size, it also establishes TimSort's
    invariant on the whole stack from the invariant below its top two
    runs. *)
Lemma merge_collapse_inv fuel st segs rest :
  stack_ok st segs rest -> (Z.of_nat (length (concat segs)) <= smi_max)%Z ->
  exists segs', stack_ok (merge_collapse cmp fuel st) segs' rest /\ concat segs' = concat segs /\
    (length segs <= fuel -> run_stack_inv (drop 2 (top_lengths (st_runs st))) ->
     run_stack_inv (top_lengths (st_runs (merge_collapse cmp fuel st)))).
Proof.
  revert st segs. induction fuel as [|fuel IH]; intros st segs Hok Hsmi; cbn [merge_collapse];
    pose proof Hok as (Hr & _ & Hne);
    assert (Hsz : length (st_runs st) = length segs) by (rewrite Hr; apply length_layout).
  { exists segs. split_and!; [done | done |]. intros Hf _. apply run_stack_inv_short.
    rewrite length_top_lengths. lia. }
  assert (Hshort : length segs <= 1 -> run_stack_inv (top_lengths (st_runs st)))
    by (intros; apply run_stack_inv_short; rewrite length_top_lengths; lia).
  rewrite Hsz. destruct (Z.ltb_spec 1 (Z.of_nat (length segs))) as [H1|H1];
    [|exists segs; split_and!; [done | done | intros; apply Hshort; lia]].
  assert (Hcont : forall j, j + 2 <= length segs <= j + 3 -> exists segs',
    stack_ok (merge_collapse cmp fuel (merge_at cmp st (Z.of_nat j))) segs' rest /\ concat segs' = concat segs /\
    (length segs <= S fuel -> run_stack_inv (drop 2 (top_lengths (st_runs st))) ->
     run_stack_inv (top_lengths (st_runs (merge_collapse cmp fuel (merge_at cmp st (Z.of_nat j))))))).
  { intros j Hj. destruct (merge_at_top_shape st segs rest j Hok Hj Hsmi) as (S1 & x & y & S2 & Hs & HS1 & HS2 & Hok').
    assert (Hc : concat (S1 ++ (x ++ y) :: S2) = concat segs)
      by (rewrite Hs, !concat_app; cbn [concat]; by rewrite <- app_assoc).
    destruct (IH _ _ Hok') as (segs'' & Hok'' & Hc'' & Hinv''); [by rewrite Hc|].
    exists segs''. split_and!; [done | congruence |]. intros Hf Hj2. apply Hinv''.
    - rewrite Hs in Hf. rewrite !length_app in Hf |- *. cbn [length] in Hf |- *. lia.
    - destruct Hok' as (Hr' & _). rewrite Hr', top_lengths_layout. rewrite Hr, top_lengths_layout, Hs in Hj2.
      rewrite map_app in Hj2 |- *. cbn [map] in Hj2 |- *. rewrite length_app, Nat2Z.inj_add.
      apply merge_keeps_inv_below; [by rewrite length_map | done]. }
  destruct (negb _ || negb _) eqn:Eb.
  - assert (H3 : 3 <= length segs).
    { destruct (Nat.eq_dec (length segs) 2) as [E|E]; [|lia].
      rewrite E in Eb. unfold run_invariant_established in Eb. cbn in Eb. discriminate. }
    destruct (_ <? _)%Z.
    + replace (Z.of_nat (length segs) - 2 - 1)%Z with (Z.of_nat (length segs - 3)) by lia. apply Hcont. lia.
    + replace (Z.of_nat (length segs) - 2)%Z with (Z.of_nat (length segs - 2)) by lia. apply Hcont. lia.
  - destruct (_ <=? _)%Z eqn:Ec.
    + replace (Z.of_nat (length segs) - 2)%Z with (Z.of_nat (length segs - 2)) by lia. apply Hcont. lia.
    + exists segs. split_and!; [done | done |]. intros _ Hj2. rewrite <- Hsz in Eb, Ec.
      apply collapse_exit_inv; [lia | rewrite Hr; by apply layout_pos | done | done | done].
Qed.

Lemma merge_collapse_ok fuel st segs rest :
  stack_ok st segs rest -> (Z.of_nat (length (concat segs)) <= smi_max)%Z ->
  exists segs', stack_ok (merge_collapse cmp fuel st) segs' rest /\ concat segs' = concat segs.
Proof.
  intros Hok Hsmi. destruct (merge_collapse_inv fuel st segs rest Hok Hsmi) as (segs' & ? & ? & _).
  by exists segs'.
Qed.

Lemma stack_ok_single st segs rest : stack_ok st segs rest -> length segs = 1 -> stack_ok st [concat segs] rest.
Proof. intros Hok Hl. destruct segs as [|s [|]]; cbn in Hl; try lia. cbn [concat]. by rewrite app_nil_r. Qed.

(** [MergeForceCollapse], with fuel the stack's size, leaves one run:
    the whole sorted input. *)
Lemma merge_force_collapse_ok fuel st segs rest :
  stack_ok st segs rest -> 1 <= length segs <= fuel + 1 ->
  (Z.of_nat (length (concat segs)) <= smi_max)%Z ->
  stack_ok (merge_force_collapse cmp fuel st) [concat segs] rest.
Proof.
  revert st segs. induction fuel as [|fuel IH]; intros st segs Hok Hl Hsmi; cbn [merge_force_collapse].
  { apply stack_ok_single; [done | lia]. }
  pose proof Hok as (Hr & _ & _).
  assert (Hsz : length (st_runs st) = length segs) by (rewrite Hr; apply length_layout).
  rewrite Hsz. destruct (Z.ltb_spec 1 (Z.of_nat (length segs))) as [H1|H1]; [|apply stack_ok_single; [done | lia]].
  assert (Hcont : forall j, j + 2 <= length segs <= j + 3 ->
    stack_ok (merge_force_collapse cmp fuel (merge_at cmp st (Z.of_nat j))) [concat segs] rest).
  { intros j Hj. destruct (merge_at_top st segs rest j Hok Hj Hsmi) as (segs' & Hok' & Hc & Hl').
    rewrite <- Hc. apply IH; [done | lia | by rewrite Hc]. }
  destruct (_ && _) eqn:E.
  - apply andb_true_iff in E as [E _]. apply Z.ltb_lt in E.
    replace (Z.of_nat (length segs) - 2 - 1)%Z with (Z.of_nat (length segs - 3)) by lia. apply Hcont. lia.
  - replace (Z.of_nat (length segs) - 2)%Z with (Z.of_nat (length segs - 2)) by lia. apply Hcont. lia.
Qed.

(** Pushing the run [take cur R] made at [low] and collapsing. *)
Lemma push_run_ok st segs a low cur :
  stack_ok st segs (drop low a) -> concat segs = take low a -> 1 <= cur -> low + cur <= length a ->
  (Z.of_nat (length a) <= smi_max)%Z ->
  exists segs', stack_ok (merge_collapse cmp (length (st_runs st ++ [(Z.of_nat low, Z.of_nat cur)]))
      (SortSt (concat (map (sort_by cmp) segs) ++ sort_by cmp (take cur (drop low a)) ++ drop cur (drop low a))
         (st_runs st ++ [(Z.of_nat low, Z.of_nat cur)]) (st_mg st))) segs' (drop (low + cur) a) /\
    concat segs' = take (low + cur) a /\
    (run_stack_inv (top_lengths (st_runs st)) ->
     run_stack_inv (top_lengths (st_runs (merge_collapse cmp (length (st_runs st ++ [(Z.of_nat low, Z.of_nat cur)]))
      (SortSt (concat (map (sort_by cmp) segs) ++ sort_by cmp (take cur (drop low a)) ++ drop cur (drop low a))
         (st_runs st ++ [(Z.of_nat low, Z.of_nat cur)]) (st_mg st)))))).
Proof.
  intros (Hr & Hw & Hne) Hc Hcur Hn Hsmi.
  assert (Hlow : length (concat segs) = low) by (rewrite Hc; apply length_take_le; lia).
  assert (Hc' : concat (segs ++ [take cur (drop low a)]) = take (low + cur) a)
    by (rewrite concat_app, Hc, take_add_drop by lia; cbn; by rewrite app_nil_r).
  edestruct merge_collapse_inv as (segs' & Hok' & Hc'' & Hinv);
    [| |exists segs'; split_and!; [exact Hok' | by rewrite Hc'' |]].
  3: { intros Hi. apply Hinv.
       - rewrite !length_app, Hr, length_layout. cbn. lia.
       - cbn [st_runs]. rewrite top_lengths_app. by apply (run_stack_inv_drop 1). }
  - split_and!; cbn [st_runs st_work].
    + rewrite Hr, layout_app, Hlow. cbn [layout]. rewrite length_take_le by (rewrite length_drop; lia). done.
    + rewrite map_app, concat_app, drop_drop. cbn [map concat]. by rewrite app_nil_r, <- app_assoc.
    + apply Forall_app. split; [done|]. constructor; [|done].
      intros He. apply (f_equal length) in He. rewrite length_take_le in He by (rewrite length_drop; lia). cbn in He. lia.
  - rewrite Hc', length_take_le by lia. lia.
Qed.

(** [BinaryInsertionSort] extends the sorted run [take run R] to the
    sorted run [take forced R]. *)
Lemma extend_run P R run forced :
  1 <= run <= forced -> forced <= length R ->
  binary_insertion_sort cmp (P ++ sort_by cmp (take run R) ++ drop run R) (length P) (length P + run) (length P + forced) =
  P ++ sort_by cmp (take forced R) ++ drop forced R.
Proof.
  intros Hr Hf. unfold binary_insertion_sort. rewrite (proj2 (Nat.eqb_neq _ _)) by lia.
  destruct (sort_by_spec cmp (take run R)) as (_ & Hs & _).
  assert (Hl : length (sort_by cmp (take run R)) = run) by (rewrite length_sort_by; apply length_take_le; lia).
  replace (length P + forced - (length P + run)) with (forced - run) by lia.
  replace (length P + run) with (length P + length (sort_by cmp (take run R))) by lia.
  rewrite bis_loop_inserts_at by (first [done | rewrite length_drop; lia]).
  rewrite drop_drop. replace (run + (forced - run)) with forced by lia. f_equal. f_equal.
  unfold sort_by. rewrite <- fold_left_app, <- take_add_drop by lia. by replace (run + (forced - run)) with forced by lia.
Qed.

Lemma loop_done st segs a low :
  stack_ok st segs (drop low a) -> concat segs = take low a -> low = length a ->
  exists segs', stack_ok st segs' [] /\ concat segs' = a.
Proof. intros Hok Hc ->. exists segs. rewrite drop_all in Hok. by rewrite Hc, take_ge. Qed.

(** The loop of [ArrayTimSortImpl]: after any number of rounds the
    stack's runs are the sorts of consecutive segments of the input,
    TimSort's invariant holds of their lengths, and with fuel the
    remaining length the whole array is consumed. *)
Lemma timsort_loop_gen fuel minRun low remaining st segs a :
  stack_ok st segs (drop low a) -> concat segs = take low a -> low + remaining = length a ->
  (Z.of_nat (length a) <= smi_max)%Z ->
  exists segs' low', stack_ok (timsort_loop cmp fuel minRun (Z.of_nat low) (Z.of_nat remaining) st) segs' (drop low' a) /\
    concat segs' = take low' a /\ (remaining <= fuel -> low' = length a) /\
    (run_stack_inv (top_lengths (st_runs st)) ->
     run_stack_inv (top_lengths (st_runs (timsort_loop cmp fuel minRun (Z.of_nat low) (Z.of_nat remaining) st)))).
Proof.
  revert low remaining st segs. induction fuel as [|fuel IH]; intros low remaining st segs Hok Hc Hn Hsmi;
    cbn [timsort_loop]; [exists segs, low; split_and!; [done | done | lia | done]|].
  case_zeqb; [exists segs, low; split_and!; [done | done | lia | done]|].
  pose proof Hok as (Hr & Hw & Hne).
  assert (HP : length (concat (map (sort_by cmp) segs)) = low)
    by (rewrite length_concat_sort, Hc; apply length_take_le; lia).
  assert (HR : length (drop low a) = remaining) by (rewrite length_drop; lia).
  assert (Hcont : forall cur, 1 <= cur <= remaining -> exists segs' low',
    let st' := timsort_loop cmp fuel minRun (Z.of_nat low + Z.of_nat cur) (Z.of_nat remaining - Z.of_nat cur)
      (merge_collapse cmp (length (st_runs st ++ [(Z.of_nat low, Z.of_nat cur)]))
        (SortSt (concat (map (sort_by cmp) segs) ++ sort_by cmp (take cur (drop low a)) ++ drop cur (drop low a))
           (st_runs st ++ [(Z.of_nat low, Z.of_nat cur)]) (st_mg st))) in
    stack_ok st' segs' (drop low' a) /\ concat segs' = take low' a /\ (remaining <= S fuel -> low' = length a) /\
    (run_stack_inv (top_lengths (st_runs st)) -> run_stack_inv (top_lengths (st_runs st')))).
  { intros cur Hcur.
    destruct (push_run_ok st segs a low cur Hok Hc ltac:(lia) ltac:(lia) Hsmi) as (segs1 & Hok1 & Hc1 & Hinv1).
    rewrite <- Nat2Z.inj_add, <- Nat2Z.inj_sub by lia.
    destruct (IH (low + cur) (remaining - cur) _ segs1 Hok1 Hc1 ltac:(lia) Hsmi) as (segs2 & low2 & Hok2 & Hc2 & Hl2 & Hinv2).
    exists segs2, low2. split_and!; [done | done | intros; apply Hl2; lia | intros; by apply Hinv2, Hinv1]. }
  rewrite Hw. set (P := concat (map (sort_by cmp) segs)) in *. set (R := drop low a) in *.
  replace (Z.to_nat (Z.of_nat low)) with (length P) by lia.
  replace (Z.to_nat (Z.of_nat low + Z.of_nat remaining)) with (length P + length R) by lia.
  destruct (count_and_make_run_at cmp P R ltac:(lia)) as (run & Hrun & _ & ->). cbn beta iota zeta.
  destruct (Z.ltb_spec (Z.of_nat run) minRun) as [Hm|Hm]; cbn beta iota zeta.
  - replace (Z.min minRun (Z.of_nat remaining)) with (Z.of_nat (Z.to_nat (Z.min minRun (Z.of_nat remaining)))) by lia.
    set (F := Z.to_nat (Z.min minRun (Z.of_nat remaining))).
    assert (HF : run <= F <= remaining) by lia.
    replace (Z.to_nat (Z.of_nat low + Z.of_nat run)) with (length P + run) by lia.
    replace (Z.to_nat (Z.of_nat low + Z.of_nat F)) with (length P + F) by lia.
    rewrite extend_run by lia. apply Hcont. lia.
  - apply Hcont. lia.
Qed.

Lemma timsort_loop_ok fuel minRun low remaining st segs a :
  stack_ok st segs (drop low a) -> concat segs = take low a -> low + remaining = length a ->
  remaining <= fuel -> (Z.of_nat (length a) <= smi_max)%Z ->
  exists segs', stack_ok (timsort_loop cmp fuel minRun (Z.of_nat low) (Z.of_nat remaining) st) segs' [] /\
    concat segs' = a.
Proof.
  intros Hok Hc Hn Hf Hsmi.
  destruct (timsort_loop_gen fuel minRun low remaining st segs a Hok Hc Hn Hsmi) as (segs' & low' & Hok' & Hc' & Hl' & _).
  rewrite (Hl' Hf), drop_all in Hok'. rewrite (Hl' Hf), take_ge in Hc' by lia. by exists segs'.
Qed.
(** The whole sort, for the theorems of this and later files. *)
Lemma timsort_correct (a : list A) :
  (Z.of_nat (length a) <= smi_max)%Z -> timsort cmp a = sort_by cmp a.
Proof.
  intros Hsmi. unfold timsort. destruct (Nat.ltb_spec (length a) 2) as [H2|H2].
  { destruct a as [|x [|y a]]; cbn in H2; [done | done | lia]. }
  edestruct (timsort_loop_ok (length a) (Z.of_N (compute_min_run (N.of_nat (length a)))) 0 (length a)
    (SortSt a [] kMinGallopWins) [] a) as (segs & Hok & Hc); [| done | lia | lia | done |].
  { split_and!; [done | by rewrite drop_0 | done]. }
  cbn [Z.of_nat] in Hok.
  set (st := timsort_loop _ _ _ _ _ _) in *.
  pose proof Hok as (Hr & _).
  assert (Hl : length (st_runs st) = length segs) by (rewrite Hr; apply length_layout).
  assert (Hne : segs <> []) by (intros ->; cbn in Hc; subst a; cbn in H2; lia).
  destruct (merge_force_collapse_ok (length (st_runs st)) st segs [] Hok) as (_ & Hw & _).
  - destruct segs; [done | cbn [length] in *; lia].
  - by rewrite Hc.
  - rewrite Hw, Hc. cbn [map concat]. by rewrite !app_nil_r.
Qed.
End StackProof.

(** ** Theorems *)

Section TimSortTheorems.
Context {A : Type} (cmp : A -> A -> comparison) `{!Consistent cmp}.

(** C30. V8's TimSort ([ArrayTimSortImpl]: natural runs, binary
    insertion up to [minRunLength], the pending-runs stack with
    [MergeCollapse], [MergeAt] with its gallops, [MergeLow] and
    [MergeHigh] with their galloping modes, and [MergeForceCollapse])
    gives, for every consistent comparison and every array of at most
    [kSmiMaxValue] elements, exactly the list the reference insertion
    sort [sort_by] gives: the stable sort. *)
Theorem timsort_sort_by (a : list A) :
  (Z.of_nat (length a) <= smi_max)%Z -> timsort cmp a = sort_by cmp a.
Proof. intros Hsmi. exact (timsort_correct cmp a Hsmi). Qed.

(** C31. [MergeAt(i)], on a work array [pre ++ A0 ++ B0 ++ post] whose
    pending runs [i] and [i + 1] are the sorted, non-empty [A0] and
    [B0], leaves [pre ++ sort_by (A0 ++ B0) ++ post]: trimming the
    elements already in place by [GallopRight] and [GallopLeft], then
    merging the rest with [MergeLow] or [MergeHigh] (whichever run is
    shorter is copied out), sorts the two runs together, stably. *)
Theorem merge_at_sorts st i pre A0 B0 post :
  st_work st = pre ++ A0 ++ B0 ++ post ->
  st_runs st !! Z.to_nat i = Some (Z.of_nat (length pre), Z.of_nat (length A0)) ->
  st_runs st !! Z.to_nat (i + 1) = Some (Z.of_nat (length pre + length A0), Z.of_nat (length B0)) ->
  StronglySorted (le cmp) A0 -> StronglySorted (le cmp) B0 -> A0 <> [] -> B0 <> [] ->
  (Z.of_nat (length A0 + length B0) <= smi_max)%Z ->
  st_work (merge_at cmp st i) = pre ++ sort_by cmp (A0 ++ B0) ++ post.
Proof.
  intros Hw Hi Hj HsA HsB HAne HBne Hsmi.
  by rewrite (merge_at_work cmp st i pre A0 B0 post), merge_sorted_sort.
Qed.

(** C32. [MergeLow] and [MergeHigh], with the galloping modes and the
    adaptive [minGallop], each merge two adjacent sorted runs [A0] and
    [B0] under the conditions [MergeAt] establishes (the first element
    of [B0] is below the first of [A0], every element of [B0] below the
    last of [A0]) into [sort_by (A0 ++ B0)], leaving the rest of the
    array as it was. *)
Theorem merge_low_high_sort pre A0 B0 post smg :
  StronglySorted (le cmp) A0 -> StronglySorted (le cmp) B0 ->
  (Z.of_nat (length A0 + length B0) <= smi_max)%Z ->
  (forall b a, B0 !! 0 = Some b -> A0 !! 0 = Some a -> cmp b a = Lt) ->
  (forall b a, In b B0 -> last A0 = Some a -> cmp b a = Lt) -> A0 <> [] -> B0 <> [] ->
  fst (merge_low cmp (pre ++ A0 ++ B0 ++ post) smg (Z.of_nat (length pre)) (Z.of_nat (length A0))
         (Z.of_nat (length pre + length A0)) (Z.of_nat (length B0))) = pre ++ sort_by cmp (A0 ++ B0) ++ post /\
  fst (merge_high cmp (pre ++ A0 ++ B0 ++ post) smg (Z.of_nat (length pre)) (Z.of_nat (length A0))
         (Z.of_nat (length pre + length A0)) (Z.of_nat (length B0))) = pre ++ sort_by cmp (A0 ++ B0) ++ post.
Proof.
  intros HsA HsB Hsmi Hfirst Hlast HAne HBne. rewrite <- merge_sorted_sort by done. split.
  - exact (merge_low_merges cmp pre post A0 B0 HsA HsB Hsmi Hlast Hfirst HAne HBne smg).
  - exact (merge_high_merges cmp pre post A0 B0 HsA HsB Hsmi Hfirst Hlast HAne HBne smg).
Qed.
End TimSortTheorems.

(** ** Witnesses *)

(** 150 keyed elements: the even keys ascending, then the odd keys
    ascending, so that the merges gallop. *)
Definition timsort_sample : list (N * N) :=
  map (fun i => ((if (N.of_nat i <? 75)%N then 2 * N.of_nat i else 2 * (N.of_nat i - 75) + 1)%N, N.of_nat i))
    (seq 0 150).

Lemma timsort_sort_by_witness :
  (Z.of_nat (length timsort_sample) <= smi_max)%Z /\
  timsort by_key timsort_sample = sort_by by_key timsort_sample.
Proof.
  assert (H : (Z.of_nat (length timsort_sample) <= smi_max)%Z) by (unfold smi_max; vm_compute; discriminate).
  split; [exact H | apply (timsort_sort_by by_key _ H)].
Defined.

Lemma merge_at_sorts_witness :
  let st := SortSt [(7, 9); (1, 0); (3, 1); (5, 2); (0, 3); (2, 4); (4, 5); (8, 10)]%N
              [(0, 1); (1, 3); (4, 3); (7, 1)]%Z kMinGallopWins in
  st_work (merge_at by_key st 1) = [(7, 9)]%N ++ sort_by by_key ([(1, 0); (3, 1); (5, 2)]%N ++ [(0, 3); (2, 4); (4, 5)]%N) ++ [(8, 10)]%N /\
  st_work (merge_at by_key st 1) = [(7, 9); (0, 3); (1, 0); (2, 4); (3, 1); (4, 5); (5, 2); (8, 10)]%N.
Proof.
  cbv zeta. split; [|vm_compute; reflexivity].
  apply (merge_at_sorts by_key _ 1 [(7, 9)]%N [(1, 0); (3, 1); (5, 2)]%N [(0, 3); (2, 4); (4, 5)]%N [(8, 10)]%N);
    first [reflexivity | discriminate | repeat constructor; vm_compute; discriminate | unfold smi_max; cbn; lia].
Defined.

Lemma merge_low_high_sort_witness :
  fst (merge_low by_key ([(7, 9)] ++ [(1, 0); (3, 1); (5, 2)] ++ [(0, 3); (2, 4); (4, 5)] ++ [(8, 10)])%N
         kMinGallopWins 1 3 4 3) = [(7, 9)]%N ++ sort_by by_key ([(1, 0); (3, 1); (5, 2)] ++ [(0, 3); (2, 4); (4, 5)])%N ++ [(8, 10)]%N /\
  fst (merge_high by_key ([(7, 9)] ++ [(1, 0); (3, 1); (5, 2)] ++ [(0, 3); (2, 4); (4, 5)] ++ [(8, 10)])%N
         kMinGallopWins 1 3 4 3) = [(7, 9)]%N ++ sort_by by_key ([(1, 0); (3, 1); (5, 2)] ++ [(0, 3); (2, 4); (4, 5)])%N ++ [(8, 10)]%N.
Proof.
  apply (merge_low_high_sort by_key [(7, 9)]%N [(1, 0); (3, 1); (5, 2)]%N [(0, 3); (2, 4); (4, 5)]%N [(8, 10)]%N).
  - repeat constructor; vm_compute; discriminate.
  - repeat constructor; vm_compute; discriminate.
  - unfold smi_max; cbn; lia.
  - intros b a Hb Ha. cbn in Hb, Ha. injection Hb as <-. injection Ha as <-. reflexivity.
  - intros b a Hb Ha. cbn in Ha. injection Ha as <-.
    repeat (destruct Hb as [<-|Hb]; [reflexivity|]). destruct Hb.
  - discriminate.
  - discriminate.
Defined.
