(* ===== verification/V8RunStack.v ===== *)
(** * The pending-runs stack of V8's TimSort stays within its capacity

    [ArrayTimSortImpl] keeps the pending runs in [sortState.pendingRuns],
    a [FixedArray] allocated once with room for [kMaxMergePending] = 85
    runs; [PushRun] stores the new run at index [stackSize] without
    growing it. Its size stays small because [MergeCollapse] keeps
    TimSort's invariant on the run lengths ([run_stack_inv]): read from
    the top, every run is longer than the run above it and than the two
    runs above it together, so the lengths grow at least like the
    Fibonacci numbers ([run_min]) and a stack of [k] runs holds at least
    [run_min (k - 1)] elements. An array of at most [kSmiMaxValue]
    elements thus never has more than 44 pending runs.

    [MergeCollapse] re-establishes the invariant on the whole stack
    because it tests [RunInvariantEstablished] at both [n + 1] and [n]
    (the fix of the TimSort bug reported in 2015 for Java and Python,
    whose [mergeCollapse] tested only [n + 1]); that proof is
    [merge_collapse_inv] in [V8TimSort]. *)

From S2P Require Import Prelude ArraySort V8Sort Merge V8Gallop V8MergeLow V8MergeHigh V8TimSort.

(** [kMaxMergePending]: the capacity of [sortState.pendingRuns]. *)
Definition kMaxMergePending : Z := 85.

(** The least length of the run at depth [j] from the top of a stack
    that satisfies the invariant: 1, 2, then [r(j+2) = r(j+1) + r(j) + 1]
    (one less than the Fibonacci number [F(j + 3)]). *)
Fixpoint run_min_pair (j : nat) : Z * Z :=
  match j with
  | O => (1, 2)%Z
  | S j' => let '(x, y) := run_min_pair j' in (y, x + y + 1)%Z
  end.

Definition run_min (j : nat) : Z := fst (run_min_pair j).

(** The sum of a list of lengths. *)
Definition zsum (t : list Z) : Z := fold_right Z.add 0%Z t.

(** ** Lemmas *)

Lemma run_min_S j : run_min (S j) = snd (run_min_pair j).
Proof. unfold run_min. cbn. by destruct (run_min_pair j). Qed.

Lemma run_min_SS j : run_min (S (S j)) = (run_min (S j) + run_min j + 1)%Z.
Proof. rewrite !run_min_S. unfold run_min. cbn. destruct (run_min_pair j). cbn. lia. Qed.

Lemma run_min_pos_incr j : (1 <= run_min j < run_min (S j))%Z.
Proof.
  induction j as [|j IH]; [cbn; lia|]. rewrite run_min_SS. lia.
Qed.

Lemma run_min_mono i j : i <= j -> (run_min i <= run_min j)%Z.
Proof.
  induction 1 as [|j Hij IH]; [lia|]. pose proof (run_min_pos_incr j). lia.
Qed.

(** Lengths from the top that satisfy the invariant: each is below the
    next one, and two consecutive ones sum below the third. *)
Lemma run_stack_inv_lookup t j x y :
  run_stack_inv t -> t !! j = Some x -> t !! S j = Some y ->
  (x < y)%Z /\ (forall z, t !! S (S j) = Some z -> (x + y < z)%Z).
Proof.
  revert t. induction j as [|j IH]; intros t Ht Hx Hy.
  - destruct t as [|x0 [|y0 t]]; try done. cbn in Hx, Hy. injection Hx as <-. injection Hy as <-.
    destruct t as [|z0 t]; cbn in Ht |- *; [split; [done | discriminate]|].
    split; [tauto|]. intros z [= <-]. tauto.
  - destruct t as [|x0 t]; [done|]. cbn in Hx, Hy.
    apply (IH t); [by apply (run_stack_inv_tail x0) | done | done].
Qed.

Lemma run_min_le t : run_stack_inv t -> Forall (fun x => 1 <= x)%Z t ->
  forall j x, t !! j = Some x -> (run_min j <= x)%Z.
Proof.
  intros Ht Hp.
  assert (H : forall j, (forall x, t !! j = Some x -> run_min j <= x)%Z /\
                        (forall y, t !! S j = Some y -> run_min (S j) <= y)%Z).
  { induction j as [|j [IH1 IH2]].
    - split.
      + intros x Hx. eapply Forall_lookup_1 in Hp; [|exact Hx]. cbn. lia.
      + intros y Hy. pose proof (lookup_lt_Some _ _ _ Hy) as Hl.
        destruct (lookup_lt_is_Some_2 t 0 ltac:(lia)) as [x Hx].
        destruct (run_stack_inv_lookup t 0 x y Ht Hx Hy) as [Hxy _].
        eapply Forall_lookup_1 in Hp; [|exact Hx]. cbn. lia.
    - split; [exact IH2|]. intros z Hz. pose proof (lookup_lt_Some _ _ _ Hz) as Hl.
      destruct (lookup_lt_is_Some_2 t j ltac:(lia)) as [x Hx].
      destruct (lookup_lt_is_Some_2 t (S j) ltac:(lia)) as [y Hy].
      destruct (run_stack_inv_lookup t j x y Ht Hx Hy) as [_ Hxyz].
      specialize (Hxyz z Hz). specialize (IH1 x Hx). specialize (IH2 y Hy).
      rewrite run_min_SS. lia. }
  intros j x Hx. by apply (proj1 (H j)).
Qed.

Lemma zsum_nonneg t : Forall (fun x => 0 <= x)%Z t -> (0 <= zsum t)%Z.
Proof. induction 1; unfold zsum in *; cbn; lia. Qed.

Lemma zsum_lookup_le t j x : Forall (fun x => 0 <= x)%Z t -> t !! j = Some x -> (x <= zsum t)%Z.
Proof.
  revert j. induction t as [|y t IH]; intros j Hp Hx; [done|].
  pose proof (zsum_nonneg t (Forall_inv_tail Hp)) as Ht.
  apply Forall_cons in Hp as [Hy Hp]. unfold zsum in *. cbn in Hx |- *.
  destruct j as [|j]; [injection Hx as <-; lia|]. specialize (IH j Hp Hx). lia.
Qed.

Lemma zsum_app t1 t2 : zsum (t1 ++ t2) = (zsum t1 + zsum t2)%Z.
Proof. unfold zsum. induction t1; cbn; lia. Qed.

Lemma zsum_reverse t : zsum (reverse t) = zsum t.
Proof.
  induction t as [|x t IH]; [done|]. rewrite reverse_cons, zsum_app, IH. cbn. unfold zsum. cbn. lia.
Qed.

Lemma run_min_44 : (smi_max < run_min 44)%Z.
Proof. vm_compute. reflexivity. Qed.

(** A stack satisfying the invariant, of runs of at least one element
    and at most [kSmiMaxValue] elements in all, has at most 44 runs. *)
Lemma stack_depth_bound t : run_stack_inv t -> Forall (fun x => 1 <= x)%Z t ->
  (zsum t <= smi_max)%Z -> length t <= 44.
Proof.
  intros Ht Hp Hs. destruct (Nat.le_gt_cases (length t) 44) as [|Hl]; [done|].
  destruct (lookup_lt_is_Some_2 t 44 Hl) as [x Hx].
  pose proof (run_min_le t Ht Hp 44 x Hx). pose proof run_min_44.
  assert (x <= zsum t)%Z by (apply (zsum_lookup_le t 44); [eapply Forall_impl; [exact Hp | cbn; lia] | done]).
  lia.
Qed.

Lemma zsum_lengths {A} (segs : list (list A)) :
  zsum (map (fun s => Z.of_nat (length s)) segs) = Z.of_nat (length (concat segs)).
Proof. induction segs as [|s segs IH]; [done|]. cbn. rewrite length_app. unfold zsum in *. cbn in *. lia. Qed.

Lemma lengths_pos {A} (segs : list (list A)) : Forall (fun s => s <> []) segs ->
  Forall (fun x => 1 <= x)%Z (reverse (map (fun s => Z.of_nat (length s)) segs)).
Proof.
  intros Hne. apply Forall_reverse, Forall_map. eapply Forall_impl; [exact Hne|].
  intros [|x s] H; [done | cbn; lia].
Qed.

(** ** Theorems *)

Section RunStackTheorems.
Context {A : Type} (cmp : A -> A -> comparison) `{!Consistent cmp}.

(** C24. In V8's TimSort, after any number of rounds of the main loop
    of [ArrayTimSortImpl] (each round finds a run, pushes it and runs
    [MergeCollapse]), the pending runs satisfy TimSort's invariant,
    whatever [minRunLength]: read from the top, each run is longer than
    the one above it and than the two above it together. So an array of
    at most [kSmiMaxValue] elements never has more than 44 pending
    runs, and [PushRun]'s store at index [stackSize] stays below the
    capacity [kMaxMergePending] of [pendingRuns]. *)
Theorem pending_runs_bounded (a : list A) (minRunLength : Z) (rounds : nat) :
  (Z.of_nat (length a) <= smi_max)%Z ->
  run_stack_inv (top_lengths (st_runs
    (timsort_loop cmp rounds minRunLength 0 (Z.of_nat (length a)) (SortSt a [] kMinGallopWins)))) /\
  length (st_runs (timsort_loop cmp rounds minRunLength 0 (Z.of_nat (length a)) (SortSt a [] kMinGallopWins))) <= 44 /\
  (Z.of_nat (length (st_runs
    (timsort_loop cmp rounds minRunLength 0 (Z.of_nat (length a)) (SortSt a [] kMinGallopWins)))) < kMaxMergePending)%Z.
Proof.
  intros Hsmi.
  destruct (timsort_loop_gen cmp rounds minRunLength 0 (length a) (SortSt a [] kMinGallopWins) [] a)
    as (segs & low & Hok & Hc & _ & Hinv); [split_and!; [done | by rewrite drop_0 | done] | done | done | done |].
  change (Z.of_nat 0) with 0%Z in Hok, Hinv. specialize (Hinv I).
  set (st := timsort_loop cmp rounds minRunLength 0 _ _) in *.
  destruct Hok as (Hr & _ & Hne).
  assert (Hl : length (st_runs st) <= 44).
  { rewrite <- length_top_lengths. apply stack_depth_bound; [done | |].
    - rewrite Hr, top_lengths_layout. by apply lengths_pos.
    - rewrite Hr, top_lengths_layout, zsum_reverse, zsum_lengths, Hc.
      pose proof (length_take_le a low). pose proof (length_take a low). lia. }
  split_and!; [done | done | unfold kMaxMergePending; lia].
Qed.
End RunStackTheorems.

(** ** Witnesses *)

Lemma pending_runs_bounded_witness :
  (Z.of_nat (length timsort_sample) <= smi_max)%Z /\
  run_stack_inv (top_lengths (st_runs (timsort_loop by_key 3 32 0 (Z.of_nat (length timsort_sample))
    (SortSt timsort_sample [] kMinGallopWins)))) /\
  length (st_runs (timsort_loop by_key 3 32 0 (Z.of_nat (length timsort_sample))
    (SortSt timsort_sample [] kMinGallopWins))) <= 44 /\
  (Z.of_nat (length (st_runs (timsort_loop by_key 3 32 0 (Z.of_nat (length timsort_sample))
    (SortSt timsort_sample [] kMinGallopWins)))) < kMaxMergePending)%Z.
Proof.
  assert (H : (Z.of_nat (length timsort_sample) <= smi_max)%Z) by (unfold smi_max; vm_compute; discriminate).
  split; [exact H | exact (pending_runs_bounded by_key timsort_sample 32 3 H)].
Defined.
