(* ===== verification/Collation.v ===== *)
(** * [String.prototype.localeCompare]

    The plugin sorts with [(a, b) => a.localeCompare(b)] (config.mts line
    25). ECMAScript only requires [localeCompare] to be a consistent
    comparison of strings; the order itself is the host's collation (ICU
    in Node.js). [LocaleCompare] is that interface: the plugin's theorems
    are proved for every instance of it.

    [root_collation] is one instance, used for the concrete runs: the
    Unicode root collation (CLDR root, tertiary strength) restricted to
    ASCII. Primary weights order white space, then punctuation and
    symbols in the root order, then digits, then letters without regard
    to case; the tertiary level puts a lower-case letter before its
    upper-case form. Control characters, which the root collation
    ignores, and every unit outside ASCII are given primary weights of
    their own (below and above the rest), so this instance only tells
    apart what ICU tells apart within printable ASCII. *)

From S2P Require Import Prelude JsString ArraySort.

Class LocaleCompare := {
  localeCompare : jsstr -> jsstr -> comparison;
  localeCompare_consistent :: Consistent localeCompare
}.

(** Lexicographic comparison of weight sequences, a shorter prefix
    first. *)
Fixpoint lex (a b : list N) : comparison :=
  match a, b with
  | [], [] => Eq
  | [], _ :: _ => Lt
  | _ :: _, [] => Gt
  | x :: a', y :: b' => match N.compare x y with Eq => lex a' b' | r => r end
  end.

(** White space, then punctuation and symbols, then digits, in the order
    of the root collation. *)
Definition root_ascii_order : list N :=
  [9; 10; 11; 12; 13; 32;
   95; 45; 44; 59; 58; 33; 63; 46; 39; 34; 40; 41; 91; 93; 123; 125;
   64; 42; 47; 92; 38; 35; 37; 96; 94; 43; 60; 61; 62; 124; 126; 36;
   48; 49; 50; 51; 52; 53; 54; 55; 56; 57]%N.

Fixpoint index_of (c : N) (l : list N) : option N :=
  match l with
  | [] => None
  | x :: l' => if (x =? c)%N then Some 0%N else N.succ <$> index_of c l'
  end.

Definition primary (c : N) : N :=
  if (c <? 128)%N then
    match index_of c root_ascii_order with
    | Some i => 200 + i
    | None => if ((97 <=? ascii_lower c) && (ascii_lower c <=? 122))%N
              then 300 + (ascii_lower c - 97) else c
    end
  else 1000 + c.

Definition tertiary (c : N) : N :=
  if ((65 <=? c) && (c <=? 90))%N then 1 else 0.

Definition root_compare : jsstr -> jsstr -> comparison :=
  then_cmp (on_cmp (map primary) lex) (on_cmp (map tertiary) lex).

Definition range128 : list N := map N.of_nat (seq 0 128).

(** ** Lemmas *)

#[export] Instance lex_consistent : Consistent lex.
Proof.
  split.
  - induction a as [|x a IH]; intros [|y b]; simpl; try done.
    rewrite (N.compare_antisym x y). destruct (N.compare x y); simpl; auto.
  - induction a as [|x a IH]; intros [|y b] [|z c]; simpl; try congruence.
    destruct (N.compare_spec x y), (N.compare_spec y z), (N.compare_spec x z);
      subst; try lia; try congruence; eauto.
Qed.

Lemma lex_Eq a b : lex a b = Eq -> a = b.
Proof.
  revert b. induction a as [|x a IH]; intros [|y b]; simpl; try congruence.
  destruct (N.compare_spec x y); subst; try congruence. intros. f_equal. by apply IH.
Qed.

Lemma index_of_lt c l i : index_of c l = Some i -> (i < N.of_nat (length l))%N.
Proof.
  revert i. induction l as [|x l IH]; intros i; simpl; [done|].
  destruct (N.eqb_spec x c); [intros [= <-]; lia|].
  destruct (index_of c l) as [j|] eqn:E; simpl; [|done].
  intros [= <-]. specialize (IH j eq_refl). lia.
Qed.

Lemma primary_ascii_lt c : (c < 128)%N -> (primary c < 1000)%N.
Proof.
  intros Hc. unfold primary. destruct (N.ltb_spec c 128); [|lia].
  destruct (index_of c root_ascii_order) as [i|] eqn:E.
  - apply index_of_lt in E. simpl in E. lia.
  - unfold ascii_lower. solve_unit_arith.
Qed.

Lemma primary_nonascii c : (128 <= c)%N -> primary c = (1000 + c)%N.
Proof. intros Hc. unfold primary. destruct (N.ltb_spec c 128); [lia|done]. Qed.

(** Within ASCII the (primary, tertiary) pair of a unit identifies it:
    checked over all pairs of ASCII units. *)
Lemma root_key_injective_ascii :
  forallb (fun c => forallb (fun d =>
    negb ((primary c =? primary d) && (tertiary c =? tertiary d))%N || (c =? d)%N)
    range128) range128 = true.
Proof. vm_compute. reflexivity. Qed.

Lemma in_range128 x : (x < 128)%N -> In x range128.
Proof.
  intros Hx. apply in_map_iff. exists (N.to_nat x). rewrite N2Nat.id.
  split; [done|]. apply in_seq. lia.
Qed.

Lemma root_key_injective c d :
  primary c = primary d -> tertiary c = tertiary d -> c = d.
Proof.
  intros Hp Ht.
  destruct (N.ltb_spec c 128) as [Hc|Hc], (N.ltb_spec d 128) as [Hd|Hd].
  - pose proof root_key_injective_ascii as Hall.
    eapply forallb_forall in Hall; [|apply in_range128, Hc].
    eapply forallb_forall in Hall; [|apply in_range128, Hd].
    rewrite Hp, Ht, !N.eqb_refl in Hall. simpl in Hall. by apply N.eqb_eq.
  - pose proof (primary_ascii_lt c Hc). rewrite (primary_nonascii d Hd) in Hp. lia.
  - pose proof (primary_ascii_lt d Hd). rewrite (primary_nonascii c Hc) in Hp. lia.
  - rewrite (primary_nonascii c Hc), (primary_nonascii d Hd) in Hp. lia.
Qed.

Lemma map_key_injective (a b : jsstr) :
  map primary a = map primary b -> map tertiary a = map tertiary b -> a = b.
Proof.
  revert b. induction a as [|x a IH]; intros [|y b]; simpl; try congruence.
  intros [= Hp Hps] [= Ht Hts]. f_equal; [by apply root_key_injective | by apply IH].
Qed.

(** The root collation tells apart any two different strings. *)
Lemma root_compare_strict a b : root_compare a b = Eq -> a = b.
Proof.
  unfold root_compare, then_cmp, on_cmp.
  destruct (lex (map primary a) (map primary b)) eqn:E; try congruence.
  intros Ht. apply map_key_injective; by apply lex_Eq.
Qed.

(** Lower-casing a unit keeps its primary weight (checked over ASCII;
    the identity elsewhere) and gives it the lower tertiary weight. *)
Lemma primary_lower c : primary (ascii_lower c) = primary c.
Proof.
  destruct (N.ltb_spec c 128) as [Hc|Hc].
  - assert (Hall : forallb (fun c => (primary (ascii_lower c) =? primary c)%N) range128 = true)
      by (vm_compute; reflexivity).
    eapply forallb_forall in Hall; [|apply in_range128, Hc]. by apply N.eqb_eq.
  - assert (ascii_lower c = c) as -> by (unfold ascii_lower; solve_unit_arith). done.
Qed.

Lemma tertiary_lower c : tertiary (ascii_lower c) = 0%N.
Proof. unfold tertiary, ascii_lower. solve_unit_arith. Qed.

Lemma tertiary_changed c : ascii_lower c <> c -> tertiary c = 1%N.
Proof. unfold tertiary, ascii_lower. intros Hc. case_unit_tests; cbn in *; lia. Qed.

Lemma lex_tertiary_lower s :
  map ascii_lower s <> s -> lex (map tertiary (map ascii_lower s)) (map tertiary s) = Lt.
Proof.
  induction s as [|c s IH]; intros Hne; [done|]. cbn [map lex]. rewrite tertiary_lower.
  destruct (decide (ascii_lower c = c)) as [Hc|Hc].
  - assert (Ht : tertiary c = 0%N) by (rewrite <- Hc; apply tertiary_lower).
    rewrite Ht. apply IH. intros Hs. apply Hne. cbn [map]. by rewrite Hc, Hs.
  - by rewrite tertiary_changed.
Qed.

(** A string with an upper-case ASCII letter comes after its lower-case
    form: same primary weights, lower tertiary weights first. *)
Lemma root_compare_lower_first s : map ascii_lower s <> s -> root_compare (map ascii_lower s) s = Lt.
Proof.
  intros Hne. unfold root_compare, then_cmp, on_cmp.
  rewrite map_map, (map_ext _ _ primary_lower), (cmp_refl lex). by apply lex_tertiary_lower.
Qed.

#[export] Instance root_locale : LocaleCompare := {| localeCompare := root_compare |}.
