(* ===== verification/Json.v ===== *)
(** * [JSON.stringify] of the URL list, and its decoding

    [`export default ${JSON.stringify(urls)}`] (config.mts line 32)
    serialises an array of strings: [SerializeJSONArray] without
    indentation, and [QuoteJSONString] (ECMAScript 25.5.2.3, in its
    ES2019 form that escapes lone surrogates) for each element.
    [json_parse_strings] is [JSON.parse] restricted to arrays of strings,
    the value the importer of the module receives. The round trip
    [json_parse_stringify] shows that it gets back exactly the list. *)

From S2P Require Import Prelude JsString.

Definition is_lead (c : N) : bool := ((0xD800 <=? c) && (c <=? 0xDBFF))%N.
Definition is_trail (c : N) : bool := ((0xDC00 <=? c) && (c <=? 0xDFFF))%N.

(** A lower-case hexadecimal digit. *)
Definition hex_digit (n : N) : N := if (n <? 10)%N then (48 + n)%N else (87 + n)%N.

(** UnicodeEscape(C): [\u] and four lower-case hexadecimal digits. *)
Definition unicode_escape (c : N) : jsstr :=
  [92; 117; hex_digit (c / 4096); hex_digit ((c / 256) mod 16);
   hex_digit ((c / 16) mod 16); hex_digit (c mod 16)]%N.

(** The escape of one code unit that is not the first half of a pair:
    the table of short escapes, then [\u] for control characters and
    surrogates, else the unit itself. *)
Definition escape_unit (c : N) : jsstr :=
  if (c =? 8)%N then [92; 98]%N
  else if (c =? 9)%N then [92; 116]%N
  else if (c =? 10)%N then [92; 110]%N
  else if (c =? 12)%N then [92; 102]%N
  else if (c =? 13)%N then [92; 114]%N
  else if (c =? 34)%N then [92; 34]%N
  else if (c =? 92)%N then [92; 92]%N
  else if (c <? 32)%N || is_lead c || is_trail c then unicode_escape c
  else [c].

(** The code points of the string in order: a surrogate pair is one code
    point and is copied; any other unit goes through [escape_unit]. *)
Fixpoint quote_units (s : jsstr) : jsstr :=
  match s with
  | [] => []
  | c :: rest =>
      if is_lead c then
        match rest with
        | d :: rest' =>
            if is_trail d then c :: d :: quote_units rest'
            else unicode_escape c ++ quote_units rest
        | [] => unicode_escape c
        end
      else escape_unit c ++ quote_units rest
  end.

(** QuoteJSONString *)
Definition quote_json (s : jsstr) : jsstr := 34%N :: quote_units s ++ [34%N].

Fixpoint join_with (sep : jsstr) (l : list jsstr) : jsstr :=
  match l with
  | [] => []
  | [x] => x
  | x :: l' => x ++ sep ++ join_with sep l'
  end.

(** [JSON.stringify] of an array of strings: [[], or [["a","b"]]. *)
Definition json_stringify_strings (l : list jsstr) : jsstr :=
  91%N :: join_with [44%N] (map quote_json l) ++ [93%N].

(** ** [JSON.parse] for an array of strings *)

Definition is_ws (c : N) : bool := ((c =? 32) || (c =? 9) || (c =? 10) || (c =? 13))%N.

Fixpoint skip_ws (s : jsstr) : jsstr :=
  match s with
  | c :: s' => if is_ws c then skip_ws s' else s
  | [] => []
  end.

Definition hex_val (c : N) : option N :=
  if ((48 <=? c) && (c <=? 57))%N then Some (c - 48)%N
  else if ((97 <=? c) && (c <=? 102))%N then Some (c - 87)%N
  else if ((65 <=? c) && (c <=? 70))%N then Some (c - 55)%N
  else None.

Definition hex4 (h1 h2 h3 h4 : N) : option N :=
  match hex_val h1, hex_val h2, hex_val h3, hex_val h4 with
  | Some a, Some b, Some c, Some d => Some (4096 * a + 256 * b + 16 * c + d)%N
  | _, _, _, _ => None
  end.

(** The unit a one-character escape [\e] stands for. *)
Definition short_escape (e : N) : option N :=
  if (e =? 34)%N then Some 34%N
  else if (e =? 92)%N then Some 92%N
  else if (e =? 47)%N then Some 47%N
  else if (e =? 98)%N then Some 8%N
  else if (e =? 102)%N then Some 12%N
  else if (e =? 110)%N then Some 10%N
  else if (e =? 114)%N then Some 13%N
  else if (e =? 116)%N then Some 9%N
  else None.

Definition cons_fst (c : N) (r : option (jsstr * jsstr)) : option (jsstr * jsstr) :=
  (fun '(str, rest) => (c :: str, rest)) <$> r.

(** The characters of a string literal after its opening quote: the
    content, and what follows the closing quote. *)
Fixpoint parse_chars (s : jsstr) : option (jsstr * jsstr) :=
  match s with
  | [] => None
  | c :: s1 =>
      if (c =? 34)%N then Some ([], s1)
      else if (c =? 92)%N then
        match s1 with
        | [] => None
        | e :: s2 =>
            if (e =? 117)%N then
              match s2 with
              | h1 :: h2 :: h3 :: h4 :: s3 =>
                  match hex4 h1 h2 h3 h4 with
                  | Some u => cons_fst u (parse_chars s3)
                  | None => None
                  end
              | _ => None
              end
            else match short_escape e with
                 | Some u => cons_fst u (parse_chars s2)
                 | None => None
                 end
        end
      else if (c <? 32)%N then None
      else cons_fst c (parse_chars s1)
  end.

Definition parse_string (s : jsstr) : option (jsstr * jsstr) :=
  match skip_ws s with
  | c :: s1 => if (c =? 34)%N then parse_chars s1 else None
  | [] => None
  end.

(** The elements after the first: [, "..."] until [ ]]. *)
Fixpoint parse_more (fuel : nat) (s : jsstr) : option (list jsstr * jsstr) :=
  match fuel with
  | O => None
  | S fuel' =>
      match skip_ws s with
      | c :: s1 =>
          if (c =? 93)%N then Some ([], s1)
          else if (c =? 44)%N then
            match parse_string s1 with
            | Some (x, s2) =>
                (fun '(xs, s3) => (x :: xs, s3)) <$> parse_more fuel' s2
            | None => None
            end
          else None
      | [] => None
      end
  end.

Definition json_parse_strings (s : jsstr) : option (list jsstr) :=
  let check_end '(xs, rest) := if bool_decide (skip_ws rest = []) then Some xs else None in
  match skip_ws s with
  | c :: s1 =>
      if (c =? 91)%N then
        match skip_ws s1 with
        | c' :: s2 =>
            if (c' =? 93)%N then check_end ([], s2)
            else match parse_string s1 with
                 | Some (x, s2) =>
                     match parse_more (length s) s2 with
                     | Some (xs, s3) => check_end (x :: xs, s3)
                     | None => None
                     end
                 | None => None
                 end
        | [] => None
        end
      else None
  | [] => None
  end.

(** The text after the first element: [,"..."] for each further element,
    then [ ]]. *)
Fixpoint json_tail (xs : list jsstr) (t : jsstr) : jsstr :=
  match xs with
  | [] => 93%N :: t
  | y :: ys => 44%N :: quote_json y ++ json_tail ys t
  end.

Example stringify_example :
  json_stringify_strings [js "/images/a.png"; [9; 34; 0xD800]%N] =
  js "[" ++ quote_json (js "/images/a.png") ++ js "," ++
  [34; 92; 116; 92; 34; 92; 117; 100; 56; 48; 48; 34]%N ++ js "]".
Proof. reflexivity. Qed.

Example parse_example :
  json_parse_strings (js " [ " ++ quote_json (js "x") ++ js " , " ++ quote_json [] ++ js " ] ") =
  Some [js "x"; []].
Proof. reflexivity. Qed.

(** ** Lemmas *)

Lemma hex_val_digit n : (n < 16)%N -> hex_val (hex_digit n) = Some n.
Proof.
  intros Hn. unfold hex_val, hex_digit. case_unit_tests; cbn in *; try lia; f_equal; lia.
Qed.

Lemma hex_digits_recompose c : (c < 65536)%N ->
  (4096 * (c / 4096) + 256 * ((c / 256) mod 16) + 16 * ((c / 16) mod 16) + c mod 16)%N = c.
Proof.
  intros Hc.
  pose proof (N.div_mod c 16 ltac:(lia)) as E1.
  pose proof (N.div_mod (c / 16) 16 ltac:(lia)) as E2.
  pose proof (N.div_mod (c / 256) 16 ltac:(lia)) as E3.
  rewrite N.Div0.div_div in E2, E3.
  change (16 * 16)%N with 256%N in E2. change (256 * 16)%N with 4096%N in E3. lia.
Qed.

Lemma parse_unicode_escape c t : (c < 65536)%N ->
  parse_chars (unicode_escape c ++ t) = cons_fst c (parse_chars t).
Proof.
  intros Hc. cbn -[N.div N.modulo hex_digit].
  unfold hex4. rewrite !hex_val_digit.
  - by rewrite hex_digits_recompose.
  - apply N.mod_lt; lia.
  - apply N.mod_lt; lia.
  - apply N.mod_lt; lia.
  - apply N.Div0.div_lt_upper_bound. lia.
Qed.

(** A unit that needs no escape is read back as itself. *)
Lemma parse_raw c t : c <> 34%N -> c <> 92%N -> (32 <= c)%N ->
  parse_chars (c :: t) = cons_fst c (parse_chars t).
Proof.
  intros H34 H92 H32. cbn [parse_chars].
  rewrite (proj2 (N.eqb_neq c 34)), (proj2 (N.eqb_neq c 92)) by done.
  destruct (N.ltb_spec c 32); [lia | done].
Qed.

Lemma parse_escape_unit c t : unit_ok c = true -> is_lead c = false ->
  parse_chars (escape_unit c ++ t) = cons_fst c (parse_chars t).
Proof.
  intros Hc Hl. unfold unit_ok in Hc. apply N.ltb_lt in Hc. unfold escape_unit.
  destruct (N.eqb_spec c 8) as [->|]; [done|].
  destruct (N.eqb_spec c 9) as [->|]; [done|].
  destruct (N.eqb_spec c 10) as [->|]; [done|].
  destruct (N.eqb_spec c 12) as [->|]; [done|].
  destruct (N.eqb_spec c 13) as [->|]; [done|].
  destruct (N.eqb_spec c 34) as [->|]; [done|].
  destruct (N.eqb_spec c 92) as [->|]; [done|].
  destruct ((c <? 32)%N || is_lead c || is_trail c) eqn:E.
  - by apply parse_unicode_escape.
  - apply parse_raw; [done|done|]. apply orb_false_iff in E as [E _].
    apply orb_false_iff in E as [E _]. apply N.ltb_ge in E. done.
Qed.

Lemma surrogate_raw c : is_lead c = true \/ is_trail c = true ->
  c <> 34%N /\ c <> 92%N /\ (32 <= c)%N.
Proof.
  unfold is_lead, is_trail. intros [H|H]; revert H; case_unit_tests; cbn; intros; try discriminate; lia.
Qed.

Lemma parse_quote_units s t : units_ok s = true ->
  parse_chars (quote_units s ++ 34%N :: t) = Some (s, t).
Proof.
  remember (length s) as n eqn:Hn. revert s Hn t.
  induction n as [n IH] using lt_wf_ind. intros [|c rest] Hn t Hok; [done|].
  simpl in Hok. apply andb_prop in Hok as [Hc Hrest]. cbn [quote_units].
  destruct (is_lead c) eqn:L.
  - assert (Hc' : (c < 65536)%N) by (by apply N.ltb_lt).
    destruct rest as [|d rest'].
    + by rewrite parse_unicode_escape.
    + destruct (is_trail d) eqn:T.
      * simpl in Hrest. apply andb_prop in Hrest as [Hd Hrest'].
        destruct (surrogate_raw c) as (? & ? & ?); [by left|].
        destruct (surrogate_raw d) as (? & ? & ?); [by right|].
        cbn [app]. rewrite !parse_raw by done.
        by rewrite (IH (length rest') ltac:(simpl in *; lia) rest' eq_refl t Hrest').
      * rewrite <- app_assoc, parse_unicode_escape by done.
        by rewrite (IH (length (d :: rest')) ltac:(simpl in *; lia) (d :: rest') eq_refl t Hrest).
  - rewrite <- app_assoc, parse_escape_unit by done.
    by rewrite (IH (length rest) ltac:(simpl in *; lia) rest eq_refl t Hrest).
Qed.

Lemma parse_string_quote s t : units_ok s = true ->
  parse_string (quote_json s ++ t) = Some (s, t).
Proof.
  intros Hok. unfold quote_json. cbn [app skip_ws is_ws parse_string]. simpl.
  rewrite <- app_assoc. by apply parse_quote_units.
Qed.

Lemma join_tail x xs t :
  (join_with [44%N] (map quote_json (x :: xs)) ++ [93%N]) ++ t = quote_json x ++ json_tail xs t.
Proof.
  revert x. induction xs as [|y ys IH]; intros x; cbn [map]; [by rewrite <- app_assoc|].
  change (join_with [44%N] (quote_json x :: quote_json y :: map quote_json ys))
    with (quote_json x ++ [44%N] ++ join_with [44%N] (quote_json y :: map quote_json ys)).
  cbn [json_tail]. rewrite <- (IH y). by rewrite <- !app_assoc.
Qed.

Lemma length_json_tail xs t : length xs <= length (json_tail xs t).
Proof. induction xs as [|y ys IH]; simpl; [lia|]. rewrite length_app. lia. Qed.

Lemma parse_more_comma fuel s :
  parse_more (S fuel) (44%N :: s) =
  match parse_string s with
  | Some (x, s2) => (fun '(xs, s3) => (x :: xs, s3)) <$> parse_more fuel s2
  | None => None
  end.
Proof. reflexivity. Qed.

Lemma parse_more_tail xs t fuel :
  Forall (fun s => units_ok s = true) xs -> length xs < fuel ->
  parse_more fuel (json_tail xs t) = Some (xs, t).
Proof.
  revert fuel. induction xs as [|y ys IH]; intros [|fuel] Hok Hlen; simpl in Hlen; try lia; [done|].
  apply Forall_cons in Hok as [Hy Hys].
  cbn [json_tail]. rewrite parse_more_comma, parse_string_quote by done.
  rewrite IH by (done || lia). done.
Qed.

Lemma json_parse_open s1 c' s2 :
  skip_ws s1 = c' :: s2 -> c' <> 93%N ->
  json_parse_strings (91%N :: s1) =
  match parse_string s1 with
  | Some (x, s3) =>
      match parse_more (S (length s1)) s3 with
      | Some (xs, s4) => if bool_decide (skip_ws s4 = []) then Some (x :: xs) else None
      | None => None
      end
  | None => None
  end.
Proof.
  intros Hs Hc. unfold json_parse_strings. cbn [skip_ws is_ws]. simpl.
  rewrite Hs. by rewrite (proj2 (N.eqb_neq c' 93) Hc).
Qed.

Lemma json_parse_stringify (l : list jsstr) :
  Forall (fun s => units_ok s = true) l ->
  json_parse_strings (json_stringify_strings l) = Some l.
Proof.
  destruct l as [|x xs]; intros Hok; [done|].
  apply Forall_cons in Hok as [Hx Hxs].
  unfold json_stringify_strings.
  rewrite <- (app_nil_r (join_with _ _ ++ _)), join_tail.
  rewrite (json_parse_open _ 34%N ((quote_units x ++ [34%N]) ++ json_tail xs []))
    by (reflexivity || discriminate).
  rewrite parse_string_quote by done.
  rewrite parse_more_tail; [done | done |].
  rewrite length_app. pose proof (length_json_tail xs []). lia.
Qed.

Lemma unicode_escape_printable c : Forall (fun u => (32 <= u)%N) (unicode_escape c).
Proof.
  assert (Hd : forall n, (32 <= hex_digit n)%N) by (intros n; unfold hex_digit; solve_unit_arith).
  repeat constructor; try lia; apply Hd.
Qed.

(** C16. The text [QuoteJSONString] produces between the quotes has no
    raw control character: every unit is at least U+0020, as JSON
    requires of a string literal. *)
Theorem quote_units_printable s : Forall (fun u => (32 <= u)%N) (quote_units s).
Proof.
  induction s as [s IH] using (induction_ltof1 _ (@length N)). unfold ltof in IH.
  destruct s as [|c rest]; [constructor|]. cbn [quote_units].
  destruct (is_lead c) eqn:L.
  - destruct rest as [|d rest']; [apply unicode_escape_printable|].
    destruct (is_trail d) eqn:T.
    + destruct (surrogate_raw c) as (_ & _ & ?); [by left|].
      destruct (surrogate_raw d) as (_ & _ & ?); [by right|].
      constructor; [done|]. constructor; [done|]. apply IH. simpl. lia.
    + apply Forall_app. split; [apply unicode_escape_printable|]. apply IH. simpl. lia.
  - apply Forall_app. split; [|apply IH; simpl; lia].
    unfold escape_unit.
    repeat match goal with |- context [if ?b then _ else _] => destruct b eqn:? end;
      try (repeat constructor; lia); try apply unicode_escape_printable.
    constructor; [|done]. repeat match goal with H : (_ || _) = false |- _ => apply orb_false_iff in H as [? ?] end.
    by apply N.ltb_ge.
Qed.
