(* ===== verification/Fs.v ===== *)
(** * The file system the plugin reads, and [fs.readdirSync]

    [fs.readdirSync(publicDir, { withFileTypes: true })] (config.mts
    line 21) lists a directory as [Dirent]s, each with a name and the
    type the directory entry records ([lstat]'s type: a symbolic link
    is reported as a link, not as what it points to); [Dirent.isFile()]
    (line 22) is true for regular files only. Opening the directory
    follows symbolic links in every component of its path, and fails
    with ENOENT, ENOTDIR, EACCES or ELOOP, which [readdirSync] throws.
    Permissions are reduced to one flag per directory, read permission
    on the directory listed (EACCES); search permission on the
    directories of the path is not modelled.

    The file system is a finite map from absolute paths (lists of
    segments) to inodes; a directory keeps its entry names in the order
    the operating system returns them (libuv sorts them by byte order on
    Unix; the theorems hold for every order). [path_resolve] is Node's
    [path.posix.resolve] for the call of line 17. [fs_create] and
    [fs_remove] are the changes a user makes to a directory (creating,
    overwriting or unlinking an entry), and [dir_names_all] states a
    property of every name the file system holds. [chain_fs] is a chain
    of symbolic links, on which the bound of 40 links is shown. *)

From stdpp Require Import gmap.
From S2P Require Import Prelude JsString.

Inductive errno := ENOENT | ENOTDIR | EACCES | ELOOP.

Inductive result (A : Type) := Ok (a : A) | Err (e : errno).
Arguments Ok {A} a.
Arguments Err {A} e.

(** uv_dirent_type_t: the type a directory entry records. *)
Inductive file_kind := KFile | KDir | KLink | KFifo | KSocket | KChar | KBlock | KUnknown.

Record dirent := { d_name : jsstr; d_kind : file_kind }.

(** [Dirent.prototype.isFile]: [this[kType] === UV_DIRENT_FILE]. *)
Definition isFile (d : dirent) : bool :=
  match d_kind d with KFile => true | _ => false end.

Abbreviation path := (list jsstr).

Inductive inode :=
| IFile
| IDir (readable : bool) (entries : list jsstr)
| ILink (target : path)                 (* an absolute target *)
| IOther (k : file_kind).               (* FIFOs, sockets, devices *)

Abbreviation fs := (gmap path inode).

Definition kind_of (i : inode) : file_kind :=
  match i with
  | IFile => KFile
  | IDir _ _ => KDir
  | ILink _ => KLink
  | IOther k => k
  end.

(** Linux's MAXSYMLINKS: the number of links a lookup may follow. *)
Definition max_symlinks : nat := 40.

(** Path lookup from [cur] along [rest], following every link met on
    the way (a link restarts the walk at the root of its target). *)
Fixpoint walk (m : fs) (links : nat) (cur rest : path) : result path :=
  let fix go (cur rest : path) : result path :=
    match rest with
    | [] => Ok cur
    | n :: rest' =>
        match m !! (cur ++ [n]) with
        | None => Err ENOENT
        | Some (ILink t) =>
            match links with
            | O => Err ELOOP
            | S links' => walk m links' [] (t ++ rest')
            end
        | Some (IDir _ _) => go (cur ++ [n]) rest'
        | Some _ => match rest' with [] => Ok (cur ++ [n]) | _ => Err ENOTDIR end
        end
    end in
  go cur rest.

Definition kind_at (m : fs) (p : path) : file_kind :=
  match m !! p with Some i => kind_of i | None => KUnknown end.

(** [fs.readdirSync(dir, { withFileTypes: true })] *)
Definition readdirSync (m : fs) (dir : path) : result (list dirent) :=
  match walk m max_symlinks [] dir with
  | Err e => Err e
  | Ok p =>
      match m !! p with
      | Some (IDir true names) =>
          Ok (map (fun n => {| d_name := n; d_kind := kind_at m (p ++ [n]) |}) names)
      | Some (IDir false _) => Err EACCES
      | Some _ => Err ENOTDIR
      | None => Err ENOENT
      end
  end.

(** ** [path.posix.resolve] *)

(** The segments of a path string, split at [/]. *)
Fixpoint split_segments (s : jsstr) (cur : jsstr) : list jsstr :=
  match s with
  | [] => [cur]
  | c :: s' => if (c =? 47)%N then cur :: split_segments s' [] else split_segments s' (cur ++ [c])
  end.

(** normalizeString with [allowAboveRoot = false]: empty and [.]
    segments are dropped, [..] removes the previous segment (and is
    dropped at the root). *)
Definition normalize_step (acc : list jsstr) (seg : jsstr) : list jsstr :=
  if bool_decide (seg = []) || bool_decide (seg = js ".") then acc
  else if bool_decide (seg = js "..") then removelast acc
  else acc ++ [seg].

Definition normalize (segs : list jsstr) : path := fold_left normalize_step segs [].

Definition is_absolute (s : jsstr) : bool :=
  match s with c :: _ => (c =? 47)%N | [] => false end.

(** [path.resolve(...args)] with the working directory [cwd]: the
    arguments are joined from the right until one is absolute (the
    working directory is the last resort), then normalised. The result
    is an absolute path, given here by its segments. *)
Definition path_resolve (cwd : jsstr) (args : list jsstr) : path :=
  let fix gather (rargs : list jsstr) : list jsstr :=
    match rargs with
    | [] => [cwd]
    | a :: rargs' =>
        if bool_decide (a = []) then gather rargs'
        else if is_absolute a then [a] else gather rargs' ++ [a]
    end in
  normalize (concat (map (fun a => split_segments a []) (gather (rev args)))).

(** What a lookup sees of an inode: a directory's entries do not
    matter to it. *)
Definition shape (o : option inode) : option inode :=
  match o with Some (IDir _ _) => Some (IDir true []) | o => o end.

(** A listing of directory [p]: the entries with the type recorded for
    each. *)
Definition entries_of (m : fs) (p : path) (names : list jsstr) : list dirent :=
  map (fun n => {| d_name := n; d_kind := kind_at m (p ++ [n]) |}) names.

(** A segment of a normalised path: not empty, no [/], not [.] or [..]. *)
Definition plain_segment (s : jsstr) : Prop :=
  s <> [] /\ ~ In 47%N s /\ s <> js "." /\ s <> js "..".

Definition plain_segmentb (s : jsstr) : bool :=
  negb (bool_decide (s = [])) && negb (existsb (N.eqb 47) s) &&
  negb (bool_decide (s = js ".")) && negb (bool_decide (s = js "..")).

(** The absolute path string of some segments: [/s1/s2/.../sn]. *)
Definition abs_path (segs : list jsstr) : jsstr := concat (map (fun s => 47%N :: s) segs).

(** Creating (or overwriting) entry [n] of directory [dir] with inode
    [i]: the name is added at the end of the directory's list when it is
    new. Nothing happens when [dir] is not a directory. *)
Definition fs_create (m : fs) (dir : path) (n : jsstr) (i : inode) : fs :=
  match m !! dir with
  | Some (IDir r names) =>
      <[dir ++ [n] := i]> (<[dir := IDir r (if bool_decide (n ∈ names) then names else names ++ [n])]> m)
  | _ => m
  end.

(** Unlinking entry [n] of directory [dir]. *)
Definition fs_remove (m : fs) (dir : path) (n : jsstr) : fs :=
  match m !! dir with
  | Some (IDir r names) =>
      delete (dir ++ [n]) (<[dir := IDir r (List.filter (fun x => negb (bool_decide (x = n))) names)]> m)
  | _ => m
  end.

(** Every name of every directory satisfies [P]. *)
Definition dir_names_all (P : jsstr -> bool) (m : fs) : Prop :=
  forall p r names, m !! p = Some (IDir r names) -> Forall (fun n => P n = true) names.

(** The same check, computed over the map. *)
Definition dir_names_allb (P : jsstr -> bool) (m : fs) : bool :=
  forallb (fun '(_, i) => match i with IDir _ names => forallb P names | _ => true end)
          (map_to_list m).

(** A directory entry's name never contains [/]. *)
Definition no_slash (n : jsstr) : bool := negb (existsb (N.eqb 47) n).

(** A chain of [k] symbolic links at the root: [/<0>] links to [/<1>],
    ..., [/<k-1>] links to [/<k>], which is an empty directory. Segment
    [<i>] is the one-unit name [i]. *)
Definition chain_seg (i : nat) : jsstr := [N.of_nat i].

Fixpoint chain_links (k : nat) : fs :=
  match k with
  | O => ∅
  | S j => <[[chain_seg j] := ILink [chain_seg (S j)]]> (chain_links j)
  end.

Definition chain_fs (k : nat) : fs := <[[chain_seg k] := IDir true []]> (chain_links k).

Example path_resolve_config :
  path_resolve (js "/tmp") [js "/home/u/site/docs/.vitepress"; js "../public/images"] =
  [js "home"; js "u"; js "site"; js "docs"; js "public"; js "images"].
Proof. reflexivity. Qed.

(** ** Lemmas *)

Lemma walk_shape m m' : (forall q, shape (m !! q) = shape (m' !! q)) ->
  forall links cur rest, walk m links cur rest = walk m' links cur rest.
Proof.
  intros Hs links. induction links as [|links IHl]; intros cur rest;
    revert cur; induction rest as [|n rest IHr]; intros cur; try done;
    cbn [walk]; specialize (Hs (cur ++ [n]));
    destruct (m !! (cur ++ [n])) as [[| | |]|], (m' !! (cur ++ [n])) as [[| | |]|];
    simpl in Hs; try congruence; try exact (IHr (cur ++ [n])).
  all: injection Hs as ->; first [done | apply IHl].
Qed.

(** Reordering (or changing) the entries of a directory does not change
    any lookup. *)
Lemma walk_dir_update m p r names r' names' links cur rest :
  m !! p = Some (IDir r names) ->
  walk (<[p := IDir r' names']> m) links cur rest = walk m links cur rest.
Proof.
  intros Hp. apply walk_shape. intros q.
  destruct (decide (p = q)) as [<-|]; [by rewrite lookup_insert_eq, Hp|].
  by rewrite lookup_insert_ne.
Qed.

Lemma kind_at_child_update m p i q n :
  kind_at (<[p := i]> m) (q ++ [n]) = kind_at m (q ++ [n]) \/ p = q ++ [n].
Proof.
  unfold kind_at. destruct (decide (p = q ++ [n])) as [|Hne]; [by right|].
  left. by rewrite lookup_insert_ne.
Qed.

Lemma readdir_ok m dir p names :
  walk m max_symlinks [] dir = Ok p -> m !! p = Some (IDir true names) ->
  readdirSync m dir = Ok (entries_of m p names).
Proof. intros Hw Hp. unfold readdirSync. by rewrite Hw, Hp. Qed.

Lemma entries_of_update m p names i :
  entries_of (<[p := i]> m) p names = entries_of m p names.
Proof.
  apply map_ext. intros n. f_equal. unfold kind_at.
  rewrite lookup_insert_ne; [done|]. intros Heq.
  apply (f_equal length) in Heq. rewrite length_app in Heq. simpl in Heq. lia.
Qed.

Lemma plain_segmentb_sound s : plain_segmentb s = true -> plain_segment s.
Proof.
  unfold plain_segmentb, plain_segment. intros H.
  apply andb_prop in H as [H H4]. apply andb_prop in H as [H H3]. apply andb_prop in H as [H1 H2].
  apply negb_true_iff in H1, H2, H3, H4.
  split_and!.
  - intros ->. vm_compute in H1. discriminate.
  - intros Hin. assert (existsb (N.eqb 47) s = true) as Hex; [|congruence].
    apply existsb_exists. exists 47%N. split; [done | apply N.eqb_refl].
  - intros ->. vm_compute in H3. discriminate.
  - intros ->. vm_compute in H4. discriminate.
Qed.

Lemma split_segments_noslash s t cur : ~ In 47%N s ->
  split_segments (s ++ t) cur = split_segments t (cur ++ s).
Proof.
  revert cur. induction s as [|c s IH]; intros cur Hs; simpl; [by rewrite app_nil_r|].
  destruct (N.eqb_spec c 47); [exfalso; apply Hs; by left|].
  rewrite IH; [by rewrite <- app_assoc | intros ?; apply Hs; by right].
Qed.

Lemma split_abs_path segs cur : Forall plain_segment segs ->
  split_segments (abs_path segs) cur = cur :: segs.
Proof.
  revert cur. induction segs as [|s segs IH]; intros cur Hp; [done|].
  apply Forall_cons in Hp as [[_ [Hs _]] Hp]. cbn [abs_path map concat].
  fold (abs_path segs). cbn [app split_segments]. simpl.
  rewrite split_segments_noslash by done. simpl. by rewrite IH.
Qed.

Lemma normalize_plain segs acc : Forall plain_segment segs ->
  fold_left normalize_step segs acc = acc ++ segs.
Proof.
  revert acc. induction segs as [|s segs IH]; intros acc Hp; simpl; [by rewrite app_nil_r|].
  apply Forall_cons in Hp as [(Hne & _ & Hdot & Hdd) Hp].
  unfold normalize_step at 2. rewrite !bool_decide_eq_false_2 by done. simpl.
  rewrite IH by done. by rewrite <- app_assoc.
Qed.

Lemma normalize_step_dotdot acc : normalize_step acc (js "..") = removelast acc.
Proof. reflexivity. Qed.

Lemma normalize_step_named acc seg :
  bool_decide (seg = []) || bool_decide (seg = js ".") || bool_decide (seg = js "..") = false ->
  normalize_step acc seg = acc ++ [seg].
Proof.
  intros H. unfold normalize_step.
  destruct (bool_decide (seg = []) || bool_decide (seg = js ".")); [done|].
  by destruct (bool_decide (seg = js "..")).
Qed.

(** [path.resolve(dir, rel)] for an absolute [dir] and a relative,
    non-empty [rel]: the working directory is not used. *)
Lemma path_resolve_abs_rel cwd dir rel :
  dir <> [] -> is_absolute dir = true -> rel <> [] -> is_absolute rel = false ->
  path_resolve cwd [dir; rel] = normalize (split_segments dir [] ++ split_segments rel []).
Proof.
  intros Hd Hda Hr Hra. unfold path_resolve. simpl.
  rewrite (bool_decide_eq_false_2 (rel = [])), Hra by done.
  rewrite (bool_decide_eq_false_2 (dir = [])), Hda by done. simpl. by rewrite app_nil_r.
Qed.

Lemma snoc_neq (p : path) n : p ++ [n] <> p.
Proof. intros Heq. apply (f_equal length) in Heq. rewrite length_app in Heq. simpl in Heq. lia. Qed.

Lemma snoc_inj (p : path) x n : p ++ [x] = p ++ [n] -> x = n.
Proof. intros Heq. apply app_inv_head in Heq. by injection Heq. Qed.

(** A lookup that succeeds never met a missing path: creating one does
    not change it. *)
Lemma walk_insert_fresh m q i : m !! q = None ->
  forall links cur rest p, walk m links cur rest = Ok p -> walk (<[q := i]> m) links cur rest = Ok p.
Proof.
  intros Hq links. induction links as [|links IHl]; intros cur rest;
    revert cur; induction rest as [|n rest IHr]; intros cur p Hw; try done;
    cbn [walk] in *; destruct (m !! (cur ++ [n])) as [j|] eqn:E; try discriminate;
    (rewrite lookup_insert_ne by (intros ->; congruence)); rewrite E;
    destruct j; try done; try exact (IHr _ _ Hw); by apply IHl.
Qed.

(** Creating entry [n] with inode [i] in the directory [p] a listing
    reads: the listing gains one entry, last, of the inode's type. *)
Lemma readdir_add_entry m dir p names n i :
  walk m max_symlinks [] dir = Ok p -> m !! p = Some (IDir true names) ->
  n ∉ names -> m !! (p ++ [n]) = None ->
  readdirSync (fs_create m p n i) dir =
  Ok (entries_of m p names ++ [{| d_name := n; d_kind := kind_of i |}]).
Proof.
  intros Hw Hp Hn Hq. unfold fs_create. rewrite Hp, bool_decide_eq_false_2 by done.
  assert (Hq' : <[p := IDir true (names ++ [n])]> m !! (p ++ [n]) = None)
    by (rewrite lookup_insert_ne; [done | apply not_eq_sym, snoc_neq]).
  rewrite (readdir_ok _ _ p (names ++ [n])).
  - f_equal. unfold entries_of. rewrite map_app. f_equal.
    + apply map_ext_in. intros x Hx%list_elem_of_In. f_equal. unfold kind_at.
      rewrite lookup_insert_ne by (intros ?%eq_sym%snoc_inj; by subst).
      by rewrite lookup_insert_ne by (apply not_eq_sym, snoc_neq).
    + cbn [map]. unfold kind_at. by rewrite lookup_insert_eq.
  - apply walk_insert_fresh; [done|]. by rewrite (walk_dir_update _ p true names).
  - rewrite lookup_insert_ne by apply snoc_neq. apply lookup_insert_eq.
Qed.

Lemma dir_names_allb_sound P m : dir_names_allb P m = true -> dir_names_all P m.
Proof.
  intros Hb p r names Hp. unfold dir_names_allb in Hb.
  pose proof (proj1 (forallb_forall _ _) Hb (p, IDir r names)) as Hd.
  simpl in Hd. apply Forall_forall. intros n Hn.
  apply (proj1 (forallb_forall _ _) (Hd ltac:(by apply list_elem_of_In, elem_of_map_to_list))).
  by apply list_elem_of_In.
Qed.

Lemma no_slash_spec n : no_slash n = true -> ~ In 47%N n.
Proof.
  unfold no_slash. intros Hn Hin. apply negb_true_iff in Hn.
  assert (existsb (N.eqb 47) n = true) as Hex; [|congruence].
  apply existsb_exists. exists 47%N. split; [done | apply N.eqb_refl].
Qed.

Lemma chain_seg_inj i j : [chain_seg i] = [chain_seg j] -> i = j.
Proof. intros [= H]. by apply Nat2N.inj. Qed.

Lemma chain_links_lookup k i :
  chain_links k !! [chain_seg i] = if i <? k then Some (ILink [chain_seg (S i)]) else None.
Proof.
  induction k as [|k IH]; cbn [chain_links]; [by rewrite lookup_empty|].
  destruct (Nat.eq_dec k i) as [->|Hne].
  - rewrite lookup_insert_eq. by rewrite (proj2 (Nat.ltb_lt i (S i))) by lia.
  - rewrite lookup_insert_ne by (intros ?%chain_seg_inj; lia). rewrite IH.
    destruct (Nat.ltb_spec i k), (Nat.ltb_spec i (S k)); done || lia.
Qed.

Lemma chain_fs_lookup k i :
  chain_fs k !! [chain_seg i] =
  if i <? k then Some (ILink [chain_seg (S i)]) else if i =? k then Some (IDir true []) else None.
Proof.
  unfold chain_fs. destruct (Nat.eq_dec k i) as [->|Hne].
  - rewrite lookup_insert_eq, Nat.ltb_irrefl, Nat.eqb_refl. done.
  - rewrite lookup_insert_ne by (intros ?%chain_seg_inj; lia). rewrite chain_links_lookup.
    destruct (Nat.ltb_spec i k); [done|]. by rewrite (proj2 (Nat.eqb_neq i k)) by lia.
Qed.

(** From link [i], the lookup reaches the directory when it may follow
    the [k - i] links left, and fails with ELOOP otherwise. *)
Lemma walk_chain k n i : i <= k ->
  walk (chain_fs k) n [] [chain_seg i] = if k - i <=? n then Ok [chain_seg k] else Err ELOOP.
Proof.
  revert i. induction n as [|n IH]; intros i Hi; cbn [walk app]; rewrite chain_fs_lookup;
    destruct (Nat.ltb_spec i k) as [Hlt|Hge].
  - by rewrite (proj2 (Nat.leb_gt (k - i) 0)) by lia.
  - replace i with k by lia. by rewrite Nat.eqb_refl, Nat.sub_diag.
  - rewrite app_nil_r, IH by lia.
    destruct (Nat.leb_spec (k - S i) n), (Nat.leb_spec (k - i) (S n)); done || lia.
  - replace i with k by lia. by rewrite Nat.eqb_refl, Nat.sub_diag.
Qed.

(** C29. [readdirSync] follows at most 40 symbolic links (MAXSYMLINKS):
    a directory reached through a chain of [k] links is read when
    [k <= 40], and the call fails with ELOOP when [k > 40]. *)
Theorem readdir_symlink_limit k :
  readdirSync (chain_fs k) [chain_seg 0] = if k <=? max_symlinks then Ok [] else Err ELOOP.
Proof.
  unfold readdirSync. rewrite walk_chain, Nat.sub_0_r by lia.
  destruct (k <=? max_symlinks); [|done].
  by rewrite chain_fs_lookup, Nat.ltb_irrefl, Nat.eqb_refl.
Qed.
