(* ===== verification/ImagesPlugin.v ===== *)
(** * The [virtual-images-list] plugin (config.mts lines 6-35)

    [virtualImagesPlugin()] returns a Vite plugin with two hooks.
    [resolveId] claims the identifier ["virtual:images"] and renames it
    ["\0virtual:images"]; [load] answers for that resolved identifier
    only, with the source text of a module whose default export is the
    list of the image URLs. [load] reads the directory [../public/images]
    next to the configuration, keeps the regular files whose name has an
    image extension, sorts them with [localeCompare] and prefixes each
    with [/images/]; if the directory cannot be read, the list is empty.

    [manifest_spec] is the specification's contract for the list, and
    [load_refines] shows that the module [load] generates decodes to a
    list meeting it. *)

From stdpp Require Import gmap.
From S2P Require Import Prelude JsString RegExp ImageFilter ArraySort Collation Json Fs.

Definition VIRTUAL_ID : jsstr := js "virtual:images".

(** ['\0' + VIRTUAL_ID] *)
Definition RESOLVED_VIRTUAL_ID : jsstr := 0%N :: VIRTUAL_ID.

Definition plugin_name : jsstr := js "virtual-images-list".

Definition images_rel : jsstr := js "../public/images".

Definition export_prefix : jsstr := js "export default ".

(** [resolveId(id) { if (id === VIRTUAL_ID) return RESOLVED_VIRTUAL_ID }] *)
Definition resolveId (id : jsstr) : option jsstr :=
  if bool_decide (id = VIRTUAL_ID) then Some RESOLVED_VIRTUAL_ID else None.

(** What [load] reads: the file system, the working directory, and the
    configuration's directory ([__dirname]). *)
Record build_env := { env_fs : fs; env_cwd : jsstr; env_dirname : jsstr }.

(** [path.resolve(__dirname, '../public/images')] *)
Definition public_dir (env : build_env) : path :=
  path_resolve (env_cwd env) [env_dirname env; images_rel].

Section Load.
Context `{UnicodeUpper} `{LocaleCompare}.

(** The chain of lines 21-25 on a directory listing:
    [.filter((d) => d.isFile()).map((d) => d.name)
     .filter((name) => /\.(png|jpe?g|gif|webp|avif|svg)$/i.test(name))
     .sort((a, b) => a.localeCompare(b))] *)
Definition image_files (ds : list dirent) : list jsstr :=
  sort_by localeCompare (List.filter image_test (map d_name (List.filter isFile ds))).

(** Lines 18-28: [let files = []; try { files = fs.readdirSync(...)...
    } catch (e) { files = [] }] *)
Definition list_files (m : fs) (dir : path) : list jsstr :=
  match readdirSync m dir with
  | Ok ds => image_files ds
  | Err _ => []
  end.

(** [load(id)], lines 15-33 *)
Definition load (env : build_env) (id : jsstr) : option jsstr :=
  if bool_decide (id = RESOLVED_VIRTUAL_ID) then
    let files := list_files (env_fs env) (public_dir env) in
    let urls := map image_url files in
    Some (export_prefix ++ json_stringify_strings urls)
  else None.

(** ** The specification's contract *)

(** The names the list is made of: regular files with an allowed
    extension, in directory order. *)
Definition image_candidates (ds : list dirent) : list jsstr :=
  List.filter has_image_ext (map d_name (List.filter isFile ds)).

(** One URL per qualifying file, [/images/<name>], the names sorted by
    [localeCompare] as [Array.prototype.sort] must sort them; no URL
    when the directory cannot be read. *)
Definition manifest_spec (m : fs) (dir : path) (urls : list jsstr) : Prop :=
  match readdirSync m dir with
  | Err _ => urls = []
  | Ok ds => exists names, urls = map image_url names /\ SortSpec localeCompare (image_candidates ds) names
  end.
End Load.

(** A Vite plugin object: its name and its two hooks (a hook returning
    [undefined] is [None]). *)
Record vite_plugin := {
  vp_name : jsstr;
  vp_resolveId : jsstr -> option jsstr;
  vp_load : jsstr -> option jsstr
}.

(** [function virtualImagesPlugin() { ...; return { name, resolveId, load } }] *)
Definition virtualImagesPlugin `{UnicodeUpper} `{LocaleCompare} (env : build_env) : vite_plugin :=
  {| vp_name := plugin_name; vp_resolveId := resolveId; vp_load := load env |}.

(** The default export of a module [export default <JSON>]. *)
Definition decode_module (src : jsstr) : option (list jsstr) :=
  if bool_decide (export_prefix `prefix_of` src)
  then json_parse_strings (drop (length export_prefix) src)
  else None.

(** JavaScript strings are sequences of 16-bit code units: every name a
    directory lists is one. *)
Definition fs_wf (m : fs) : Prop := dir_names_all units_ok m.

(** A decidable check of [fs_wf] for concrete file systems. *)
Definition fs_wfb (m : fs) : bool := dir_names_allb units_ok m.

(** ** Concrete runs *)

(** A site checked out at [/site]: the configuration in
    [/site/docs/.vitepress], the images in [/site/docs/public/images],
    and an image file elsewhere that links may point to. *)
Definition site_dir : path := [js "site"; js "docs"].
Definition images_dir : path := site_dir ++ [js "public"; js "images"].
Definition asset_logo : path := [js "site"; js "assets"; js "logo.png"].

Definition demo_fs (entries : list (jsstr * inode)) : fs :=
  list_to_map (
    [([js "site"], IDir true [js "docs"; js "assets"]);
     ([js "site"; js "assets"], IDir true [js "logo.png"]);
     (asset_logo, IFile);
     (site_dir, IDir true [js ".vitepress"; js "public"]);
     (site_dir ++ [js ".vitepress"], IDir true []);
     (site_dir ++ [js "public"], IDir true [js "images"]);
     (images_dir, IDir true (map fst entries))] ++
    map (fun '(n, i) => (images_dir ++ [n], i)) entries).

Definition demo_env (entries : list (jsstr * inode)) : build_env :=
  {| env_fs := demo_fs entries; env_cwd := js "/"; env_dirname := js "/site/docs/.vitepress" |}.

Definition demo_entries : list (jsstr * inode) :=
  [(js "b.PNG", IFile); (js "a.jpg", IFile); (js "c.txt", IFile); (js "A.svg", IFile)].

(** The images directory is a link to itself. *)
Definition loop_env : build_env :=
  {| env_fs := <[images_dir := ILink images_dir]> (demo_fs []);
     env_cwd := js "/"; env_dirname := js "/site/docs/.vitepress" |}.

Definition two_entries : list (jsstr * inode) := [(js "a.png", IFile); (js "b.png", IFile)].

(** ** Lemmas *)

Lemma readdir_names m dir ds : readdirSync m dir = Ok ds ->
  exists p names, m !! p = Some (IDir true names) /\ map d_name ds = names.
Proof.
  unfold readdirSync. destruct (walk m max_symlinks [] dir) as [p|]; [|done].
  destruct (m !! p) as [[| [] names | |]|] eqn:E; try done.
  intros [= <-]. exists p, names. split; [done|]. rewrite map_map. apply map_id.
Qed.

Lemma fs_wfb_sound m : fs_wfb m = true -> fs_wf m.
Proof. apply dir_names_allb_sound. Qed.

Lemma decode_export (t : jsstr) :
  decode_module (export_prefix ++ t) = json_parse_strings t.
Proof.
  unfold decode_module. rewrite bool_decide_eq_true_2 by (by exists t).
  by rewrite drop_app_length.
Qed.

Section LoadFacts.
Context `{UnicodeUpper} `{LocaleCompare}.

Lemma filter_image_test l : List.filter image_test l = List.filter has_image_ext l.
Proof. apply filter_ext. intros. apply image_test_allowlist. Qed.

Lemma image_files_candidates ds : image_files ds = sort_by localeCompare (image_candidates ds).
Proof. unfold image_files, image_candidates. by rewrite filter_image_test. Qed.

Lemma in_image_candidates f ds :
  In f (image_candidates ds) <->
  exists d, In d ds /\ isFile d = true /\ has_image_ext (d_name d) = true /\ f = d_name d.
Proof.
  unfold image_candidates. rewrite filter_In, in_map_iff. split.
  - intros [(d & <- & Hd) Hext]. apply filter_In in Hd as [Hd Hf]. eauto 10.
  - intros (d & Hd & Hf & Hext & ->). split; [|done]. exists d. by rewrite filter_In.
Qed.

Lemma image_candidates_app ds1 ds2 :
  image_candidates (ds1 ++ ds2) = image_candidates ds1 ++ image_candidates ds2.
Proof. unfold image_candidates. by rewrite filter_app_bool, map_app, filter_app_bool. Qed.

Lemma in_image_files f ds :
  In f (image_files ds) <-> In f (image_candidates ds).
Proof.
  rewrite image_files_candidates. destruct (sort_by_spec localeCompare (image_candidates ds)) as (Hp & _).
  split; apply Permutation_in; [done | by symmetry].
Qed.

(** A property every directory name has, every listed name has. *)
Lemma list_files_names_all P m dir f : dir_names_all P m -> In f (list_files m dir) -> P f = true.
Proof.
  intros Hwf. unfold list_files. destruct (readdirSync m dir) as [ds|] eqn:E; [|done].
  intros Hf. apply in_image_files, in_image_candidates in Hf as (d & Hd & _ & _ & ->).
  apply readdir_names in E as (p & names & Hp & Hnames).
  pose proof (Hwf p true names Hp) as Hall. rewrite Forall_forall in Hall.
  apply Hall, list_elem_of_In. rewrite <- Hnames. by apply in_map.
Qed.
End LoadFacts.

Lemma isFile_true d : isFile d = true <-> d_kind d = KFile.
Proof. unfold isFile. destruct (d_kind d); split; congruence. Qed.

Lemma image_url_units_ok f : units_ok (image_url f) = units_ok f.
Proof. unfold image_url, images_prefix. by rewrite units_ok_app, js_units_ok. Qed.

Section LoadTheorems.
Context `{UnicodeUpper} `{LocaleCompare}.

Lemma load_resolved env :
  load env RESOLVED_VIRTUAL_ID =
  Some (export_prefix ++ json_stringify_strings (map image_url (list_files (env_fs env) (public_dir env)))).
Proof. unfold load. by rewrite bool_decide_eq_true_2. Qed.

(** On a file system of JavaScript strings, the module's default export
    is the list of URLs [load] built. *)
Lemma load_decodes env : fs_wf (env_fs env) ->
  (load env RESOLVED_VIRTUAL_ID ≫= decode_module) =
  Some (map image_url (list_files (env_fs env) (public_dir env))).
Proof.
  intros Hwf. rewrite load_resolved. cbn [mbind option_bind]. rewrite decode_export.
  apply json_parse_stringify. apply Forall_forall. intros u Hu%list_elem_of_In.
  apply in_map_iff in Hu as (f & <- & Hf). rewrite image_url_units_ok. by eapply (list_files_names_all units_ok).
Qed.

(** C1. The module [load] generates for ["\0virtual:images"] has a
    default export, and that list meets the specification: one URL
    [/images/<name>] per regular file of the directory whose name has
    an allowed extension, the names in the order [Array.prototype.sort]
    must give them under [localeCompare], and no URL at all when the
    directory cannot be read. *)
Theorem load_refines env : fs_wf (env_fs env) ->
  exists urls, (load env RESOLVED_VIRTUAL_ID ≫= decode_module) = Some urls /\
               manifest_spec (env_fs env) (public_dir env) urls.
Proof.
  intros Hwf. exists (map image_url (list_files (env_fs env) (public_dir env))). split.
  - by apply load_decodes.
  - unfold manifest_spec, list_files. destruct (readdirSync _ _) as [ds|]; [|done].
    exists (image_files ds). split; [done|]. rewrite image_files_candidates. apply sort_by_spec.
    apply localeCompare_consistent.
Qed.

(** C2. When the directory can be read, a name is listed exactly when
    some entry of the directory has that name, is recorded as a regular
    file (not a directory, not a symbolic link), and has an allowed
    extension. *)
Theorem list_files_members m dir ds f : readdirSync m dir = Ok ds ->
  In f (list_files m dir) <->
  exists d, In d ds /\ d_kind d = KFile /\ has_image_ext (d_name d) = true /\ f = d_name d.
Proof.
  intros Hrd. unfold list_files. rewrite Hrd, in_image_files, in_image_candidates.
  setoid_rewrite isFile_true. done.
Qed.

(** C4. If the directory cannot be read (missing, not a directory,
    unreadable, or a loop of links), [load] does not fail: it serves a
    module whose default export is the empty array. *)
Theorem load_fail_open env e : readdirSync (env_fs env) (public_dir env) = Err e ->
  load env RESOLVED_VIRTUAL_ID = Some (js "export default []").
Proof. intros Herr. rewrite load_resolved. unfold list_files. by rewrite Herr. Qed.

Lemma image_files_perm_strict ds1 ds2 : ds1 ≡ₚ ds2 ->
  (forall a b, In a (map d_name ds1) -> In b (map d_name ds1) -> localeCompare a b = Eq -> a = b) ->
  image_files ds1 = image_files ds2.
Proof.
  intros Hp Hstrict. rewrite !image_files_candidates. apply sort_by_perm_strict.
  - apply localeCompare_consistent.
  - unfold image_candidates. apply Permutation_filter_bool, Permutation_map, Permutation_filter_bool, Hp.
  - intros a b Ha Hb. apply Hstrict.
    + apply in_image_candidates in Ha as (d & Hd & _ & _ & ->). by apply in_map.
    + apply in_image_candidates in Hb as (d & Hd & _ & _ & ->). by apply in_map.
Qed.

(** C5. The order in which the operating system lists the directory
    does not matter: storing the same entries in another order gives
    the same module, provided [localeCompare] tells the names apart. *)
Theorem load_entry_order_irrelevant env p names names' :
  walk (env_fs env) max_symlinks [] (public_dir env) = Ok p ->
  env_fs env !! p = Some (IDir true names) -> names ≡ₚ names' ->
  (forall a b, In a names -> In b names -> localeCompare a b = Eq -> a = b) ->
  load {| env_fs := <[p := IDir true names']> (env_fs env);
          env_cwd := env_cwd env; env_dirname := env_dirname env |} RESOLVED_VIRTUAL_ID =
  load env RESOLVED_VIRTUAL_ID.
Proof.
  intros Hw Hp Hperm Hstrict. rewrite !load_resolved. do 4 f_equal.
  unfold list_files, public_dir. cbn [env_fs env_cwd env_dirname]. fold (public_dir env).
  rewrite (readdir_ok _ _ p names Hw Hp).
  rewrite (readdir_ok _ _ p names'); [| by rewrite (walk_dir_update _ p true names) | apply lookup_insert_eq].
  rewrite entries_of_update. apply image_files_perm_strict.
  - unfold entries_of. apply Permutation_map. by symmetry.
  - unfold entries_of. rewrite map_map, map_id. intros a b Ha Hb. apply Hstrict; by rewrite Hperm.
Qed.

(** C9. [load] answers for the resolved identifier and for no other
    identifier, not even the unresolved ["virtual:images"]. *)
Theorem load_only_resolved env id :
  is_Some (load env id) <-> id = RESOLVED_VIRTUAL_ID.
Proof.
  unfold load. case_bool_decide; split; intros; [done | eauto | by destruct H1 | done].
Qed.

(** C10. A directory entry that is not a regular file, or whose name
    has no allowed extension (a [.bmp], a [.txt], a [.png] directory),
    does not change the list, wherever the directory lists it. *)
Theorem image_files_ignore_other ds1 d ds2 :
  isFile d = false \/ has_image_ext (d_name d) = false ->
  image_files (ds1 ++ d :: ds2) = image_files (ds1 ++ ds2).
Proof.
  intros Hd. rewrite !image_files_candidates. f_equal. unfold image_candidates.
  rewrite !filter_app_bool, !map_app, !filter_app_bool. f_equal. simpl.
  destruct Hd as [Hd|Hd]; rewrite ?Hd; [done|]. destruct (isFile d); simpl; [|done]. by rewrite Hd.
Qed.

(** C18. A file with an allowed extension created in the directory is
    listed by the next [load] (the specification's "any file placed
    there with a recognized extension is automatically included in the
    next build's manifest"): the list gains that name and nothing
    else. *)
Theorem list_files_add_image m dir p names n :
  walk m max_symlinks [] dir = Ok p -> m !! p = Some (IDir true names) ->
  n ∉ names -> m !! (p ++ [n]) = None -> has_image_ext n = true ->
  list_files (fs_create m p n IFile) dir ≡ₚ n :: list_files m dir.
Proof.
  intros Hw Hp Hn Hq Hext. unfold list_files.
  rewrite (readdir_add_entry m dir p names n IFile), (readdir_ok m dir p names) by done.
  rewrite !image_files_candidates, image_candidates_app, !(sort_by_perm localeCompare).
  unfold image_candidates at 2. cbn [List.filter map isFile d_name d_kind kind_of]. rewrite Hext. symmetry. apply Permutation_cons_append.
Qed.

(** C19. Creating anything else in the directory (a file without an
    allowed extension such as [.bmp], a directory, a link, a FIFO)
    leaves the list exactly as it was. *)
Theorem list_files_add_other m dir p names n i :
  walk m max_symlinks [] dir = Ok p -> m !! p = Some (IDir true names) ->
  n ∉ names -> m !! (p ++ [n]) = None -> kind_of i <> KFile \/ has_image_ext n = false ->
  list_files (fs_create m p n i) dir = list_files m dir.
Proof.
  intros Hw Hp Hn Hq Hother. unfold list_files.
  rewrite (readdir_add_entry m dir p names n i), (readdir_ok m dir p names) by done.
  rewrite !image_files_candidates, image_candidates_app. unfold image_candidates at 2.
  destruct Hother as [Hk|Hext]; destruct (kind_of i); cbn [List.filter map isFile d_name d_kind];
    rewrite ?Hext; cbn [List.filter]; rewrite ?app_nil_r; done.
Qed.

(** C20. When the directory lists each name once, so does the module:
    no URL appears twice, and there are no more URLs than entries. *)
Theorem load_urls_nodup env ds urls :
  fs_wf (env_fs env) -> readdirSync (env_fs env) (public_dir env) = Ok ds -> NoDup (map d_name ds) ->
  (load env RESOLVED_VIRTUAL_ID ≫= decode_module) = Some urls ->
  NoDup urls /\ length urls <= length ds.
Proof.
  intros Hwf Hrd Hnd Hl. rewrite load_decodes in Hl by done. injection Hl as <-.
  unfold list_files. rewrite Hrd, image_files_candidates, length_map. split.
  - apply NoDup_map_inj; [apply app_inv_head|].
    rewrite (sort_by_perm localeCompare). apply NoDup_filter_bool, NoDup_map_filter, Hnd.
  - rewrite (Permutation_length (sort_by_perm localeCompare _)). unfold image_candidates.
    etrans; [apply filter_length_le|]. rewrite length_map. apply filter_length_le.
Qed.

(** C27. The module has the type its consumers rely on ([declare module
    'virtual:images' { const urls: string[]; export default urls }]):
    its default export decodes to an array of strings, each the URL
    [/images/<name>] of a single path segment [name] made of 16-bit code
    units. *)
Theorem load_export_type env : fs_wf (env_fs env) -> dir_names_all no_slash (env_fs env) ->
  exists urls, (load env RESOLVED_VIRTUAL_ID ≫= decode_module) = Some urls /\
    Forall (fun u => exists f, u = image_url f /\ ~ In 47%N f /\ units_ok f = true) urls.
Proof.
  intros Hwf Hns. eexists. split; [by apply load_decodes|].
  apply Forall_forall. intros u (f & <- & Hf)%list_elem_of_In%in_map_iff. exists f. split_and!; [done | |].
  - apply no_slash_spec. by eapply (list_files_names_all no_slash).
  - by eapply (list_files_names_all units_ok).
Qed.
End LoadTheorems.

Lemma has_image_ext_lower name : has_image_ext (map ascii_lower name) = has_image_ext name.
Proof.
  unfold has_image_ext. rewrite (map_as_fmap ascii_lower name), (lower_after_map ascii_lower) by apply ascii_lower_lower.
  done.
Qed.

(** C21. Under the root collation, two image files whose names differ
    only in the case of ASCII letters are listed lower case first,
    whichever order the directory gives them in: the tie-break the
    specification leaves to the collation is deterministic. *)
Theorem case_variants_lower_first `{UnicodeUpper} (s : jsstr) :
  has_image_ext s = true -> map ascii_lower s <> s ->
  image_files [{| d_name := s; d_kind := KFile |}; {| d_name := map ascii_lower s; d_kind := KFile |}] =
    [map ascii_lower s; s] /\
  image_files [{| d_name := map ascii_lower s; d_kind := KFile |}; {| d_name := s; d_kind := KFile |}] =
    [map ascii_lower s; s].
Proof.
  intros Hext Hne. rewrite !image_files_candidates. unfold image_candidates.
  cbn [List.filter map isFile d_name d_kind]. rewrite has_image_ext_lower, Hext.
  unfold sort_by. cbn [fold_left sort_insert]. cbn [localeCompare root_locale].
  rewrite (cmp_opp root_compare (map ascii_lower s) s), root_compare_lower_first by done. done.
Qed.

(** C11. [resolveId] claims the identifier ["virtual:images"], renames
    it ["\0virtual:images"], and claims no other identifier. *)
Theorem resolveId_spec id r :
  resolveId id = Some r <-> id = VIRTUAL_ID /\ r = RESOLVED_VIRTUAL_ID.
Proof.
  unfold resolveId. case_bool_decide as Hid; split.
  - intros [= <-]. done.
  - intros [_ ->]. done.
  - done.
  - intros [? _]. done.
Qed.

(** C17. The directory [load] reads is [public/images] beside the
    configuration's directory: for a configuration in [/a/b/.vitepress]
    it is [/a/b/public/images], whatever the working directory. *)
Theorem public_dir_sibling env segs :
  segs <> [] -> Forall plain_segment segs -> env_dirname env = abs_path segs ->
  public_dir env = removelast segs ++ [js "public"; js "images"].
Proof.
  intros Hne Hp Hd. unfold public_dir. rewrite Hd.
  destruct segs as [|s segs']; [done|].
  assert (Habs : abs_path (s :: segs') = 47%N :: s ++ abs_path segs') by reflexivity.
  rewrite path_resolve_abs_rel;
    [| rewrite Habs; discriminate | by rewrite Habs | vm_compute; discriminate | reflexivity].
  rewrite split_abs_path by done.
  assert (Hrel : split_segments images_rel [] = [js ".."; js "public"; js "images"]) by reflexivity.
  rewrite Hrel. unfold normalize. rewrite fold_left_app.
  change (fold_left normalize_step ([] :: s :: segs') []) with (fold_left normalize_step (s :: segs') []).
  rewrite (normalize_plain (s :: segs') []) by done. cbn [fold_left app].
  rewrite normalize_step_dotdot, !normalize_step_named by reflexivity.
  by rewrite <- app_assoc.
Qed.

(** C8. The source text [load] emits, [export default ${JSON.stringify(urls)}],
    has exactly [urls] as its default export. *)
Theorem module_roundtrip (urls : list jsstr) :
  Forall (fun u => units_ok u = true) urls ->
  decode_module (export_prefix ++ json_stringify_strings urls) = Some urls.
Proof. intros Hok. rewrite decode_export. by apply json_parse_stringify. Qed.

(** ** Witnesses *)

Lemma load_refines_witness :
  fs_wf (env_fs (demo_env demo_entries)) /\
  exists urls, (load (demo_env demo_entries) RESOLVED_VIRTUAL_ID ≫= decode_module) = Some urls /\
               manifest_spec (env_fs (demo_env demo_entries)) (public_dir (demo_env demo_entries)) urls.
Proof.
  assert (Hwf : fs_wf (env_fs (demo_env demo_entries))) by (apply fs_wfb_sound; vm_compute; reflexivity).
  split; [exact Hwf | apply load_refines, Hwf].
Defined.

Lemma list_files_members_witness :
  readdirSync (demo_fs demo_entries) images_dir =
    Ok (entries_of (demo_fs demo_entries) images_dir (map fst demo_entries)) /\
  (In (js "a.jpg") (list_files (demo_fs demo_entries) images_dir) <->
   exists d, In d (entries_of (demo_fs demo_entries) images_dir (map fst demo_entries)) /\
             d_kind d = KFile /\ has_image_ext (d_name d) = true /\ js "a.jpg" = d_name d).
Proof.
  assert (Hrd : readdirSync (demo_fs demo_entries) images_dir =
                Ok (entries_of (demo_fs demo_entries) images_dir (map fst demo_entries)))
    by (vm_compute; reflexivity).
  split; [exact Hrd | apply list_files_members, Hrd].
Defined.

Lemma load_fail_open_witness :
  readdirSync (env_fs loop_env) (public_dir loop_env) = Err ELOOP /\
  load loop_env RESOLVED_VIRTUAL_ID = Some (js "export default []").
Proof.
  assert (Herr : readdirSync (env_fs loop_env) (public_dir loop_env) = Err ELOOP)
    by (vm_compute; reflexivity).
  split; [exact Herr | apply (load_fail_open _ ELOOP Herr)].
Defined.

Lemma load_entry_order_irrelevant_witness :
  walk (env_fs (demo_env two_entries)) max_symlinks [] (public_dir (demo_env two_entries)) = Ok images_dir /\
  env_fs (demo_env two_entries) !! images_dir = Some (IDir true [js "a.png"; js "b.png"]) /\
  [js "a.png"; js "b.png"] ≡ₚ [js "b.png"; js "a.png"] /\
  (forall a b, In a [js "a.png"; js "b.png"] -> In b [js "a.png"; js "b.png"] ->
               localeCompare a b = Eq -> a = b) /\
  load {| env_fs := <[images_dir := IDir true [js "b.png"; js "a.png"]]> (env_fs (demo_env two_entries));
          env_cwd := env_cwd (demo_env two_entries);
          env_dirname := env_dirname (demo_env two_entries) |} RESOLVED_VIRTUAL_ID =
  load (demo_env two_entries) RESOLVED_VIRTUAL_ID.
Proof.
  assert (Hw : walk (env_fs (demo_env two_entries)) max_symlinks [] (public_dir (demo_env two_entries))
               = Ok images_dir) by (vm_compute; reflexivity).
  assert (Hp : env_fs (demo_env two_entries) !! images_dir = Some (IDir true [js "a.png"; js "b.png"]))
    by (vm_compute; reflexivity).
  assert (Hperm : [js "a.png"; js "b.png"] ≡ₚ [js "b.png"; js "a.png"]) by apply perm_swap.
  assert (Hs : forall a b, In a [js "a.png"; js "b.png"] -> In b [js "a.png"; js "b.png"] ->
                           localeCompare a b = Eq -> a = b)
    by (intros a b [<-|[<-|[]]] [<-|[<-|[]]]; vm_compute; congruence).
  split_and!; [exact Hw | exact Hp | exact Hperm | exact Hs |].
  apply (load_entry_order_irrelevant _ images_dir _ _ Hw Hp Hperm Hs).
Defined.

Lemma image_files_ignore_other_witness :
  (isFile {| d_name := js "c.bmp"; d_kind := KFile |} = false \/
   has_image_ext (d_name {| d_name := js "c.bmp"; d_kind := KFile |}) = false) /\
  image_files ([{| d_name := js "b.png"; d_kind := KFile |}] ++
               {| d_name := js "c.bmp"; d_kind := KFile |} :: [{| d_name := js "a.gif"; d_kind := KFile |}]) =
  image_files ([{| d_name := js "b.png"; d_kind := KFile |}] ++ [{| d_name := js "a.gif"; d_kind := KFile |}]).
Proof.
  assert (Hd : isFile {| d_name := js "c.bmp"; d_kind := KFile |} = false \/
               has_image_ext (d_name {| d_name := js "c.bmp"; d_kind := KFile |}) = false)
    by (right; vm_compute; reflexivity).
  split; [exact Hd | apply (image_files_ignore_other _ _ _ Hd)].
Defined.

Lemma module_roundtrip_witness :
  Forall (fun u => units_ok u = true) [js "/images/a.png"; js "/images/b.gif"] /\
  decode_module (export_prefix ++ json_stringify_strings [js "/images/a.png"; js "/images/b.gif"]) =
  Some [js "/images/a.png"; js "/images/b.gif"].
Proof.
  assert (Hok : Forall (fun u => units_ok u = true) [js "/images/a.png"; js "/images/b.gif"])
    by (repeat constructor).
  split; [exact Hok | apply (module_roundtrip _ Hok)].
Defined.

Lemma public_dir_sibling_witness :
  [js "site"; js "docs"; js ".vitepress"] <> [] /\
  Forall plain_segment [js "site"; js "docs"; js ".vitepress"] /\
  env_dirname (demo_env []) = abs_path [js "site"; js "docs"; js ".vitepress"] /\
  public_dir (demo_env []) = removelast [js "site"; js "docs"; js ".vitepress"] ++ [js "public"; js "images"].
Proof.
  assert (Hne : [js "site"; js "docs"; js ".vitepress"] <> []) by discriminate.
  assert (Hp : Forall plain_segment [js "site"; js "docs"; js ".vitepress"])
    by (repeat constructor; apply plain_segmentb_sound; reflexivity).
  assert (Hd : env_dirname (demo_env []) = abs_path [js "site"; js "docs"; js ".vitepress"])
    by reflexivity.
  split_and!; [exact Hne | exact Hp | exact Hd | apply (public_dir_sibling _ _ Hne Hp Hd)].
Defined.

Lemma list_files_add_image_witness :
  walk (demo_fs demo_entries) max_symlinks [] images_dir = Ok images_dir /\
  demo_fs demo_entries !! images_dir = Some (IDir true (map fst demo_entries)) /\
  (js "d.webp" ∉ map fst demo_entries) /\ demo_fs demo_entries !! (images_dir ++ [js "d.webp"]) = None /\
  has_image_ext (js "d.webp") = true /\
  list_files (fs_create (demo_fs demo_entries) images_dir (js "d.webp") IFile) images_dir ≡ₚ js "d.webp" :: list_files (demo_fs demo_entries) images_dir.
Proof.
  assert (Hw : walk (demo_fs demo_entries) max_symlinks [] images_dir = Ok images_dir) by (vm_compute; reflexivity).
  assert (Hp : demo_fs demo_entries !! images_dir = Some (IDir true (map fst demo_entries)))
    by (vm_compute; reflexivity).
  assert (Hn : js "d.webp" ∉ map fst demo_entries) by (apply (bool_decide_unpack _); vm_compute; reflexivity).
  assert (Hq : demo_fs demo_entries !! (images_dir ++ [js "d.webp"]) = None) by (vm_compute; reflexivity).
  assert (Hext : has_image_ext (js "d.webp") = true) by (vm_compute; reflexivity).
  split_and!; [exact Hw | exact Hp | exact Hn | exact Hq | exact Hext |].
  apply (list_files_add_image _ _ _ _ _ Hw Hp Hn Hq Hext).
Defined.

Lemma list_files_add_other_witness :
  walk (demo_fs demo_entries) max_symlinks [] images_dir = Ok images_dir /\
  demo_fs demo_entries !! images_dir = Some (IDir true (map fst demo_entries)) /\
  (js "e.bmp" ∉ map fst demo_entries) /\ demo_fs demo_entries !! (images_dir ++ [js "e.bmp"]) = None /\
  (kind_of IFile <> KFile \/ has_image_ext (js "e.bmp") = false) /\
  list_files (fs_create (demo_fs demo_entries) images_dir (js "e.bmp") IFile) images_dir = list_files (demo_fs demo_entries) images_dir.
Proof.
  assert (Hw : walk (demo_fs demo_entries) max_symlinks [] images_dir = Ok images_dir) by (vm_compute; reflexivity).
  assert (Hp : demo_fs demo_entries !! images_dir = Some (IDir true (map fst demo_entries)))
    by (vm_compute; reflexivity).
  assert (Hn : js "e.bmp" ∉ map fst demo_entries) by (apply (bool_decide_unpack _); vm_compute; reflexivity).
  assert (Hq : demo_fs demo_entries !! (images_dir ++ [js "e.bmp"]) = None) by (vm_compute; reflexivity).
  assert (Hother : kind_of IFile <> KFile \/ has_image_ext (js "e.bmp") = false)
    by (right; vm_compute; reflexivity).
  split_and!; [exact Hw | exact Hp | exact Hn | exact Hq | exact Hother |].
  apply (list_files_add_other _ _ _ _ _ _ Hw Hp Hn Hq Hother).
Defined.

Lemma load_urls_nodup_witness :
  fs_wf (env_fs (demo_env demo_entries)) /\
  readdirSync (env_fs (demo_env demo_entries)) (public_dir (demo_env demo_entries)) =
    Ok (entries_of (demo_fs demo_entries) images_dir (map fst demo_entries)) /\
  NoDup (map d_name (entries_of (demo_fs demo_entries) images_dir (map fst demo_entries))) /\
  (load (demo_env demo_entries) RESOLVED_VIRTUAL_ID ≫= decode_module) =
    Some [js "/images/a.jpg"; js "/images/A.svg"; js "/images/b.PNG"] /\
  (NoDup [js "/images/a.jpg"; js "/images/A.svg"; js "/images/b.PNG"] /\
   length [js "/images/a.jpg"; js "/images/A.svg"; js "/images/b.PNG"] <=
   length (entries_of (demo_fs demo_entries) images_dir (map fst demo_entries))).
Proof.
  assert (Hwf : fs_wf (env_fs (demo_env demo_entries))) by (apply fs_wfb_sound; vm_compute; reflexivity).
  assert (Hrd : readdirSync (env_fs (demo_env demo_entries)) (public_dir (demo_env demo_entries)) =
                Ok (entries_of (demo_fs demo_entries) images_dir (map fst demo_entries)))
    by (vm_compute; reflexivity).
  assert (Hnd : NoDup (map d_name (entries_of (demo_fs demo_entries) images_dir (map fst demo_entries))))
    by (apply (bool_decide_unpack _); vm_compute; reflexivity).
  assert (Hl : (load (demo_env demo_entries) RESOLVED_VIRTUAL_ID ≫= decode_module) =
               Some [js "/images/a.jpg"; js "/images/A.svg"; js "/images/b.PNG"])
    by (vm_compute; reflexivity).
  refine (conj Hwf (conj Hrd (conj Hnd (conj Hl _)))).
  apply (load_urls_nodup _ _ _ Hwf Hrd Hnd Hl).
Defined.

Lemma case_variants_lower_first_witness :
  has_image_ext (js "B.PNG") = true /\ map ascii_lower (js "B.PNG") <> js "B.PNG" /\
  image_files [{| d_name := js "B.PNG"; d_kind := KFile |};
               {| d_name := map ascii_lower (js "B.PNG"); d_kind := KFile |}] =
    [map ascii_lower (js "B.PNG"); js "B.PNG"] /\
  image_files [{| d_name := map ascii_lower (js "B.PNG"); d_kind := KFile |};
               {| d_name := js "B.PNG"; d_kind := KFile |}] =
    [map ascii_lower (js "B.PNG"); js "B.PNG"].
Proof.
  assert (Hext : has_image_ext (js "B.PNG") = true) by (vm_compute; reflexivity).
  assert (Hne : map ascii_lower (js "B.PNG") <> js "B.PNG") by (vm_compute; discriminate).
  refine (conj Hext (conj Hne _)). apply (case_variants_lower_first _ Hext Hne).
Defined.

Lemma load_export_type_witness :
  fs_wf (env_fs (demo_env demo_entries)) /\ dir_names_all no_slash (env_fs (demo_env demo_entries)) /\
  exists urls, (load (demo_env demo_entries) RESOLVED_VIRTUAL_ID ≫= decode_module) = Some urls /\
    Forall (fun u => exists f, u = image_url f /\ ~ In 47%N f /\ units_ok f = true) urls.
Proof.
  assert (Hwf : fs_wf (env_fs (demo_env demo_entries))) by (apply fs_wfb_sound; vm_compute; reflexivity).
  assert (Hns : dir_names_all no_slash (env_fs (demo_env demo_entries)))
    by (apply dir_names_allb_sound; vm_compute; reflexivity).
  refine (conj Hwf (conj Hns _)). apply (load_export_type _ Hwf Hns).
Defined.
