(* ===== verification/V8Plugin.v ===== *)
(** * The plugin as Node.js runs it

    [ImagesPlugin] models the sort of config.mts line 25 by its
    contract, the stable sort [sort_by]. Node.js runs
    [Array.prototype.sort] as V8's TimSort ([timsort], [V8TimSort]).
    [image_files_v8], [list_files_v8] and [load_v8] are lines 15-33 with
    that engine in place of [sort_by]. They produce the same module as
    [load], for every directory of at most [kSmiMaxValue] entries: V8's
    arrays are [FixedArray]s, whose maximal length is far below that
    bound. So every theorem about [load] holds of the module Node.js
    generates. *)

From S2P Require Import Prelude JsString ImageFilter ArraySort V8Sort V8Gallop V8TimSort Collation Json Fs ImagesPlugin.

Section LoadV8.
Context `{UnicodeUpper} `{LocaleCompare}.

(** Lines 21-25, sorted by V8's [ArrayTimSortImpl]. *)
Definition image_files_v8 (ds : list dirent) : list jsstr :=
  timsort localeCompare (List.filter image_test (map d_name (List.filter isFile ds))).

(** Lines 18-28. *)
Definition list_files_v8 (m : fs) (dir : path) : list jsstr :=
  match readdirSync m dir with
  | Ok ds => image_files_v8 ds
  | Err _ => []
  end.

(** Lines 15-33. *)
Definition load_v8 (env : build_env) (id : jsstr) : option jsstr :=
  if bool_decide (id = RESOLVED_VIRTUAL_ID) then
    let files := list_files_v8 (env_fs env) (public_dir env) in
    let urls := map image_url files in
    Some (export_prefix ++ json_stringify_strings urls)
  else None.
End LoadV8.

(** ** Theorems *)

Section LoadV8Theorems.
Context `{UnicodeUpper} `{LocaleCompare}.

(** C23. The module Node.js generates, with V8's TimSort running the
    sort of line 25, is the module [load] describes, for every build
    environment whose images directory has at most [kSmiMaxValue]
    entries (or cannot be read): the engine's sort composes with the
    directory read, the filters and the serialisation without changing
    the result, so the theorems about [load] hold of it. *)
Theorem load_v8_load env id :
  (forall ds, readdirSync (env_fs env) (public_dir env) = Ok ds -> (Z.of_nat (length ds) <= smi_max)%Z) ->
  load_v8 env id = load env id.
Proof.
  intros Hds. unfold load_v8, load. case_bool_decide; [|done]. do 3 f_equal.
  unfold list_files_v8, list_files. destruct (readdirSync _ _) as [ds|] eqn:E; [|done].
  unfold image_files_v8, image_files. f_equal. apply timsort_correct; [apply localeCompare_consistent|].
  specialize (Hds ds eq_refl).
  pose proof (filter_length_le image_test (map d_name (List.filter isFile ds))).
  pose proof (filter_length_le isFile ds). rewrite length_map in *. lia.
Qed.
End LoadV8Theorems.

(** ** Witnesses *)

Lemma load_v8_load_witness :
  (forall ds, readdirSync (env_fs (demo_env demo_entries)) (public_dir (demo_env demo_entries)) = Ok ds ->
     (Z.of_nat (length ds) <= smi_max)%Z) /\
  load_v8 (demo_env demo_entries) RESOLVED_VIRTUAL_ID = load (demo_env demo_entries) RESOLVED_VIRTUAL_ID.
Proof.
  assert (Hds : forall ds, readdirSync (env_fs (demo_env demo_entries)) (public_dir (demo_env demo_entries)) = Ok ds ->
     (Z.of_nat (length ds) <= smi_max)%Z).
  { intros ds Hrd. vm_compute in Hrd. injection Hrd as <-. unfold smi_max. vm_compute. discriminate. }
  split; [exact Hds | exact (load_v8_load (demo_env demo_entries) RESOLVED_VIRTUAL_ID Hds)].
Defined.
