(* ===== verification/ViteHost.v ===== *)
(** * How Vite serves a module through its plugins

    Vite's plugin container asks the plugins' [resolveId] hooks in order
    and takes the first answer (an identifier no plugin claims is a file
    path), then asks the [load] hooks in order for the resolved
    identifier (falling back to reading the file). An identifier that
    starts with ["\0"] is virtual: by Vite's convention it belongs to the
    plugin that produced it and the other plugins leave it alone.

    [import_source] is that pipeline; [VirtualRespecting] is the
    convention, stated as the interface other plugins satisfy; the
    theorem [import_virtual_images] shows that under it the module
    ["virtual:images"] is the one the images plugin generates, wherever
    the plugin sits in the list. Vite itself is a library the program
    only calls: this file models its contract, not its code. *)

From S2P Require Import Prelude JsString ArraySort Collation Fs ImagesPlugin.

Fixpoint resolve_hooks (ps : list vite_plugin) (id : jsstr) : option jsstr :=
  match ps with
  | [] => None
  | p :: ps' => vp_resolveId p id ||> resolve_hooks ps' id
  end.

Fixpoint load_hooks (ps : list vite_plugin) (id : jsstr) : option jsstr :=
  match ps with
  | [] => None
  | p :: ps' => vp_load p id ||> load_hooks ps' id
  end.

(** The source of the module imported as [id]: resolve, then load, then
    fall back to the file system ([read_file]). *)
Definition import_source (ps : list vite_plugin) (read_file : jsstr -> option jsstr)
    (id : jsstr) : option jsstr :=
  let rid := default id (resolve_hooks ps id) in
  load_hooks ps rid ||> read_file rid.

(** A plugin respects the images plugin's identifiers when it neither
    resolves ["virtual:images"] nor loads ["\0virtual:images"]. *)
Class VirtualRespecting (p : vite_plugin) := {
  respects_resolve : vp_resolveId p VIRTUAL_ID = None;
  respects_load : vp_load p RESOLVED_VIRTUAL_ID = None
}.

Lemma resolve_hooks_app ps qs id :
  resolve_hooks (ps ++ qs) id = resolve_hooks ps id ||> resolve_hooks qs id.
Proof. induction ps as [|p ps IH]; simpl; [done|]. rewrite IH. by destruct (vp_resolveId p id). Qed.

Lemma load_hooks_app ps qs id :
  load_hooks (ps ++ qs) id = load_hooks ps id ||> load_hooks qs id.
Proof. induction ps as [|p ps IH]; simpl; [done|]. rewrite IH. by destruct (vp_load p id). Qed.

Lemma hooks_respecting_None ps :
  Forall (fun p => VirtualRespecting p) ps ->
  resolve_hooks ps VIRTUAL_ID = None /\ load_hooks ps RESOLVED_VIRTUAL_ID = None.
Proof.
  induction 1 as [|p ps Hp _ [IHr IHl]]; [done|]. simpl.
  by rewrite (@respects_resolve p Hp), (@respects_load p Hp), IHr, IHl.
Qed.

Section Host.
Context `{UnicodeUpper} `{LocaleCompare}.

(** Importing ["virtual:images"] gives the source text the images
    plugin's [load] produces for the resolved identifier, whatever
    plugins come after it and whatever plugins before it, as long as
    those respect its identifiers; the file system is not consulted. *)
Lemma import_virtual_images env pre post read_file :
  Forall (fun p => VirtualRespecting p) pre ->
  import_source (pre ++ virtualImagesPlugin env :: post) read_file VIRTUAL_ID =
  load env RESOLVED_VIRTUAL_ID.
Proof.
  intros Hpre. destruct (hooks_respecting_None pre Hpre) as [Hr Hl].
  unfold import_source. rewrite resolve_hooks_app, Hr. simpl.
  rewrite load_hooks_app, Hl. simpl. by rewrite load_resolved.
Qed.
End Host.
