(* ===== verification/SiteConfig.v ===== *)
(** * The site configuration (config.mts lines 37-66)

    [defineConfig] returns its argument; the configuration sets the
    title and description, leaves [base] unset (the line is commented
    out), registers the images plugin as the only Vite plugin, and
    declares an empty navigation, one empty sidebar group and no social
    links. It sets no [markdown] options.

    VitePress serves its own plugins before the configuration's Vite
    plugins; [site_serves_virtual_images] shows that the site's pages
    importing ["virtual:images"] get the images plugin's module. The
    file also models what VitePress does with the configuration that
    the list's consumers depend on: the resolved [base]
    ([resolved_base]) and the client helper [withBase] (with
    [joinPath] and [EXTERNAL_URL_RE]), which the comment on line 30
    says the URLs are to be wrapped with. *)

From S2P Require Import Prelude JsString ArraySort Collation Fs ImagesPlugin ViteHost.

Record nav_item := { item_text : jsstr; item_link : jsstr }.
Record sidebar_group := { group_text : jsstr; group_items : list nav_item }.
Record social_link := { social_icon : jsstr; social_url : jsstr }.

Record theme_config := {
  nav : list nav_item;
  sidebar : list sidebar_group;
  socialLinks : list social_link
}.

(** [markdown: { image: { lazyLoading } }] *)
Record markdown_image := { lazyLoading : bool }.
Record markdown_options := { md_image : option markdown_image }.

Record user_config := {
  cfg_title : jsstr;
  cfg_description : jsstr;
  cfg_base : option jsstr;
  cfg_markdown : option markdown_options;
  cfg_vite_plugins : list vite_plugin;
  cfg_themeConfig : theme_config
}.

(** [defineConfig(config)] *)
Definition defineConfig (c : user_config) : user_config := c.

Section Site.
Context `{UnicodeUpper} `{LocaleCompare}.

(** [export default defineConfig({ ... })] *)
Definition site_config (env : build_env) : user_config :=
  defineConfig {|
    cfg_title := js "Beauty";
    cfg_description := js "An improvement in the quality of life";
    cfg_base := None;
    cfg_markdown := None;
    cfg_vite_plugins := [virtualImagesPlugin env];
    cfg_themeConfig := {|
      nav := [];
      sidebar := [{| group_text := js "Examples"; group_items := [] |}];
      socialLinks := []
    |}
  |}.
End Site.

(** A plugin that answers no hook, standing for VitePress's own plugins
    in the concrete run. *)
Definition silent_plugin : vite_plugin :=
  {| vp_name := js "vitepress"; vp_resolveId := fun _ => None; vp_load := fun _ => None |}.

(** VitePress's resolveSiteData: [base: userConfig.base ?
    userConfig.base.replace(/([^/])$/, '$1/') : '/'], a configured base
    with a slash added at its end, or ["/"]. *)
Definition resolved_base (c : user_config) : jsstr :=
  match cfg_base c with
  | Some b => if bool_decide (b = []) then js "/"
              else if bool_decide (last b = Some 47%N) then b else b ++ [47%N]
  | None => js "/"
  end.

(** ** VitePress's client helpers for URLs *)

Definition is_ascii_letter (c : N) : bool := ((97 <=? ascii_lower c) && (ascii_lower c <=? 122))%N.

(** [/^[a-z]+:/i]: one or more letters, then a colon. *)
Fixpoint scheme_prefix (seen : bool) (s : jsstr) : bool :=
  match s with
  | [] => false
  | c :: s' => if is_ascii_letter c then scheme_prefix true s' else seen && (c =? 58)%N
  end.

(** [EXTERNAL_URL_RE = /^(?:[a-z]+:|\/\/)/i] *)
Definition is_external (p : jsstr) : bool :=
  scheme_prefix false p || bool_decide (js "//" `prefix_of` p).

(** [s.replace(/\/+/g, '/')]: every run of slashes becomes one. *)
Fixpoint collapse_slashes (prev : bool) (s : jsstr) : jsstr :=
  match s with
  | [] => []
  | c :: s' =>
      if (c =? 47)%N then (if prev then collapse_slashes true s' else c :: collapse_slashes true s')
      else c :: collapse_slashes false s'
  end.

(** [joinPath(base, path)]: [`${base}${path}`.replace(/\/+/g, '/')] *)
Definition joinPath (base p : jsstr) : jsstr := collapse_slashes false (base ++ p).

(** [withBase(path)]: [EXTERNAL_URL_RE.test(path) || !path.startsWith('/')
    ? path : joinPath(site.base, path)] *)
Definition withBase (base p : jsstr) : jsstr :=
  if is_external p || negb (bool_decide ([47%N] `prefix_of` p)) then p else joinPath base p.

(** The plugins Vite runs for the site: VitePress's own, then the
    configuration's. *)
Definition site_plugins (vitepress_plugins : list vite_plugin) (c : user_config) : list vite_plugin :=
  vitepress_plugins ++ cfg_vite_plugins c.

(** ** Lemmas *)

Lemma collapse_noslash b f : ~ In 47%N f -> collapse_slashes b f = f.
Proof.
  revert b. induction f as [|c f IH]; intros b Hf; [done|]. cbn [collapse_slashes].
  destruct (N.eqb_spec c 47) as [->|Hc]; [exfalso; apply Hf; by left|].
  f_equal. apply IH. intros ?. apply Hf. by right.
Qed.

Lemma is_external_image_url f : is_external (image_url f) = false.
Proof. unfold is_external, image_url, images_prefix. vm_compute. reflexivity. Qed.

Lemma withBase_image_url base f : ~ In 47%N f ->
  withBase base (image_url f) = joinPath base (image_url f).
Proof.
  intros Hf. unfold withBase. rewrite is_external_image_url.
  rewrite bool_decide_eq_true_2 by (by exists (js "images/" ++ f)). done.
Qed.

Section SiteTheorems.
Context `{UnicodeUpper} `{LocaleCompare}.

(** C12. A page of the site that imports ["virtual:images"] receives
    the module the images plugin generates from the site's own
    [public/images] directory, given that VitePress's plugins leave the
    virtual identifier alone. *)
Theorem site_serves_virtual_images env vitepress_plugins read_file :
  Forall (fun p => VirtualRespecting p) vitepress_plugins ->
  import_source (site_plugins vitepress_plugins (site_config env)) read_file VIRTUAL_ID =
  load env RESOLVED_VIRTUAL_ID.
Proof. intros Hvp. by apply import_virtual_images. Qed.

(** C22. The URLs of the list are right as they are for this site:
    [base] is unset, so VitePress's [withBase] leaves each of them
    unchanged. Had the commented-out [base: '/beauty/'] (line 41) been
    set, each would need the prefix [/beauty], which nothing in the
    repository applies. *)
Theorem site_urls_need_no_base env urls :
  fs_wf (env_fs env) -> dir_names_all no_slash (env_fs env) ->
  (load env RESOLVED_VIRTUAL_ID ≫= decode_module) = Some urls ->
  map (withBase (resolved_base (site_config env))) urls = urls /\
  map (withBase (js "/beauty/")) urls = map (app (js "/beauty")) urls.
Proof.
  intros Hwf Hns Hl. rewrite load_decodes in Hl by done. injection Hl as <-.
  rewrite !map_map. split; apply map_ext_in;
    intros f Hf%(list_files_names_all no_slash _ _ _ Hns); apply no_slash_spec in Hf;
    rewrite withBase_image_url by done; unfold joinPath, image_url, images_prefix; cbn;
    by rewrite collapse_noslash.
Qed.
End SiteTheorems.

(** ** Witnesses *)

Lemma site_serves_virtual_images_witness :
  Forall (fun p => VirtualRespecting p) [silent_plugin] /\
  import_source (site_plugins [silent_plugin] (site_config (demo_env demo_entries))) (fun _ => None)
    VIRTUAL_ID = load (demo_env demo_entries) RESOLVED_VIRTUAL_ID.
Proof.
  assert (Hvp : Forall (fun p => VirtualRespecting p) [silent_plugin])
    by (constructor; [split; reflexivity | constructor]).
  split; [exact Hvp | apply (site_serves_virtual_images _ _ _ Hvp)].
Defined.

Lemma site_urls_need_no_base_witness :
  fs_wf (env_fs (demo_env demo_entries)) /\ dir_names_all no_slash (env_fs (demo_env demo_entries)) /\
  (load (demo_env demo_entries) RESOLVED_VIRTUAL_ID ≫= decode_module) =
    Some [js "/images/a.jpg"; js "/images/A.svg"; js "/images/b.PNG"] /\
  (map (withBase (resolved_base (site_config (demo_env demo_entries))))
       [js "/images/a.jpg"; js "/images/A.svg"; js "/images/b.PNG"] =
     [js "/images/a.jpg"; js "/images/A.svg"; js "/images/b.PNG"] /\
   map (withBase (js "/beauty/")) [js "/images/a.jpg"; js "/images/A.svg"; js "/images/b.PNG"] =
     map (app (js "/beauty")) [js "/images/a.jpg"; js "/images/A.svg"; js "/images/b.PNG"]).
Proof.
  assert (Hwf : fs_wf (env_fs (demo_env demo_entries))) by (apply fs_wfb_sound; vm_compute; reflexivity).
  assert (Hns : dir_names_all no_slash (env_fs (demo_env demo_entries)))
    by (apply dir_names_allb_sound; vm_compute; reflexivity).
  assert (Hl : (load (demo_env demo_entries) RESOLVED_VIRTUAL_ID ≫= decode_module) =
               Some [js "/images/a.jpg"; js "/images/A.svg"; js "/images/b.PNG"])
    by (vm_compute; reflexivity).
  refine (conj Hwf (conj Hns (conj Hl _))). apply (site_urls_need_no_base _ _ Hwf Hns Hl).
Defined.
