(* ===== verification/DevServer.v ===== *)
(** * The Vite dev server's module cache

    In [vitepress dev] the site is served by Vite's dev server, which
    lives as long as the process. A module is transformed once: the
    first request resolves the identifier with the plugins' [resolveId]
    hooks, loads it with their [load] hooks (or reads the file), and
    stores the result in the module graph; later requests are answered
    from there. A file system event (a file created, changed or removed)
    invalidates the modules whose file is the one that changed; a plugin
    that wants its virtual module invalidated must declare the files it
    depends on ([addWatchFile]) or handle the event ([handleHotUpdate]).
    The images plugin does neither (config.mts lines 10-34 return only
    [name], [resolveId] and [load]).

    [server] is that state: the build environment and the cache from
    resolved identifiers to source text; [transform_request] and
    [on_create] / [on_remove] are the transitions, [dev_step] runs one
    event and [reaches] is reachability. This is Vite's behaviour as its
    documentation describes it, modelled at the level the plugin depends
    on. *)

From stdpp Require Import gmap.
From S2P Require Import Prelude JsString ArraySort Collation Fs ImagesPlugin ViteHost SiteConfig.

Inductive event :=
| Request (id : jsstr)                        (* a page imports [id] *)
| Create (dir : path) (n : jsstr) (i : inode)  (* the watcher's add / change *)
| Remove (dir : path) (n : jsstr).            (* the watcher's unlink *)

Record server := { sv_env : build_env; sv_cache : gmap jsstr jsstr }.

Definition with_fs (env : build_env) (m : fs) : build_env :=
  {| env_fs := m; env_cwd := env_cwd env; env_dirname := env_dirname env |}.

(** A server just started: nothing transformed yet. *)
Definition fresh (env : build_env) : server := {| sv_env := env; sv_cache := ∅ |}.

Section Server.
(** The plugins of the server (they may depend on the environment, as
    the images plugin does) and the fallback that reads a file. *)
Context (plugins : build_env -> list vite_plugin) (read_file : build_env -> jsstr -> option jsstr).

(** transformRequest: answer from the module graph when the resolved
    identifier is there, otherwise resolve and load, and remember the
    result. *)
Definition transform_request (s : server) (id : jsstr) : option jsstr * server :=
  let ps := plugins (sv_env s) in
  let rid := default id (resolve_hooks ps id) in
  match sv_cache s !! rid with
  | Some src => (Some src, s)
  | None =>
      match import_source ps (read_file (sv_env s)) id with
      | Some src => (Some src, {| sv_env := sv_env s; sv_cache := <[rid := src]> (sv_cache s) |})
      | None => (None, s)
      end
  end.

(** A watcher event on [dir/n]: the file system changes, and the module
    whose identifier is that file's absolute path is invalidated. *)
Definition on_create (s : server) (dir : path) (n : jsstr) (i : inode) : server :=
  {| sv_env := with_fs (sv_env s) (fs_create (env_fs (sv_env s)) dir n i);
     sv_cache := delete (abs_path (dir ++ [n])) (sv_cache s) |}.

Definition on_remove (s : server) (dir : path) (n : jsstr) : server :=
  {| sv_env := with_fs (sv_env s) (fs_remove (env_fs (sv_env s)) dir n);
     sv_cache := delete (abs_path (dir ++ [n])) (sv_cache s) |}.

Definition dev_step (s : server) (e : event) : option jsstr * server :=
  match e with
  | Request id => transform_request s id
  | Create dir n i => (None, on_create s dir n i)
  | Remove dir n => (None, on_remove s dir n)
  end.

(** The answers to a sequence of events, and the final state. *)
Fixpoint dev_run (s : server) (es : list event) : list (option jsstr) * server :=
  match es with
  | [] => ([], s)
  | e :: es' =>
      let '(r, s1) := dev_step s e in
      let '(rs, s2) := dev_run s1 es' in (r :: rs, s2)
  end.

(** The states a server passes through. *)
Inductive reaches : server -> server -> Prop :=
| reaches_refl s : reaches s s
| reaches_step s e s' : reaches (snd (dev_step s e)) s' -> reaches s s'.
End Server.

(** The site's dev server: VitePress's plugins, then the configuration's. *)
Definition site_server_plugins `{UnicodeUpper} `{LocaleCompare} (vps : list vite_plugin)
    (env : build_env) : list vite_plugin :=
  site_plugins vps (site_config env).

(** No file to fall back to. *)
Definition no_file (_ : build_env) (_ : jsstr) : option jsstr := None.

(** A new image [c.png] created in the images directory. *)
Definition add_c_png : event := Create images_dir (js "c.png") IFile.

(** ** Lemmas *)

Lemma abs_path_not_virtual q : abs_path q <> RESOLVED_VIRTUAL_ID.
Proof. destruct q; cbn; unfold RESOLVED_VIRTUAL_ID; congruence. Qed.

Section Invariant.
Context (plugins : build_env -> list vite_plugin) (read_file : build_env -> jsstr -> option jsstr).

(** Once the resolved virtual module is in the cache, no step removes
    or replaces it: a request only fills missing entries, and a watcher
    event only drops the module of a file path. *)
Lemma dev_step_keeps_virtual s e src :
  sv_cache s !! RESOLVED_VIRTUAL_ID = Some src ->
  sv_cache (snd (dev_step plugins read_file s e)) !! RESOLVED_VIRTUAL_ID = Some src.
Proof.
  intros Hs. destruct e as [id|dir n i|dir n]; cbn [dev_step snd].
  - unfold transform_request. cbv beta zeta.
    destruct (sv_cache s !! default id (resolve_hooks (plugins (sv_env s)) id)) eqn:E; cbn [snd]; [done|].
    destruct (import_source _ _ _); cbn [snd sv_cache]; [|done].
    rewrite lookup_insert_ne; [done|]. intros Heq. rewrite Heq in E. congruence.
  - cbn [on_create sv_cache]. rewrite lookup_delete_ne; [done | apply abs_path_not_virtual].
  - cbn [on_remove sv_cache]. rewrite lookup_delete_ne; [done | apply abs_path_not_virtual].
Qed.

Lemma reaches_keeps_virtual s s' src :
  reaches plugins read_file s s' ->
  sv_cache s !! RESOLVED_VIRTUAL_ID = Some src -> sv_cache s' !! RESOLVED_VIRTUAL_ID = Some src.
Proof. induction 1; auto using dev_step_keeps_virtual. Qed.

Lemma dev_run_cons s e es :
  fst (dev_run plugins read_file s (e :: es)) =
  fst (dev_step plugins read_file s e) :: fst (dev_run plugins read_file (snd (dev_step plugins read_file s e)) es).
Proof.
  cbn [dev_run]. destruct (dev_step plugins read_file s e) as [r s1]. cbn [fst snd].
  by destruct (dev_run plugins read_file s1 es).
Qed.
End Invariant.

Section Site.
Context `{UnicodeUpper} `{LocaleCompare}.

Lemma site_resolves_virtual vps env :
  Forall (fun p => VirtualRespecting p) vps ->
  resolve_hooks (site_server_plugins vps env) VIRTUAL_ID = Some RESOLVED_VIRTUAL_ID.
Proof.
  intros Hvp. destruct (hooks_respecting_None vps Hvp) as [Hr _].
  unfold site_server_plugins, site_plugins. rewrite resolve_hooks_app, Hr. reflexivity.
Qed.

Lemma site_request_cached vps read_file s src :
  Forall (fun p => VirtualRespecting p) vps -> sv_cache s !! RESOLVED_VIRTUAL_ID = Some src ->
  transform_request (site_server_plugins vps) read_file s VIRTUAL_ID = (Some src, s).
Proof.
  intros Hvp Hs. unfold transform_request. cbv beta zeta. rewrite site_resolves_virtual by done. cbn [from_option id].
  by rewrite Hs.
Qed.

(** A request that misses the cache runs the images plugin on the
    current file system and caches its module. *)
Lemma site_request_miss vps read_file s :
  Forall (fun p => VirtualRespecting p) vps -> sv_cache s !! RESOLVED_VIRTUAL_ID = None ->
  fst (transform_request (site_server_plugins vps) read_file s VIRTUAL_ID) = load (sv_env s) RESOLVED_VIRTUAL_ID /\
  sv_cache (snd (transform_request (site_server_plugins vps) read_file s VIRTUAL_ID)) !! RESOLVED_VIRTUAL_ID =
    load (sv_env s) RESOLVED_VIRTUAL_ID.
Proof.
  intros Hvp Hs. unfold transform_request. cbv beta zeta. rewrite site_resolves_virtual by done. cbn [from_option id].
  rewrite Hs. unfold site_server_plugins, site_plugins. cbn [cfg_vite_plugins site_config defineConfig].
  rewrite (import_virtual_images _ vps []) by done. rewrite load_resolved. cbn.
  split; [done | apply lookup_insert_eq].
Qed.

(** Whatever the state, a request for ["virtual:images"] is answered by
    the cache or by the plugin: it never falls through to the file
    system. *)
Lemma site_request_answers vps read_file s :
  Forall (fun p => VirtualRespecting p) vps ->
  is_Some (fst (transform_request (site_server_plugins vps) read_file s VIRTUAL_ID)).
Proof.
  intros Hvp. destruct (sv_cache s !! RESOLVED_VIRTUAL_ID) as [src|] eqn:E.
  - rewrite (site_request_cached vps read_file s src Hvp E). by eexists.
  - destruct (site_request_miss vps read_file s Hvp E) as [-> _]. rewrite load_resolved. by eexists.
Qed.
End Site.

(** ** Theorems *)

Section SiteTheorems.
Context `{UnicodeUpper} `{LocaleCompare}.

(** C26. In every run of the dev server, whatever the interleaving of
    requests and file events, every request for ["virtual:images"] is
    answered with a module. *)
Theorem dev_server_answers vps read_file s es i :
  Forall (fun p => VirtualRespecting p) vps -> es !! i = Some (Request VIRTUAL_ID) ->
  exists src, fst (dev_run (site_server_plugins vps) read_file s es) !! i = Some (Some src).
Proof.
  intros Hvp. revert s i. induction es as [|e es IH]; intros s i Hi; [done|].
  rewrite dev_run_cons. destruct i as [|i].
  - assert (e = Request VIRTUAL_ID) as -> by (by injection Hi). cbn [dev_step].
    destruct (site_request_answers vps read_file s Hvp) as [src Hsrc]. rewrite Hsrc. by exists src.
  - by apply IH.
Qed.
End SiteTheorems.

(** ** Witnesses *)

Lemma dev_server_answers_witness :
  Forall (fun p => VirtualRespecting p) [silent_plugin] /\
  [Request VIRTUAL_ID; add_c_png; Request VIRTUAL_ID] !! 2 = Some (Request VIRTUAL_ID) /\
  exists src, fst (dev_run (site_server_plugins [silent_plugin]) no_file (fresh (demo_env two_entries))
                     [Request VIRTUAL_ID; add_c_png; Request VIRTUAL_ID]) !! 2 = Some (Some src).
Proof.
  assert (Hvp : Forall (fun p => VirtualRespecting p) [silent_plugin])
    by (constructor; [split; reflexivity | constructor]).
  assert (Hi : [Request VIRTUAL_ID; add_c_png; Request VIRTUAL_ID] !! 2 = Some (Request VIRTUAL_ID))
    by reflexivity.
  refine (conj Hvp (conj Hi _)). apply (dev_server_answers _ _ _ _ _ Hvp Hi).
Defined.
