(* ===== verification/Theme.v ===== *)
(** * The theme (theme/index.ts)

    The theme extends VitePress's default theme, registers the Swiper
    carousel's two components with the Vue application in [enhanceApp],
    and renders the default layout with no slot filled ([Layout]). It
    also carries a [markdown.image.lazyLoading] key, kept here as data
    ([th_markdown]); what VitePress does with it is not modelled.

    VitePress resolves a theme that [extends] another by spreading the
    base theme under it and running the base's [enhanceApp] before its
    own ([resolve_theme]). Vue's [app.component(name, c)] records [c] under
    [name] in the application's component registry. *)

From stdpp Require Import gmap.
From S2P Require Import Prelude JsString Collation ImagesPlugin SiteConfig.

Inductive component := VPBadge | DefaultLayout | Swiper | SwiperSlide | HomeSponsors.

(** A rendered node: [h(tag, props, slots)], with the slot names. *)
Record vnode := { vn_tag : component; vn_props : option unit; vn_slots : list jsstr }.

Record app := { app_components : gmap jsstr component }.

(** [app.component(name, c)] *)
Definition app_component (name : jsstr) (c : component) (a : app) : app :=
  {| app_components := <[name := c]> (app_components a) |}.

#[warnings="-register-all"]
Inductive theme := Theme {
  th_Layout : option vnode;
  th_enhanceApp : option (app -> app);
  th_extends : option theme;
  th_markdown : option markdown_options
}.

(** VitePress's default theme: its layout, and [enhanceApp] registering
    its [Badge] component. *)
Definition default_theme : theme :=
  Theme (Some {| vn_tag := DefaultLayout; vn_props := None; vn_slots := [] |})
        (Some (app_component (js "Badge") VPBadge)) None None.

(** [enhanceApp({ app })]: lines 24-28 *)
Definition enhanceApp (a : app) : app :=
  app_component (js "SwiperSlide") SwiperSlide (app_component (js "Swiper") Swiper a).

(** [Layout()]: [h(DefaultTheme.Layout, null, { })], the
    ['home-features-after'] slot being commented out. *)
Definition Layout : vnode := {| vn_tag := DefaultLayout; vn_props := None; vn_slots := [] |}.

(** [export default { extends: DefaultTheme, markdown: { image: {
    lazyLoading: true } }, enhanceApp, Layout }] *)
Definition custom_theme : theme :=
  Theme (Some Layout) (Some enhanceApp) (Some default_theme)
        (Some {| md_image := Some {| lazyLoading := true |} |}).

Record resolved_theme := { rt_Layout : option vnode; rt_enhanceApp : app -> app }.

(** VitePress's resolveThemeExtends: [{ ...base, ...theme }], with an
    [enhanceApp] that runs the base's and then the theme's. *)
Fixpoint resolve_theme (t : theme) : resolved_theme :=
  match t with
  | Theme lay enh ext _ =>
      let own := default (fun a => a) enh in
      match ext with
      | None => {| rt_Layout := lay; rt_enhanceApp := own |}
      | Some base =>
          let rb := resolve_theme base in
          {| rt_Layout := lay ||> rt_Layout rb; rt_enhanceApp := fun a => own (rt_enhanceApp rb a) |}
      end
  end.

(** ** Theorems *)

(** C13. Once VitePress has resolved the theme and run its [enhanceApp],
    the application knows [Swiper] and [SwiperSlide] as the carousel's
    components and [Badge] as the default theme's, and every other name
    as before. *)
Theorem theme_registers_components (a : app) (name : jsstr) :
  app_components (rt_enhanceApp (resolve_theme custom_theme) a) !! name =
  if decide (js "SwiperSlide" = name) then Some SwiperSlide
  else if decide (js "Swiper" = name) then Some Swiper
  else if decide (js "Badge" = name) then Some VPBadge
  else app_components a !! name.
Proof. cbn. by rewrite !lookup_insert. Qed.

