(* ===== verification/EsModules.v ===== *)
(** * The two files as ES modules: imports and stylesheets

    config.mts (lines 1-3) and theme/index.ts (lines 2-14) start with
    import declarations. [config_imports] and [theme_imports] are those
    declarations; [bound_names] are the local names they bind (which of
    them the modules' bodies use is not modelled). Side-effect imports of the theme are
    stylesheets: Vite injects them in the order the module evaluates its
    imports, so the document holds them in import order
    ([theme_document]), and the CSS cascade ([cascade]) lets, among the
    declarations of a property that apply to an element, the one of
    highest specificity win, and among those the last in the document.
    Importance ([!important]), layers and origins other than the author's
    are not modelled. *)

From S2P Require Import Prelude.

Inductive import_decl :=
| ImportDefault (local spec : jsstr)          (* import local from 'spec' *)
| ImportNamed (locals : list jsstr) (spec : jsstr)  (* import { a, b } from 'spec' *)
| ImportSideEffect (spec : jsstr).            (* import 'spec' *)

(** config.mts lines 1-3 *)
Definition config_imports : list import_decl :=
  [ImportNamed [js "defineConfig"] (js "vitepress");
   ImportDefault (js "fs") (js "fs");
   ImportDefault (js "path") (js "path")].

(** theme/index.ts lines 2-14 *)
Definition theme_imports : list import_decl :=
  [ImportDefault (js "DefaultTheme") (js "vitepress/theme");
   ImportSideEffect (js "./custom.css");
   ImportDefault (js "HomeSponsors") (js "./components/HomeSponsors.vue");
   ImportNamed [js "h"] (js "vue");
   ImportNamed [js "Swiper"; js "SwiperSlide"] (js "swiper/vue");
   ImportNamed [js "Navigation"; js "Pagination"; js "Autoplay"] (js "swiper/modules");
   ImportSideEffect (js "swiper/css");
   ImportSideEffect (js "swiper/css/navigation");
   ImportSideEffect (js "swiper/css/pagination");
   ImportNamed [js "withBase"] (js "vitepress")].

Definition import_names (d : import_decl) : list jsstr :=
  match d with
  | ImportDefault x _ => [x]
  | ImportNamed xs _ => xs
  | ImportSideEffect _ => []
  end.

Definition bound_names (ds : list import_decl) : list jsstr := concat (map import_names ds).

(** The specifiers of the side-effect imports, in import order. *)
Definition side_effects (ds : list import_decl) : list jsstr :=
  concat (map (fun d => match d with ImportSideEffect s => [s] | _ => [] end) ds).

(** ** The CSS cascade *)

Record decl := { d_sel : jsstr; d_prop : jsstr; d_value : jsstr; d_spec : N }.

Abbreviation stylesheet := (list decl).

(** The document's declarations in order, each with the position of its
    stylesheet among the side-effect imports. *)
Definition theme_document (css : jsstr -> stylesheet) : list (nat * decl) :=
  concat (imap (fun i s => map (pair i) (css s)) (side_effects theme_imports)).

(** One declaration [x] met in document order: it replaces the current
    winner [best] when it applies and its specificity is at least as
    high. *)
Definition cascade_step (m : jsstr -> bool) (p : jsstr) (best : option (nat * decl)) (x : nat * decl) :
    option (nat * decl) :=
  if m (d_sel x.2) && bool_decide (d_prop x.2 = p) then
    match best with
    | Some (_, b) => if (d_spec b <=? d_spec x.2)%N then Some x else best
    | None => Some x
    end
  else best.

(** The declaration of property [p] that applies to an element matching
    the selectors [m], with the position of its stylesheet. *)
Definition cascade (m : jsstr -> bool) (p : jsstr) (ds : list (nat * decl)) : option (nat * decl) :=
  fold_left (cascade_step m p) ds None.

(** ** Lemmas *)

Lemma theme_document_split css :
  theme_document css =
  map (pair 0) (css (js "./custom.css")) ++ map (pair 1) (css (js "swiper/css")) ++
  map (pair 2) (css (js "swiper/css/navigation")) ++ map (pair 3) (css (js "swiper/css/pagination")) ++ [].
Proof. reflexivity. Qed.

Lemma Forall_pair_index {B} k (l : list B) : 1 <= k -> Forall (fun x => 1 <= x.1) (map (pair k) l).
Proof. intros Hk. apply Forall_forall. intros x (y & <- & _)%list_elem_of_In%in_map_iff. done. Qed.

Section Cascade.
Context (m : jsstr -> bool) (p : jsstr) (d : decl).

(** The winner so far is absent, a declaration of the first stylesheet
    no more specific than [d], or one of a later stylesheet. *)
Definition before_d (best : option (nat * decl)) : Prop :=
  match best with
  | None => True
  | Some (0, c) => (d_spec c <= d_spec d)%N
  | Some (_, _) => True
  end.

Definition first_only (best : option (nat * decl)) : Prop :=
  match best with
  | None => True
  | Some (0, c) => (d_spec c <= d_spec d)%N
  | Some (S _, _) => False
  end.

Definition later_sheet (best : option (nat * decl)) : Prop :=
  match best with Some (i, _) => 1 <= i | None => False end.

Lemma cascade_first_sheet l best :
  (forall c, In c l -> m (d_sel c) = true -> d_prop c = p -> (d_spec c <= d_spec d)%N) ->
  first_only best -> first_only (fold_left (cascade_step m p) (map (pair 0) l) best).
Proof.
  revert best. induction l as [|c l IH]; intros best Hl Hb; [done|]. cbn [map fold_left].
  apply IH; [intros c' Hc'; apply Hl; by right|]. unfold cascade_step. cbn [fst snd].
  destruct (m (d_sel c)) eqn:E1, (bool_decide (d_prop c = p)) eqn:E2; cbn [andb]; try done.
  apply bool_decide_eq_true in E2. pose proof (Hl c (or_introl eq_refl) E1 E2).
  destruct best as [[[|i] w]|]; cbn in Hb |- *; try done; try contradiction.
  by destruct (_ <=? _)%N.
Qed.

Lemma first_only_before best : first_only best -> before_d best.
Proof. by destruct best as [[[|i] w]|]. Qed.

Lemma cascade_later_before l best : Forall (fun x => 1 <= x.1) l ->
  before_d best -> before_d (fold_left (cascade_step m p) l best).
Proof.
  revert best. induction l as [|[k c] l IH]; intros best Hl Hb; [done|].
  apply Forall_cons in Hl as [Hk Hl]. cbn [fold_left]. apply IH; [done|]. cbn in Hk.
  unfold cascade_step. cbn [fst snd]. destruct (_ && _); [|done].
  destruct best as [[i w]|]; [destruct (_ <=? _)%N|]; [| done |]; by destruct k as [|k]; [lia|].
Qed.

Lemma cascade_later_stays l best : Forall (fun x => 1 <= x.1) l ->
  later_sheet best -> later_sheet (fold_left (cascade_step m p) l best).
Proof.
  revert best. induction l as [|[k c] l IH]; intros best Hl Hb; [done|].
  apply Forall_cons in Hl as [Hk Hl]. cbn [fold_left]. apply IH; [done|]. cbn in Hk.
  unfold cascade_step. cbn [fst snd]. destruct (_ && _); [|done].
  destruct best as [[i w]|]; [destruct (_ <=? _)%N|]; done.
Qed.

Lemma cascade_at_d j best : 1 <= j -> m (d_sel d) = true -> d_prop d = p ->
  before_d best -> later_sheet (cascade_step m p best (j, d)).
Proof.
  intros Hj Hm Hp Hb. unfold cascade_step. cbn [fst snd]. rewrite Hm, bool_decide_eq_true_2 by done.
  cbn [andb]. destruct best as [[[|i] w]|]; cbn in Hb |- *; [| | done].
  - by rewrite (proj2 (N.leb_le _ _) Hb).
  - destruct (_ <=? _)%N; cbn; lia.
Qed.
End Cascade.

(** ** Theorems *)

(** C28. The theme imports [./custom.css] before Swiper's stylesheets,
    so the site's own stylesheet cannot override Swiper's rules at equal
    specificity: whenever a Swiper stylesheet has a declaration of a
    property for an element at least as specific as every declaration
    of [custom.css] for it, the cascade's winner comes from a Swiper
    stylesheet, whatever the stylesheets hold. *)
Theorem custom_css_loses_ties css m p j d :
  In (j, d) (theme_document css) -> j <> 0 -> m (d_sel d) = true -> d_prop d = p ->
  (forall c, In c (css (js "./custom.css")) -> m (d_sel c) = true -> d_prop c = p ->
             (d_spec c <= d_spec d)%N) ->
  exists i w, cascade m p (theme_document css) = Some (i, w) /\
              side_effects theme_imports !! i <> Some (js "./custom.css").
Proof.
  intros Hin Hj Hm Hp Hc. rewrite theme_document_split in *. unfold cascade. rewrite fold_left_app.
  set (rest := map (pair 1) _ ++ _).
  assert (Hrest : Forall (fun x => 1 <= x.1) rest)
    by (unfold rest; repeat (apply Forall_app; split); first [apply Forall_pair_index; lia | constructor]).
  assert (Hin' : In (j, d) rest).
  { apply in_app_or in Hin as [(y & [= <- _] & _)%in_map_iff|]; [done | done]. }
  apply in_split in Hin' as (pre & post & Hsplit). rewrite Hsplit in Hrest |- *.
  apply Forall_app in Hrest as [Hpre Hpost]. apply Forall_cons in Hpost as [Hjd Hpost].
  rewrite fold_left_app. cbn [fold_left].
  pose proof (cascade_later_stays m p post _ Hpost
    (cascade_at_d m p d j _ Hjd Hm Hp
      (cascade_later_before m p d pre _ Hpre
        (first_only_before d _ (cascade_first_sheet m p d _ None Hc I))))) as Hw.
  destruct (fold_left _ post _) as [[i w]|]; [|done]. cbn in Hw.
  exists i, w. split; [done|].
  destruct i as [|[|[|[|i]]]]; [lia | | | | done]; vm_compute; congruence.
Qed.

(** ** Witnesses *)

(** A Swiper rule for [.swiper-button-next]'s [color] and a rule of the
    site's stylesheet for it, of the same specificity. *)
Definition demo_css (s : jsstr) : stylesheet :=
  if bool_decide (s = js "./custom.css")
  then [{| d_sel := js ".swiper-button-next"; d_prop := js "color"; d_value := js "red"; d_spec := 10 |}]
  else if bool_decide (s = js "swiper/css/navigation")
  then [{| d_sel := js ".swiper-button-next"; d_prop := js "color"; d_value := js "var(--swiper-navigation-color)"; d_spec := 10 |}]
  else [].

Lemma custom_css_loses_ties_witness :
  In (2, {| d_sel := js ".swiper-button-next"; d_prop := js "color";
            d_value := js "var(--swiper-navigation-color)"; d_spec := 10 |}) (theme_document demo_css) /\
  2 <> 0 /\
  (fun s => bool_decide (s = js ".swiper-button-next")) (js ".swiper-button-next") = true /\
  js "color" = js "color" /\
  (forall c, In c (demo_css (js "./custom.css")) ->
     (fun s => bool_decide (s = js ".swiper-button-next")) (d_sel c) = true -> d_prop c = js "color" ->
     (d_spec c <= 10)%N) /\
  exists i w, cascade (fun s => bool_decide (s = js ".swiper-button-next")) (js "color") (theme_document demo_css)
                = Some (i, w) /\ side_effects theme_imports !! i <> Some (js "./custom.css").
Proof.
  assert (Hin : In (2, {| d_sel := js ".swiper-button-next"; d_prop := js "color";
                          d_value := js "var(--swiper-navigation-color)"; d_spec := 10 |})
                   (theme_document demo_css)) by (vm_compute; tauto).
  assert (Hj : 2 <> 0) by lia.
  assert (Hm : (fun s => bool_decide (s = js ".swiper-button-next")) (js ".swiper-button-next") = true)
    by (vm_compute; reflexivity).
  assert (Hp : js "color" = js "color") by reflexivity.
  assert (Hc : forall c, In c (demo_css (js "./custom.css")) ->
     (fun s => bool_decide (s = js ".swiper-button-next")) (d_sel c) = true -> d_prop c = js "color" ->
     (d_spec c <= 10)%N) by (intros c Hc0 _ _; vm_compute in Hc0; destruct Hc0 as [<-|[]]; cbn; lia).
  refine (conj Hin (conj Hj (conj Hm (conj Hp (conj Hc _))))).
  apply (custom_css_loses_ties demo_css _ _ 2 _ Hin Hj Hm Hp Hc).
Defined.
